(** * The Hungarian (Kuhn-Munkres) assignment solver of hungarian.h

    A shallow embedding of the class template [Hungarian<T>] and a
    verification of its documented behaviour.

    Modelling conventions.
    - The cost type [T] is the template parameter, a floating point type
      with an infinity, which is the fill value.  The development takes
      costs to be exact: integers extended with the fill value [Inf], with
      exact differences and sums.  That is the arithmetic of the code as
      long as every number of a run is an integer that the cost type holds
      exactly; the theorem on square matrices bounds the numbers of a run
      by the costs that were set.  The module [Binary64] is the code once
      more at [T = double], with the differences and sums of the machine,
      which round and overflow; runs in which they do are computed there.
      A statement about costs that is to hold at [T = double] too says
      what it needs: a bound on the costs, or that a cost has not
      overflowed to the fill value.
    - A [size_t] that is stored in [starredZeros] is a 64-bit value modelled
      in [N]: it is either a column or the marker [static_cast<size_t>(-1)].
      Rows and columns that only ever come from loop counters are [nat].
    - [std::vector] is [list]; [v[i]] is [nth i v d] and [v[i] = x] is
      [upd i x v], which leaves [v] alone when [i] is out of range.
    - The cost matrix is the flat row-major buffer of the source, addressed
      through [index].
    - The thread pool is a number of workers; the workers of one parallel
      call are run one after the other, in the order they are spawned.
    - Every [while] loop takes fuel; running out of fuel is [None]. *)

From Stdlib Require Import ZArith NArith List Lia Bool Arith Permutation Floats.
Import ListNotations.

Set Implicit Arguments.

(** ** The cost type *)

Inductive T : Type :=
| Fin (z : Z)
| Inf.

Definition vFill : T := Inf.

(** [a < b] *)
Definition Tltb (a b : T) : bool :=
  match a, b with
  | Fin x, Fin y => (x <? y)%Z
  | Fin _, Inf => true
  | Inf, _ => false
  end.

(** [a == b] *)
Definition Teqb (a b : T) : bool :=
  match a, b with
  | Fin x, Fin y => (x =? y)%Z
  | Inf, Inf => true
  | _, _ => false
  end.

(** [std::min(a, b)]: [b] when [b < a], else [a]. *)
Definition Tmin (a b : T) : T := if Tltb b a then b else a.

(** [a - h] and [a + h] for a finite [h]; every subtraction and addition of
    the source is guarded by a test of [h] against [vFill].  They are exact;
    [Binary64.Tsub] and [Binary64.Tadd] are the ones that round. *)
Definition Tsub (a : T) (h : Z) : T :=
  match a with
  | Fin x => Fin (x - h)
  | Inf => Inf
  end.

Definition Tadd (a : T) (h : Z) : T :=
  match a with
  | Fin x => Fin (x + h)
  | Inf => Inf
  end.

(** [static_cast<size_t>(-1)] *)
Definition NONE : N := 18446744073709551615%N.

(** ** Vectors *)

Fixpoint upd {A : Type} (i : nat) (x : A) (l : list A) : list A :=
  match l with
  | [] => []
  | a :: t =>
      match i with
      | O => x :: t
      | S j => a :: upd j x t
      end
  end.

(** [std::fill(v.begin(), v.end(), x)] *)
Definition fill {A : Type} (x : A) (l : list A) : list A := map (fun _ => x) l.

(** The elements at positions [i], ..., [i + n - 1]. *)
Definition slice {A : Type} (i n : nat) (l : list A) : list A :=
  firstn n (skipn i l).

(** [std::transform] of the range [[i, i + n)] onto itself. *)
Fixpoint transform_at {A : Type} (f : A -> A) (i n : nat) (l : list A) : list A :=
  match l with
  | [] => []
  | x :: t =>
      match i with
      | S j => x :: transform_at f j n t
      | O =>
          match n with
          | O => l
          | S m => f x :: transform_at f 0 m t
          end
      end
  end.

(** [std::transform] of the range starting at [i] with a second input range
    [bs], onto the first. *)
Fixpoint transform2_at {A B : Type} (f : A -> B -> A) (i : nat) (bs : list B)
  (l : list A) : list A :=
  match l with
  | [] => []
  | x :: t =>
      match i with
      | S j => x :: transform2_at f j bs t
      | O =>
          match bs with
          | [] => l
          | b :: bs' => f x b :: transform2_at f 0 bs' t
          end
      end
  end.

Fixpoint map2 {A B C : Type} (f : A -> B -> C) (l : list A) (m : list B) : list C :=
  match l, m with
  | a :: l', b :: m' => f a b :: map2 f l' m'
  | _, _ => []
  end.

(** [*std::min_element(first, last)]: the first smallest element. *)
Definition min_element (l : list T) : T :=
  fold_left (fun m x => if Tltb x m then x else m) (tl l) (hd Inf l).

(** [for (i = 0; i < n; i++)] and [for (i = a; i < b; i++)]. *)
Definition for_range {St : Type} (a b : nat) (body : nat -> St -> St) (s : St) : St :=
  fold_left (fun s i => body i s) (seq a (b - a)) s.

Definition for_each {St A : Type} (l : list A) (body : A -> St -> St) (s : St) : St :=
  fold_left (fun s x => body x s) l s.

Fixpoint first_some {A B : Type} (f : A -> option B) (l : list A) : option B :=
  match l with
  | [] => None
  | x :: t =>
      match f x with
      | Some b => Some b
      | None => first_some f t
      end
  end.

(** ** The solver object *)

Record Hungarian : Type := {
  numCol : nat;
  numRow : nat;
  colCovered : list bool;
  rowCovered : list bool;
  cost : list T;
  index : list nat;
  zeros : list (list nat);
  primedZeros : list nat;
  starredZeros : list N;
  rowSequence : list nat;
  colSequence : list nat;
  colInds : list nat;
  workers : nat;
  workerRows : list nat;
  workerCosts : list T
}.

Definition set_colCovered (s : Hungarian) (v : list bool) : Hungarian :=
  {| numCol := numCol s; numRow := numRow s; colCovered := v;
     rowCovered := rowCovered s; cost := cost s; index := index s;
     zeros := zeros s; primedZeros := primedZeros s;
     starredZeros := starredZeros s; rowSequence := rowSequence s;
     colSequence := colSequence s; colInds := colInds s;
     workers := workers s; workerRows := workerRows s;
     workerCosts := workerCosts s |}.

Definition set_rowCovered (s : Hungarian) (v : list bool) : Hungarian :=
  {| numCol := numCol s; numRow := numRow s; colCovered := colCovered s;
     rowCovered := v; cost := cost s; index := index s;
     zeros := zeros s; primedZeros := primedZeros s;
     starredZeros := starredZeros s; rowSequence := rowSequence s;
     colSequence := colSequence s; colInds := colInds s;
     workers := workers s; workerRows := workerRows s;
     workerCosts := workerCosts s |}.

Definition set_cost (s : Hungarian) (v : list T) : Hungarian :=
  {| numCol := numCol s; numRow := numRow s; colCovered := colCovered s;
     rowCovered := rowCovered s; cost := v; index := index s;
     zeros := zeros s; primedZeros := primedZeros s;
     starredZeros := starredZeros s; rowSequence := rowSequence s;
     colSequence := colSequence s; colInds := colInds s;
     workers := workers s; workerRows := workerRows s;
     workerCosts := workerCosts s |}.

Definition set_zeros (s : Hungarian) (v : list (list nat)) : Hungarian :=
  {| numCol := numCol s; numRow := numRow s; colCovered := colCovered s;
     rowCovered := rowCovered s; cost := cost s; index := index s;
     zeros := v; primedZeros := primedZeros s;
     starredZeros := starredZeros s; rowSequence := rowSequence s;
     colSequence := colSequence s; colInds := colInds s;
     workers := workers s; workerRows := workerRows s;
     workerCosts := workerCosts s |}.

Definition set_primedZeros (s : Hungarian) (v : list nat) : Hungarian :=
  {| numCol := numCol s; numRow := numRow s; colCovered := colCovered s;
     rowCovered := rowCovered s; cost := cost s; index := index s;
     zeros := zeros s; primedZeros := v;
     starredZeros := starredZeros s; rowSequence := rowSequence s;
     colSequence := colSequence s; colInds := colInds s;
     workers := workers s; workerRows := workerRows s;
     workerCosts := workerCosts s |}.

Definition set_starredZeros (s : Hungarian) (v : list N) : Hungarian :=
  {| numCol := numCol s; numRow := numRow s; colCovered := colCovered s;
     rowCovered := rowCovered s; cost := cost s; index := index s;
     zeros := zeros s; primedZeros := primedZeros s;
     starredZeros := v; rowSequence := rowSequence s;
     colSequence := colSequence s; colInds := colInds s;
     workers := workers s; workerRows := workerRows s;
     workerCosts := workerCosts s |}.

Definition set_sequences (s : Hungarian) (rs cs : list nat) : Hungarian :=
  {| numCol := numCol s; numRow := numRow s; colCovered := colCovered s;
     rowCovered := rowCovered s; cost := cost s; index := index s;
     zeros := zeros s; primedZeros := primedZeros s;
     starredZeros := starredZeros s; rowSequence := rs;
     colSequence := cs; colInds := colInds s;
     workers := workers s; workerRows := workerRows s;
     workerCosts := workerCosts s |}.

Definition set_colInds (s : Hungarian) (v : list nat) : Hungarian :=
  {| numCol := numCol s; numRow := numRow s; colCovered := colCovered s;
     rowCovered := rowCovered s; cost := cost s; index := index s;
     zeros := zeros s; primedZeros := primedZeros s;
     starredZeros := starredZeros s; rowSequence := rowSequence s;
     colSequence := colSequence s; colInds := v;
     workers := workers s; workerRows := workerRows s;
     workerCosts := workerCosts s |}.

Definition set_workerRows (s : Hungarian) (v : list nat) : Hungarian :=
  {| numCol := numCol s; numRow := numRow s; colCovered := colCovered s;
     rowCovered := rowCovered s; cost := cost s; index := index s;
     zeros := zeros s; primedZeros := primedZeros s;
     starredZeros := starredZeros s; rowSequence := rowSequence s;
     colSequence := colSequence s; colInds := colInds s;
     workers := workers s; workerRows := v;
     workerCosts := workerCosts s |}.

Definition set_workerCosts (s : Hungarian) (v : list T) : Hungarian :=
  {| numCol := numCol s; numRow := numRow s; colCovered := colCovered s;
     rowCovered := rowCovered s; cost := cost s; index := index s;
     zeros := zeros s; primedZeros := primedZeros s;
     starredZeros := starredZeros s; rowSequence := rowSequence s;
     colSequence := colSequence s; colInds := colInds s;
     workers := workers s; workerRows := workerRows s;
     workerCosts := v |}.

(** [cost[index[row] + col]] *)
Definition cell (s : Hungarian) (row col : nat) : T :=
  nth (nth row (index s) 0 + col) (cost s) Inf.

(** [Hungarian(rows, columns)]; [hw] is [std::thread::hardware_concurrency()]. *)
Definition construct (rows columns hw : nat) : Hungarian :=
  let n := Nat.max rows columns in
  let w := Nat.max hw 1 in
  {| numCol := n; numRow := n;
     colCovered := repeat false n;
     rowCovered := repeat false n;
     cost := repeat vFill (n * n);
     index := map (fun i => i * n) (seq 0 n);
     zeros := repeat [] n;
     primedZeros := repeat 0 n;
     starredZeros := repeat NONE n;
     rowSequence := [];
     colSequence := [];
     colInds := [];
     workers := w;
     workerRows := repeat 0 (w + 1);
     workerCosts := repeat (Fin 0) w |}.

Definition setCost (s : Hungarian) (row col : nat) (c : T) : Hungarian :=
  set_cost s (upd (nth row (index s) 0 + col) c (cost s)).

(** ** [rebalanceWorkers] *)

(** One pass of the row loop; the state is [(workerRows, ind, rowCount)]. *)
Definition rebalanceRow (covered : list bool) (rowsPerWorker : nat) (row : nat)
  (st : list nat * nat * nat) : list nat * nat * nat :=
  let '(wr, ind, rowCount) := st in
  if negb (nth row covered true) then
    if rowsPerWorker =? rowCount then (upd ind row wr, S ind, 0)
    else (wr, ind, S rowCount)
  else st.

Definition rebalanceWorkers (s : Hungarian) : Hungarian :=
  let uncoveredRows := count_occ bool_dec (rowCovered s) false in
  let rowsPerWorker := uncoveredRows / workers s in
  let '(wr, ind, _) :=
    for_range 0 (numRow s) (rebalanceRow (rowCovered s) rowsPerWorker)
      (workerRows s, 1, 0) in
  set_workerRows s
    (for_range ind (length wr) (fun i w => upd i (numRow s) w) wr).

(** ** [fillColInds] *)

Definition fillColInds (s : Hungarian) : Hungarian :=
  set_colInds s
    (for_range 0 (numCol s)
       (fun col inds => if negb (nth col (colCovered s) true) then inds ++ [col] else inds)
       []).

(** ** [findUncoveredZero] *)

Definition findUncoveredZero (s : Hungarian) : option (nat * nat) :=
  first_some
    (fun row =>
       if negb (nth row (rowCovered s) true) then
         match find (fun c => negb (nth c (colCovered s) true)) (nth row (zeros s) []) with
         | Some c => Some (row, c)
         | None => None
         end
       else None)
    (seq 0 (numRow s)).

(** ** [findMinUncoveredCost] *)

(** The test and assignment inside the two loops of the worker. *)
Definition minCostCell (i row col : nat) (s : Hungarian) : Hungarian :=
  if Tltb (cell s row col) (nth i (workerCosts s) Inf)
  then set_workerCosts s (upd i (cell s row col) (workerCosts s))
  else s.

Definition minCostRow (i row : nat) (s : Hungarian) : Hungarian :=
  if negb (nth row (rowCovered s) true)
  then for_each (colInds s) (minCostCell i row) s
  else s.

Definition findMinUncoveredCostWorker (i : nat) (s : Hungarian) : Hungarian :=
  for_range (nth i (workerRows s) 0) (nth (S i) (workerRows s) 0) (minCostRow i) s.

Definition findMinUncoveredCost (s : Hungarian) : T * Hungarian :=
  let s := set_workerCosts s (fill vFill (workerCosts s)) in
  let s := for_range 0 (workers s) findMinUncoveredCostWorker s in
  (min_element (workerCosts s), s).

(** ** [updateCosts] *)

(** [if(0 == (cost[index[row] + col] -= h)) zeros[row].push_back(col)] *)
Definition updateCostsCell (h : Z) (row col : nat) (s : Hungarian) : Hungarian :=
  let k := nth row (index s) 0 + col in
  let v := Tsub (nth k (cost s) Inf) h in
  let s := set_cost s (upd k v (cost s)) in
  if Teqb (Fin 0) v
  then set_zeros s (upd row (nth row (zeros s) [] ++ [col]) (zeros s))
  else s.

Definition updateCostsRow (h : Z) (row : nat) (s : Hungarian) : Hungarian :=
  let s :=
    if nth row (rowCovered s) true then
      set_zeros
        (set_cost s
           (transform_at (fun x => Tadd x h) (nth row (index s) 0) (numCol s) (cost s)))
        (upd row [] (zeros s))
    else s in
  for_each (colInds s) (updateCostsCell h row) s.

Definition updateCostsWorker (h : Z) (i : nat) (s : Hungarian) : Hungarian :=
  for_range (nth i (workerRows s) 0) (nth (S i) (workerRows s) 0) (updateCostsRow h) s.

Definition updateCosts (h : Z) (s : Hungarian) : Hungarian :=
  for_range 0 (workers s) (updateCostsWorker h) s.

(** ** [findStarredZeroInCol] *)

Definition findStarredZeroInCol (s : Hungarian) (col : nat) : option nat :=
  find (fun row => N.eqb (nth row (starredZeros s) NONE) (N.of_nat col))
    (seq 0 (numRow s)).

(** ** [iterate] *)

(** The loop [while(findStarredZeroInCol(r, c))] that extends the
    alternating sequence. *)
Fixpoint extendSequence (fuel : nat) (s : Hungarian) (c : nat) : option Hungarian :=
  match findStarredZeroInCol s c with
  | None => Some s
  | Some r =>
      match fuel with
      | O => None
      | S fuel' =>
          let c' := nth r (primedZeros s) 0 in
          extendSequence fuel'
            (set_sequences s (rowSequence s ++ [r]) (colSequence s ++ [c'])) c'
      end
  end.

(** Cover the column of every starred zero (the loop over the rows that ends
    an augmentation). *)
Definition coverStarredColumn (r : nat) (s : Hungarian) : Hungarian :=
  if negb (N.eqb (nth r (starredZeros s) NONE) NONE)
  then set_colCovered s (upd (N.to_nat (nth r (starredZeros s) NONE)) true (colCovered s))
  else s.

Definition coverStarredColumns (s : Hungarian) : Hungarian :=
  for_range 0 (numRow s) coverStarredColumn s.

(** [starredZeros[rowSequence[i]] = colSequence[i]] *)
Definition starSequence (i : nat) (s : Hungarian) : Hungarian :=
  set_starredZeros s
    (upd (nth i (rowSequence s) 0) (N.of_nat (nth i (colSequence s) 0))
       (starredZeros s)).

(** The statements from [rowSequence.resize(1)] to the [return] inside the
    loop of [iterate]: build the sequence, star it, cover again. *)
Definition augment (fuel : nat) (s : Hungarian) (r c : nat) : option Hungarian :=
  let s := set_sequences s [r] [c] in
  match extendSequence fuel s c with
  | None => None
  | Some s =>
      let s := for_range 0 (length (colSequence s)) starSequence s in
      let s := set_rowCovered s (fill false (rowCovered s)) in
      let s := set_colCovered s (fill false (colCovered s)) in
      Some (coverStarredColumns s)
  end.

(** How one call of [iterate] ends. *)
Inductive outcome : Type :=
| Augmented
| Updated
| Exhausted.

(** The [while(findUncoveredZero(r, c))] loop: [inl] when [iterate] returns
    from inside it, [inr] when the loop ends. *)
Fixpoint searchZeros (inner fuel : nat) (s : Hungarian) : option (Hungarian + Hungarian) :=
  match findUncoveredZero s with
  | None => Some (inr s)
  | Some (r, c) =>
      match fuel with
      | O => None
      | S fuel' =>
          let s := set_primedZeros s (upd r c (primedZeros s)) in
          if N.eqb (nth r (starredZeros s) NONE) NONE then
            match augment inner s r c with
            | None => None
            | Some s' => Some (inl s')
            end
          else
            let s := set_rowCovered s (upd r true (rowCovered s)) in
            let s :=
              set_colCovered s
                (upd (N.to_nat (nth r (starredZeros s) NONE)) false (colCovered s)) in
            searchZeros inner fuel' s
      end
  end.

Definition iterate (fuel : nat) (s : Hungarian) : option (outcome * Hungarian) :=
  match searchZeros fuel fuel s with
  | None => None
  | Some (inl s') => Some (Augmented, s')
  | Some (inr s) =>
      let s := fillColInds s in
      let s := rebalanceWorkers s in
      let (h, s) := findMinUncoveredCost s in
      match h with
      | Inf => Some (Exhausted, set_colCovered s (fill true (colCovered s)))
      | Fin hz => Some (Updated, updateCosts hz s)
      end
  end.

(** ** [compute] *)

(** Subtract the minimum of a row from the row and fold the row into the
    column minima. *)
Definition reduceRow (row : nat) (st : Hungarian * list T) : Hungarian * list T :=
  let (s, colMin) := st in
  let i := nth row (index s) 0 in
  let h := min_element (slice i (numCol s) (cost s)) in
  let s :=
    match h with
    | Fin hz => set_cost s (transform_at (fun x => Tsub x hz) i (numCol s) (cost s))
    | Inf => s
    end in
  (s, map2 Tmin (slice i (numCol s) (cost s)) colMin).

(** [v == vFill ? 0 : v] *)
Definition finiteOrZero (v : T) : Z :=
  match v with
  | Fin z => z
  | Inf => 0%Z
  end.

Definition reduceCol (colMin : list Z) (row : nat) (s : Hungarian) : Hungarian :=
  set_cost s (transform2_at Tsub (nth row (index s) 0) colMin (cost s)).

(** The body of the two nested loops that record the zeros and star them. *)
Definition starCell (row col : nat) (s : Hungarian) : Hungarian :=
  if Teqb (Fin 0) (cell s row col) then
    let s := set_zeros s (upd row (nth row (zeros s) [] ++ [col]) (zeros s)) in
    if negb (nth row (rowCovered s) true) && negb (nth col (colCovered s) true) then
      let s := set_rowCovered s (upd row true (rowCovered s)) in
      let s := set_colCovered s (upd col true (colCovered s)) in
      set_starredZeros s (upd row (N.of_nat col) (starredZeros s))
    else s
  else s.

(** [if(static_cast<size_t>(-1) != c) colCovered[c] = true] *)
Definition coverStarred (c : N) (s : Hungarian) : Hungarian :=
  if negb (N.eqb NONE c)
  then set_colCovered s (upd (N.to_nat c) true (colCovered s))
  else s.

(** Everything of [compute] before its [while] loop. *)
Definition prepare (s : Hungarian) : Hungarian :=
  let colMin := repeat vFill (numCol s) in
  let (s, colMin) := for_range 0 (numRow s) reduceRow (s, colMin) in
  let colMin := map finiteOrZero colMin in
  let s := for_range 0 (numRow s) (reduceCol colMin) s in
  let s :=
    for_range 0 (numRow s)
      (fun row s => for_range 0 (numCol s) (starCell row) s) s in
  let s := set_rowCovered s (fill false (rowCovered s)) in
  let s := set_colCovered s (fill false (colCovered s)) in
  for_each (starredZeros s) coverStarred s.

(** The loop [while(!all_of(colCovered)) iterate();], with the outcomes of
    the calls of [iterate] in order. *)
Fixpoint assign (inner fuel : nat) (s : Hungarian) : option (list outcome * Hungarian) :=
  if forallb (fun b => b) (colCovered s) then Some ([], s)
  else
    match fuel with
    | O => None
    | S fuel' =>
        match iterate inner s with
        | None => None
        | Some (o, s') =>
            match assign inner fuel' s' with
            | None => None
            | Some (os, s'') => Some (o :: os, s'')
            end
        end
    end.

Definition compute_trace (fuel : nat) (s : Hungarian) : option (list outcome * Hungarian) :=
  assign fuel fuel (prepare s).

Definition compute (fuel : nat) (s : Hungarian) : option (list N) :=
  match compute_trace fuel s with
  | None => None
  | Some (_, s') => Some (starredZeros s')
  end.

(** * The solver on double-precision costs

    [Hungarian<double>]: the definitions of the member functions once more,
    statement for statement, with the cost type [T] the binary64 floats of
    the machine and its subtraction, addition and comparisons those of the
    floating point unit.  The functions that do not touch a cost are the
    ones above. *)

Module Binary64.

Definition T : Set := PrimFloat.float.

(** [std::numeric_limits<T>::infinity()] and [static_cast<T>(0)] *)
Definition vFill : T := PrimFloat.infinity.
Definition zero : T := PrimFloat.zero.

(** [a < b], [a == b], [a - b] and [a + b] *)
Definition Tltb (a b : T) : bool := PrimFloat.ltb a b.
Definition Teqb (a b : T) : bool := PrimFloat.eqb a b.
Definition Tsub (a b : T) : T := PrimFloat.sub a b.
Definition Tadd (a b : T) : T := PrimFloat.add a b.

(** [std::min(a, b)]: [b] when [b < a], else [a]. *)
Definition Tmin (a b : T) : T := if Tltb b a then b else a.

(** [static_cast<double>(z)] for an integer [z] below [2^63] in magnitude;
    exact up to [2^53]. *)
Definition ofZ (z : Z) : T :=
  if (z <? 0)%Z then PrimFloat.opp (PrimFloat.of_uint63 (Uint63.of_Z (- z)))
  else PrimFloat.of_uint63 (Uint63.of_Z z).

(** [*std::min_element(first, last)]: the first smallest element. *)
Definition min_element (l : list T) : T :=
  fold_left (fun m x => if Tltb x m then x else m) (tl l) (hd vFill l).

Record Hungarian : Type := {
  numCol : nat;
  numRow : nat;
  colCovered : list bool;
  rowCovered : list bool;
  cost : list T;
  index : list nat;
  zeros : list (list nat);
  primedZeros : list nat;
  starredZeros : list N;
  rowSequence : list nat;
  colSequence : list nat;
  colInds : list nat;
  workers : nat;
  workerRows : list nat;
  workerCosts : list T
}.

Definition set_colCovered (s : Hungarian) (v : list bool) : Hungarian :=
  {| numCol := numCol s; numRow := numRow s; colCovered := v;
     rowCovered := rowCovered s; cost := cost s; index := index s;
     zeros := zeros s; primedZeros := primedZeros s;
     starredZeros := starredZeros s; rowSequence := rowSequence s;
     colSequence := colSequence s; colInds := colInds s;
     workers := workers s; workerRows := workerRows s;
     workerCosts := workerCosts s |}.

Definition set_rowCovered (s : Hungarian) (v : list bool) : Hungarian :=
  {| numCol := numCol s; numRow := numRow s; colCovered := colCovered s;
     rowCovered := v; cost := cost s; index := index s;
     zeros := zeros s; primedZeros := primedZeros s;
     starredZeros := starredZeros s; rowSequence := rowSequence s;
     colSequence := colSequence s; colInds := colInds s;
     workers := workers s; workerRows := workerRows s;
     workerCosts := workerCosts s |}.

Definition set_cost (s : Hungarian) (v : list T) : Hungarian :=
  {| numCol := numCol s; numRow := numRow s; colCovered := colCovered s;
     rowCovered := rowCovered s; cost := v; index := index s;
     zeros := zeros s; primedZeros := primedZeros s;
     starredZeros := starredZeros s; rowSequence := rowSequence s;
     colSequence := colSequence s; colInds := colInds s;
     workers := workers s; workerRows := workerRows s;
     workerCosts := workerCosts s |}.

Definition set_zeros (s : Hungarian) (v : list (list nat)) : Hungarian :=
  {| numCol := numCol s; numRow := numRow s; colCovered := colCovered s;
     rowCovered := rowCovered s; cost := cost s; index := index s;
     zeros := v; primedZeros := primedZeros s;
     starredZeros := starredZeros s; rowSequence := rowSequence s;
     colSequence := colSequence s; colInds := colInds s;
     workers := workers s; workerRows := workerRows s;
     workerCosts := workerCosts s |}.

Definition set_primedZeros (s : Hungarian) (v : list nat) : Hungarian :=
  {| numCol := numCol s; numRow := numRow s; colCovered := colCovered s;
     rowCovered := rowCovered s; cost := cost s; index := index s;
     zeros := zeros s; primedZeros := v;
     starredZeros := starredZeros s; rowSequence := rowSequence s;
     colSequence := colSequence s; colInds := colInds s;
     workers := workers s; workerRows := workerRows s;
     workerCosts := workerCosts s |}.

Definition set_starredZeros (s : Hungarian) (v : list N) : Hungarian :=
  {| numCol := numCol s; numRow := numRow s; colCovered := colCovered s;
     rowCovered := rowCovered s; cost := cost s; index := index s;
     zeros := zeros s; primedZeros := primedZeros s;
     starredZeros := v; rowSequence := rowSequence s;
     colSequence := colSequence s; colInds := colInds s;
     workers := workers s; workerRows := workerRows s;
     workerCosts := workerCosts s |}.

Definition set_sequences (s : Hungarian) (rs cs : list nat) : Hungarian :=
  {| numCol := numCol s; numRow := numRow s; colCovered := colCovered s;
     rowCovered := rowCovered s; cost := cost s; index := index s;
     zeros := zeros s; primedZeros := primedZeros s;
     starredZeros := starredZeros s; rowSequence := rs;
     colSequence := cs; colInds := colInds s;
     workers := workers s; workerRows := workerRows s;
     workerCosts := workerCosts s |}.

Definition set_colInds (s : Hungarian) (v : list nat) : Hungarian :=
  {| numCol := numCol s; numRow := numRow s; colCovered := colCovered s;
     rowCovered := rowCovered s; cost := cost s; index := index s;
     zeros := zeros s; primedZeros := primedZeros s;
     starredZeros := starredZeros s; rowSequence := rowSequence s;
     colSequence := colSequence s; colInds := v;
     workers := workers s; workerRows := workerRows s;
     workerCosts := workerCosts s |}.

Definition set_workerRows (s : Hungarian) (v : list nat) : Hungarian :=
  {| numCol := numCol s; numRow := numRow s; colCovered := colCovered s;
     rowCovered := rowCovered s; cost := cost s; index := index s;
     zeros := zeros s; primedZeros := primedZeros s;
     starredZeros := starredZeros s; rowSequence := rowSequence s;
     colSequence := colSequence s; colInds := colInds s;
     workers := workers s; workerRows := v;
     workerCosts := workerCosts s |}.

Definition set_workerCosts (s : Hungarian) (v : list T) : Hungarian :=
  {| numCol := numCol s; numRow := numRow s; colCovered := colCovered s;
     rowCovered := rowCovered s; cost := cost s; index := index s;
     zeros := zeros s; primedZeros := primedZeros s;
     starredZeros := starredZeros s; rowSequence := rowSequence s;
     colSequence := colSequence s; colInds := colInds s;
     workers := workers s; workerRows := workerRows s;
     workerCosts := v |}.

(** [cost[index[row] + col]] *)
Definition cell (s : Hungarian) (row col : nat) : T :=
  nth (nth row (index s) 0 + col) (cost s) vFill.

(** [Hungarian(rows, columns)]; [hw] is [std::thread::hardware_concurrency()]. *)
Definition construct (rows columns hw : nat) : Hungarian :=
  let n := Nat.max rows columns in
  let w := Nat.max hw 1 in
  {| numCol := n; numRow := n;
     colCovered := repeat false n;
     rowCovered := repeat false n;
     cost := repeat vFill (n * n);
     index := map (fun i => i * n) (seq 0 n);
     zeros := repeat [] n;
     primedZeros := repeat 0 n;
     starredZeros := repeat NONE n;
     rowSequence := [];
     colSequence := [];
     colInds := [];
     workers := w;
     workerRows := repeat 0 (w + 1);
     workerCosts := repeat zero w |}.

Definition setCost (s : Hungarian) (row col : nat) (c : T) : Hungarian :=
  set_cost s (upd (nth row (index s) 0 + col) c (cost s)).

(** The nested loops of the driver that set every cost of the matrix. *)
Definition setMatrix (rows cols : nat) (f : nat -> nat -> T) (s : Hungarian) : Hungarian :=
  for_range 0 rows
    (fun i s => for_range 0 cols (fun j s => setCost s i j (f i j)) s) s.

Definition rebalanceWorkers (s : Hungarian) : Hungarian :=
  let uncoveredRows := count_occ bool_dec (rowCovered s) false in
  let rowsPerWorker := uncoveredRows / workers s in
  let '(wr, ind, _) :=
    for_range 0 (numRow s) (rebalanceRow (rowCovered s) rowsPerWorker)
      (workerRows s, 1, 0) in
  set_workerRows s
    (for_range ind (length wr) (fun i w => upd i (numRow s) w) wr).

Definition fillColInds (s : Hungarian) : Hungarian :=
  set_colInds s
    (for_range 0 (numCol s)
       (fun col inds => if negb (nth col (colCovered s) true) then inds ++ [col] else inds)
       []).

Definition findUncoveredZero (s : Hungarian) : option (nat * nat) :=
  first_some
    (fun row =>
       if negb (nth row (rowCovered s) true) then
         match find (fun c => negb (nth c (colCovered s) true)) (nth row (zeros s) []) with
         | Some c => Some (row, c)
         | None => None
         end
       else None)
    (seq 0 (numRow s)).

Definition minCostCell (i row col : nat) (s : Hungarian) : Hungarian :=
  if Tltb (cell s row col) (nth i (workerCosts s) vFill)
  then set_workerCosts s (upd i (cell s row col) (workerCosts s))
  else s.

Definition minCostRow (i row : nat) (s : Hungarian) : Hungarian :=
  if negb (nth row (rowCovered s) true)
  then for_each (colInds s) (minCostCell i row) s
  else s.

Definition findMinUncoveredCostWorker (i : nat) (s : Hungarian) : Hungarian :=
  for_range (nth i (workerRows s) 0) (nth (S i) (workerRows s) 0) (minCostRow i) s.

Definition findMinUncoveredCost (s : Hungarian) : T * Hungarian :=
  let s := set_workerCosts s (fill vFill (workerCosts s)) in
  let s := for_range 0 (workers s) findMinUncoveredCostWorker s in
  (min_element (workerCosts s), s).

(** [if(0 == (cost[index[row] + col] -= h)) zeros[row].push_back(col)] *)
Definition updateCostsCell (h : T) (row col : nat) (s : Hungarian) : Hungarian :=
  let k := nth row (index s) 0 + col in
  let v := Tsub (nth k (cost s) vFill) h in
  let s := set_cost s (upd k v (cost s)) in
  if Teqb zero v
  then set_zeros s (upd row (nth row (zeros s) [] ++ [col]) (zeros s))
  else s.

Definition updateCostsRow (h : T) (row : nat) (s : Hungarian) : Hungarian :=
  let s :=
    if nth row (rowCovered s) true then
      set_zeros
        (set_cost s
           (transform_at (fun x => Tadd x h) (nth row (index s) 0) (numCol s) (cost s)))
        (upd row [] (zeros s))
    else s in
  for_each (colInds s) (updateCostsCell h row) s.

Definition updateCostsWorker (h : T) (i : nat) (s : Hungarian) : Hungarian :=
  for_range (nth i (workerRows s) 0) (nth (S i) (workerRows s) 0) (updateCostsRow h) s.

Definition updateCosts (h : T) (s : Hungarian) : Hungarian :=
  for_range 0 (workers s) (updateCostsWorker h) s.

Definition findStarredZeroInCol (s : Hungarian) (col : nat) : option nat :=
  find (fun row => N.eqb (nth row (starredZeros s) NONE) (N.of_nat col))
    (seq 0 (numRow s)).

Fixpoint extendSequence (fuel : nat) (s : Hungarian) (c : nat) : option Hungarian :=
  match findStarredZeroInCol s c with
  | None => Some s
  | Some r =>
      match fuel with
      | O => None
      | S fuel' =>
          let c' := nth r (primedZeros s) 0 in
          extendSequence fuel'
            (set_sequences s (rowSequence s ++ [r]) (colSequence s ++ [c'])) c'
      end
  end.

Definition coverStarredColumn (r : nat) (s : Hungarian) : Hungarian :=
  if negb (N.eqb (nth r (starredZeros s) NONE) NONE)
  then set_colCovered s (upd (N.to_nat (nth r (starredZeros s) NONE)) true (colCovered s))
  else s.

Definition coverStarredColumns (s : Hungarian) : Hungarian :=
  for_range 0 (numRow s) coverStarredColumn s.

Definition starSequence (i : nat) (s : Hungarian) : Hungarian :=
  set_starredZeros s
    (upd (nth i (rowSequence s) 0) (N.of_nat (nth i (colSequence s) 0))
       (starredZeros s)).

Definition augment (fuel : nat) (s : Hungarian) (r c : nat) : option Hungarian :=
  let s := set_sequences s [r] [c] in
  match extendSequence fuel s c with
  | None => None
  | Some s =>
      let s := for_range 0 (length (colSequence s)) starSequence s in
      let s := set_rowCovered s (fill false (rowCovered s)) in
      let s := set_colCovered s (fill false (colCovered s)) in
      Some (coverStarredColumns s)
  end.

Fixpoint searchZeros (inner fuel : nat) (s : Hungarian) : option (Hungarian + Hungarian) :=
  match findUncoveredZero s with
  | None => Some (inr s)
  | Some (r, c) =>
      match fuel with
      | O => None
      | S fuel' =>
          let s := set_primedZeros s (upd r c (primedZeros s)) in
          if N.eqb (nth r (starredZeros s) NONE) NONE then
            match augment inner s r c with
            | None => None
            | Some s' => Some (inl s')
            end
          else
            let s := set_rowCovered s (upd r true (rowCovered s)) in
            let s :=
              set_colCovered s
                (upd (N.to_nat (nth r (starredZeros s) NONE)) false (colCovered s)) in
            searchZeros inner fuel' s
      end
  end.

(** [if(h == vFill) { fill(colCovered, true); return; } updateCosts(h);] *)
Definition iterate (fuel : nat) (s : Hungarian) : option (outcome * Hungarian) :=
  match searchZeros fuel fuel s with
  | None => None
  | Some (inl s') => Some (Augmented, s')
  | Some (inr s) =>
      let s := fillColInds s in
      let s := rebalanceWorkers s in
      let (h, s) := findMinUncoveredCost s in
      if Teqb h vFill
      then Some (Exhausted, set_colCovered s (fill true (colCovered s)))
      else Some (Updated, updateCosts h s)
  end.

(** [if(h != vFill)] subtract [h] from the row; then fold the row into the
    column minima. *)
Definition reduceRow (row : nat) (st : Hungarian * list T) : Hungarian * list T :=
  let (s, colMin) := st in
  let i := nth row (index s) 0 in
  let h := min_element (slice i (numCol s) (cost s)) in
  let s :=
    if negb (Teqb h vFill)
    then set_cost s (transform_at (fun x => Tsub x h) i (numCol s) (cost s))
    else s in
  (s, map2 Tmin (slice i (numCol s) (cost s)) colMin).

(** [v == vFill ? 0 : v] *)
Definition finiteOrZero (v : T) : T := if Teqb v vFill then zero else v.

Definition reduceCol (colMin : list T) (row : nat) (s : Hungarian) : Hungarian :=
  set_cost s (transform2_at Tsub (nth row (index s) 0) colMin (cost s)).

Definition starCell (row col : nat) (s : Hungarian) : Hungarian :=
  if Teqb zero (cell s row col) then
    let s := set_zeros s (upd row (nth row (zeros s) [] ++ [col]) (zeros s)) in
    if negb (nth row (rowCovered s) true) && negb (nth col (colCovered s) true) then
      let s := set_rowCovered s (upd row true (rowCovered s)) in
      let s := set_colCovered s (upd col true (colCovered s)) in
      set_starredZeros s (upd row (N.of_nat col) (starredZeros s))
    else s
  else s.

Definition coverStarred (c : N) (s : Hungarian) : Hungarian :=
  if negb (N.eqb NONE c)
  then set_colCovered s (upd (N.to_nat c) true (colCovered s))
  else s.

Definition prepare (s : Hungarian) : Hungarian :=
  let colMin := repeat vFill (numCol s) in
  let (s, colMin) := for_range 0 (numRow s) reduceRow (s, colMin) in
  let colMin := map finiteOrZero colMin in
  let s := for_range 0 (numRow s) (reduceCol colMin) s in
  let s :=
    for_range 0 (numRow s)
      (fun row s => for_range 0 (numCol s) (starCell row) s) s in
  let s := set_rowCovered s (fill false (rowCovered s)) in
  let s := set_colCovered s (fill false (colCovered s)) in
  for_each (starredZeros s) coverStarred s.

Fixpoint assign (inner fuel : nat) (s : Hungarian) : option (list outcome * Hungarian) :=
  if forallb (fun b => b) (colCovered s) then Some ([], s)
  else
    match fuel with
    | O => None
    | S fuel' =>
        match iterate inner s with
        | None => None
        | Some (o, s') =>
            match assign inner fuel' s' with
            | None => None
            | Some (os, s'') => Some (o :: os, s'')
            end
        end
    end.

Definition compute_trace (fuel : nat) (s : Hungarian) : option (list outcome * Hungarian) :=
  assign fuel fuel (prepare s).

Definition compute (fuel : nat) (s : Hungarian) : option (list N) :=
  match compute_trace fuel s with
  | None => None
  | Some (_, s') => Some (starredZeros s')
  end.

End Binary64.

(** * Verification *)

(** ** Vectors and loops *)

Lemma length_upd (A : Type) (i : nat) (x : A) (l : list A) :
  length (upd i x l) = length l.
Proof.
  revert i; induction l as [|a l IH]; intros [|i]; simpl; auto.
Qed.

Lemma nth_upd_eq (A : Type) (i : nat) (x d : A) (l : list A) :
  i < length l -> nth i (upd i x l) d = x.
Proof.
  revert i; induction l as [|a l IH]; intros [|i] H; simpl in *; try lia; auto.
  apply IH; lia.
Qed.

Lemma nth_upd_ne (A : Type) (i j : nat) (x d : A) (l : list A) :
  i <> j -> nth j (upd i x l) d = nth j l d.
Proof.
  revert i j; induction l as [|a l IH]; intros [|i] [|j] H; simpl; auto; try lia.
Qed.

Lemma nth_upd (A : Type) (i j : nat) (x d : A) (l : list A) :
  nth j (upd i x l) d =
  if (i =? j) && (i <? length l) then x else nth j l d.
Proof.
  destruct (Nat.eqb_spec i j) as [->|Hne]; simpl.
  - destruct (Nat.ltb_spec j (length l)).
    + now apply nth_upd_eq.
    + rewrite !nth_overflow; auto. now rewrite length_upd.
  - now apply nth_upd_ne.
Qed.

Lemma upd_out (A : Type) (i : nat) (x : A) (l : list A) :
  length l <= i -> upd i x l = l.
Proof.
  revert i; induction l as [|a l IH]; intros [|i] H; simpl in *; auto; try lia.
  f_equal; apply IH; lia.
Qed.

Lemma length_fill (A : Type) (x : A) (l : list A) : length (fill x l) = length l.
Proof. apply length_map. Qed.

Lemma fill_repeat (A : Type) (x : A) (l : list A) : fill x l = repeat x (length l).
Proof. induction l; simpl; f_equal; auto. Qed.

Lemma nth_fill (A : Type) (x d : A) (l : list A) (i : nat) :
  i < length l -> nth i (fill x l) d = x.
Proof.
  intros H. rewrite fill_repeat. now apply nth_repeat_lt.
Qed.

Lemma length_transform_at (A : Type) (f : A -> A) (i n : nat) (l : list A) :
  length (transform_at f i n l) = length l.
Proof.
  revert i n; induction l as [|a l IH]; intros [|i] [|n]; simpl; auto.
Qed.

Ltac cases_nat :=
  repeat match goal with
    | |- context [?a <=? ?b] => destruct (Nat.leb_spec a b)
    | |- context [?a <? ?b] => destruct (Nat.ltb_spec a b)
    | |- context [?a =? ?b] => destruct (Nat.eqb_spec a b)
    end; simpl; try reflexivity; try lia.

Lemma nth_transform_at (A : Type) (f : A -> A) (i n k : nat) (d : A) (l : list A) :
  k < length l ->
  nth k (transform_at f i n l) d =
  if (i <=? k) && (k <? i + n) then f (nth k l d) else nth k l d.
Proof.
  revert i n k; induction l as [|a l IH]; intros i n k H; simpl in H; [lia|].
  destruct i as [|i]; [destruct n as [|n]|]; destruct k as [|k];
    cbn [transform_at nth]; try rewrite IH by lia; cases_nat.
Qed.

Lemma length_transform2_at (A B : Type) (f : A -> B -> A) (i : nat) (bs : list B)
  (l : list A) : length (transform2_at f i bs l) = length l.
Proof.
  revert i bs; induction l as [|a l IH]; intros [|i] [|b bs]; simpl; auto.
Qed.

Lemma nth_transform2_at (A B : Type) (f : A -> B -> A) (i k : nat) (d : A) (e : B)
  (bs : list B) (l : list A) :
  k < length l ->
  nth k (transform2_at f i bs l) d =
  if (i <=? k) && (k <? i + length bs) then f (nth k l d) (nth (k - i) bs e)
  else nth k l d.
Proof.
  revert i bs k; induction l as [|a l IH]; intros i bs k H; simpl in H; [lia|].
  destruct i as [|i]; [destruct bs as [|b bs]|]; destruct k as [|k];
    cbn [transform2_at nth length]; try rewrite IH by lia;
    cbn [Nat.sub]; try rewrite Nat.sub_0_r; cases_nat.
Qed.

Lemma length_slice (A : Type) (i n : nat) (l : list A) :
  i + n <= length l -> length (slice i n l) = n.
Proof.
  intros H. unfold slice. rewrite length_firstn, length_skipn. lia.
Qed.

Lemma nth_slice (A : Type) (i n k : nat) (d : A) (l : list A) :
  k < n -> nth k (slice i n l) d = nth (i + k) l d.
Proof.
  intros H. unfold slice. rewrite nth_firstn.
  destruct (Nat.ltb_spec k n); [|lia]. apply nth_skipn.
Qed.

Lemma length_map2 (A B C : Type) (f : A -> B -> C) (l : list A) (m : list B) :
  length (map2 f l m) = Nat.min (length l) (length m).
Proof.
  revert m; induction l as [|a l IH]; intros [|b m]; simpl; auto.
Qed.

Lemma nth_map2 (A B C : Type) (f : A -> B -> C) (l : list A) (m : list B)
  (k : nat) (a : A) (b : B) (c : C) :
  k < length l -> k < length m ->
  nth k (map2 f l m) c = f (nth k l a) (nth k m b).
Proof.
  revert m k; induction l as [|x l IH]; intros [|y m] [|k] Hl Hm;
    simpl in *; try lia; auto.
  apply IH; lia.
Qed.

Lemma for_range_empty (St : Type) (a b : nat) (body : nat -> St -> St) (s : St) :
  b <= a -> for_range a b body s = s.
Proof.
  intros H. unfold for_range. replace (b - a) with 0 by lia. reflexivity.
Qed.

Lemma for_range_last (St : Type) (a b : nat) (body : nat -> St -> St) (s : St) :
  a <= b -> for_range a (S b) body s = body b (for_range a b body s).
Proof.
  intros H. unfold for_range.
  replace (S b - a) with (S (b - a)) by lia.
  rewrite seq_S, fold_left_app. simpl.
  replace (a + (b - a)) with b by lia. reflexivity.
Qed.

(** The invariant rule of a counting loop. *)
Lemma for_range_inv (St : Type) (P : nat -> St -> Prop) (a b : nat)
  (body : nat -> St -> St) (s : St) :
  a <= b ->
  P a s ->
  (forall i t, a <= i < b -> P i t -> P (S i) (body i t)) ->
  P b (for_range a b body s).
Proof.
  intros Hab H0 Hstep.
  induction b as [|b IH].
  - replace a with 0 in * by lia. now rewrite for_range_empty.
  - destruct (Nat.eq_dec a (S b)) as [->|Hne].
    + now rewrite for_range_empty.
    + rewrite for_range_last by lia. apply Hstep; [lia|].
      apply IH; [lia|]. intros i t Hi. apply Hstep. lia.
Qed.

Lemma for_each_inv (St A : Type) (P : list A -> St -> Prop) (l : list A)
  (body : A -> St -> St) (s : St) :
  P [] s ->
  (forall pre x t, (exists post, l = pre ++ x :: post) -> P pre t -> P (pre ++ [x]) (body x t)) ->
  P l (for_each l body s).
Proof.
  intros H0 Hstep. unfold for_each.
  enough (G : forall post pre t, l = pre ++ post -> P pre t ->
                P l (fold_left (fun s x => body x s) post t)).
  { apply (G l [] s); auto. }
  induction post as [|x post IH]; intros pre t E Hp; simpl.
  - rewrite app_nil_r in E. now subst.
  - apply (IH (pre ++ [x])).
    + rewrite <- app_assoc. exact E.
    + apply Hstep; auto. now exists post.
Qed.
(** ** [rebalanceWorkers]: the row ranges of the workers *)

(** The number of uncovered rows below [k]. *)
Fixpoint uncoveredBelow (covered : list bool) (k : nat) : nat :=
  match k with
  | O => 0
  | S j => uncoveredBelow covered j + (if nth j covered true then 0 else 1)
  end.

Lemma uncoveredBelow_app (l m : list bool) (k : nat) :
  k <= length l -> uncoveredBelow (l ++ m) k = uncoveredBelow l k.
Proof.
  induction k as [|k IH]; intros H; simpl; auto.
  rewrite IH by lia. rewrite app_nth1 by lia. reflexivity.
Qed.

Lemma uncoveredBelow_overflow (l : list bool) (k : nat) :
  length l <= k -> uncoveredBelow l k = uncoveredBelow l (length l).
Proof.
  induction k as [|k IH]; intros H.
  - now replace (length l) with 0 by lia.
  - destruct (Nat.eq_dec (length l) (S k)) as [->|Hne]; auto.
    simpl. rewrite IH by lia. rewrite nth_overflow by lia. lia.
Qed.

Lemma uncoveredBelow_length (l : list bool) :
  uncoveredBelow l (length l) = count_occ bool_dec l false.
Proof.
  induction l as [|b l IH] using rev_ind; auto.
  rewrite length_app, Nat.add_comm. simpl.
  rewrite uncoveredBelow_app by lia. rewrite IH.
  rewrite app_nth2 by lia. rewrite Nat.sub_diag. simpl.
  rewrite count_occ_app. simpl. destruct b; simpl; lia.
Qed.

Lemma uncoveredBelow_mono (l : list bool) (j k : nat) :
  j <= k -> uncoveredBelow l j <= uncoveredBelow l k.
Proof.
  induction 1; simpl; lia.
Qed.

Lemma uncoveredBelow_total (l : list bool) (k : nat) :
  uncoveredBelow l k <= count_occ bool_dec l false.
Proof.
  rewrite <- uncoveredBelow_length.
  destruct (Nat.le_ge_cases k (length l)).
  - now apply uncoveredBelow_mono.
  - rewrite uncoveredBelow_overflow; auto.
Qed.

Lemma nth_fill_from (n a b j : nat) (wr : list nat) :
  a <= b -> b <= length wr ->
  nth j (for_range a b (fun i w => upd i n w) wr) 0 =
  if (a <=? j) && (j <? b) then n else nth j wr 0.
Proof.
  intros Hab Hb.
  destruct (@for_range_inv _
           (fun k w => length w = length wr /\
                       nth j w 0 = if (a <=? j) && (j <? k) then n else nth j wr 0)
           a b (fun i w => upd i n w) wr Hab) as [_ H]; [split; auto; cases_nat| |exact H].
  intros i t Hi [Hl Hn]. split; [now rewrite length_upd|].
  rewrite nth_upd, Hl, Hn. cases_nat.
Qed.

Section Rebalance.
Variable covered : list bool.
Variables W n : nat.
Hypothesis HW : 1 <= W.

Let u := count_occ bool_dec covered false.
Let rpw := u / W.

(** The invariant of the row loop, before row [k]. *)
Definition rebalanceInv (k : nat) (st : list nat * nat * nat) : Prop :=
  let '(wr, ind, rc) := st in
  length wr = W + 1 /\ nth 0 wr 0 = 0 /\ 1 <= ind /\
  uncoveredBelow covered k = (ind - 1) * (rpw + 1) + rc /\ rc <= rpw /\
  (forall j, 1 <= j < ind -> nth j wr 0 < k) /\
  (forall i j, i <= j < ind -> nth i wr 0 <= nth j wr 0).

Lemma rowsPerWorker_bound : u < (rpw + 1) * W.
Proof.
  unfold rpw. pose proof (Nat.div_mod_eq u W) as E.
  pose proof (Nat.mod_upper_bound u W ltac:(lia)). nia.
Qed.

Lemma rebalanceInv_ind (k : nat) (wr : list nat) (ind rc : nat) :
  rebalanceInv k (wr, ind, rc) -> ind <= W.
Proof.
  intros (Hl & H0 & H1 & Hu & Hrc & _).
  pose proof (uncoveredBelow_total covered k) as Hk. fold u in Hk.
  pose proof rowsPerWorker_bound. nia.
Qed.

Lemma rebalanceRow_inv (k : nat) (st : list nat * nat * nat) :
  rebalanceInv k st -> rebalanceInv (S k) (rebalanceRow covered rpw k st).
Proof.
  destruct st as [[wr ind] rc]. intros (Hl & H0 & H1 & Hu & Hrc & Hlt & Hs).
  unfold rebalanceRow.
  pose proof (uncoveredBelow_total covered (S k)) as Hk. fold u in Hk.
  pose proof rowsPerWorker_bound as Hb.
  simpl in Hk. unfold rebalanceInv. cbn [uncoveredBelow].
  destruct (nth k covered true) eqn:Ec; simpl.
  - repeat split; auto; try lia.
    intros j Hj. specialize (Hlt j Hj). lia.
  - destruct (Nat.eqb_spec rpw rc) as [E|E].
    + assert (Hind : ind < W) by nia.
      repeat split.
      * now rewrite length_upd.
      * rewrite nth_upd_ne by lia. exact H0.
      * lia.
      * rewrite Hu, <- E. simpl. nia.
      * lia.
      * intros j Hj. rewrite nth_upd, Hl.
        destruct (Nat.eqb_spec ind j); simpl.
        -- destruct (Nat.ltb_spec ind (W + 1)); lia.
        -- assert (nth j wr 0 < k) by (apply Hlt; lia). lia.
      * intros i j Hij. rewrite !nth_upd, Hl.
        destruct (Nat.ltb_spec ind (W + 1)); [|lia].
        destruct (Nat.eqb_spec ind j); destruct (Nat.eqb_spec ind i); simpl; try lia.
        -- destruct (Nat.eq_dec i 0) as [->|Hi]; [lia|].
           assert (nth i wr 0 < k) by (apply Hlt; lia). lia.
        -- apply Hs; lia.
    + repeat split; auto; try lia.
      intros j Hj. specialize (Hlt j Hj). lia.
Qed.
End Rebalance.

(** What the constructor establishes about the pool, and no member
    function but [rebalanceWorkers] writes. *)
Definition pool_ok (s : Hungarian) : Prop :=
  1 <= workers s /\
  length (workerRows s) = workers s + 1 /\
  nth 0 (workerRows s) 0 = 0.

(** The row ranges [[workerRows[i], workerRows[i+1])] split [0 .. numRow). *)
Definition partitioned (s : Hungarian) : Prop :=
  length (workerRows s) = workers s + 1 /\
  nth 0 (workerRows s) 0 = 0 /\
  nth (workers s) (workerRows s) 0 = numRow s /\
  forall i, i < workers s -> nth i (workerRows s) 0 <= nth (S i) (workerRows s) 0.

Lemma rebalanceWorkers_frame (s : Hungarian) :
  exists wr, rebalanceWorkers s = set_workerRows s wr.
Proof.
  unfold rebalanceWorkers.
  destruct (for_range 0 (numRow s) _ _) as [[wr ind] rc]. eauto.
Qed.

Lemma rebalanceWorkers_partitioned (s : Hungarian) :
  pool_ok s -> partitioned (rebalanceWorkers s).
Proof.
  intros (HW & Hl & H0). unfold rebalanceWorkers.
  pose proof (@for_range_inv _ (rebalanceInv (rowCovered s) (workers s)) 0 (numRow s)
                (rebalanceRow (rowCovered s)
                   (count_occ bool_dec (rowCovered s) false / workers s))
                (workerRows s, 1, 0) (Nat.le_0_l _)) as H.
  destruct (for_range 0 (numRow s) _ _) as [[wr ind] rc].
  assert (Hinv : rebalanceInv (rowCovered s) (workers s) (numRow s) (wr, ind, rc)).
  { apply H.
    - simpl. repeat split; auto; try lia.
      intros i j Hij. replace i with 0 by lia. replace j with 0 by lia. lia.
    - intros i t _. now apply rebalanceRow_inv. }
  pose proof (rebalanceInv_ind HW Hinv) as Hind.
  destruct Hinv as (Hl' & H0' & H1 & _ & _ & Hlt & Hs).
  assert (Hn : forall j, nth j (for_range ind (length wr)
                                   (fun i w => upd i (numRow s) w) wr) 0 =
                         if (ind <=? j) && (j <? length wr) then numRow s else nth j wr 0).
  { intros j. apply nth_fill_from; lia. }
  unfold partitioned. cbn [workerRows workers numRow set_workerRows].
  repeat split.
  - assert (E : forall a b (w : list nat), a <= b ->
                length (for_range a b (fun i w => upd i (numRow s) w) w) = length w).
    { intros a b w Hab.
      apply (@for_range_inv _ (fun _ v => length v = length w) a b); auto.
      intros i t _ Ht. now rewrite length_upd. }
    rewrite E; lia.
  - rewrite Hn. destruct (Nat.leb_spec ind 0); simpl; [lia|auto].
  - rewrite Hn, Hl'.
    destruct (Nat.leb_spec ind (workers s)); [|lia].
    destruct (Nat.ltb_spec (workers s) (workers s + 1)); [|lia]. reflexivity.
  - intros i Hi. rewrite !Hn, Hl'.
    destruct (Nat.leb_spec ind i); destruct (Nat.leb_spec ind (S i));
      destruct (Nat.ltb_spec i (workers s + 1));
      destruct (Nat.ltb_spec (S i) (workers s + 1)); simpl; try lia.
    + destruct (Nat.eq_dec i 0) as [->|Hi0]; [lia|].
      assert (nth i wr 0 < numRow s) by (apply Hlt; lia). lia.
    + apply Hs; lia.
Qed.

Lemma boundaries_mono (f : nat -> nat) (w : nat) :
  (forall i, i < w -> f i <= f (S i)) ->
  forall i j, i <= j <= w -> f i <= f j.
Proof.
  intros Hstep i j [Hij Hj]. induction Hij; auto.
  transitivity (f m); [apply IHHij; lia|apply Hstep; lia].
Qed.

Lemma boundaries_find (f : nat -> nat) (w row : nat) :
  f 0 <= row < f w -> exists i, i < w /\ f i <= row < f (S i).
Proof.
  induction w as [|w IH]; intros H; [lia|].
  destruct (Nat.lt_ge_cases row (f w)) as [Hlt|Hge].
  - destruct IH as (i & Hi & Hr); [lia|]. exists i. split; [lia|auto].
  - exists w. split; lia.
Qed.

Lemma partitioned_owner (s : Hungarian) (row : nat) :
  partitioned s -> row < numRow s ->
  exists i, (i < workers s /\
             nth i (workerRows s) 0 <= row < nth (S i) (workerRows s) 0) /\
            forall j, j < workers s /\
                      nth j (workerRows s) 0 <= row < nth (S j) (workerRows s) 0 ->
                      j = i.
Proof.
  intros (Hl & H0 & Hw & Hstep) Hrow.
  set (f := fun i => nth i (workerRows s) 0) in *.
  destruct (@boundaries_find f (workers s) row) as (i & Hi & Hr).
  { unfold f. lia. }
  exists i. split; [auto|].
  intros j (Hj & Hjr).
  pose proof (boundaries_mono f Hstep) as Hm.
  destruct (Nat.lt_trichotomy i j) as [Hlt|[Heq|Hgt]]; auto.
  - assert (f (S i) <= f j) by (apply Hm; lia). unfold f in *. lia.
  - assert (f (S j) <= f i) by (apply Hm; lia). unfold f in *. lia.
Qed.
(** ** The cost matrix *)

(** Comparisons of costs. *)
Definition Tle (a b : T) : Prop := Tltb b a = false.

Lemma Tltb_irrefl (a : T) : Tltb a a = false.
Proof. destruct a; simpl; auto. apply Z.ltb_irrefl. Qed.

Lemma Tle_refl (a : T) : Tle a a.
Proof. apply Tltb_irrefl. Qed.

Lemma Tle_trans (a b c : T) : Tle a b -> Tle b c -> Tle a c.
Proof.
  unfold Tle. destruct a, b, c; simpl; auto; try discriminate.
  rewrite !Z.ltb_ge. lia.
Qed.

Lemma Tle_Inf (a : T) : Tle a Inf.
Proof. destruct a; reflexivity. Qed.

Lemma Tle_antisym (a b : T) : Tle a b -> Tle b a -> a = b.
Proof.
  unfold Tle. destruct a, b; simpl; auto; try discriminate.
  rewrite !Z.ltb_ge. intros. f_equal. lia.
Qed.

Lemma Tltb_Tle (a b : T) : Tltb a b = true -> Tle a b.
Proof.
  unfold Tle. destruct a, b; simpl; auto; try discriminate.
  rewrite Z.ltb_lt, Z.ltb_ge. lia.
Qed.

Lemma Tle_Fin (x y : Z) : Tle (Fin x) (Fin y) <-> (x <= y)%Z.
Proof. unfold Tle. simpl. rewrite Z.ltb_ge. tauto. Qed.

Lemma Teqb_eq (a b : T) : Teqb a b = true <-> a = b.
Proof.
  destruct a, b; simpl; split; intros H; try discriminate; auto.
  - apply Z.eqb_eq in H. now subst.
  - injection H as ->. apply Z.eqb_refl.
Qed.

(** The cell [(r, c)] of a flat row-major [n] by [n] buffer. *)
Definition mget (n : nat) (m : list T) (r c : nat) : T := nth (r * n + c) m Inf.

Lemma mget_upd (n : nat) (m : list T) (r c r' c' : nat) (v : T) :
  r < n -> c < n -> c' < n -> length m = n * n ->
  mget n (upd (r * n + c) v m) r' c' =
  if (r =? r') && (c =? c') then v else mget n m r' c'.
Proof.
  intros Hr Hc Hc' Hl. unfold mget. rewrite nth_upd, Hl.
  destruct (Nat.eqb_spec r r') as [->|Hne]; simpl.
  - destruct (Nat.eqb_spec c c') as [->|Hne].
    + rewrite Nat.eqb_refl. simpl.
      destruct (Nat.ltb_spec (r' * n + c') (n * n)); [auto|nia].
    + destruct (Nat.eqb_spec (r' * n + c) (r' * n + c')); [lia|auto].
  - destruct (Nat.eqb_spec (r * n + c) (r' * n + c')); [nia|auto].
Qed.

Lemma mget_transform_at (n : nat) (f : T -> T) (m : list T) (r r' c' : nat) :
  r' < n -> c' < n -> length m = n * n ->
  mget n (transform_at f (r * n) n m) r' c' =
  if r =? r' then f (mget n m r' c') else mget n m r' c'.
Proof.
  intros Hr' Hc' Hl. unfold mget. rewrite nth_transform_at by nia.
  destruct (Nat.eqb_spec r r') as [->|Hne].
  - destruct (Nat.leb_spec (r' * n) (r' * n + c')); [|lia].
    destruct (Nat.ltb_spec (r' * n + c') (r' * n + n)); [|lia]. reflexivity.
  - destruct (Nat.leb_spec (r * n) (r' * n + c')); simpl; auto.
    destruct (Nat.ltb_spec (r' * n + c') (r * n + n)); simpl; auto. nia.
Qed.

Lemma mget_transform2_at (n : nat) (B : Type) (f : T -> B -> T) (e : B)
  (bs : list B) (m : list T) (r r' c' : nat) :
  r' < n -> c' < n -> length m = n * n -> length bs = n ->
  mget n (transform2_at f (r * n) bs m) r' c' =
  if r =? r' then f (mget n m r' c') (nth c' bs e) else mget n m r' c'.
Proof.
  intros Hr' Hc' Hl Hb. unfold mget. rewrite (nth_transform2_at f _ Inf e) by nia.
  rewrite Hb.
  destruct (Nat.eqb_spec r r') as [->|Hne].
  - destruct (Nat.leb_spec (r' * n) (r' * n + c')); [|lia].
    destruct (Nat.ltb_spec (r' * n + c') (r' * n + n)); [|lia]. simpl.
    do 2 f_equal. lia.
  - destruct (Nat.leb_spec (r * n) (r' * n + c')); simpl; auto.
    destruct (Nat.ltb_spec (r' * n + c') (r * n + n)); simpl; auto. nia.
Qed.

Lemma nth_slice_row (n : nat) (m : list T) (r c : nat) :
  c < n -> nth c (slice (r * n) n m) Inf = mget n m r c.
Proof. intros H. unfold mget. now rewrite nth_slice. Qed.

(** ** The shape of the solver object *)

Record shape (n : nat) (s : Hungarian) : Prop := {
  sh_numCol : numCol s = n;
  sh_numRow : numRow s = n;
  sh_colCovered : length (colCovered s) = n;
  sh_rowCovered : length (rowCovered s) = n;
  sh_cost : length (cost s) = n * n;
  sh_index : index s = map (fun i => i * n) (seq 0 n);
  sh_zeros : length (zeros s) = n;
  sh_primedZeros : length (primedZeros s) = n;
  sh_starredZeros : length (starredZeros s) = n;
  sh_pool : pool_ok s;
  sh_workerCosts : length (workerCosts s) = workers s
}.

Lemma shape_index (n : nat) (s : Hungarian) (r : nat) :
  shape n s -> r < n -> nth r (index s) 0 = r * n.
Proof.
  intros H Hr. rewrite (sh_index H).
  pose proof (map_nth (fun i => i * n) (seq 0 n) 0 r) as E. simpl in E.
  rewrite E, seq_nth; auto.
Qed.

Lemma shape_cell (n : nat) (s : Hungarian) (r c : nat) :
  shape n s -> r < n -> cell s r c = mget n (cost s) r c.
Proof.
  intros H Hr. unfold cell, mget. now rewrite (shape_index H Hr).
Qed.

Lemma construct_shape (rows columns hw : nat) :
  shape (Nat.max rows columns) (construct rows columns hw).
Proof.
  constructor; simpl; auto; try apply repeat_length.
  repeat split; simpl; try lia.
  - rewrite repeat_length. lia.
  - rewrite Nat.add_1_r. reflexivity.
Qed.

Lemma setCost_shape (n : nat) (s : Hungarian) (row col : nat) (c : T) :
  shape n s -> shape n (setCost s row col c).
Proof.
  intros []. constructor; simpl; auto. now rewrite length_upd.
Qed.
(** ** [updateCosts]: what it does to the matrix and to the zero lists *)

Lemma for_each_cons (St A : Type) (body : A -> St -> St) (x : A) (l : list A) (s : St) :
  for_each (x :: l) body s = for_each l body (body x s).
Proof. reflexivity. Qed.

Lemma for_range_split (St : Type) (a b c : nat) (body : nat -> St -> St) (s : St) :
  a <= b <= c -> for_range a c body s = for_range b c body (for_range a b body s).
Proof.
  intros H. unfold for_range.
  replace (c - a) with ((b - a) + (c - b)) by lia.
  rewrite seq_app, fold_left_app. replace (a + (b - a)) with b by lia. reflexivity.
Qed.

Definition inb (c : nat) (l : list nat) : bool :=
  if in_dec Nat.eq_dec c l then true else false.

Lemma inb_true (c : nat) (l : list nat) : inb c l = true <-> In c l.
Proof. unfold inb. destruct (in_dec Nat.eq_dec c l); split; auto; discriminate. Qed.

Lemma inb_false (c : nat) (l : list nat) : inb c l = false <-> ~ In c l.
Proof. unfold inb. destruct (in_dec Nat.eq_dec c l); split; auto; try discriminate; tauto. Qed.

Lemma updateCostsCell_eq (n : nat) (s : Hungarian) (h : Z) (row col : nat) :
  shape n s -> row < n ->
  updateCostsCell h row col s =
  set_zeros
    (set_cost s (upd (row * n + col) (Tsub (mget n (cost s) row col) h) (cost s)))
    (if Teqb (Fin 0) (Tsub (mget n (cost s) row col) h)
     then upd row (nth row (zeros s) [] ++ [col]) (zeros s)
     else zeros s).
Proof.
  intros Hs Hr. unfold updateCostsCell. rewrite (shape_index Hs Hr).
  fold (mget n (cost s) row col).
  destruct (Teqb (Fin 0) (Tsub (mget n (cost s) row col) h)); reflexivity.
Qed.

Lemma shape_set_cost_zeros (n : nat) (s : Hungarian) (cs : list T) (zs : list (list nat)) :
  shape n s -> length cs = n * n -> length zs = n ->
  shape n (set_zeros (set_cost s cs) zs).
Proof. intros [] Hc Hz. constructor; auto. Qed.

Lemma updateCostsCells (n : nat) (h : Z) (row : nat) (l : list nat) :
  row < n -> NoDup l -> (forall c, In c l -> c < n) ->
  forall s, shape n s ->
  let s' := for_each l (updateCostsCell h row) s in
  (exists cs zs, s' = set_zeros (set_cost s cs) zs) /\
  shape n s' /\
  (forall r c, r < n -> c < n ->
     mget n (cost s') r c =
     if (r =? row) && inb c l then Tsub (mget n (cost s) r c) h
     else mget n (cost s) r c) /\
  (forall r, r < n ->
     nth r (zeros s') [] =
     if r =? row
     then nth r (zeros s) [] ++
          filter (fun c => Teqb (Fin 0) (Tsub (mget n (cost s) row c) h)) l
     else nth r (zeros s) []).
Proof.
  intros Hrow. induction l as [|a l IH]; intros Hnd Hlt s Hs; cbn zeta.
  - refine (conj _ (conj Hs (conj _ _))).
    + exists (cost s), (zeros s). destruct s; reflexivity.
    + intros r c _ _. now rewrite andb_false_r.
    + intros r _. simpl. rewrite app_nil_r. now destruct (r =? row).
  - rewrite for_each_cons. inversion Hnd as [|? ? Hna Hnd']; subst.
    assert (Ha : a < n) by (apply Hlt; now left).
    set (v := Tsub (mget n (cost s) row a) h).
    set (s1 := updateCostsCell h row a s).
    assert (E1 : s1 = set_zeros (set_cost s (upd (row * n + a) v (cost s)))
                   (if Teqb (Fin 0) v
                    then upd row (nth row (zeros s) [] ++ [a]) (zeros s)
                    else zeros s))
      by (apply updateCostsCell_eq; auto).
    assert (Hs1 : shape n s1).
    { rewrite E1. apply shape_set_cost_zeros; auto.
      - rewrite length_upd. apply (sh_cost Hs).
      - destruct (Teqb (Fin 0) v); [rewrite length_upd|]; apply (sh_zeros Hs). }
    assert (C1 : forall r c, r < n -> c < n ->
               mget n (cost s1) r c =
               if (row =? r) && (a =? c) then v else mget n (cost s) r c).
    { intros r c Hr Hc. rewrite E1. cbn [cost set_zeros set_cost].
      apply mget_upd; auto. apply (sh_cost Hs). }
    assert (Z1 : forall r, r < n ->
               nth r (zeros s1) [] =
               if (r =? row) && Teqb (Fin 0) v then nth r (zeros s) [] ++ [a]
               else nth r (zeros s) []).
    { intros r Hr. rewrite E1. cbn [zeros set_zeros].
      destruct (Teqb (Fin 0) v).
      - rewrite nth_upd, (sh_zeros Hs). rewrite (Nat.eqb_sym r row).
        destruct (Nat.eqb_spec row r) as [->|]; simpl; auto.
        destruct (Nat.ltb_spec r n); [auto|lia].
      - now rewrite andb_false_r. }
    destruct (IH Hnd' (fun c Hc => Hlt c (or_intror Hc)) s1 Hs1)
      as ((cs & zs & E) & Hs' & HC & HZ).
    refine (conj _ (conj Hs' (conj _ _))).
    + exists cs, zs. rewrite E, E1. reflexivity.
    + intros r c Hr Hc. rewrite (HC r c Hr Hc), (C1 r c Hr Hc).
      unfold inb. destruct (in_dec Nat.eq_dec c l) as [Hin|Hin];
        destruct (in_dec Nat.eq_dec c (a :: l)) as [Hin'|Hin'];
        destruct (Nat.eqb_spec r row) as [->|Hne]; simpl;
        try rewrite Nat.eqb_refl; simpl.
      * destruct (Nat.eqb_spec a c) as [->|]; [contradiction|reflexivity].
      * destruct (Nat.eqb_spec row r); [congruence|reflexivity].
      * exfalso. apply Hin'. now right.
      * destruct (Nat.eqb_spec row r); [congruence|reflexivity].
      * destruct (Nat.eqb_spec a c) as [->|Hac]; [reflexivity|].
        destruct Hin' as [|]; [congruence|contradiction].
      * destruct (Nat.eqb_spec row r); [congruence|reflexivity].
      * destruct (Nat.eqb_spec a c) as [->|]; [|reflexivity].
        exfalso. apply Hin'. now left.
      * destruct (Nat.eqb_spec row r); [congruence|reflexivity].
    + intros r Hr. rewrite (HZ r Hr), (Z1 r Hr).
      destruct (Nat.eqb_spec r row) as [->|Hne]; cbn [andb filter]; auto.
      fold v.
      assert (F : filter (fun c => Teqb (Fin 0) (Tsub (mget n (cost s1) row c) h)) l =
                  filter (fun c => Teqb (Fin 0) (Tsub (mget n (cost s) row c) h)) l).
      { apply filter_ext_in. intros c Hc.
        rewrite C1 by (auto; apply Hlt; now right).
        rewrite Nat.eqb_refl. simpl.
        destruct (Nat.eqb_spec a c) as [->|]; [contradiction|reflexivity]. }
      rewrite F. destruct (Teqb (Fin 0) v); [rewrite <- app_assoc|]; reflexivity.
Qed.

(** The new value of a cell: [h] is added in a covered row and subtracted in
    an uncovered column. *)
Definition updatedCost (h : Z) (rowCov inCols : bool) (x : T) : T :=
  let x := if rowCov then Tadd x h else x in
  if inCols then Tsub x h else x.

(** [colInds] lists columns, each once. *)
Definition colInds_ok (n : nat) (s : Hungarian) : Prop :=
  NoDup (colInds s) /\ forall c, In c (colInds s) -> c < n.

Lemma updateCostsRow_spec (n : nat) (h : Z) (row : nat) (s : Hungarian) :
  shape n s -> row < n -> colInds_ok n s ->
  let s' := updateCostsRow h row s in
  (exists cs zs, s' = set_zeros (set_cost s cs) zs) /\
  shape n s' /\
  (forall r c, r < n -> c < n ->
     mget n (cost s') r c =
     if r =? row
     then updatedCost h (nth row (rowCovered s) true) (inb c (colInds s))
            (mget n (cost s) r c)
     else mget n (cost s) r c) /\
  (forall r, r < n ->
     nth r (zeros s') [] =
     if r =? row
     then (if nth row (rowCovered s) true then [] else nth row (zeros s) []) ++
          filter (fun c => Teqb (Fin 0) (mget n (cost s') row c)) (colInds s)
     else nth r (zeros s) []).
Proof.
  intros Hs Hrow [Hnd Hlt]. cbn zeta. unfold updateCostsRow.
  set (s0 := if nth row (rowCovered s) true then _ else s).
  assert (E0 : s0 = set_zeros
                 (set_cost s (if nth row (rowCovered s) true
                              then transform_at (fun x => Tadd x h) (row * n) n (cost s)
                              else cost s))
                 (if nth row (rowCovered s) true then upd row [] (zeros s) else zeros s)).
  { unfold s0. rewrite (shape_index Hs Hrow), (sh_numCol Hs).
    destruct (nth row (rowCovered s) true); [reflexivity|]. destruct s; reflexivity. }
  clearbody s0.
  assert (Hs0 : shape n s0).
  { rewrite E0. apply shape_set_cost_zeros; auto.
    - destruct (nth row (rowCovered s) true);
        [rewrite length_transform_at|]; apply (sh_cost Hs).
    - destruct (nth row (rowCovered s) true);
        [rewrite length_upd|]; apply (sh_zeros Hs). }
  assert (I0 : colInds s0 = colInds s) by (rewrite E0; reflexivity).
  rewrite I0.
  destruct (@updateCostsCells n h row (colInds s) Hrow Hnd Hlt s0 Hs0)
    as ((cs & zs & E) & Hs' & HC & HZ).
  assert (C0 : forall r c, r < n -> c < n ->
             mget n (cost s0) r c =
             if (r =? row) && nth row (rowCovered s) true
             then Tadd (mget n (cost s) r c) h else mget n (cost s) r c).
  { intros r c Hr Hc. rewrite E0. cbn [cost set_zeros set_cost].
    destruct (nth row (rowCovered s) true).
    - rewrite mget_transform_at; auto; [|apply (sh_cost Hs)].
      rewrite (Nat.eqb_sym row r), andb_true_r. reflexivity.
    - now rewrite andb_false_r. }
  assert (HC' : forall r c, r < n -> c < n ->
     mget n (cost (for_each (colInds s) (updateCostsCell h row) s0)) r c =
     if r =? row
     then updatedCost h (nth row (rowCovered s) true) (inb c (colInds s))
            (mget n (cost s) r c)
     else mget n (cost s) r c).
  { intros r c Hr Hc. rewrite (HC r c Hr Hc), (C0 r c Hr Hc). unfold updatedCost.
    destruct (r =? row), (inb c (colInds s)), (nth row (rowCovered s) true);
      reflexivity. }
  refine (conj _ (conj Hs' (conj HC' _))).
  - exists cs, zs. rewrite E, E0. reflexivity.
  - intros r Hr. rewrite (HZ r Hr).
    destruct (Nat.eqb_spec r row) as [->|Hne].
    + f_equal.
      * rewrite E0. cbn [zeros set_zeros].
        destruct (nth row (rowCovered s) true); auto.
        rewrite nth_upd_eq; auto. now rewrite (sh_zeros Hs).
      * apply filter_ext_in. intros c Hc.
        rewrite (HC row c Hrow (Hlt c Hc)), Nat.eqb_refl.
        apply inb_true in Hc. rewrite Hc. reflexivity.
    + rewrite E0. cbn [zeros set_zeros].
      destruct (nth row (rowCovered s) true); auto.
      rewrite nth_upd_ne; auto.
Qed.

(** All the rows, one after the other. *)
Lemma updateCostsRows_spec (n : nat) (h : Z) (s : Hungarian) (k : nat) :
  shape n s -> colInds_ok n s -> k <= n ->
  let s' := for_range 0 k (updateCostsRow h) s in
  (exists cs zs, s' = set_zeros (set_cost s cs) zs) /\
  shape n s' /\
  (forall r c, r < n -> c < n ->
     mget n (cost s') r c =
     if r <? k
     then updatedCost h (nth r (rowCovered s) true) (inb c (colInds s))
            (mget n (cost s) r c)
     else mget n (cost s) r c) /\
  (forall r, r < n ->
     nth r (zeros s') [] =
     if r <? k
     then (if nth r (rowCovered s) true then [] else nth r (zeros s) []) ++
          filter (fun c => Teqb (Fin 0) (mget n (cost s') r c)) (colInds s)
     else nth r (zeros s) []).
Proof.
  intros Hs Hci Hk. cbn zeta.
  induction k as [|k IH].
  - rewrite for_range_empty by lia.
    refine (conj _ (conj Hs (conj _ _))); auto.
    exists (cost s), (zeros s). destruct s; reflexivity.
  - rewrite for_range_last by lia.
    destruct IH as ((cs & zs & E) & Hs1 & HC & HZ); [lia|].
    set (s1 := for_range 0 k (updateCostsRow h) s) in *.
    assert (Hci1 : colInds_ok n s1) by (unfold colInds_ok; rewrite E; exact Hci).
    destruct (@updateCostsRow_spec n h k s1 Hs1 ltac:(lia) Hci1)
      as ((cs' & zs' & E') & Hs' & HC' & HZ').
    assert (R1 : rowCovered s1 = rowCovered s) by (rewrite E; reflexivity).
    assert (I1 : colInds s1 = colInds s) by (rewrite E; reflexivity).
    rewrite R1, I1 in *.
    refine (conj _ (conj Hs' (conj _ _))).
    + exists cs', zs'. rewrite E', E. reflexivity.
    + intros r c Hr Hc. rewrite (HC' r c Hr Hc), (HC r c Hr Hc).
      destruct (Nat.eqb_spec r k) as [->|Hne].
      * destruct (Nat.ltb_spec k k); [lia|].
        destruct (Nat.ltb_spec k (S k)); [reflexivity|lia].
      * destruct (Nat.ltb_spec r k); destruct (Nat.ltb_spec r (S k));
          try lia; reflexivity.
    + intros r Hr. rewrite (HZ' r Hr).
      destruct (Nat.eqb_spec r k) as [->|Hne]; rewrite (HZ _ Hr).
      * destruct (Nat.ltb_spec k k); [lia|].
        destruct (Nat.ltb_spec k (S k)); [reflexivity|lia].
      * destruct (Nat.ltb_spec r k); destruct (Nat.ltb_spec r (S k));
          try lia; try reflexivity.
        f_equal. apply filter_ext_in. intros c Hc.
        rewrite (HC' r c Hr (proj2 Hci c Hc)).
        destruct (Nat.eqb_spec r k); [lia|reflexivity].
Qed.

(** The workers together run the row loop over all the rows, in order. *)
Lemma for_range_frame (St A : Type) (proj : St -> A) (body : nat -> St -> St)
  (a b : nat) (s : St) :
  (forall i t, proj (body i t) = proj t) ->
  proj (for_range a b body s) = proj s.
Proof.
  intros H. destruct (Nat.le_ge_cases a b) as [Hab|Hab].
  - apply (@for_range_inv _ (fun _ t => proj t = proj s) a b body s Hab); auto.
    intros i t _ E. now rewrite H.
  - now rewrite for_range_empty.
Qed.

Lemma workers_rows (body : nat -> Hungarian -> Hungarian) (s : Hungarian) (k : nat) :
  (forall r t, workerRows (body r t) = workerRows t) ->
  nth 0 (workerRows s) 0 = 0 ->
  (forall i, i < k -> nth i (workerRows s) 0 <= nth (S i) (workerRows s) 0) ->
  for_range 0 k
    (fun i t => for_range (nth i (workerRows t) 0) (nth (S i) (workerRows t) 0) body t) s =
  for_range 0 (nth k (workerRows s) 0) body s.
Proof.
  intros Hf H0 Hm. induction k as [|k IH].
  - rewrite H0. reflexivity.
  - rewrite for_range_last by lia. rewrite IH by (intros; apply Hm; lia).
    rewrite (for_range_frame workerRows) by exact Hf.
    pose proof (@boundaries_mono (fun i => nth i (workerRows s) 0) (S k) Hm 0 k) as Hk.
    cbn beta in Hk. rewrite H0 in Hk.
    symmetry. apply for_range_split. split; [apply Hk; lia|apply Hm; lia].
Qed.

Lemma updateCostsCell_workerRows (h : Z) (row col : nat) (s : Hungarian) :
  workerRows (updateCostsCell h row col s) = workerRows s.
Proof.
  unfold updateCostsCell. destruct (Teqb _ _); reflexivity.
Qed.

Lemma for_each_frame (St A B : Type) (proj : St -> B) (body : A -> St -> St)
  (l : list A) (s : St) :
  (forall x t, proj (body x t) = proj t) ->
  proj (for_each l body s) = proj s.
Proof.
  intros H. revert s. induction l as [|x l IH]; intros s; auto.
  rewrite for_each_cons, IH. apply H.
Qed.

Lemma updateCostsRow_workerRows (h : Z) (row : nat) (s : Hungarian) :
  workerRows (updateCostsRow h row s) = workerRows s.
Proof.
  unfold updateCostsRow.
  rewrite (for_each_frame workerRows) by apply updateCostsCell_workerRows.
  destruct (nth row (rowCovered s) true); reflexivity.
Qed.

Lemma updateCosts_rows (n : nat) (h : Z) (s : Hungarian) :
  shape n s -> partitioned s ->
  updateCosts h s = for_range 0 n (updateCostsRow h) s.
Proof.
  intros Hs (Hl & H0 & Hw & Hm). unfold updateCosts, updateCostsWorker.
  rewrite workers_rows; auto using updateCostsRow_workerRows.
  now rewrite Hw, (sh_numRow Hs).
Qed.

(** [updateCosts(h)] adds [h] to the covered rows and subtracts it from the
    columns of [colInds]; the zero list of a row keeps the zeros it had when
    the row is not covered and gains the zeros of the columns of [colInds]. *)
Lemma updateCosts_spec (n : nat) (h : Z) (s : Hungarian) :
  shape n s -> partitioned s -> colInds_ok n s ->
  let s' := updateCosts h s in
  (exists cs zs, s' = set_zeros (set_cost s cs) zs) /\
  shape n s' /\
  (forall r c, r < n -> c < n ->
     cell s' r c =
     updatedCost h (nth r (rowCovered s) true) (inb c (colInds s)) (cell s r c)) /\
  (forall r, r < n ->
     nth r (zeros s') [] =
     (if nth r (rowCovered s) true then [] else nth r (zeros s) []) ++
     filter (fun c => Teqb (Fin 0) (cell s' r c)) (colInds s)).
Proof.
  intros Hs Hp Hci. cbn zeta. rewrite (updateCosts_rows h Hs Hp).
  destruct (@updateCostsRows_spec n h s n Hs Hci (Nat.le_refl n))
    as (E & Hs' & HC & HZ).
  refine (conj E (conj Hs' (conj _ _))).
  - intros r c Hr Hc. rewrite !(@shape_cell n) by auto.
    rewrite (HC r c Hr Hc). destruct (Nat.ltb_spec r n); [reflexivity|lia].
  - intros r Hr. rewrite (HZ r Hr). destruct (Nat.ltb_spec r n); [|lia].
    f_equal. apply filter_ext. intros c. now rewrite (@shape_cell n) by auto.
Qed.
(** ** [findMinUncoveredCost]: the least cost of an uncovered cell *)

Lemma running_min (vs : list T) (m0 : T) :
  let m := fold_left (fun m x => if Tltb x m then x else m) vs m0 in
  Tle m m0 /\ (forall x, In x vs -> Tle m x) /\ (m = m0 \/ In m vs).
Proof.
  revert m0. induction vs as [|v vs IH]; intros m0; cbn zeta; simpl.
  - split; [apply Tle_refl|]. split; [tauto|auto].
  - destruct (IH (if Tltb v m0 then v else m0)) as (H1 & H2 & H3).
    assert (Hv : Tle (if Tltb v m0 then v else m0) v).
    { destruct (Tltb v m0) eqn:E; [apply Tle_refl|exact E]. }
    assert (Hm : Tle (if Tltb v m0 then v else m0) m0).
    { destruct (Tltb v m0) eqn:E; [now apply Tltb_Tle|apply Tle_refl]. }
    split; [eapply Tle_trans; eauto|]. split.
    + intros x [<-|Hx]; [eapply Tle_trans; eauto|auto].
    + destruct H3 as [H3|H3]; [|auto].
      rewrite H3. destruct (Tltb v m0); auto.
Qed.

Lemma min_element_le (l : list T) (x : T) : In x l -> Tle (min_element l) x.
Proof.
  destruct l as [|a l]; [contradiction|]. unfold min_element. simpl hd. simpl tl.
  destruct (running_min l a) as (H1 & H2 & _). intros [<-|H]; auto.
Qed.

Lemma min_element_in (l : list T) : l <> [] -> In (min_element l) l.
Proof.
  destruct l as [|a l]; [congruence|]. intros _. unfold min_element. simpl hd. simpl tl.
  destruct (running_min l a) as (_ & _ & [->|H]); [now left|now right].
Qed.

Section MinCost.
Variable n : nat.
(** The state at the call; the workers only write [workerCosts]. *)
Variable s0 : Hungarian.
Hypothesis Hshape : shape n s0.

(** [m] is the running minimum of [m0] and the cells in [P]. *)
Definition minOver (P : nat -> nat -> Prop) (m0 m : T) : Prop :=
  Tle m m0 /\
  (forall r c, P r c -> Tle m (cell s0 r c)) /\
  (m = m0 \/ exists r c, P r c /\ cell s0 r c = m).

Lemma minOver_refl (P : nat -> nat -> Prop) (m0 : T) :
  (forall r c, ~ P r c) -> minOver P m0 m0.
Proof.
  intros H. split; [apply Tle_refl|]. split; [|auto].
  intros r c Hp. now apply H in Hp.
Qed.

Lemma minOver_ext (P Q : nat -> nat -> Prop) (m0 m : T) :
  (forall r c, P r c <-> Q r c) -> minOver P m0 m -> minOver Q m0 m.
Proof.
  intros H (H1 & H2 & H3). split; auto. split.
  - intros r c Hq. apply H2. now apply H.
  - destruct H3 as [|(r & c & Hp & E)]; auto. right. exists r, c. split; auto.
    now apply H.
Qed.

Lemma minOver_step (P : nat -> nat -> Prop) (m0 m : T) (row col : nat) :
  minOver P m0 m ->
  minOver (fun r c => P r c \/ (r = row /\ c = col)) m0
    (if Tltb (cell s0 row col) m then cell s0 row col else m).
Proof.
  intros (H1 & H2 & H3).
  destruct (Tltb (cell s0 row col) m) eqn:E.
  - apply Tltb_Tle in E. split; [eapply Tle_trans; eauto|]. split.
    + intros r c [Hp|[-> ->]]; [eapply Tle_trans; eauto|apply Tle_refl].
    + right. exists row, col. auto.
  - split; auto. split.
    + intros r c [Hp|[-> ->]]; auto.
    + destruct H3 as [|(r & c & Hp & E')]; auto. right. exists r, c. auto.
Qed.

(** A state of the minimum search: [s0] with other [workerCosts]. *)
Definition searching (t : Hungarian) : Prop :=
  t = set_workerCosts s0 (workerCosts t) /\
  length (workerCosts t) = workers s0.

Lemma searching_cell (t : Hungarian) (r c : nat) :
  searching t -> cell t r c = cell s0 r c.
Proof. intros [-> _]. reflexivity. Qed.

Lemma minCostCell_spec (i row col : nat) (t : Hungarian) :
  searching t -> i < workers s0 ->
  let t' := minCostCell i row col t in
  searching t' /\
  (forall j, j <> i -> nth j (workerCosts t') Inf = nth j (workerCosts t) Inf) /\
  nth i (workerCosts t') Inf =
  (if Tltb (cell s0 row col) (nth i (workerCosts t) Inf)
   then cell s0 row col else nth i (workerCosts t) Inf).
Proof.
  intros Ht Hi. cbn zeta. unfold minCostCell.
  rewrite (searching_cell row col Ht).
  destruct (Tltb (cell s0 row col) (nth i (workerCosts t) Inf)).
  - destruct Ht as [E Hl]. split; [|split].
    + split; cbn [workerCosts set_workerCosts].
      * rewrite E at 1. reflexivity.
      * now rewrite length_upd.
    + intros j Hj. cbn [workerCosts set_workerCosts]. now rewrite nth_upd_ne by auto.
    + cbn [workerCosts set_workerCosts]. rewrite nth_upd_eq; auto. lia.
  - auto.
Qed.

Lemma minCostRow_spec (i row : nat) (t : Hungarian) (P : nat -> nat -> Prop) (m0 : T) :
  searching t -> i < workers s0 ->
  minOver P m0 (nth i (workerCosts t) Inf) ->
  let t' := minCostRow i row t in
  searching t' /\
  (forall j, j <> i -> nth j (workerCosts t') Inf = nth j (workerCosts t) Inf) /\
  minOver (fun r c => P r c \/
                      (r = row /\ nth row (rowCovered s0) true = false /\
                       In c (colInds s0)))
    m0 (nth i (workerCosts t') Inf).
Proof.
  intros Ht Hi Hm. cbn zeta. unfold minCostRow.
  assert (Er : rowCovered t = rowCovered s0) by (destruct Ht as [-> _]; reflexivity).
  assert (Ec : colInds t = colInds s0) by (destruct Ht as [-> _]; reflexivity).
  rewrite Er, Ec.
  destruct (nth row (rowCovered s0) true) eqn:Ecov; simpl.
  - split; auto. split; auto.
    eapply minOver_ext; [|exact Hm]. intros r c. split; [auto|].
    intros [H|(_ & H & _)]; [auto|discriminate].
  - pose proof (@for_each_inv Hungarian nat
                  (fun pre u => searching u /\
                                (forall j, j <> i ->
                                   nth j (workerCosts u) Inf = nth j (workerCosts t) Inf) /\
                                minOver (fun r c => P r c \/ (r = row /\ In c pre)) m0
                                  (nth i (workerCosts u) Inf))
                  (colInds s0) (minCostCell i row) t) as H.
    destruct H as (H1 & H2 & H3).
    + split; auto. split; auto.
      eapply minOver_ext; [|exact Hm]. intros r c. split; [auto|].
      intros [H|(_ & [])]; auto.
    + intros pre x u _ (Hu & Hj & Hmin).
      destruct (@minCostCell_spec i row x u Hu Hi) as (Hu' & Hj' & Hi').
      split; auto. split.
      * intros j Hne. rewrite Hj' by auto. now apply Hj.
      * rewrite Hi'. eapply minOver_ext; [|apply minOver_step; exact Hmin].
        intros r c. cbn beta. rewrite in_app_iff. simpl. intuition.
    + split; auto. split; auto.
      eapply minOver_ext; [|exact H3]. intros r c. cbn beta. intuition.
Qed.

Lemma minCostWorker_spec (i a b : nat) (t : Hungarian) :
  searching t -> i < workers s0 -> a <= b ->
  let t' := for_range a b (minCostRow i) t in
  searching t' /\
  (forall j, j <> i -> nth j (workerCosts t') Inf = nth j (workerCosts t) Inf) /\
  minOver (fun r c => a <= r < b /\ nth r (rowCovered s0) true = false /\
                      In c (colInds s0))
    (nth i (workerCosts t) Inf) (nth i (workerCosts t') Inf).
Proof.
  intros Ht Hi Hab. cbn zeta.
  apply (@for_range_inv Hungarian
           (fun k u => searching u /\
              (forall j, j <> i -> nth j (workerCosts u) Inf = nth j (workerCosts t) Inf) /\
              minOver (fun r c => a <= r < k /\ nth r (rowCovered s0) true = false /\
                                  In c (colInds s0))
                (nth i (workerCosts t) Inf) (nth i (workerCosts u) Inf))
           a b (minCostRow i) t Hab).
  - split; auto. split; auto. apply minOver_refl. intros r c (H & _). lia.
  - intros k u Hk (Hu & Hj & Hmin).
    destruct (@minCostRow_spec i k u _ _ Hu Hi Hmin) as (Hu' & Hj' & Hm').
    split; auto. split.
    + intros j Hne. rewrite Hj' by auto. now apply Hj.
    + eapply minOver_ext; [|exact Hm']. intros r c. cbn beta.
      split.
      * intros [(H1 & H2 & H3)|(-> & H2 & H3)]; repeat split; auto; lia.
      * intros (H1 & H2 & H3).
        destruct (Nat.eq_dec r k) as [->|Hne]; [right; auto|left].
        repeat split; auto; lia.
Qed.
End MinCost.

Lemma findMinUncoveredCost_spec (n : nat) (s : Hungarian) :
  shape n s -> partitioned s ->
  let h := fst (findMinUncoveredCost s) in
  let s' := snd (findMinUncoveredCost s) in
  s' = set_workerCosts s (workerCosts s') /\
  length (workerCosts s') = workers s /\
  (forall r c, r < n -> nth r (rowCovered s) true = false -> In c (colInds s) ->
     Tle h (cell s r c)) /\
  (h = Inf \/
   exists r c, r < n /\ nth r (rowCovered s) true = false /\ In c (colInds s) /\
               cell s r c = h).
Proof.
  intros Hs Hp. cbn zeta. unfold findMinUncoveredCost. cbn [fst snd].
  set (s1 := set_workerCosts s (fill vFill (workerCosts s))).
  assert (Hs1 : searching s s1).
  { split; [reflexivity|]. unfold s1. cbn [workerCosts set_workerCosts].
    rewrite length_fill. apply (sh_workerCosts Hs). }
  assert (W1 : workers s1 = workers s) by reflexivity. rewrite W1.
  pose (P := fun i r c => nth i (workerRows s) 0 <= r < nth (S i) (workerRows s) 0 /\
                         nth r (rowCovered s) true = false /\ In c (colInds s)).
  destruct Hp as (Hl & H0 & Hw & Hm).
  assert (Hinv :
            let u := for_range 0 (workers s) findMinUncoveredCostWorker s1 in
            searching s u /\
            (forall i, i < workers s -> minOver s (P i) Inf (nth i (workerCosts u) Inf))).
  { cbn zeta.
    destruct (@for_range_inv Hungarian
             (fun k u => searching s u /\
                (forall i, i < k -> minOver s (P i) Inf (nth i (workerCosts u) Inf)) /\
                (forall i, k <= i -> i < workers s -> nth i (workerCosts u) Inf = Inf))
             0 (workers s) findMinUncoveredCostWorker s1 (Nat.le_0_l _))
      as (H1 & H2 & _).
    - split; auto. split; [intros; lia|].
      intros i _ Hi. unfold s1. cbn [workerCosts set_workerCosts].
      apply nth_fill. now rewrite (sh_workerCosts Hs).
    - intros k u Hk (Hu & Hlo & Hhi). unfold findMinUncoveredCostWorker.
      assert (Ew : workerRows u = workerRows s) by (destruct Hu as [-> _]; reflexivity).
      rewrite Ew.
      destruct (@minCostWorker_spec s k (nth k (workerRows s) 0)
                  (nth (S k) (workerRows s) 0) u Hu ltac:(lia) ltac:(apply Hm; lia))
        as (Hu' & Hj & Hmin).
      split; auto. split.
      + intros i Hi. destruct (Nat.eq_dec i k) as [->|Hne].
        * rewrite Hhi in Hmin by lia. exact Hmin.
        * rewrite Hj by auto. apply Hlo. lia.
      + intros i Hi Hi'. rewrite Hj by lia. apply Hhi; lia.
    - split; auto. }
  cbn zeta in Hinv. destruct Hinv as (Hu & Hmin).
  set (u := for_range 0 (workers s) findMinUncoveredCostWorker s1) in *.
  destruct Hu as [Eu Hlu].
  refine (conj Eu (conj Hlu (conj _ _))).
  - intros r c Hr Hcov Hc.
    destruct (@partitioned_owner s r (conj Hl (conj H0 (conj Hw Hm))))
      as (i & (Hi & Hir) & _); [now rewrite (sh_numRow Hs)|].
    destruct (Hmin i Hi) as (_ & Hle & _).
    apply Tle_trans with (nth i (workerCosts u) Inf).
    + apply min_element_le. apply nth_In. lia.
    + apply Hle. unfold P. auto.
  - assert (Hne : workerCosts u <> []).
    { intros E. rewrite E in Hlu. simpl in Hlu. destruct (sh_pool Hs). lia. }
    destruct (In_nth _ _ Inf (min_element_in Hne)) as (i & Hi & Ei).
    rewrite Hlu in Hi. destruct (Hmin i Hi) as (_ & _ & [E|(r & c & (Hr & Hcov & Hc) & E)]).
    + left. congruence.
    + right. exists r, c. refine (conj _ (conj Hcov (conj Hc _))); [|congruence].
      pose proof (@boundaries_mono (fun i => nth i (workerRows s) 0) (workers s) Hm
                    (S i) (workers s) ltac:(lia)) as Hb.
      cbn beta in Hb. rewrite Hw, (sh_numRow Hs) in Hb. lia.
Qed.

Lemma fillColInds_spec (n : nat) (s : Hungarian) :
  shape n s ->
  fillColInds s = set_colInds s (colInds (fillColInds s)) /\
  colInds_ok n (fillColInds s) /\
  forall c, In c (colInds (fillColInds s)) <->
            c < n /\ nth c (colCovered s) true = false.
Proof.
  intros Hs. split; [reflexivity|].
  unfold fillColInds, colInds_ok. cbn [colInds set_colInds].
  rewrite (sh_numCol Hs).
  destruct (@for_range_inv (list nat)
              (fun k l => NoDup l /\
                          forall c, In c l <-> c < k /\ nth c (colCovered s) true = false)
              0 n
              (fun col inds => if negb (nth col (colCovered s) true)
                               then inds ++ [col] else inds)
              [] (Nat.le_0_l _)) as (H1 & H2).
  - split; [constructor|]. intros c. simpl. split; [tauto|intros []; lia].
  - intros k l Hk (Hnd & Hin).
    destruct (nth k (colCovered s) true) eqn:E; simpl.
    + split; auto. intros c. rewrite Hin. split.
      * intros []. split; [lia|auto].
      * intros [Hc Hcov]. split; auto.
        destruct (Nat.eq_dec c k) as [->|]; [congruence|lia].
    + split.
      * apply NoDup_app; [exact Hnd|repeat constructor; simpl; tauto|].
        intros c Hc [<-|[]]. apply Hin in Hc. lia.
      * intros c. rewrite in_app_iff, Hin. simpl. split.
        -- intros [[]|[<-|[]]]; split; auto; lia.
        -- intros [Hc Hcov]. destruct (Nat.eq_dec c k) as [->|]; [auto|].
           left. split; [lia|auto].
  - split; [split; [exact H1|]|exact H2]. intros c Hc. now apply H2 in Hc.
Qed.
(** ** The invariants of the assignment loop *)

(** The starred column of a row, or [NONE]. *)
Definition star (s : Hungarian) (r : nat) : N := nth r (starredZeros s) NONE.

(** The stars are one-to-one: no column is starred in two rows. *)
Definition one_to_one (n : nat) (s : Hungarian) : Prop :=
  forall r1 r2, r1 < n -> r2 < n -> star s r1 = star s r2 -> star s r1 <> NONE -> r1 = r2.

(** [zeros[r]] holds exactly the columns whose cost in row [r] is zero. *)
Definition zeros_exact (n : nat) (s : Hungarian) : Prop :=
  forall r c, r < n -> (In c (nth r (zeros s) []) <-> c < n /\ cell s r c = Fin 0).

(** What holds of the matrix and of the stars from the end of the scan of
    the matrix on. *)
Record Core (n : nat) (s : Hungarian) : Prop := {
  core_shape : shape n s;
  core_nonneg : forall r c, r < n -> c < n -> Tle (Fin 0) (cell s r c);
  core_zeros : zeros_exact n s;
  core_star : forall r, r < n -> star s r <> NONE ->
              exists c, c < n /\ star s r = N.of_nat c /\ cell s r c = Fin 0;
  core_inj : one_to_one n s
}.

(** The covered rows in the order in which they were covered, the last one
    first: a covered row has a star in an uncovered column and a prime in an
    uncovered column, and a star in the column of its prime lies in a row
    that was covered before. *)
Fixpoint chain (n : nat) (s : Hungarian) (l : list nat) : Prop :=
  match l with
  | [] => True
  | r :: l' =>
      r < n /\ ~ In r l' /\ chain n s l' /\
      (exists c0, c0 < n /\ star s r = N.of_nat c0 /\ nth c0 (colCovered s) true = false) /\
      nth r (primedZeros s) 0 < n /\
      cell s r (nth r (primedZeros s) 0) = Fin 0 /\
      nth (nth r (primedZeros s) 0) (colCovered s) true = false /\
      forall r', r' < n -> star s r' = N.of_nat (nth r (primedZeros s) 0) -> In r' l'
  end.

(** What holds of the covers between two augmentations. *)
Record Cover (n : nat) (s : Hungarian) (order : list nat) : Prop := {
  cov_order : forall r, In r order <-> r < n /\ nth r (rowCovered s) true = true;
  cov_chain : chain n s order;
  cov_col : forall c, c < n -> nth c (colCovered s) true = true ->
            exists r, r < n /\ star s r = N.of_nat c /\ nth r (rowCovered s) true = false;
  cov_row : forall r c, r < n -> c < n -> nth r (rowCovered s) true = false ->
            star s r = N.of_nat c -> nth c (colCovered s) true = true
}.

Lemma first_some_spec (A B : Type) (f : A -> option B) (l : list A) :
  match first_some f l with
  | Some b => exists x, In x l /\ f x = Some b
  | None => forall x, In x l -> f x = None
  end.
Proof.
  induction l as [|a l IH]; simpl; [tauto|].
  destruct (f a) eqn:E.
  - exists a. auto.
  - destruct (first_some f l).
    + destruct IH as (x & Hx & Hf). exists x. auto.
    + intros x [<-|Hx]; auto.
Qed.

Lemma findUncoveredZero_Some (s : Hungarian) (r c : nat) :
  findUncoveredZero s = Some (r, c) ->
  r < numRow s /\ nth r (rowCovered s) true = false /\
  In c (nth r (zeros s) []) /\ nth c (colCovered s) true = false.
Proof.
  unfold findUncoveredZero. intros H.
  pose proof (first_some_spec
    (fun row =>
       if negb (nth row (rowCovered s) true) then
         match find (fun c => negb (nth c (colCovered s) true)) (nth row (zeros s) []) with
         | Some c => Some (row, c)
         | None => None
         end
       else None) (seq 0 (numRow s))) as F.
  rewrite H in F. destruct F as (x & Hx & Hf).
  apply in_seq in Hx.
  destruct (nth x (rowCovered s) true) eqn:Ecov; simpl in Hf; [discriminate|].
  destruct (find _ _) as [c'|] eqn:Ef; [|discriminate].
  injection Hf as -> ->. apply find_some in Ef. destruct Ef as [Hin Hc].
  apply negb_true_iff in Hc. repeat split; auto; lia.
Qed.

Lemma findUncoveredZero_None (s : Hungarian) (r c : nat) :
  findUncoveredZero s = None ->
  r < numRow s -> nth r (rowCovered s) true = false -> In c (nth r (zeros s) []) ->
  nth c (colCovered s) true = true.
Proof.
  unfold findUncoveredZero. intros H Hr Hcov Hin.
  pose proof (first_some_spec
    (fun row =>
       if negb (nth row (rowCovered s) true) then
         match find (fun c => negb (nth c (colCovered s) true)) (nth row (zeros s) []) with
         | Some c => Some (row, c)
         | None => None
         end
       else None) (seq 0 (numRow s))) as F.
  rewrite H in F. specialize (F r). cbn beta in F.
  rewrite Hcov in F. simpl in F.
  destruct (find _ _) as [c'|] eqn:Ef.
  - discriminate F. apply in_seq. lia.
  - pose proof (find_none _ _ Ef c Hin) as Hc. apply negb_false_iff in Hc. exact Hc.
Qed.

Lemma findStarredZeroInCol_Some (s : Hungarian) (c r : nat) :
  findStarredZeroInCol s c = Some r -> r < numRow s /\ star s r = N.of_nat c.
Proof.
  unfold findStarredZeroInCol. intros H. apply find_some in H.
  destruct H as [Hin He]. apply in_seq in Hin. apply N.eqb_eq in He.
  split; [lia|exact He].
Qed.

Lemma findStarredZeroInCol_None (s : Hungarian) (c r : nat) :
  findStarredZeroInCol s c = None -> r < numRow s -> star s r <> N.of_nat c.
Proof.
  unfold findStarredZeroInCol. intros H Hr.
  pose proof (find_none _ _ H r) as F. cbn beta in F.
  apply N.eqb_neq. apply F. apply in_seq. lia.
Qed.

(** A column is not the marker. *)
Definition fits (n : nat) : Prop := (N.of_nat n <= NONE)%N.

Lemma fits_ne (n c : nat) : fits n -> c < n -> N.of_nat c <> NONE.
Proof. unfold fits. intros H Hc. lia. Qed.
(** ** The search for an uncovered zero *)

Lemma Core_ext (n : nat) (s s' : Hungarian) :
  shape n s' -> cost s' = cost s -> zeros s' = zeros s ->
  starredZeros s' = starredZeros s ->
  Core n s -> Core n s'.
Proof.
  intros Hs' Ec Ez Es [Hs Hnn Hz Hst Hinj].
  assert (Ecell : forall r c, cell s' r c = cell s r c).
  { intros r c. unfold cell. now rewrite Ec, (sh_index Hs), (sh_index Hs'). }
  assert (Estar : forall r, star s' r = star s r).
  { intros r. unfold star. now rewrite Es. }
  constructor; auto.
  - intros r c Hr Hc. rewrite Ecell. auto.
  - intros r c Hr. rewrite Ez, Ecell. now apply Hz.
  - intros r Hr. rewrite Estar. intros Hne.
    destruct (Hst r Hr Hne) as (c & Hc & E1 & E2). exists c. now rewrite Ecell.
  - intros r1 r2 Hr1 Hr2. rewrite !Estar. now apply Hinj.
Qed.

Lemma chain_ext (n : nat) (s s' : Hungarian) (l : list nat) :
  (forall r, star s' r = star s r) ->
  (forall r, In r l -> nth r (primedZeros s') 0 = nth r (primedZeros s) 0) ->
  (forall r, In r l -> cell s r (nth r (primedZeros s) 0) = Fin 0 ->
             cell s' r (nth r (primedZeros s) 0) = Fin 0) ->
  (forall c, nth c (colCovered s) true = false -> nth c (colCovered s') true = false) ->
  chain n s l -> chain n s' l.
Proof.
  intros Es Ep Ec Hcov. induction l as [|r l IH]; simpl; auto.
  intros (Hr & Hni & Hch & (c0 & Hc0 & Hs0 & Hu0) & Hp & Hz & Hu & Hown).
  rewrite (Ep r) by now left.
  refine (conj Hr (conj Hni (conj _ (conj _ (conj Hp (conj _ (conj _ _))))))).
  - apply IH; auto.
    + intros x Hx. apply Ep. now right.
    + intros x Hx. apply Ec. now right.
  - exists c0. rewrite Es. auto.
  - apply Ec; auto. now left.
  - auto.
  - intros r' Hr'. rewrite Es. apply Hown; auto.
Qed.

Lemma chain_rows (n : nat) (s : Hungarian) (l : list nat) :
  chain n s l -> NoDup l /\ forall r, In r l -> r < n.
Proof.
  induction l as [|r l IH]; simpl.
  - split; [constructor|tauto].
  - intros (Hr & Hni & Hch & _). destruct (IH Hch) as [Hnd Hlt].
    split; [now constructor|]. intros x [<-|Hx]; auto.
Qed.

Lemma chain_length (n : nat) (s : Hungarian) (l : list nat) :
  chain n s l -> length l <= n.
Proof.
  intros H. destruct (chain_rows _ _ _ H) as [Hnd Hlt].
  rewrite <- (length_seq n 0). apply NoDup_incl_length; auto.
  intros r Hr. apply in_seq. specialize (Hlt r Hr). lia.
Qed.

(** The state after a zero was primed in a row with a star: the row is
    covered and the column of its star uncovered. *)
Definition primeAndCover (s : Hungarian) (r c : nat) : Hungarian :=
  let s := set_primedZeros s (upd r c (primedZeros s)) in
  let s := set_rowCovered s (upd r true (rowCovered s)) in
  set_colCovered s (upd (N.to_nat (nth r (starredZeros s) NONE)) false (colCovered s)).

Lemma primeAndCover_inv (n : nat) (s : Hungarian) (order : list nat) (r c : nat) :
  fits n -> Core n s -> Cover n s order ->
  findUncoveredZero s = Some (r, c) -> star s r <> NONE ->
  Core n (primeAndCover s r c) /\ Cover n (primeAndCover s r c) (r :: order).
Proof.
  intros Hn HC HV Hf Hst.
  pose proof (core_shape HC) as Hs.
  destruct (findUncoveredZero_Some _ Hf) as (Hr & Hrc & Hin & Hcc).
  rewrite (sh_numRow Hs) in Hr.
  apply (core_zeros HC) in Hin; auto. destruct Hin as [Hc Hzero].
  destruct (core_star HC Hr Hst) as (c0 & Hc0 & Es0 & Hz0).
  assert (Hc0cov : nth c0 (colCovered s) true = true) by exact (cov_row HV Hr Hc0 Hrc Es0).
  assert (Hne : c0 <> c) by congruence.
  set (s' := primeAndCover s r c).
  assert (Hs' : shape n s').
  { destruct Hs. constructor; cbn; auto; now rewrite length_upd. }
  assert (Estar : forall x, star s' x = star s x) by reflexivity.
  assert (Ecell : forall x y, cell s' x y = cell s x y) by reflexivity.
  assert (Erow : forall x, nth x (rowCovered s') true =
                           if x =? r then true else nth x (rowCovered s) true).
  { intros x. unfold s', primeAndCover. cbn [rowCovered set_colCovered set_rowCovered].
    rewrite nth_upd. cbn [rowCovered set_primedZeros]. rewrite (sh_rowCovered Hs).
    rewrite (Nat.eqb_sym x r). destruct (Nat.eqb_spec r x); simpl; auto.
    destruct (Nat.ltb_spec r n); [auto|lia]. }
  assert (Ecol : forall y, nth y (colCovered s') true =
                           if y =? c0 then false else nth y (colCovered s) true).
  { intros y. unfold s', primeAndCover.
    cbn [colCovered starredZeros set_colCovered set_rowCovered set_primedZeros].
    fold (star s r). rewrite Es0, Nat2N.id, nth_upd, (sh_colCovered Hs).
    rewrite (Nat.eqb_sym y c0). destruct (Nat.eqb_spec c0 y); simpl; auto.
    destruct (Nat.ltb_spec c0 n); [auto|lia]. }
  assert (Eprime : forall x, nth x (primedZeros s') 0 =
                             if x =? r then c else nth x (primedZeros s) 0).
  { intros x. unfold s', primeAndCover.
    cbn [primedZeros set_colCovered set_rowCovered set_primedZeros].
    rewrite nth_upd, (sh_primedZeros Hs).
    rewrite (Nat.eqb_sym x r). destruct (Nat.eqb_spec r x); simpl; auto.
    destruct (Nat.ltb_spec r n); [auto|lia]. }
  split.
  - apply Core_ext with s; auto.
  - assert (Hrni : ~ In r order).
    { intros Hin. apply (cov_order HV) in Hin. destruct Hin. congruence. }
    constructor.
    + intros x. simpl. rewrite (cov_order HV), Erow.
      destruct (Nat.eqb_spec x r) as [->|Hxr]; [tauto|].
      split; [intros [|]; [congruence|auto]|auto].
    + simpl. refine (conj Hr (conj Hrni (conj _ (conj _ _)))).
      * apply chain_ext with s; auto.
        -- intros x Hx. rewrite Eprime.
           destruct (Nat.eqb_spec x r); [congruence|auto].
        -- intros y Hy. rewrite Ecol. now destruct (y =? c0).
        -- apply (cov_chain HV).
      * exists c0. rewrite Estar, Ecol, Nat.eqb_refl. auto.
      * rewrite Eprime, Nat.eqb_refl, Ecell, Ecol.
        refine (conj Hc (conj Hzero (conj _ _))).
        -- destruct (Nat.eqb_spec c c0); auto.
        -- intros r' Hr'. rewrite Estar. intros Er'.
           apply (cov_order HV). split; auto.
           destruct (nth r' (rowCovered s) true) eqn:E; auto.
           rewrite (cov_row HV Hr' Hc E Er') in Hcc. discriminate.
    + intros y Hy. rewrite Ecol. destruct (Nat.eqb_spec y c0) as [->|Hyc]; [discriminate|].
      intros Hcov. destruct (cov_col HV Hy Hcov) as (x & Hx & Ex & Hxc).
      exists x. rewrite Estar, Erow. refine (conj Hx (conj Ex _)).
      destruct (Nat.eqb_spec x r) as [->|]; auto.
      rewrite Es0 in Ex. apply Nat2N.inj in Ex. congruence.
    + intros x y Hx Hy. rewrite Erow, Estar, Ecol.
      destruct (Nat.eqb_spec x r) as [->|Hxr]; [discriminate|].
      intros Hxc Ex. destruct (Nat.eqb_spec y c0) as [->|Hyc].
      * exfalso. apply Hxr. apply (core_inj HC); auto; congruence.
      * exact (cov_row HV Hx Hy Hxc Ex).
Qed.
(** ** The alternating sequence of an augmentation *)

(** The pairs that [extendSequence] appends, from column [c] on. *)
Fixpoint alternating (fuel : nat) (s : Hungarian) (c : nat) : option (list (nat * nat)) :=
  match findStarredZeroInCol s c with
  | None => Some []
  | Some r =>
      match fuel with
      | O => None
      | S fuel' =>
          match alternating fuel' s (nth r (primedZeros s) 0) with
          | None => None
          | Some p => Some ((r, nth r (primedZeros s) 0) :: p)
          end
      end
  end.

Lemma alternating_sequences (fuel : nat) (s : Hungarian) (rs cs : list nat) (c : nat) :
  alternating fuel (set_sequences s rs cs) c = alternating fuel s c.
Proof.
  revert c. induction fuel as [|f IH]; intros c; simpl.
  - reflexivity.
  - change (findStarredZeroInCol (set_sequences s rs cs) c)
      with (findStarredZeroInCol s c).
    destruct (findStarredZeroInCol s c); auto.
    cbn [primedZeros set_sequences]. now rewrite IH.
Qed.

Lemma extendSequence_alternating (fuel : nat) (s : Hungarian) (c : nat) :
  extendSequence fuel s c =
  match alternating fuel s c with
  | None => None
  | Some p => Some (set_sequences s (rowSequence s ++ map fst p)
                      (colSequence s ++ map snd p))
  end.
Proof.
  revert s c. induction fuel as [|f IH]; intros s c; simpl.
  - destruct (findStarredZeroInCol s c); auto.
    simpl. rewrite !app_nil_r. destruct s; reflexivity.
  - destruct (findStarredZeroInCol s c) as [r|].
    + rewrite IH, alternating_sequences. cbn [primedZeros set_sequences].
      destruct (alternating f s (nth r (primedZeros s) 0)); auto.
      cbn [rowSequence colSequence set_sequences map fst snd].
      rewrite <- !app_assoc. reflexivity.
    + simpl. rewrite !app_nil_r. destruct s; reflexivity.
Qed.

(** An alternating sequence from column [c]: a star in the column, the prime
    of its row, and so on, to a column without a star. *)
Fixpoint altpath (n : nat) (s : Hungarian) (c : nat) (p : list (nat * nat)) : Prop :=
  match p with
  | [] => forall r, r < n -> star s r <> N.of_nat c
  | (r, c') :: p' =>
      r < n /\ star s r = N.of_nat c /\ c' < n /\ cell s r c' = Fin 0 /\
      altpath n s c' p'
  end.

Lemma alternating_chain (n : nat) (s : Hungarian) :
  fits n -> numRow s = n -> one_to_one n s ->
  forall l, chain n s l ->
  forall c, c < n ->
    (forall r, r < n -> star s r = N.of_nat c -> In r l) ->
  forall fuel, length l <= fuel ->
  exists p, alternating fuel s c = Some p /\ altpath n s c p /\
            (forall r, In r (map fst p) -> In r l) /\ NoDup (map fst p).
Proof.
  intros Hn Hnr Hinj. induction l as [|x l IH]; intros Hch c Hc Hown fuel Hfuel.
  - exists []. assert (E : findStarredZeroInCol s c = None).
    { destruct (findStarredZeroInCol s c) as [r|] eqn:E; auto.
      apply findStarredZeroInCol_Some in E. rewrite Hnr in E. destruct E as [Hr Hs].
      destruct (Hown r Hr Hs). }
    split; [destruct fuel; simpl; now rewrite E|].
    split; [|split; [simpl; tauto|constructor]].
    simpl. intros r Hr Hs. destruct (Hown r Hr Hs).
  - destruct (findStarredZeroInCol s c) as [r|] eqn:E.
    + pose proof (findStarredZeroInCol_Some _ _ E) as [Hr Hs]. rewrite Hnr in Hr.
      simpl in Hch.
      destruct Hch as (Hx & Hni & Hch & _ & Hp & Hz & _ & Hown').
      destruct (Nat.eq_dec r x) as [->|Hne].
      * destruct fuel as [|f]; [simpl in Hfuel; lia|].
        destruct (IH Hch _ Hp Hown' f ltac:(simpl in Hfuel; lia))
          as (p & Ep & Hap & Hin & Hnd).
        exists ((x, nth x (primedZeros s) 0) :: p).
        split; [simpl; now rewrite E, Ep|].
        split; [simpl; auto|].
        split.
        -- simpl. intros y [<-|Hy]; auto.
        -- simpl. constructor; auto.
      * assert (Hown2 : forall r', r' < n -> star s r' = N.of_nat c -> In r' l).
        { intros r' Hr' Hs'. destruct (Hown r' Hr' Hs') as [<-|]; auto.
          exfalso. apply Hne. apply Hinj; auto; [congruence|].
          rewrite Hs. now apply fits_ne with n. }
        destruct (IH Hch c Hc Hown2 fuel ltac:(simpl in Hfuel; lia))
          as (p & Ep & Hap & Hin & Hnd).
        exists p. split; auto. split; auto. split; auto.
        intros y Hy. right. auto.
    + exists []. split; [destruct fuel; simpl; now rewrite E|].
      split; [|split; [simpl; tauto|constructor]].
      simpl. intros r Hr. apply findStarredZeroInCol_None; auto. now rewrite Hnr.
Qed.
Lemma altpath_cells (n : nat) (s : Hungarian) (c : nat) (p : list (nat * nat)) :
  fits n -> c < n -> altpath n s c p ->
  forall x y, In (x, y) p ->
    x < n /\ y < n /\ cell s x y = Fin 0 /\ star s x <> NONE.
Proof.
  intros Hn. revert c. induction p as [|[r c'] p IH]; intros c Hc Hp x y Hin.
  - destruct Hin.
  - simpl in Hp. destruct Hp as (Hr & Hs & Hc' & Hz & Hp).
    destruct Hin as [E|Hin].
    + injection E as <- <-. refine (conj Hr (conj Hc' (conj Hz _))).
      rewrite Hs. now apply fits_ne with n.
    + apply (IH c' Hc' Hp x y Hin).
Qed.

(** A row that had the star of a column of the sequence is in the sequence. *)
Lemma altpath_owner (n : nat) (s : Hungarian) (c : nat) (p : list (nat * nat)) :
  fits n -> one_to_one n s -> c < n -> altpath n s c p ->
  forall y, y < n ->
    (star s y = N.of_nat c \/ exists x c', In (x, c') p /\ star s y = N.of_nat c') ->
    In y (map fst p).
Proof.
  intros Hn Hinj. revert c. induction p as [|[r c'] p IH]; intros c Hc Hp y Hy Hown.
  - simpl in Hp. destruct Hown as [E|(x & c' & [] & _)]. now apply Hp in E.
  - simpl in Hp. destruct Hp as (Hr & Hs & Hc' & Hz & Hp). simpl.
    destruct Hown as [E|(x & c2 & [E2|Hin] & E)].
    + left. apply Hinj; auto; [congruence|]. rewrite Hs. now apply fits_ne with n.
    + injection E2 as <- <-. right. apply (IH c' Hc' Hp y Hy). now left.
    + right. apply (IH c' Hc' Hp y Hy). right. eauto.
Qed.

Lemma altpath_columns (n : nat) (s : Hungarian) (c : nat) (p : list (nat * nat)) :
  fits n -> one_to_one n s -> c < n -> altpath n s c p -> NoDup (map fst p) ->
  NoDup (c :: map snd p).
Proof.
  intros Hn Hinj. revert c. induction p as [|[r c'] p IH]; intros c Hc Hp Hnd.
  - repeat constructor. simpl. tauto.
  - simpl in Hp. destruct Hp as (Hr & Hs & Hc' & Hz & Hp).
    simpl in Hnd. inversion Hnd as [|? ? Hni Hnd']; subst.
    constructor; [|apply IH; auto].
    intros Hin. apply Hni.
    apply (@altpath_owner n s c' p Hn Hinj Hc' Hp r Hr).
    simpl in Hin. destruct Hin as [<-|Hin]; [now left|].
    right. apply in_map_iff in Hin. destruct Hin as ([x y] & E & Hin).
    simpl in E. subst y. eauto.
Qed.

(** The stars of the pairs of a sequence, written one after the other. *)
Definition starAll (q : list (nat * nat)) (st : list N) : list N :=
  fold_left (fun st rc => upd (fst rc) (N.of_nat (snd rc)) st) q st.

Lemma length_starAll (q : list (nat * nat)) (st : list N) :
  length (starAll q st) = length st.
Proof.
  revert st. induction q as [|[r c] q IH]; intros st; simpl; auto.
  unfold starAll in IH. rewrite IH. apply length_upd.
Qed.

Lemma starAll_out (q : list (nat * nat)) (st : list N) (x : nat) :
  ~ In x (map fst q) -> nth x (starAll q st) NONE = nth x st NONE.
Proof.
  revert st. induction q as [|[r c] q IH]; intros st Hni; simpl; auto.
  unfold starAll in IH. rewrite IH by (simpl in Hni; tauto).
  apply nth_upd_ne. simpl in Hni. tauto.
Qed.

Lemma starAll_in (q : list (nat * nat)) (st : list N) (x c : nat) :
  NoDup (map fst q) -> In (x, c) q -> x < length st ->
  nth x (starAll q st) NONE = N.of_nat c.
Proof.
  revert st. induction q as [|[r c'] q IH]; intros st Hnd Hin Hx; [destruct Hin|].
  simpl in Hnd. inversion Hnd as [|? ? Hni Hnd']; subst.
  destruct Hin as [E|Hin].
  - injection E as -> ->. simpl. fold (starAll q (upd x (N.of_nat c) st)).
    rewrite starAll_out by auto. now apply nth_upd_eq.
  - simpl. fold (starAll q (upd r (N.of_nat c') st)).
    apply IH; auto. now rewrite length_upd.
Qed.

Lemma firstn_snoc (A : Type) (l : list A) (k : nat) (d : A) :
  k < length l -> firstn (S k) l = firstn k l ++ [nth k l d].
Proof.
  revert k. induction l as [|a l IH]; intros k H; simpl in H; [lia|].
  destruct k as [|k]; simpl; auto. f_equal. apply IH. lia.
Qed.

Lemma starAll_app (q1 q2 : list (nat * nat)) (st : list N) :
  starAll (q1 ++ q2) st = starAll q2 (starAll q1 st).
Proof. apply fold_left_app. Qed.

Lemma starSequence_loop (s : Hungarian) (q : list (nat * nat)) :
  rowSequence s = map fst q -> colSequence s = map snd q ->
  for_range 0 (length (colSequence s)) starSequence s =
  set_starredZeros s (starAll q (starredZeros s)).
Proof.
  intros Er Ec. rewrite Ec, length_map.
  assert (G : forall k, k <= length q ->
                for_range 0 k starSequence s =
                set_starredZeros s (starAll (firstn k q) (starredZeros s))).
  { induction k as [|k IH]; intros Hk.
    - rewrite for_range_empty by lia. destruct s; reflexivity.
    - rewrite for_range_last by lia. rewrite IH by lia.
      unfold starSequence. cbn [rowSequence colSequence starredZeros set_starredZeros].
      rewrite (firstn_snoc q (0, 0)) by lia.
      rewrite starAll_app. rewrite Er, Ec.
      pose proof (map_nth fst q (0, 0) k) as E1.
      pose proof (map_nth snd q (0, 0) k) as E2.
      cbn [fst snd] in E1, E2. rewrite E1, E2. reflexivity. }
  rewrite G by lia. now rewrite firstn_all.
Qed.

(** [coverStarredColumns] covers the columns that hold a star. *)
Lemma coverStarredColumns_spec (n : nat) (s : Hungarian) :
  fits n -> shape n s ->
  (forall r, r < n -> star s r <> NONE -> exists c, c < n /\ star s r = N.of_nat c) ->
  let s' := coverStarredColumns s in
  s' = set_colCovered s (colCovered s') /\
  length (colCovered s') = n /\
  forall c, c < n ->
    (nth c (colCovered s') true = true <->
     nth c (colCovered s) true = true \/ exists r, r < n /\ star s r = N.of_nat c).
Proof.
  intros Hn Hs Hv. cbn zeta. unfold coverStarredColumns. rewrite (sh_numRow Hs).
  apply (@for_range_inv Hungarian
           (fun k t => t = set_colCovered s (colCovered t) /\
                       length (colCovered t) = n /\
                       forall c, c < n ->
                         (nth c (colCovered t) true = true <->
                          nth c (colCovered s) true = true \/
                          exists r, r < k /\ star s r = N.of_nat c))
           0 n coverStarredColumn s (Nat.le_0_l n)).
  - split; [destruct s; reflexivity|]. split; [apply (sh_colCovered Hs)|].
    intros c Hc. split; [auto|]. intros [H|(r & Hr & _)]; [auto|lia].
  - intros k t Hk (Et & Hl & Hc). unfold coverStarredColumn.
    assert (Est : starredZeros t = starredZeros s) by (rewrite Et; reflexivity).
    rewrite Est. fold (star s k).
    destruct (N.eqb_spec (star s k) NONE) as [E|E]; simpl.
    + split; auto. split; auto. intros c Hcn. rewrite (Hc c Hcn).
      split; (intros [H|(r & Hr & Er)]; [now left|right]).
      * exists r. split; [lia|auto].
      * exists r. split; auto. destruct (Nat.eq_dec r k) as [->|]; [|lia].
        rewrite E in Er. symmetry in Er. now apply fits_ne with (n := n) in Er.
    + destruct (Hv k ltac:(lia) E) as (c0 & Hc0 & E0).
      rewrite E0, Nat2N.id. cbn [colCovered set_colCovered].
      split; [rewrite Et; reflexivity|]. split; [now rewrite length_upd|].
      intros c Hcn. rewrite nth_upd, Hl.
      destruct (Nat.eqb_spec c0 c) as [->|Hne]; simpl.
      * destruct (Nat.ltb_spec c n); [|lia]. split; auto.
        intros _. right. exists k. split; [lia|auto].
      * rewrite (Hc c Hcn).
        split; (intros [H|(r & Hr & Er)]; [now left|right]).
        -- exists r. split; [lia|auto].
        -- exists r. split; auto. destruct (Nat.eq_dec r k) as [->|]; [|lia].
           rewrite E0 in Er. apply Nat2N.inj in Er. congruence.
Qed.
Ltac proj_simpl :=
  cbn [numCol numRow colCovered rowCovered cost index zeros primedZeros starredZeros
       rowSequence colSequence colInds workers workerRows workerCosts
       set_colCovered set_rowCovered set_cost set_zeros set_primedZeros
       set_starredZeros set_sequences set_colInds set_workerRows set_workerCosts] in *.

Ltac shape_tac :=
  constructor; proj_simpl;
  rewrite ?length_fill, ?length_upd, ?length_starAll, ?length_transform_at,
    ?length_transform2_at; auto.

Lemma in_pairs_fst (q : list (nat * nat)) (x : nat) :
  In x (map fst q) -> exists c, In (x, c) q.
Proof.
  intros H. apply in_map_iff in H. destruct H as ([a b] & E & H).
  simpl in E. subst a. eauto.
Qed.

Lemma NoDup_snd_inj (q : list (nat * nat)) (x1 x2 c : nat) :
  NoDup (map snd q) -> In (x1, c) q -> In (x2, c) q -> x1 = x2.
Proof.
  induction q as [|[a b] q IH]; intros Hnd H1 H2; [destruct H1|].
  simpl in Hnd. inversion Hnd as [|? ? Hni Hnd']; subst.
  destruct H1 as [E1|H1], H2 as [E2|H2].
  - congruence.
  - injection E1 as -> ->. exfalso. apply Hni.
    apply in_map_iff. exists (x2, c). auto.
  - injection E2 as -> ->. exfalso. apply Hni.
    apply in_map_iff. exists (x1, c). auto.
  - auto.
Qed.

(** The state in which an augmentation ends: the stars of the sequence are
    written, no row is covered, and the columns with a star are. *)
Lemma augment_inv (n : nat) (s : Hungarian) (order : list nat) (r0 c0 fuel : nat) :
  fits n -> Core n s -> Cover n s order ->
  findUncoveredZero s = Some (r0, c0) -> star s r0 = NONE ->
  length order <= fuel ->
  exists s',
    augment fuel (set_primedZeros s (upd r0 c0 (primedZeros s))) r0 c0 = Some s' /\
    Core n s' /\ Cover n s' [] /\
    cost s' = cost s /\ zeros s' = zeros s /\
    workers s' = workers s /\ workerRows s' = workerRows s /\
    star s' r0 <> NONE /\
    (forall r, r < n -> r <> r0 -> (star s' r <> NONE <-> star s r <> NONE)).
Proof.
  intros Hn HC HV Hf Hst0 Hfuel.
  pose proof (core_shape HC) as Hs.
  destruct (findUncoveredZero_Some _ Hf) as (Hr0 & Hrc0 & Hin0 & Hcc0).
  rewrite (sh_numRow Hs) in Hr0.
  apply (core_zeros HC) in Hin0; auto. destruct Hin0 as [Hc0 Hz0].
  set (s1 := set_primedZeros s (upd r0 c0 (primedZeros s))).
  assert (Hs1 : shape n s1).
  { destruct Hs. unfold s1. shape_tac. }
  assert (Hr0ni : ~ In r0 order).
  { intros Hin. apply (cov_order HV) in Hin. destruct Hin. congruence. }
  assert (Hch1 : chain n s1 order).
  { apply chain_ext with s; auto; [|apply (cov_chain HV)].
    intros x Hx. unfold s1. cbn [primedZeros set_primedZeros].
    apply nth_upd_ne. congruence. }
  assert (Hown0 : forall r, r < n -> star s1 r = N.of_nat c0 -> In r order).
  { intros r Hr Er. apply (cov_order HV). split; auto.
    destruct (nth r (rowCovered s) true) eqn:E; auto.
    rewrite (cov_row HV Hr Hc0 E Er) in Hcc0. discriminate. }
  assert (Hinj1 : one_to_one n s1) by exact (core_inj HC).
  destruct (@alternating_chain n s1 Hn (sh_numRow Hs1) Hinj1 order Hch1 c0 Hc0 Hown0
              fuel Hfuel) as (p & Ep & Hap & Hpin & Hpnd).
  set (q := (r0, c0) :: p).
  assert (Hqnd : NoDup (map fst q)).
  { simpl. constructor; auto. }
  assert (F3 : forall x c, In (x, c) q -> x < n /\ c < n /\ cell s x c = Fin 0).
  { intros x c [E|Hin].
    - injection E as <- <-. auto.
    - destruct (@altpath_cells n s1 c0 p Hn Hc0 Hap x c Hin) as (H1 & H2 & H3 & _). auto. }
  assert (F4 : forall x, In x (map fst p) -> star s x <> NONE).
  { intros x Hx. destruct (in_pairs_fst _ _ Hx) as (c & Hin).
    destruct (@altpath_cells n s1 c0 p Hn Hc0 Hap x c Hin) as (_ & _ & _ & H). exact H. }
  assert (F5 : NoDup (map snd q)).
  { simpl. apply (@altpath_columns n s1 c0 p); auto. }
  assert (F6 : forall y c, y < n -> (exists x, In (x, c) q) -> star s y = N.of_nat c ->
                           In y (map fst q)).
  { intros y c Hy (x & Hin) Ey. simpl. right.
    apply (@altpath_owner n s1 c0 p Hn Hinj1 Hc0 Hap y Hy).
    destruct Hin as [E|Hin].
    - injection E as <- <-. now left.
    - right. eauto. }
  set (st' := starAll q (starredZeros s)).
  assert (F1 : forall x c, In (x, c) q -> nth x st' NONE = N.of_nat c).
  { intros x c Hin. apply starAll_in; auto.
    rewrite (sh_starredZeros Hs). now apply (F3 x c). }
  assert (F2 : forall x, ~ In x (map fst q) -> nth x st' NONE = star s x).
  { intros x Hx. now apply starAll_out. }
  (* the state after the stars are written and the covers cleared *)
  set (s6 := set_colCovered
               (set_rowCovered
                  (set_starredZeros (set_sequences s1 (map fst q) (map snd q)) st')
                  (fill false (rowCovered s)))
               (fill false (colCovered s))).
  assert (Ea : augment fuel s1 r0 c0 = Some (coverStarredColumns s6)).
  { unfold augment. rewrite extendSequence_alternating, alternating_sequences, Ep.
    pose proof (@starSequence_loop (set_sequences s1 (map fst q) (map snd q)) q
                  eq_refl eq_refl) as El.
    change (set_sequences (set_sequences s1 [r0] [c0])
              (rowSequence (set_sequences s1 [r0] [c0]) ++ map fst p)
              (colSequence (set_sequences s1 [r0] [c0]) ++ map snd p))
      with (set_sequences s1 (map fst q) (map snd q)).
    cbv zeta. rewrite El. reflexivity. }
  assert (Hs6 : shape n s6).
  { destruct Hs. unfold s6, s1, st'. shape_tac. }
  assert (Estar6 : forall x, star s6 x = nth x st' NONE) by reflexivity.
  assert (Hv6 : forall r, r < n -> star s6 r <> NONE ->
                exists c, c < n /\ star s6 r = N.of_nat c /\ cell s r c = Fin 0).
  { intros r Hr. rewrite Estar6. intros Hne.
    destruct (in_dec Nat.eq_dec r (map fst q)) as [Hin|Hni].
    - destruct (in_pairs_fst _ _ Hin) as (c & Hc).
      exists c. rewrite (F1 r c Hc). destruct (F3 r c Hc) as (_ & H2 & H3). auto.
    - rewrite F2 in * by auto. apply (core_star HC Hr Hne). }
  destruct (@coverStarredColumns_spec n s6 Hn Hs6) as (E7 & Hl7 & Hc7).
  { intros r Hr Hne. destruct (Hv6 r Hr Hne) as (c & Hc & E & _). eauto. }
  set (s7 := coverStarredColumns s6) in *.
  assert (Hs7 : shape n s7).
  { rewrite E7. destruct Hs6. shape_tac. }
  assert (Estar7 : forall x, star s7 x = nth x st' NONE) by (rewrite E7; reflexivity).
  assert (Ecell7 : forall x y, cell s7 x y = cell s x y) by (rewrite E7; reflexivity).
  assert (Erow7 : forall x, x < n -> nth x (rowCovered s7) true = false).
  { intros x Hx. rewrite E7. cbn. apply nth_fill. now rewrite (sh_rowCovered Hs). }
  exists s7. split; [exact Ea|].
  split; [|split; [|split; [|split; [|split; [|split; [|split]]]]]].
  - constructor; auto.
    + intros r c Hr Hc. rewrite Ecell7. apply (core_nonneg HC); auto.
    + intros r c Hr. rewrite Ecell7.
      replace (zeros s7) with (zeros s) by (rewrite E7; reflexivity).
      now apply (core_zeros HC).
    + intros r Hr. rewrite Estar7, <- Estar6. intros Hne.
      destruct (Hv6 r Hr Hne) as (c & Hc & E & Hz). exists c. rewrite Ecell7. auto.
    + intros r1 r2 Hr1 Hr2. rewrite !Estar7. intros E Hne.
      destruct (in_dec Nat.eq_dec r1 (map fst q)) as [H1|H1];
        destruct (in_dec Nat.eq_dec r2 (map fst q)) as [H2|H2].
      * destruct (in_pairs_fst _ _ H1) as (c1 & Hc1).
        destruct (in_pairs_fst _ _ H2) as (c2 & Hc2).
        rewrite (F1 _ _ Hc1), (F1 _ _ Hc2) in E. apply Nat2N.inj in E. subst c2.
        apply (@NoDup_snd_inj q r1 r2 c1 F5 Hc1 Hc2).
      * destruct (in_pairs_fst _ _ H1) as (c1 & Hc1).
        rewrite (F1 _ _ Hc1), (F2 _ H2) in E.
        exfalso. apply H2. apply (F6 r2 c1); eauto.
      * destruct (in_pairs_fst _ _ H2) as (c2 & Hc2).
        rewrite (F1 _ _ Hc2), (F2 _ H1) in E.
        exfalso. apply H1. apply (F6 r1 c2); eauto.
      * rewrite (F2 _ H1), (F2 _ H2) in E. rewrite (F2 _ H1) in Hne.
        apply (core_inj HC); auto.
  - constructor.
    + intros r. simpl. split; [tauto|]. intros [Hr Hcov].
      rewrite Erow7 in Hcov by auto. discriminate.
    + exact I.
    + intros c Hc Hcov. apply (Hc7 c Hc) in Hcov.
      destruct Hcov as [Hcov|(r & Hr & Er)].
      * exfalso. unfold s6 in Hcov. cbn [colCovered set_colCovered] in Hcov.
        rewrite nth_fill in Hcov by now rewrite (sh_colCovered Hs). discriminate.
      * exists r. rewrite Estar7, <- Estar6. auto.
    + intros r c Hr Hc _. rewrite Estar7, <- Estar6. intros Er.
      apply (Hc7 c Hc). right. eauto.
  - rewrite E7. reflexivity.
  - rewrite E7. reflexivity.
  - rewrite E7. reflexivity.
  - rewrite E7. reflexivity.
  - rewrite Estar7, (F1 r0 c0) by now left. now apply fits_ne with n.
  - intros r Hr Hne. rewrite Estar7.
    destruct (in_dec Nat.eq_dec r (map fst q)) as [Hin|Hni].
    + destruct (in_pairs_fst _ _ Hin) as (c & Hc).
      rewrite (F1 _ _ Hc). destruct (F3 _ _ Hc) as (_ & Hcn & _).
      split; intros _.
      * apply F4. simpl in Hin. destruct Hin; [congruence|auto].
      * now apply fits_ne with n.
    + rewrite (F2 _ Hni). tauto.
Qed.
(** ** The loop of [iterate] *)

(** The rows with a star. *)
Definition starredRows (n : nat) (s : Hungarian) : list nat :=
  filter (fun r => negb (N.eqb (star s r) NONE)) (seq 0 n).

Lemma filter_length_flip (f g : nat -> bool) (l : list nat) (x : nat) :
  NoDup l -> In x l -> f x = false -> g x = true ->
  (forall y, In y l -> y <> x -> g y = f y) ->
  length (filter g l) = S (length (filter f l)).
Proof.
  induction l as [|a l IH]; intros Hnd Hin Hf Hg Hfg; [destruct Hin|].
  inversion Hnd as [|? ? Hni Hnd']; subst. simpl.
  destruct Hin as [->|Hin].
  - rewrite Hf, Hg. simpl. f_equal.
    f_equal. apply filter_ext_in. intros y Hy. apply Hfg; [now right|congruence].
  - assert (a <> x) by congruence.
    rewrite (Hfg a) by (auto; now left).
    assert (E : length (filter g l) = S (length (filter f l))).
    { apply IH; auto. intros; apply Hfg; auto; now right. }
    destruct (f a); simpl; rewrite E; reflexivity.
Qed.

Lemma searchZeros_S (inner fuel : nat) (s : Hungarian) :
  searchZeros inner (S fuel) s =
  match findUncoveredZero s with
  | None => Some (inr s)
  | Some (r, c) =>
      if N.eqb (star s r) NONE then
        match augment inner (set_primedZeros s (upd r c (primedZeros s))) r c with
        | None => None
        | Some s' => Some (inl s')
        end
      else searchZeros inner fuel (primeAndCover s r c)
  end.
Proof.
  simpl. destruct (findUncoveredZero s) as [[r c]|]; reflexivity.
Qed.

Lemma Cover_room (n : nat) (s : Hungarian) (order : list nat) (r : nat) :
  Cover n s order -> r < n -> nth r (rowCovered s) true = false ->
  length order < n.
Proof.
  intros HV Hr Hcov.
  destruct (chain_rows _ _ _ (cov_chain HV)) as [Hnd Hlt].
  assert (Hni : ~ In r order).
  { intros Hin. apply (cov_order HV) in Hin. destruct Hin. congruence. }
  assert (H : length (r :: order) <= length (seq 0 n)).
  { apply NoDup_incl_length; [now constructor|].
    intros x [<-|Hx]; apply in_seq; [lia|]. specialize (Hlt x Hx). lia. }
  rewrite length_seq in H. simpl in H. lia.
Qed.

(** What the loop of [iterate] leaves: an augmentation, or a state without an
    uncovered zero in which more rows are covered. *)
Lemma searchZeros_inv (n inner : nat) :
  fits n -> n <= inner ->
  forall fuel s order,
    Core n s -> Cover n s order -> n <= fuel + length order ->
    match searchZeros inner fuel s with
    | None => False
    | Some (inl s') =>
        Core n s' /\ Cover n s' [] /\ cost s' = cost s /\ zeros s' = zeros s /\
        length (starredRows n s') = S (length (starredRows n s))
    | Some (inr s1) =>
        exists order1,
          Core n s1 /\ Cover n s1 order1 /\ findUncoveredZero s1 = None /\
          starredZeros s1 = starredZeros s /\ cost s1 = cost s /\ zeros s1 = zeros s /\
          length order <= length order1 /\
          (findUncoveredZero s <> None -> length order < length order1) /\
          (forall c, nth c (colCovered s) true = false ->
                     nth c (colCovered s1) true = false)
    end.
Proof.
  intros Hn Hinner. induction fuel as [|f IH]; intros s order HC HV Hfuel.
  - assert (E : findUncoveredZero s = None).
    { destruct (findUncoveredZero s) as [[r c]|] eqn:E; auto.
      destruct (findUncoveredZero_Some _ E) as (Hr & Hcov & _).
      rewrite (sh_numRow (core_shape HC)) in Hr.
      pose proof (Cover_room HV Hr Hcov). simpl in Hfuel. exfalso. lia. }
    simpl. rewrite E. exists order.
    repeat (split; [auto; fail|]); auto. split; [congruence|auto].
  - rewrite searchZeros_S.
    destruct (findUncoveredZero s) as [[r c]|] eqn:E.
    + destruct (findUncoveredZero_Some _ E) as (Hr & Hcov & _).
      rewrite (sh_numRow (core_shape HC)) in Hr.
      pose proof (Cover_room HV Hr Hcov) as Hroom.
      destruct (N.eqb_spec (star s r) NONE) as [Es|Es].
      * destruct (@augment_inv n s order r c inner Hn HC HV E Es ltac:(lia))
          as (s' & Ea & HC' & HV' & Ec & Ez & _ & _ & Hr0 & Hrest).
        rewrite Ea. refine (conj HC' (conj HV' (conj Ec (conj Ez _)))).
        unfold starredRows.
        apply filter_length_flip with (x := r).
        -- apply seq_NoDup.
        -- apply in_seq. lia.
        -- rewrite Es. reflexivity.
        -- apply negb_true_iff. now apply N.eqb_neq.
        -- intros y Hy Hne. apply in_seq in Hy.
           destruct (Hrest y ltac:(lia) Hne) as [H1 H2].
           destruct (N.eqb_spec (star s' y) NONE) as [E1|E1];
             destruct (N.eqb_spec (star s y) NONE) as [E2|E2]; simpl; auto.
           ++ now apply H2 in E2.
           ++ now apply H1 in E1.
      * destruct (@primeAndCover_inv n s order r c Hn HC HV E Es) as [HC1 HV1].
        specialize (IH (primeAndCover s r c) (r :: order) HC1 HV1
                      ltac:(simpl; lia)).
        destruct (searchZeros inner f (primeAndCover s r c)) as [[s'|s1]|]; auto.
        destruct IH as (order1 & H1 & H2 & H3 & H4 & H5 & H6 & H7 & H8 & H9).
        exists order1.
        refine (conj H1 (conj H2 (conj H3 (conj H4 (conj H5 (conj H6 _)))))).
        simpl in H7. split; [lia|]. split; [intros _; lia|].
        intros y Hy. apply H9. unfold primeAndCover. proj_simpl.
        rewrite nth_upd. destruct (_ && _); auto.
    + exists order.
      repeat (split; [auto; fail|]); auto. split; [congruence|auto].
Qed.
(** ** The cost update keeps the invariants *)

Lemma chain_in (n : nat) (s : Hungarian) (l : list nat) (r : nat) :
  chain n s l -> In r l ->
  (exists c0, c0 < n /\ star s r = N.of_nat c0 /\ nth c0 (colCovered s) true = false) /\
  nth r (primedZeros s) 0 < n /\
  cell s r (nth r (primedZeros s) 0) = Fin 0 /\
  nth (nth r (primedZeros s) 0) (colCovered s) true = false.
Proof.
  induction l as [|x l IH]; intros Hch Hin; [destruct Hin|].
  simpl in Hch. destruct Hch as (_ & _ & Hch & H1 & H2 & H3 & H4 & _).
  destruct Hin as [<-|Hin]; auto.
Qed.

Lemma Cover_ext (n : nat) (s s' : Hungarian) (order : list nat) :
  shape n s -> shape n s' ->
  rowCovered s' = rowCovered s -> colCovered s' = colCovered s ->
  starredZeros s' = starredZeros s -> primedZeros s' = primedZeros s ->
  cost s' = cost s ->
  Cover n s order -> Cover n s' order.
Proof.
  intros Hs Hs' Er Ec Est Ep Eco [H1 H2 H3 H4].
  assert (Estar : forall r, star s' r = star s r) by (intros; unfold star; now rewrite Est).
  assert (Ecell : forall r c, cell s' r c = cell s r c).
  { intros r c. unfold cell. now rewrite Eco, (sh_index Hs), (sh_index Hs'). }
  constructor.
  - intros r. rewrite Er. apply H1.
  - apply chain_ext with s; auto.
    + intros r _. now rewrite Ep.
    + intros r _. now rewrite Ecell.
    + intros c. now rewrite Ec.
  - intros c Hc. rewrite Ec. intros Hcov.
    destruct (H3 c Hc Hcov) as (r & Hr & E1 & E2). exists r. now rewrite Estar, Er.
  - intros r c Hr Hc. rewrite Er, Estar, Ec. now apply H4.
Qed.

Lemma Tsub_Tadd (x : T) (h : Z) : Tsub (Tadd x h) h = x.
Proof. destruct x; simpl; auto. f_equal. lia. Qed.

Lemma update_inv (n : nat) (s : Hungarian) (order : list nat) (hz : Z) :
  fits n -> Core n s -> Cover n s order -> findUncoveredZero s = None ->
  partitioned s -> colInds_ok n s ->
  (forall c, In c (colInds s) <-> c < n /\ nth c (colCovered s) true = false) ->
  (forall r c, r < n -> nth r (rowCovered s) true = false -> In c (colInds s) ->
     Tle (Fin hz) (cell s r c)) ->
  (exists r c, r < n /\ nth r (rowCovered s) true = false /\ In c (colInds s) /\
               cell s r c = Fin hz) ->
  let s' := updateCosts hz s in
  Core n s' /\ Cover n s' order /\ findUncoveredZero s' <> None /\
  rowCovered s' = rowCovered s /\ colCovered s' = colCovered s /\
  starredZeros s' = starredZeros s /\
  (forall r c, r < n -> c < n ->
     cell s' r c = updatedCost hz (nth r (rowCovered s) true)
                     (negb (nth c (colCovered s) true)) (cell s r c)).
Proof.
  intros Hn HC HV Hnone Hpart Hci Hcols Hlow (ra & ca & Hra & Hrca & Hcain & Ea).
  cbn zeta. pose proof (core_shape HC) as Hs.
  destruct (@updateCosts_spec n hz s Hs Hpart Hci) as ((cs & zs & E) & Hs' & Hcell & Hzeros).
  set (s' := updateCosts hz s) in *.
  assert (Hinb : forall c, c < n -> inb c (colInds s) = negb (nth c (colCovered s) true)).
  { intros c Hc. destruct (nth c (colCovered s) true) eqn:Ecov; simpl.
    - apply inb_false. rewrite Hcols. intros [_ H]. congruence.
    - apply inb_true. rewrite Hcols. auto. }
  assert (Hcell' : forall r c, r < n -> c < n ->
     cell s' r c = updatedCost hz (nth r (rowCovered s) true)
                     (negb (nth c (colCovered s) true)) (cell s r c)).
  { intros r c Hr Hc. rewrite (Hcell r c Hr Hc), (Hinb c Hc). reflexivity. }
  assert (Hpos : (0 < hz)%Z).
  { pose proof (core_nonneg HC Hra (proj1 (proj1 (Hcols ca) Hcain))) as Hnn.
    rewrite Ea in Hnn. apply Tle_Fin in Hnn.
    destruct (Z.eq_dec hz 0) as [->|]; [|lia]. exfalso.
    assert (Hin : In ca (nth ra (zeros s) [])).
    { apply (core_zeros HC); auto. split; auto. apply Hcols. auto. }
    rewrite <- (sh_numRow Hs) in Hra.
    pose proof (@findUncoveredZero_None s ra ca Hnone Hra Hrca Hin) as Hc.
    apply Hcols in Hcain. destruct Hcain. congruence. }
  assert (Er : rowCovered s' = rowCovered s) by (rewrite E; reflexivity).
  assert (Ec : colCovered s' = colCovered s) by (rewrite E; reflexivity).
  assert (Est : starredZeros s' = starredZeros s) by (rewrite E; reflexivity).
  assert (Ep : primedZeros s' = primedZeros s) by (rewrite E; reflexivity).
  assert (Estar : forall r, star s' r = star s r) by (intros; unfold star; now rewrite Est).
  (* a cell in a covered row and an uncovered column, or in an uncovered row
     and a covered column, keeps its cost *)
  assert (Hkeep1 : forall r c, r < n -> c < n -> nth r (rowCovered s) true = true ->
                     nth c (colCovered s) true = false -> cell s' r c = cell s r c).
  { intros r c Hr Hc H1 H2. rewrite Hcell', H1, H2 by auto. apply Tsub_Tadd. }
  assert (Hkeep2 : forall r c, r < n -> c < n -> nth r (rowCovered s) true = false ->
                     nth c (colCovered s) true = true -> cell s' r c = cell s r c).
  { intros r c Hr Hc H1 H2. rewrite Hcell', H1, H2 by auto. reflexivity. }
  assert (Hstar' : forall r c, r < n -> c < n -> star s r = N.of_nat c ->
                     cell s' r c = cell s r c).
  { intros r c Hr Hc Es.
    destruct (nth r (rowCovered s) true) eqn:Ecov.
    - apply Hkeep1; auto.
      assert (Hin : In r order) by (apply (cov_order HV); auto).
      destruct (chain_in _ _ _ _ (cov_chain HV) Hin) as ((c0 & Hc0 & E0 & Hu) & _).
      rewrite Es in E0. apply Nat2N.inj in E0. now subst.
    - apply Hkeep2; auto. exact (cov_row HV Hr Hc Ecov Es). }
  assert (HC' : Core n s').
  { constructor; auto.
    - intros r c Hr Hc. rewrite Hcell' by auto.
      pose proof (core_nonneg HC Hr Hc) as Hnn. unfold updatedCost.
      destruct (nth r (rowCovered s) true) eqn:Ecov;
        destruct (nth c (colCovered s) true) eqn:Ecc; simpl; auto.
      + destruct (cell s r c); simpl; auto. apply Tle_Fin in Hnn. apply Tle_Fin. lia.
      + now rewrite Tsub_Tadd.
      + assert (Hl : Tle (Fin hz) (cell s r c)).
        { apply Hlow; auto. apply Hcols. auto. }
        destruct (cell s r c); simpl; auto. apply Tle_Fin in Hl. apply Tle_Fin. lia.
    - intros r c Hr. rewrite (Hzeros r Hr), in_app_iff, filter_In.
      split.
      + intros [Hin|[Hin Hz]].
        * destruct (nth r (rowCovered s) true) eqn:Ecov; [destruct Hin|].
          pose proof Hin as Hin'.
          apply (core_zeros HC) in Hin; auto. destruct Hin as [Hc Hz].
          split; auto. rewrite Hkeep2; auto.
          apply (@findUncoveredZero_None s r c); auto. now rewrite (sh_numRow Hs).
        * apply Teqb_eq in Hz. split; auto. now apply Hcols in Hin.
      + intros [Hc Hz].
        destruct (nth c (colCovered s) true) eqn:Ecc.
        * left. rewrite Hcell', Ecc in Hz by auto. unfold updatedCost in Hz.
          simpl in Hz.
          pose proof (core_nonneg HC Hr Hc) as Hnn.
          destruct (nth r (rowCovered s) true) eqn:Ecov.
          -- exfalso. destruct (cell s r c); simpl in Hz; [|discriminate].
             apply Tle_Fin in Hnn. injection Hz as Hz. lia.
          -- apply (core_zeros HC); auto.
        * right. split; [apply Hcols; auto|]. apply Teqb_eq. auto.
    - intros r Hr. rewrite Estar. intros Hne.
      destruct (core_star HC Hr Hne) as (c & Hc & Es & Hz).
      exists c. rewrite Hstar'; auto.
    - intros r1 r2 Hr1 Hr2. rewrite !Estar. now apply (core_inj HC). }
  refine (conj HC' (conj _ (conj _ (conj Er (conj Ec (conj Est Hcell')))))).
  - destruct HV as [H1 H2 H3 H4]. constructor.
    + intros r. rewrite Er. apply H1.
    + apply chain_ext with s; auto.
      * intros r _. now rewrite Ep.
      * intros r Hin Hz.
        destruct (chain_in _ _ _ _ H2 Hin) as (_ & Hp & _ & Hu).
        apply H1 in Hin. destruct Hin as [Hr Hcov].
        rewrite Hkeep1; auto.
      * intros c. now rewrite Ec.
    + intros c Hc. rewrite Ec. intros Hcov.
      destruct (H3 c Hc Hcov) as (r & Hr & E1 & E2). exists r. now rewrite Estar, Er.
    + intros r c Hr Hc. rewrite Er, Estar, Ec. now apply H4.
  - intros Hnone'.
    assert (Hca : ca < n) by now apply Hcols in Hcain.
    assert (Hz : cell s' ra ca = Fin 0).
    { rewrite Hcell', Hrca by auto. apply Hcols in Hcain. destruct Hcain as [_ ->].
      unfold updatedCost. simpl. rewrite Ea. simpl. f_equal. lia. }
    assert (Hin : In ca (nth ra (zeros s') [])) by (apply (core_zeros HC'); auto).
    rewrite <- (sh_numRow Hs') in Hra. rewrite <- Er in Hrca.
    pose proof (@findUncoveredZero_None s' ra ca Hnone' Hra Hrca Hin) as Hc.
    rewrite Ec in Hc. apply Hcols in Hcain. destruct Hcain. congruence.
Qed.
(** ** One call of [iterate] *)

(** [s'] holds the costs of [s] less an amount per row and an amount per
    column. *)
Definition reduces (n : nat) (s s' : Hungarian) : Prop :=
  exists u v : nat -> Z,
    forall r c, r < n -> c < n -> cell s' r c = Tsub (cell s r c) (u r + v c).

Lemma Tsub_0 (x : T) : Tsub x 0 = x.
Proof. destruct x; simpl; auto. f_equal. lia. Qed.

Lemma Tsub_Tsub (x : T) (a b : Z) : Tsub (Tsub x a) b = Tsub x (a + b).
Proof. destruct x; simpl; auto. f_equal. lia. Qed.

Lemma reduces_refl (n : nat) (s : Hungarian) : reduces n s s.
Proof.
  exists (fun _ => 0%Z), (fun _ => 0%Z). intros. now rewrite Tsub_0.
Qed.

Lemma reduces_eq (n : nat) (s s' : Hungarian) :
  (forall r c, r < n -> c < n -> cell s' r c = cell s r c) -> reduces n s s'.
Proof.
  intros H. exists (fun _ => 0%Z), (fun _ => 0%Z). intros. rewrite Tsub_0. auto.
Qed.

Lemma reduces_trans (n : nat) (s1 s2 s3 : Hungarian) :
  reduces n s1 s2 -> reduces n s2 s3 -> reduces n s1 s3.
Proof.
  intros (u1 & v1 & H1) (u2 & v2 & H2).
  exists (fun r => (u1 r + u2 r)%Z), (fun c => (v1 c + v2 c)%Z).
  intros r c Hr Hc. rewrite H2, H1, Tsub_Tsub by auto. f_equal. lia.
Qed.

Lemma updatedCost_Tsub (h : Z) (a b : bool) (x : T) :
  updatedCost h a b x =
  Tsub x ((if a then - h else 0) + (if b then h else 0)).
Proof.
  unfold updatedCost. destruct a, b, x; simpl; auto; f_equal; lia.
Qed.

Lemma forallb_fill_true (l : list bool) : forallb (fun b => b) (fill true l) = true.
Proof. induction l; simpl; auto. Qed.

(** The state in which the search ends without a zero, once the uncovered
    columns are listed, the rows dealt out and the minimum taken. *)
Lemma minimum_inv (n : nat) (s1 : Hungarian) :
  shape n s1 ->
  let s3 := rebalanceWorkers (fillColInds s1) in
  let h := fst (findMinUncoveredCost s3) in
  let s4 := snd (findMinUncoveredCost s3) in
  (exists ci wr wc,
     s4 = set_workerCosts (set_workerRows (set_colInds s1 ci) wr) wc) /\
  shape n s4 /\ partitioned s4 /\ colInds_ok n s4 /\
  (forall c, In c (colInds s4) <-> c < n /\ nth c (colCovered s1) true = false) /\
  (forall r c, r < n -> nth r (rowCovered s1) true = false -> In c (colInds s4) ->
     Tle h (cell s1 r c)) /\
  (h = Inf \/
   exists r c, r < n /\ nth r (rowCovered s1) true = false /\ In c (colInds s4) /\
               cell s1 r c = h).
Proof.
  intros Hs1. cbn zeta.
  destruct (@fillColInds_spec n s1 Hs1) as (E2 & Hci & Hcols).
  set (s2 := fillColInds s1) in *.
  destruct (rebalanceWorkers_frame s2) as (wr & E3).
  assert (Hs2 : shape n s2) by (rewrite E2; destruct Hs1; shape_tac).
  pose proof (rebalanceWorkers_partitioned (sh_pool Hs2)) as Hp3.
  set (s3 := rebalanceWorkers s2) in *.
  assert (Hs3 : shape n s3).
  { destruct Hp3 as (Hl & H0 & _). rewrite E3 in Hl, H0 |- *.
    destruct Hs2 as [? ? ? ? ? ? ? ? ? (Hw & _) ?].
    constructor; auto. repeat split; auto. }
  destruct (@findMinUncoveredCost_spec n s3 Hs3 Hp3) as (E4 & Hl4 & Hlow & Hatt).
  set (h := fst (findMinUncoveredCost s3)) in *.
  set (s4 := snd (findMinUncoveredCost s3)) in *.
  assert (E : s4 = set_workerCosts (set_workerRows (set_colInds s1 (colInds s2)) wr)
                     (workerCosts s4)).
  { rewrite E4 at 1. rewrite E3. rewrite E2 at 1. reflexivity. }
  assert (Hs4 : shape n s4).
  { rewrite E4. destruct Hs3. constructor; auto. }
  assert (Ec3 : colInds s3 = colInds s2) by (rewrite E3; reflexivity).
  assert (Ec4 : colInds s4 = colInds s2) by (rewrite E; reflexivity).
  assert (Er3 : rowCovered s3 = rowCovered s1) by (rewrite E3, E2; reflexivity).
  assert (Ecell3 : forall r c, cell s3 r c = cell s1 r c) by (rewrite E3, E2; reflexivity).
  split; [eauto|]. split; [exact Hs4|]. split; [|split; [|split; [|split]]].
  - rewrite E4. exact Hp3.
  - unfold colInds_ok. rewrite Ec4. exact Hci.
  - intros c. rewrite Ec4. apply Hcols.
  - intros r c Hr Hcov Hc. rewrite <- Ecell3. apply Hlow; auto; congruence.
  - destruct Hatt as [Hinf|(r & c & Hr & Hcov & Hc & Ecell)]; [now left|right].
    exists r, c. rewrite <- Ecell3. rewrite Ec4, <- Ec3, <- Er3. auto.
Qed.

(** What one call of [iterate] establishes, by the way it ends. *)
Definition after (n : nat) (s : Hungarian) (order : list nat) (o : outcome)
  (s' : Hungarian) : Prop :=
  Core n s' /\ reduces n s s' /\
  match o with
  | Augmented =>
      Cover n s' [] /\
      length (starredRows n s') = S (length (starredRows n s))
  | Updated =>
      exists order1,
        Cover n s' order1 /\ findUncoveredZero s' <> None /\
        starredZeros s' = starredZeros s /\
        length order <= length order1 /\
        (findUncoveredZero s <> None -> length order < length order1)
  | Exhausted =>
      starredZeros s' = starredZeros s /\
      forallb (fun b => b) (colCovered s') = true /\
      exists rc cc : list bool,
        (forall r, r < n -> nth r rc true = true -> star s r <> NONE) /\
        (forall c, c < n -> nth c cc true = true ->
           exists r, r < n /\ star s r = N.of_nat c) /\
        (forall c, nth c (colCovered s) true = false -> nth c cc true = false) /\
        (forall r c, r < n -> c < n -> nth r rc true = false ->
           nth c cc true = false -> cell s' r c = Inf)
  end.

Lemma iterate_inv (n inner : nat) (s : Hungarian) (order : list nat) :
  fits n -> n <= inner -> Core n s -> Cover n s order ->
  exists o s', iterate inner s = Some (o, s') /\ after n s order o s'.
Proof.
  intros Hn Hinner HC HV. unfold iterate.
  pose proof (@searchZeros_inv n inner Hn Hinner inner s order HC HV ltac:(lia)) as H.
  destruct (searchZeros inner inner s) as [[s'|s1]|]; [| |destruct H].
  - destruct H as (HC' & HV' & Ec & Ez & Hst).
    exists Augmented, s'. split; auto. split; auto. split; auto.
    apply reduces_eq. intros r c _ _. unfold cell.
    now rewrite Ec, (sh_index (core_shape HC)), (sh_index (core_shape HC')).
  - destruct H as (order1 & HC1 & HV1 & Hnone & Est & Ec & Ez & Hlen & Hlt & Hmono).
    pose proof (core_shape HC1) as Hs1.
    assert (Ecell1 : forall r c, cell s1 r c = cell s r c).
    { intros r c. unfold cell.
      now rewrite Ec, (sh_index (core_shape HC)), (sh_index Hs1). }
    destruct (@minimum_inv n s1 Hs1) as ((ci & wr & wc & E4) & Hs4 & Hp4 & Hci & Hcols
                                          & Hlow & Hatt).
    destruct (findMinUncoveredCost (rebalanceWorkers (fillColInds s1))) as [h s4].
    cbn [fst snd] in *.
    assert (HC4 : Core n s4).
    { apply Core_ext with s1; auto; rewrite E4; reflexivity. }
    assert (HV4 : Cover n s4 order1).
    { apply Cover_ext with s1; auto; rewrite E4; reflexivity. }
    assert (Er4 : rowCovered s4 = rowCovered s1) by (rewrite E4; reflexivity).
    assert (Ec4 : colCovered s4 = colCovered s1) by (rewrite E4; reflexivity).
    assert (Ecell4 : forall r c, cell s4 r c = cell s1 r c) by (rewrite E4; reflexivity).
    assert (Est4 : starredZeros s4 = starredZeros s1) by (rewrite E4; reflexivity).
    destruct h as [hz|].
    + (* a finite minimum: the costs are updated *)
      assert (Hnone4 : findUncoveredZero s4 = None) by (rewrite E4; exact Hnone).
      destruct (@update_inv n s4 order1 hz Hn HC4 HV4 Hnone4 Hp4 Hci)
        as (HC' & HV' & Hsome & Er' & Ec' & Est' & Hcell').
      * intros c. rewrite Ec4. apply Hcols.
      * intros r c. rewrite Er4, Ecell4. apply Hlow.
      * destruct Hatt as [Hinf|(r & c & Hatt)]; [discriminate|].
        exists r, c. now rewrite Er4, Ecell4.
      * exists Updated, (updateCosts hz s4). split; auto.
        split; [exact HC'|]. split.
        -- exists (fun r => if nth r (rowCovered s4) true then (- hz)%Z else 0%Z),
             (fun c => if negb (nth c (colCovered s4) true) then hz else 0%Z).
           intros r c Hr Hc. rewrite Hcell', updatedCost_Tsub, Ecell4, Ecell1 by auto.
           reflexivity.
        -- exists order1. split; auto. split; auto. split; [congruence|]. auto.
    + (* no finite cost is left *)
      set (s' := set_colCovered s4 (fill true (colCovered s4))).
      assert (Hs' : shape n s').
      { unfold s'. destruct Hs4. shape_tac. }
      exists Exhausted, s'. split; auto. split.
      { apply Core_ext with s4; auto. }
      split.
      { apply reduces_eq. intros r c _ _. unfold s'.
        change (cell (set_colCovered s4 (fill true (colCovered s4))) r c)
          with (cell s4 r c).
        now rewrite Ecell4, Ecell1. }
      split; [unfold s'; proj_simpl; congruence|].
      split; [apply forallb_fill_true|].
      exists (rowCovered s1), (colCovered s1).
      assert (Estar : forall r, star s1 r = star s r).
      { intros r. unfold star. now rewrite Est. }
      split; [|split; [|split]].
      * intros r Hr Hcov. rewrite <- Estar.
        assert (Hin : In r order1) by (apply (cov_order HV1); auto).
        destruct (chain_in _ _ _ _ (cov_chain HV1) Hin) as ((c0 & Hc0 & E0 & _) & _).
        rewrite E0. now apply fits_ne with n.
      * intros c Hc Hcov. destruct (cov_col HV1 Hc Hcov) as (r & Hr & Er & _).
        exists r. now rewrite <- Estar.
      * exact Hmono.
      * intros r c Hr Hc Hrcov Hccov.
        change (cell s' r c) with (cell s4 r c). rewrite Ecell4.
        assert (Hle : Tle Inf (cell s1 r c)).
        { apply Hlow; auto. apply Hcols. auto. }
        destruct (cell s1 r c); [discriminate Hle|reflexivity].
Qed.
(** ** The reduction of the matrix at the start of [compute] *)

Lemma Tmin_le_l (a b : T) : Tle (Tmin a b) a.
Proof.
  unfold Tmin. destruct (Tltb b a) eqn:E; [now apply Tltb_Tle|apply Tle_refl].
Qed.

Lemma Tmin_le_r (a b : T) : Tle (Tmin a b) b.
Proof.
  unfold Tmin. destruct (Tltb b a) eqn:E; [apply Tle_refl|exact E].
Qed.

Lemma Tmin_nonneg (a b : T) : Tle (Fin 0) a -> Tle (Fin 0) b -> Tle (Fin 0) (Tmin a b).
Proof. unfold Tmin. now destruct (Tltb b a). Qed.

Lemma reduceRow_spec (n : nat) (s : Hungarian) (colMin : list T) (row : nat) :
  shape n s -> length colMin = n -> row < n ->
  let s' := fst (reduceRow row (s, colMin)) in
  let colMin' := snd (reduceRow row (s, colMin)) in
  s' = set_cost s (cost s') /\ length (cost s') = n * n /\
  (exists u : Z, forall r c, r < n -> c < n ->
     mget n (cost s') r c =
     if r =? row then Tsub (mget n (cost s) r c) u else mget n (cost s) r c) /\
  (forall c, c < n -> Tle (Fin 0) (mget n (cost s') row c)) /\
  length colMin' = n /\
  (forall c, c < n ->
     nth c colMin' Inf = Tmin (mget n (cost s') row c) (nth c colMin Inf)).
Proof.
  intros Hs Hl Hrow. cbn zeta. unfold reduceRow.
  rewrite (shape_index Hs Hrow), (sh_numCol Hs).
  set (h := min_element (slice (row * n) n (cost s))).
  assert (Hsl : length (slice (row * n) n (cost s)) = n).
  { apply length_slice. rewrite (sh_cost Hs). nia. }
  assert (Hmin : forall c, c < n -> Tle h (mget n (cost s) row c)).
  { intros c Hc. rewrite <- nth_slice_row by auto. apply min_element_le.
    apply nth_In. now rewrite Hsl. }
  set (s' := match h with
             | Fin hz => set_cost s (transform_at (fun x => Tsub x hz) (row * n) n (cost s))
             | Inf => s
             end).
  assert (E' : s' = set_cost s (cost s')).
  { unfold s'. destruct h; [reflexivity|destruct s; reflexivity]. }
  assert (Hl' : length (cost s') = n * n).
  { unfold s'. destruct h; proj_simpl; rewrite ?length_transform_at; apply (sh_cost Hs). }
  assert (Hcell : forall r c, r < n -> c < n ->
            mget n (cost s') r c =
            if r =? row then Tsub (mget n (cost s) r c) (finiteOrZero h)
            else mget n (cost s) r c).
  { intros r c Hr Hc. unfold s'. destruct h as [hz|]; proj_simpl.
    - rewrite mget_transform_at; auto; [|apply (sh_cost Hs)].
      now rewrite (Nat.eqb_sym row r).
    - simpl. rewrite Tsub_0. now destruct (r =? row). }
  assert (Hnc : numCol s' = n) by (rewrite E'; apply (sh_numCol Hs)).
  cbn [fst snd]. rewrite Hnc.
  refine (conj E' (conj Hl' (conj _ (conj _ (conj _ _))))).
  - exists (finiteOrZero h). exact Hcell.
  - intros c Hc. rewrite Hcell, Nat.eqb_refl by auto.
    specialize (Hmin c Hc). destruct h as [hz|]; simpl.
    + destruct (mget n (cost s) row c); simpl; auto.
      apply Tle_Fin in Hmin. apply Tle_Fin. lia.
    + destruct (mget n (cost s) row c); [discriminate Hmin|reflexivity].
  - rewrite length_map2, Hl. rewrite length_slice; [lia|]. rewrite Hl'. nia.
  - intros c Hc. rewrite (nth_map2 Tmin _ _ Inf Inf Inf).
    + now rewrite nth_slice_row.
    + rewrite length_slice; [lia|]. rewrite Hl'. nia.
    + lia.
Qed.

(** After the row loop: every row is reduced by an amount, no cost is
    negative, and [colMin] is a lower bound of every column that is not
    negative either. *)
Lemma reduceRows_spec (n : nat) (s : Hungarian) :
  shape n s ->
  let s' := fst (for_range 0 n reduceRow (s, repeat vFill n)) in
  let colMin := snd (for_range 0 n reduceRow (s, repeat vFill n)) in
  s' = set_cost s (cost s') /\ length (cost s') = n * n /\
  (exists u : nat -> Z, forall r c, r < n -> c < n ->
     mget n (cost s') r c = Tsub (mget n (cost s) r c) (u r)) /\
  (forall r c, r < n -> c < n -> Tle (Fin 0) (mget n (cost s') r c)) /\
  length colMin = n /\
  (forall c, c < n -> Tle (Fin 0) (nth c colMin Inf)) /\
  (forall r c, r < n -> c < n -> Tle (nth c colMin Inf) (mget n (cost s') r c)).
Proof.
  intros Hs. cbn zeta.
  pose (P := fun (k : nat) (st : Hungarian * list T) =>
    let s' := fst st in let colMin := snd st in
    s' = set_cost s (cost s') /\ length (cost s') = n * n /\
    (exists u : nat -> Z, forall r c, r < n -> c < n ->
       mget n (cost s') r c =
       if r <? k then Tsub (mget n (cost s) r c) (u r) else mget n (cost s) r c) /\
    (forall r c, r < k -> c < n -> Tle (Fin 0) (mget n (cost s') r c)) /\
    length colMin = n /\
    (forall c, c < n -> Tle (Fin 0) (nth c colMin Inf)) /\
    (forall r c, r < k -> c < n -> Tle (nth c colMin Inf) (mget n (cost s') r c))).
  assert (H : P n (for_range 0 n reduceRow (s, repeat vFill n))).
  { apply for_range_inv; [lia| |].
    - unfold P. cbn [fst snd].
      split; [destruct s; reflexivity|]. split; [apply (sh_cost Hs)|].
      split; [exists (fun _ => 0%Z); intros; cbn beta; rewrite Tsub_0;
              now destruct (r <? 0)|].
      split; [intros; lia|]. split; [apply repeat_length|].
      split; [|intros; lia].
      intros c Hc. unfold vFill. rewrite nth_repeat_lt by auto. reflexivity.
    - intros k [t colMin] Hk (Et & Hlt & (u & Hu) & Hnn & Hlc & Hcn & Hcl).
      cbn [fst snd] in *.
      assert (Ht : shape n t).
      { rewrite Et. destruct Hs. shape_tac. }
      destruct (@reduceRow_spec n t colMin k Ht Hlc ltac:(lia))
        as (Et' & Hlt' & (uk & Huk) & Hnnk & Hlc' & Hck).
      destruct (reduceRow k (t, colMin)) as [t' colMin']. cbn [fst snd] in *.
      unfold P. cbn [fst snd].
      split; [rewrite Et', Et; reflexivity|]. split; [exact Hlt'|].
      split; [|split; [|split; [exact Hlc'|split]]].
      + exists (fun r => if r =? k then uk else u r).
        intros r c Hr Hc. rewrite Huk, Hu by auto.
        destruct (Nat.eqb_spec r k) as [->|Hne].
        * destruct (Nat.ltb_spec k k); [lia|].
          destruct (Nat.ltb_spec k (S k)); [reflexivity|lia].
        * destruct (Nat.ltb_spec r k); destruct (Nat.ltb_spec r (S k)); auto; lia.
      + intros r c Hr Hc. destruct (Nat.eq_dec r k) as [->|Hne]; [now apply Hnnk|].
        rewrite Huk by (auto; lia). destruct (Nat.eqb_spec r k); [lia|].
        apply Hnn; auto; lia.
      + intros c Hc. rewrite Hck by auto. apply Tmin_nonneg; auto.
      + intros r c Hr Hc. rewrite Hck by auto.
        destruct (Nat.eq_dec r k) as [->|Hne]; [apply Tmin_le_l|].
        eapply Tle_trans; [apply Tmin_le_r|].
        rewrite Huk by (auto; lia). destruct (Nat.eqb_spec r k); [lia|].
        apply Hcl; auto; lia. }
  destruct H as (H1 & H2 & (u & H3) & H4 & H5 & H6 & H7).
  refine (conj H1 (conj H2 (conj _ (conj H4 (conj H5 (conj H6 H7)))))).
  exists u. intros r c Hr Hc. rewrite H3 by auto.
  destruct (Nat.ltb_spec r n); [reflexivity|lia].
Qed.
Lemma reduceCols_spec (n : nat) (s : Hungarian) (colMin : list Z) :
  shape n s -> length colMin = n ->
  let s' := for_range 0 n (reduceCol colMin) s in
  s' = set_cost s (cost s') /\ length (cost s') = n * n /\
  forall r c, r < n -> c < n ->
    mget n (cost s') r c = Tsub (mget n (cost s) r c) (nth c colMin 0%Z).
Proof.
  intros Hs Hl. cbn zeta.
  pose (P := fun (k : nat) (t : Hungarian) =>
    t = set_cost s (cost t) /\ length (cost t) = n * n /\
    forall r c, r < n -> c < n ->
      mget n (cost t) r c =
      if r <? k then Tsub (mget n (cost s) r c) (nth c colMin 0%Z)
      else mget n (cost s) r c).
  assert (H : P n (for_range 0 n (reduceCol colMin) s)).
  { apply for_range_inv; [lia| |].
    - split; [destruct s; reflexivity|]. split; [apply (sh_cost Hs)|].
      intros r c _ _. destruct (Nat.ltb_spec r 0); [lia|reflexivity].
    - intros k t Hk (Et & Hlt & Hc).
      assert (Ht : shape n t) by (rewrite Et; destruct Hs; shape_tac).
      unfold reduceCol. rewrite (shape_index Ht) by lia.
      split; [rewrite Et; reflexivity|]. proj_simpl.
      split; [now rewrite length_transform2_at|].
      intros r c Hr Hcn. rewrite (mget_transform2_at Tsub 0%Z) by auto.
      rewrite Hc by auto.
      destruct (Nat.eqb_spec k r) as [->|Hne].
      + destruct (Nat.ltb_spec r r); [lia|].
        destruct (Nat.ltb_spec r (S r)); [reflexivity|lia].
      + destruct (Nat.ltb_spec r k); destruct (Nat.ltb_spec r (S k)); auto; lia. }
  destruct H as (H1 & H2 & H3). refine (conj H1 (conj H2 _)).
  intros r c Hr Hc. rewrite H3 by auto. destruct (Nat.ltb_spec r n); [reflexivity|lia].
Qed.

(** The loop of [compute] that covers the column of every star. *)
Lemma coverStarred_loop (n : nat) (s : Hungarian) :
  fits n -> shape n s ->
  (forall r, r < n -> star s r <> NONE -> exists c, c < n /\ star s r = N.of_nat c) ->
  let s' := for_each (starredZeros s) coverStarred s in
  s' = set_colCovered s (colCovered s') /\
  length (colCovered s') = n /\
  forall c, c < n ->
    (nth c (colCovered s') true = true <->
     nth c (colCovered s) true = true \/ exists r, r < n /\ star s r = N.of_nat c).
Proof.
  intros Hn Hs Hv. cbn zeta.
  pose (P := fun (pre : list N) (t : Hungarian) =>
    t = set_colCovered s (colCovered t) /\
    length (colCovered t) = n /\
    forall c, c < n ->
      (nth c (colCovered t) true = true <->
       nth c (colCovered s) true = true \/
       exists r, r < length pre /\ star s r = N.of_nat c)).
  assert (H : P (starredZeros s) (for_each (starredZeros s) coverStarred s)).
  { apply for_each_inv; unfold P; cbn beta.
    - split; [destruct s; reflexivity|]. split; [apply (sh_colCovered Hs)|].
      intros c _. split; [auto|]. intros [H|(r & Hr & _)]; [auto|simpl in Hr; lia].
    - intros pre x t (post & Epre) (Et & Hl & Hc).
      assert (Hk : length pre < n).
      { rewrite <- (sh_starredZeros Hs), Epre, length_app. simpl. lia. }
      assert (Ex : star s (length pre) = x).
      { unfold star. rewrite Epre, app_nth2, Nat.sub_diag by lia. reflexivity. }
      unfold coverStarred. rewrite length_app. change (length [x]) with 1.
      destruct (N.eqb_spec NONE x) as [E|E]; cbn [negb].
      + split; auto. split; auto. intros c Hcn. rewrite (Hc c Hcn).
        split; (intros [H|(r & Hr & Er)]; [now left|right]).
        * exists r. split; [lia|auto].
        * exists r. split; auto.
          destruct (Nat.eq_dec r (length pre)) as [->|]; [|lia].
          rewrite Ex, <- E in Er. symmetry in Er.
          now apply fits_ne with (n := n) in Er.
      + destruct (Hv (length pre) Hk) as (c0 & Hc0 & E0); [congruence|].
        rewrite Ex in E0. rewrite E0, Nat2N.id. proj_simpl.
        split; [rewrite Et; reflexivity|]. split; [now rewrite length_upd|].
        intros c Hcn. rewrite nth_upd, Hl.
        destruct (Nat.eqb_spec c0 c) as [->|Hne]; simpl.
        * destruct (Nat.ltb_spec c n); [|lia]. split; auto.
          intros _. right. exists (length pre). split; [lia|congruence].
        * rewrite (Hc c Hcn).
          split; (intros [H|(r & Hr & Er)]; [now left|right]).
          -- exists r. split; [lia|auto].
          -- exists r. split; auto.
             destruct (Nat.eq_dec r (length pre)) as [->|]; [|lia].
             rewrite Ex, E0 in Er. apply Nat2N.inj in Er. congruence. }
  destruct H as (H1 & H2 & H3). refine (conj H1 (conj H2 _)).
  intros c Hc. rewrite (H3 c Hc), (sh_starredZeros Hs). reflexivity.
Qed.
(** ** The scan of the matrix that lists and stars the zeros *)

(** The invariant of the two nested loops, before the cell [(row, col)];
    [s0] is the state before the scan. *)
Record Scan (n : nat) (s0 : Hungarian) (row col : nat) (t : Hungarian) : Prop := {
  scan_shape : shape n t;
  scan_cost : cost t = cost s0;
  scan_zeros : forall r c, r < n ->
    (In c (nth r (zeros t) []) <->
     c < n /\ cell t r c = Fin 0 /\ (r < row \/ (r = row /\ c < col)));
  scan_star : forall r, r < n -> star t r <> NONE ->
    exists c, c < n /\ star t r = N.of_nat c /\ cell t r c = Fin 0;
  scan_inj : one_to_one n t;
  scan_row : forall r, r < n -> (nth r (rowCovered t) true = true <-> star t r <> NONE);
  scan_col : forall c, c < n ->
    (nth c (colCovered t) true = true <-> exists r, r < n /\ star t r = N.of_nat c)
}.

Lemma Scan_next_row (n : nat) (s0 t : Hungarian) (row : nat) :
  Scan n s0 row n t -> Scan n s0 (S row) 0 t.
Proof.
  intros [H1 H2 H3 H4 H5 H6 H7]. constructor; auto.
  intros r c Hr. rewrite (H3 r c Hr). split.
  - intros (Hc & Hz & Hrc). split; auto. split; auto. lia.
  - intros (Hc & Hz & Hrc). split; auto. split; auto. lia.
Qed.

Lemma starCell_scan (n : nat) (s0 t : Hungarian) (row col : nat) :
  fits n -> row < n -> col < n ->
  Scan n s0 row col t -> Scan n s0 row (S col) (starCell row col t).
Proof.
  intros Hn Hrow Hcol [Hs Hco Hz Hst Hinj Hrc Hcc]. unfold starCell.
  destruct (Teqb (Fin 0) (cell t row col)) eqn:Ez.
  - apply Teqb_eq in Ez. symmetry in Ez.
    set (t1 := set_zeros t (upd row (nth row (zeros t) [] ++ [col]) (zeros t))).
    assert (Hz1 : forall r c, r < n ->
              (In c (nth r (zeros t1) []) <->
               c < n /\ cell t r c = Fin 0 /\ (r < row \/ (r = row /\ c < S col)))).
    { intros r c Hr. unfold t1. proj_simpl. rewrite nth_upd, (sh_zeros Hs).
      destruct (Nat.eqb_spec row r) as [<-|Hne]; simpl.
      - destruct (Nat.ltb_spec row n); [|lia].
        rewrite in_app_iff, (Hz row c Hrow). simpl. split.
        + intros [(Hc & Hzc & Hlt)|[<-|[]]]; (split; [auto|split; [auto|right; lia]]).
        + intros (Hc & Hzc & [Hlt|[_ Hlt]]); [lia|].
          destruct (Nat.eq_dec c col) as [->|]; [auto|].
          left. split; auto. split; auto. right. lia.
      - rewrite (Hz r c Hr). split; intros (Hc & Hzc & Hlt); (split; [auto|split; [auto|lia]]). }
    assert (Hs1 : shape n t1) by (unfold t1; destruct Hs; shape_tac).
    change (rowCovered t1) with (rowCovered t).
    change (colCovered t1) with (colCovered t).
    destruct (nth row (rowCovered t) true) eqn:Er; simpl.
    + constructor; auto.
    + destruct (nth col (colCovered t) true) eqn:Ec; simpl.
      * constructor; auto.
      * assert (Hnost : star t row = NONE).
        { destruct (N.eq_dec (star t row) NONE) as [E|E]; auto.
          apply (Hrc row Hrow) in E. congruence. }
        assert (Hnoown : forall r, r < n -> star t r <> N.of_nat col).
        { intros r Hr E. assert (H : nth col (colCovered t) true = true).
          { apply (Hcc col Hcol). eauto. }
          congruence. }
        set (t' := set_starredZeros _ _).
        assert (Estar : forall r, star t' r = if r =? row then N.of_nat col else star t r).
        { intros r. unfold star, t', t1. proj_simpl. rewrite nth_upd, (sh_starredZeros Hs).
          rewrite (Nat.eqb_sym r row). destruct (Nat.eqb_spec row r); simpl; auto.
          destruct (Nat.ltb_spec row n); [auto|lia]. }
        assert (Ecell : forall r c, cell t' r c = cell t r c) by reflexivity.
        constructor.
        -- unfold t', t1. destruct Hs. shape_tac.
        -- exact Hco.
        -- intros r c Hr. rewrite Ecell. apply (Hz1 r c Hr).
        -- intros r Hr. rewrite Estar.
           destruct (Nat.eqb_spec r row) as [->|Hne].
           ++ intros _. exists col. rewrite Ecell. auto.
           ++ intros Hne'. destruct (Hst r Hr Hne') as (c & Hc & E1 & E2).
              exists c. rewrite Ecell. auto.
        -- intros r1 r2 Hr1 Hr2. rewrite !Estar.
           destruct (Nat.eqb_spec r1 row) as [->|H1];
             destruct (Nat.eqb_spec r2 row) as [->|H2]; auto.
           ++ intros E _. symmetry in E. now apply Hnoown in E.
           ++ intros E _. now apply Hnoown in E.
        -- intros r Hr. rewrite Estar. unfold t', t1. proj_simpl.
           rewrite nth_upd, (sh_rowCovered Hs). rewrite (Nat.eqb_sym r row).
           destruct (Nat.eqb_spec row r) as [<-|Hne]; simpl.
           ++ destruct (Nat.ltb_spec row n); [|lia]. split; auto.
              intros _. now apply fits_ne with n.
           ++ now apply Hrc.
        -- intros c Hc. unfold t', t1 at 1. proj_simpl.
           rewrite nth_upd, (sh_colCovered Hs).
           destruct (Nat.eqb_spec col c) as [<-|Hne]; simpl.
           ++ destruct (Nat.ltb_spec col n); [|lia]. split; auto.
              intros _. exists row. rewrite Estar, Nat.eqb_refl. auto.
           ++ rewrite (Hcc c Hc). split; intros (r & Hr & E); exists r; split; auto.
              ** rewrite Estar. destruct (Nat.eqb_spec r row) as [->|]; auto.
                 rewrite Hnost in E. symmetry in E. now apply fits_ne with (n := n) in E.
              ** rewrite Estar in E. destruct (Nat.eqb_spec r row) as [->|]; auto.
                 apply Nat2N.inj in E. congruence.
  - constructor; auto.
    intros r c Hr. rewrite (Hz r c Hr). split.
    + intros (Hc & Hzc & Hlt). split; auto. split; auto. lia.
    + intros (Hc & Hzc & [Hlt|[-> Hlt]]); split; auto; split; auto.
      right. split; auto.
      destruct (Nat.eq_dec c col) as [->|]; [|lia].
      rewrite Hzc in Ez. discriminate.
Qed.

(** The state of the solver before [compute]: as the constructor leaves it,
    with any costs. *)
Record fresh (n : nat) (s : Hungarian) : Prop := {
  fresh_shape : shape n s;
  fresh_zeros : zeros s = repeat [] n;
  fresh_starred : starredZeros s = repeat NONE n;
  fresh_rowCovered : rowCovered s = repeat false n;
  fresh_colCovered : colCovered s = repeat false n
}.

Lemma nth_repeat_any (A : Type) (x d : A) (n i : nat) :
  nth i (repeat x n) d = if i <? n then x else d.
Proof.
  destruct (Nat.ltb_spec i n).
  - now apply nth_repeat_lt.
  - apply nth_overflow. now rewrite repeat_length.
Qed.

Lemma Scan_start (n : nat) (s : Hungarian) :
  fits n -> shape n s -> zeros s = repeat [] n -> starredZeros s = repeat NONE n ->
  rowCovered s = repeat false n -> colCovered s = repeat false n ->
  Scan n s 0 0 s.
Proof.
  intros Hn Hs Ez Est Er Ec.
  assert (Hst : forall r, star s r = NONE).
  { intros r. unfold star. rewrite Est, nth_repeat_any. now destruct (r <? n). }
  constructor; auto.
  - intros r c Hr. rewrite Ez, nth_repeat_any. destruct (r <? n); simpl; split;
      try tauto; intros (_ & _ & H); lia.
  - intros r _ H. now rewrite Hst in H.
  - intros r1 r2 _ _ _ H. now rewrite Hst in H.
  - intros r Hr. rewrite Er, Hst, nth_repeat_lt by auto. split; congruence.
  - intros c Hc. rewrite Ec, nth_repeat_lt by auto. split; [discriminate|].
    intros (r & _ & E). rewrite Hst in E. symmetry in E.
    now apply fits_ne with (n := n) in E.
Qed.
Lemma scan_loop (n : nat) (s : Hungarian) :
  fits n -> shape n s -> zeros s = repeat [] n -> starredZeros s = repeat NONE n ->
  rowCovered s = repeat false n -> colCovered s = repeat false n ->
  Scan n s n 0
    (for_range 0 n (fun row t => for_range 0 (numCol t) (starCell row) t) s).
Proof.
  intros Hn Hs Ez Est Er Ec.
  apply (@for_range_inv Hungarian (fun row t => Scan n s row 0 t)); [lia| |].
  - now apply Scan_start.
  - intros row t Hrow Ht. apply Scan_next_row.
    rewrite (sh_numCol (scan_shape Ht)).
    apply (@for_range_inv Hungarian (fun col t => Scan n s row col t)); [lia|auto|].
    intros col u Hcol Hu. apply starCell_scan; auto; lia.
Qed.

(** [compute] enters its loop with the invariants, on a matrix reduced by an
    amount per row and an amount per column. *)
Lemma prepare_inv (n : nat) (s : Hungarian) :
  fits n -> fresh n s ->
  Core n (prepare s) /\ Cover n (prepare s) [] /\ reduces n s (prepare s).
Proof.
  intros Hn [Hs Ez Est Er Ec]. unfold prepare.
  rewrite (sh_numCol Hs), (sh_numRow Hs).
  destruct (@reduceRows_spec n s Hs) as (EA & HlA & (u & HuA) & HnnA & Hlc & Hcnn & Hcle).
  destruct (for_range 0 n reduceRow (s, repeat vFill n)) as [sA colMin].
  cbn [fst snd] in *.
  assert (HsA : shape n sA) by (rewrite EA; destruct Hs; shape_tac).
  rewrite (sh_numRow HsA).
  assert (Hlz : length (map finiteOrZero colMin) = n) by now rewrite length_map.
  destruct (@reduceCols_spec n sA (map finiteOrZero colMin) HsA Hlz) as (EB & HlB & HcB).
  set (sB := for_range 0 n (reduceCol (map finiteOrZero colMin)) sA) in *.
  assert (HsB : shape n sB) by (rewrite EB; destruct HsA; shape_tac).
  rewrite (sh_numRow HsB).
  assert (EBs : sB = set_cost s (cost sB)) by (rewrite EB, EA; reflexivity).
  assert (HcellB : forall r c, r < n -> c < n ->
            cell sB r c =
            Tsub (cell s r c) (u r + finiteOrZero (nth c colMin Inf))).
  { intros r c Hr Hc. rewrite !(@shape_cell n) by auto.
    rewrite HcB, HuA, Tsub_Tsub by auto. f_equal. f_equal.
    change 0%Z with (finiteOrZero Inf). now rewrite map_nth. }
  assert (HnnB : forall r c, r < n -> c < n -> Tle (Fin 0) (cell sB r c)).
  { intros r c Hr Hc. rewrite (@shape_cell n) by auto. rewrite HcB by auto.
    change 0%Z with (finiteOrZero Inf) at 2. rewrite map_nth.
    specialize (HnnA r c Hr Hc). specialize (Hcle r c Hr Hc).
    specialize (Hcnn c Hc).
    destruct (nth c colMin Inf) as [v|]; simpl.
    - destruct (mget n (cost sA) r c); simpl; auto.
      apply Tle_Fin in Hcle. apply Tle_Fin. lia.
    - now rewrite Tsub_0. }
  pose proof (@scan_loop n sB Hn HsB) as HC.
  specialize (HC ltac:(rewrite EBs; exact Ez) ltac:(rewrite EBs; exact Est)
                 ltac:(rewrite EBs; exact Er) ltac:(rewrite EBs; exact Ec)).
  set (sC := for_range 0 n _ sB) in *.
  destruct HC as [HsC HcoC HzC HstC HinjC HrcC HccC].
  set (sD := set_colCovered (set_rowCovered sC (fill false (rowCovered sC)))
               (fill false
                  (colCovered (set_rowCovered sC (fill false (rowCovered sC)))))).
  assert (HsD : shape n sD) by (unfold sD; destruct HsC; shape_tac).
  assert (HvD : forall r, r < n -> star sD r <> NONE ->
                exists c, c < n /\ star sD r = N.of_nat c).
  { intros r Hr Hne. destruct (HstC r Hr Hne) as (c & Hc & E & _). eauto. }
  destruct (@coverStarred_loop n sD Hn HsD HvD) as (EE & HlE & HcE).
  set (sE := for_each (starredZeros sD) coverStarred sD) in *.
  assert (HsE : shape n sE) by (rewrite EE; destruct HsD; shape_tac).
  assert (EcellE : forall r c, cell sE r c = cell sB r c).
  { intros r c. rewrite EE. unfold cell, sD. proj_simpl.
    now rewrite HcoC, (sh_index HsC), (sh_index HsB). }
  assert (EcellC : forall r c, cell sC r c = cell sB r c).
  { intros r c. unfold cell. now rewrite HcoC, (sh_index HsC), (sh_index HsB). }
  assert (EstarE : forall r, star sE r = star sC r) by (rewrite EE; reflexivity).
  assert (ErowE : forall r, r < n -> nth r (rowCovered sE) true = false).
  { intros r Hr. rewrite EE. unfold sD. proj_simpl. apply nth_fill.
    now rewrite (sh_rowCovered HsC). }
  split; [|split].
  - constructor; auto.
    + intros r c Hr Hc. rewrite EcellE. auto.
    + assert (EzE : zeros sE = zeros sC) by (rewrite EE; reflexivity).
      intros r c Hr. rewrite EzE, (HzC r c Hr), EcellE, EcellC. split.
      * intros (H1 & H2 & _). auto.
      * intros (H1 & H2). split; auto.
    + intros r Hr. rewrite EstarE. intros Hne.
      destruct (HstC r Hr Hne) as (c & Hc & E & Hz). exists c.
      rewrite EcellE, <- EcellC. auto.
    + intros r1 r2 Hr1 Hr2. rewrite !EstarE. now apply HinjC.
  - constructor.
    + intros r. simpl. split; [tauto|]. intros [Hr Hcov].
      rewrite ErowE in Hcov by auto. discriminate.
    + exact I.
    + intros c Hc Hcov. apply (HcE c Hc) in Hcov.
      destruct Hcov as [Hcov|(r & Hr & E)].
      * exfalso. unfold sD in Hcov. proj_simpl.
        rewrite nth_fill in Hcov by now rewrite (sh_colCovered HsC). discriminate.
      * exists r. rewrite EstarE. auto.
    + intros r c Hr Hc _. rewrite EstarE. intros E. apply (HcE c Hc). right. eauto.
  - exists u, (fun c => finiteOrZero (nth c colMin Inf)).
    intros r c Hr Hc. rewrite EcellE. now apply HcellB.
Qed.
(** ** Fuel *)

Lemma alternating_mono (s : Hungarian) (f f' : nat) (c : nat) (p : list (nat * nat)) :
  alternating f s c = Some p -> f <= f' -> alternating f' s c = Some p.
Proof.
  revert f' c p. induction f as [|f IH]; intros f' c p H Hle.
  - simpl in H. destruct f'; simpl;
      destruct (findStarredZeroInCol s c); try discriminate; auto.
  - destruct f' as [|f']; [lia|]. simpl in *.
    destruct (findStarredZeroInCol s c) as [r|]; auto.
    destruct (alternating f s (nth r (primedZeros s) 0)) as [p'|] eqn:E; [|discriminate].
    rewrite (IH f' _ _ E) by lia. exact H.
Qed.

Lemma augment_mono (s : Hungarian) (f f' r c : nat) (s' : Hungarian) :
  augment f s r c = Some s' -> f <= f' -> augment f' s r c = Some s'.
Proof.
  unfold augment. rewrite !extendSequence_alternating. intros H Hle.
  destruct (alternating f (set_sequences s [r] [c]) c) as [p|] eqn:E; [|discriminate].
  now rewrite (@alternating_mono _ f f' c p E Hle).
Qed.

Lemma searchZeros_mono (i i' : nat) (f f' : nat) (s : Hungarian)
  (x : Hungarian + Hungarian) :
  searchZeros i f s = Some x -> i <= i' -> f <= f' -> searchZeros i' f' s = Some x.
Proof.
  intros H Hi. revert f' s H. induction f as [|f IH]; intros f' s H Hle.
  - simpl in H. destruct f'; [exact H|]. rewrite searchZeros_S.
    destruct (findUncoveredZero s) as [[r c]|]; [discriminate|exact H].
  - destruct f' as [|f']; [lia|]. rewrite searchZeros_S in *.
    destruct (findUncoveredZero s) as [[r c]|]; auto.
    destruct (N.eqb (star s r) NONE).
    + destruct (augment i _ r c) as [s'|] eqn:E; [|discriminate].
      now rewrite (@augment_mono _ i i' r c s' E Hi).
    + apply IH; auto. lia.
Qed.

Lemma iterate_mono (i i' : nat) (s : Hungarian) (x : outcome * Hungarian) :
  iterate i s = Some x -> i <= i' -> iterate i' s = Some x.
Proof.
  unfold iterate. intros H Hle.
  destruct (searchZeros i i s) as [y|] eqn:E; [|discriminate].
  now rewrite (@searchZeros_mono i i' i i' s y E Hle Hle).
Qed.

Lemma assign_mono (i i' f f' : nat) (s : Hungarian) (x : list outcome * Hungarian) :
  assign i f s = Some x -> i <= i' -> f <= f' -> assign i' f' s = Some x.
Proof.
  intros H Hi. revert f' s x H. induction f as [|f IH]; intros f' s x H Hle.
  - simpl in H. destruct f'; simpl; destruct (forallb _ _); try discriminate; auto.
  - destruct f' as [|f']; [lia|]. simpl in *.
    destruct (forallb _ _); auto.
    destruct (iterate i s) as [[o s1]|] eqn:E; [|discriminate].
    rewrite (@iterate_mono i i' s (o, s1) E Hi).
    destruct (assign i f s1) as [[os s2]|] eqn:E2; [|discriminate].
    rewrite (IH f' s1 _ E2) by lia. exact H.
Qed.

(** ** Counting stars *)

Lemma NoDup_map_on (A B : Type) (f : A -> B) (l : list A) :
  NoDup l -> (forall x y, In x l -> In y l -> f x = f y -> x = y) -> NoDup (map f l).
Proof.
  induction 1 as [|a l Hni Hnd IH]; intros Hinj; simpl; constructor.
  - intros Hin. apply in_map_iff in Hin. destruct Hin as (y & E & Hy).
    apply Hni. rewrite (Hinj a y); auto; [now left|now right].
  - apply IH. intros x y Hx Hy. apply Hinj; now right.
Qed.

(** When every row has a star, every column has one. *)
Lemma all_starred (n : nat) (s : Hungarian) :
  fits n -> Core n s -> (forall r, r < n -> star s r <> NONE) ->
  forall c, c < n -> exists r, r < n /\ star s r = N.of_nat c.
Proof.
  intros Hn HC Hall c Hc.
  set (f := fun r => N.to_nat (star s r)).
  assert (Hf : forall r, r < n -> f r < n /\ star s r = N.of_nat (f r)).
  { intros r Hr. destruct (core_star HC Hr (Hall r Hr)) as (c' & Hc' & E & _).
    unfold f. rewrite E, Nat2N.id. auto. }
  assert (Hnd : NoDup (map f (seq 0 n))).
  { apply NoDup_map_on; [apply seq_NoDup|].
    intros x y Hx Hy E. apply in_seq in Hx, Hy.
    apply (core_inj HC); try lia; [|apply Hall; lia].
    rewrite (proj2 (Hf x ltac:(lia))), (proj2 (Hf y ltac:(lia))). now rewrite E. }
  assert (Hincl : incl (seq 0 n) (map f (seq 0 n))).
  { apply NoDup_length_incl; auto.
    - rewrite length_map. lia.
    - intros y Hy. apply in_map_iff in Hy. destruct Hy as (r & <- & Hr).
      apply in_seq in Hr. apply in_seq. destruct (Hf r ltac:(lia)). lia. }
  assert (Hin : In c (map f (seq 0 n))) by (apply Hincl, in_seq; lia).
  apply in_map_iff in Hin. destruct Hin as (r & E & Hr). apply in_seq in Hr.
  exists r. split; [lia|]. rewrite <- E. apply Hf. lia.
Qed.

(** The row that was covered first has its prime in a column without a star. *)
Lemma chain_free_column (n : nat) (s : Hungarian) (l : list nat) :
  chain n s l -> l <> [] ->
  exists c, c < n /\ forall r, r < n -> star s r <> N.of_nat c.
Proof.
  induction l as [|x l IH]; [congruence|]. intros Hch _.
  simpl in Hch. destruct Hch as (_ & _ & Hch & _ & Hp & _ & _ & Hown).
  destruct l as [|y l].
  - exists (nth x (primedZeros s) 0). split; [exact Hp|].
    intros r Hr E. destruct (Hown r Hr E).
  - apply IH; [exact Hch|discriminate].
Qed.

(** While a column is uncovered, a row has no star. *)
Lemma unstarred_row (n : nat) (s : Hungarian) (order : list nat) :
  fits n -> Core n s -> Cover n s order ->
  (exists c, c < n /\ nth c (colCovered s) true = false) ->
  exists r, r < n /\ star s r = NONE.
Proof.
  intros Hn HC HV (c & Hc & Hcov).
  assert (Hfree : exists c', c' < n /\ forall r, r < n -> star s r <> N.of_nat c').
  { destruct order as [|x order].
    - exists c. split; auto. intros r Hr E.
      assert (Hr' : nth r (rowCovered s) true = false).
      { destruct (nth r (rowCovered s) true) eqn:Er; auto.
        assert (Hin : In r []) by (apply (cov_order HV); auto). destruct Hin. }
      rewrite (cov_row HV Hr Hc Hr' E) in Hcov. discriminate.
    - apply chain_free_column with (x :: order); [apply (cov_chain HV)|discriminate]. }
  destruct Hfree as (c' & Hc' & Hno).
  assert (Hdec : forall k, k <= n ->
            (exists r, r < k /\ star s r = NONE) \/ (forall r, r < k -> star s r <> NONE)).
  { induction k as [|k IH]; intros Hk; [right; intros; lia|].
    destruct IH as [(r & Hr & E)|Hall]; [lia|left; exists r; split; auto|].
    destruct (N.eq_dec (star s k) NONE) as [E|E].
    - left. exists k. auto.
    - right. intros r Hr. destruct (Nat.eq_dec r k) as [->|]; auto. apply Hall. lia. }
  destruct (Hdec n (Nat.le_refl n)) as [(r & Hr & E)|Hall]; [eauto|].
  destruct (@all_starred n s Hn HC Hall c' Hc') as (r & Hr & E). now apply Hno in E.
Qed.
(** ** The loop of [compute] ends *)

(** The state in which [iterate] gives up: with the covers [rc] and [cc],
    every covered row and column has a star, a column is uncovered, a row
    has no star, and every uncovered cell holds the fill value. *)
Definition unmatched (n : nat) (s : Hungarian) : Prop :=
  exists rc cc : list bool,
    (forall r, r < n -> nth r rc true = true -> star s r <> NONE) /\
    (forall c, c < n -> nth c cc true = true -> exists r, r < n /\ star s r = N.of_nat c) /\
    (exists c, c < n /\ nth c cc true = false) /\
    (exists r, r < n /\ star s r = NONE) /\
    (forall r c, r < n -> c < n -> nth r rc true = false -> nth c cc true = false ->
       cell s r c = Inf).

(** The state in which the loop of [compute] ends. *)
Definition Done (n : nat) (s : Hungarian) : Prop :=
  Core n s /\ forallb (fun b => b) (colCovered s) = true /\
  ((exists order, Cover n s order) \/ unmatched n s).

Definition isAugmented (o : outcome) : bool :=
  match o with
  | Augmented => true
  | _ => false
  end.

(** The number of augmentations among the calls of [iterate]. *)
Definition augmentations (os : list outcome) : nat := length (filter isAugmented os).

(** The measure that every call of [iterate] decreases. *)
Definition measure (n : nat) (s : Hungarian) (order : list nat) : nat :=
  (n - length (starredRows n s)) * (2 * n + 2) + 2 * (n - length order) +
  (match findUncoveredZero s with Some _ => 0 | None => 1 end).

Lemma starredRows_le (n : nat) (s : Hungarian) : length (starredRows n s) <= n.
Proof.
  unfold starredRows. rewrite <- (length_seq n 0) at 2. apply filter_length_le.
Qed.

Lemma starredRows_ext (n : nat) (s s' : Hungarian) :
  starredZeros s' = starredZeros s -> starredRows n s' = starredRows n s.
Proof. intros E. unfold starredRows, star. now rewrite E. Qed.

Lemma forallb_false_nth (l : list bool) :
  forallb (fun b => b) l = false -> exists c, c < length l /\ nth c l true = false.
Proof.
  induction l as [|b l IH]; simpl; [discriminate|].
  destruct b; simpl.
  - intros H. destruct (IH H) as (c & Hc & E). exists (S c). split; [lia|auto].
  - intros _. exists 0. split; [lia|auto].
Qed.

Lemma forallb_true_nth (l : list bool) (c : nat) :
  forallb (fun b => b) l = true -> nth c l true = true.
Proof.
  revert c. induction l as [|b l IH]; intros c; simpl.
  - now destruct c.
  - intros H. apply andb_true_iff in H. destruct H as [-> H]. destruct c; auto.
Qed.

Lemma assign_total (n inner : nat) :
  fits n -> n <= inner ->
  forall fuel s order,
    Core n s -> Cover n s order -> measure n s order < fuel ->
    exists os s',
      assign inner fuel s = Some (os, s') /\ Done n s' /\ reduces n s s' /\
      length (starredRows n s') = length (starredRows n s) + augmentations os /\
      length os <= S (measure n s order).
Proof.
  intros Hn Hinner. induction fuel as [|f IH]; intros s order HC HV Hfuel; [lia|].
  simpl. destruct (forallb (fun b => b) (colCovered s)) eqn:Eall.
  - exists [], s. split; auto. split; [split; eauto|].
    split; [apply reduces_refl|]. split; [unfold augmentations; simpl; lia|simpl; lia].
  - destruct (@iterate_inv n inner s order Hn Hinner HC HV) as (o & s1 & Eit & HC1 & Hred & Hafter).
    rewrite Eit.
    pose proof (starredRows_le n s1) as Hle1.
    pose proof (chain_length _ _ _ (cov_chain HV)) as Hlo.
    destruct o.
    + destruct Hafter as (HV1 & Hst).
      assert (Hm : measure n s1 [] < measure n s order).
      { unfold measure. rewrite Hst. simpl length.
        destruct (findUncoveredZero s1); destruct (findUncoveredZero s); nia. }
      destruct (IH s1 [] HC1 HV1 ltac:(lia)) as (os & s' & Ea & Hd & Hr & Hs & Hl).
      rewrite Ea. exists (Augmented :: os), s'. split; auto. split; auto.
      split; [eapply reduces_trans; eauto|].
      split; [unfold augmentations in *; simpl; lia|simpl; lia].
    + destruct Hafter as (order1 & HV1 & Hsome & Est & Hlen & Hlt).
      pose proof (chain_length _ _ _ (cov_chain HV1)) as Hlo1.
      assert (Hm : measure n s1 order1 < measure n s order).
      { unfold measure. rewrite (@starredRows_ext n s s1 Est).
        destruct (findUncoveredZero s1); [|congruence].
        destruct (findUncoveredZero s).
        - assert (length order < length order1) by (apply Hlt; discriminate). lia.
        - lia. }
      destruct (IH s1 order1 HC1 HV1 ltac:(lia)) as (os & s' & Ea & Hd & Hr & Hs & Hl).
      rewrite Ea. exists (Updated :: os), s'. split; auto. split; auto.
      split; [eapply reduces_trans; eauto|].
      split; [unfold augmentations in *; simpl; rewrite Hs, (@starredRows_ext n s s1 Est); lia|].
      simpl; lia.
    + destruct Hafter as (Est & Hall & rc & cc & Hrc & Hcc & Hmono & Hinf).
      assert (Ea : assign inner f s1 = Some ([], s1)).
      { destruct f; simpl; now rewrite Hall. }
      rewrite Ea. exists [Exhausted], s1. split; auto.
      assert (Estar : forall r, star s1 r = star s r) by (intros; unfold star; now rewrite Est).
      split.
      { split; auto. split; auto. right. exists rc, cc.
        split; [intros r Hr Hcov; rewrite Estar; auto|].
        split; [intros c Hc Hcov; destruct (Hcc c Hc Hcov) as (r & Hr & E);
                exists r; now rewrite Estar|].
        destruct (forallb_false_nth _ Eall) as (c & Hc & E).
        rewrite (sh_colCovered (core_shape HC)) in Hc.
        split; [exists c; auto|]. split; auto.
        destruct (@unstarred_row n s order Hn HC HV) as (r & Hr & Er); [eauto|].
        exists r. now rewrite Estar. }
      split; auto.
      split; [unfold augmentations; simpl; rewrite (@starredRows_ext n s s1 Est); lia|].
      simpl. lia.
Qed.
(** ** Setting the costs *)

(** The calls [setCost(row, col, c)] of a caller, in order. *)
Definition setCosts (sets : list (nat * nat * T)) (s : Hungarian) : Hungarian :=
  fold_left (fun s x => setCost s (fst (fst x)) (snd (fst x)) (snd x)) sets s.

(** The two nested loops of the driver, which set every entry of a [rows] by
    [cols] matrix. *)
Definition setMatrix (rows cols : nat) (f : nat -> nat -> T) (s : Hungarian) : Hungarian :=
  for_range 0 rows
    (fun i s => for_range 0 cols (fun j s => setCost s i j (f i j)) s) s.

Lemma construct_fresh (rows cols hw : nat) :
  fresh (Nat.max rows cols) (construct rows cols hw).
Proof. constructor; auto. apply construct_shape. Qed.

Lemma setCost_fresh (n : nat) (s : Hungarian) (row col : nat) (c : T) :
  fresh n s -> fresh n (setCost s row col c).
Proof.
  intros [H1 H2 H3 H4 H5]. constructor; auto. now apply setCost_shape.
Qed.

Lemma setCosts_fresh (n : nat) (sets : list (nat * nat * T)) (s : Hungarian) :
  fresh n s -> fresh n (setCosts sets s).
Proof.
  revert s. induction sets as [|x sets IH]; intros s H; simpl; auto.
  apply IH. now apply setCost_fresh.
Qed.

Lemma setMatrix_fresh (n rows cols : nat) (f : nat -> nat -> T) (s : Hungarian) :
  fresh n s -> fresh n (setMatrix rows cols f s).
Proof.
  intros H. unfold setMatrix.
  apply (@for_range_inv Hungarian (fun _ t => fresh n t)); [lia|auto|].
  intros i t _ Ht.
  apply (@for_range_inv Hungarian (fun _ t => fresh n t)); [lia|auto|].
  intros j u _ Hu. now apply setCost_fresh.
Qed.

Lemma setCost_cell (n : nat) (s : Hungarian) (row col r c : nat) (v : T) :
  shape n s -> row < n -> col < n -> r < n -> c < n ->
  cell (setCost s row col v) r c =
  if (row =? r) && (col =? c) then v else cell s r c.
Proof.
  intros Hs Hrow Hcol Hr Hc.
  rewrite (@shape_cell n) by (auto; now apply setCost_shape).
  rewrite (@shape_cell n s) by auto.
  unfold setCost. proj_simpl. rewrite (shape_index Hs Hrow).
  apply mget_upd; auto. apply (sh_cost Hs).
Qed.

Lemma setMatrix_cell (n rows cols : nat) (f : nat -> nat -> T) (s : Hungarian)
  (r c : nat) :
  shape n s -> rows <= n -> cols <= n -> r < n -> c < n ->
  cell (setMatrix rows cols f s) r c =
  if (r <? rows) && (c <? cols) then f r c else cell s r c.
Proof.
  intros Hs Hrows Hcols Hr Hc. unfold setMatrix.
  pose (P := fun (i j : nat) (t : Hungarian) =>
    shape n t /\
    cell t r c =
    if ((r <? i) && (c <? cols)) || ((r =? i) && (c <? j)) then f r c else cell s r c).
  assert (H : P rows 0 (for_range 0 rows
                          (fun i s => for_range 0 cols (fun j s => setCost s i j (f i j)) s) s)).
  { apply (@for_range_inv Hungarian (fun i t => P i 0 t)); [lia| |].
    - split; auto. cases_nat.
    - intros i t Hi Ht.
      assert (Hin : P i cols (for_range 0 cols (fun j s => setCost s i j (f i j)) t)).
      { apply (@for_range_inv Hungarian (fun j t => P i j t)); [lia|auto|].
        intros j u Hj [Hu Ecell]. split; [now apply setCost_shape|].
        rewrite (@setCost_cell n) by (auto; lia). rewrite Ecell. cases_nat; congruence. }
      destruct Hin as [Hshape Ecell]. split; auto. rewrite Ecell. cases_nat. }
  destruct H as [_ E]. rewrite E. cases_nat.
Qed.

(** ** [compute] returns *)

(** Fuel that is enough for [compute] on an [n] by [n] matrix. *)
Definition enough (n : nat) : nat := (n + 1) * (2 * n + 2).

Lemma compute_total (n : nat) (s0 : Hungarian) (fuel : nat) :
  fits n -> fresh n s0 -> enough n <= fuel ->
  exists os s',
    compute_trace fuel s0 = Some (os, s') /\ Done n s' /\ reduces n s0 s' /\
    length (starredRows n s') = length (starredRows n (prepare s0)) + augmentations os /\
    augmentations os <= n /\ length os <= enough n.
Proof.
  intros Hn Hf Hfuel. unfold enough in *.
  destruct (@prepare_inv n s0 Hn Hf) as (HC & HV & Hred).
  assert (Hm : measure n (prepare s0) [] < (n + 1) * (2 * n + 2)).
  { unfold measure. pose proof (starredRows_le n (prepare s0)). simpl length.
    destruct (findUncoveredZero (prepare s0)); nia. }
  destruct (@assign_total n fuel Hn ltac:(nia) fuel (prepare s0) [] HC HV ltac:(lia))
    as (os & s' & Ea & Hd & Hr & Hs & Hl).
  exists os, s'. unfold compute_trace. split; auto. split; auto.
  split; [eapply reduces_trans; eauto|]. split; auto.
  pose proof (starredRows_le n s'). split; lia.
Qed.
(** ** The assignment that [compute] returns is a cheapest one *)

Definition Zsum (l : list Z) : Z := fold_right Z.add 0%Z l.

(** The cost of assigning row [i] to column [p[i]], for every [i]. *)
Definition totalCost (f : nat -> nat -> Z) (p : list nat) : Z :=
  Zsum (map (fun rc => f (fst rc) (snd rc)) (combine (seq 0 (length p)) p)).

Lemma Zsum_map_perm (g : nat -> Z) (l l' : list nat) :
  Permutation l l' -> Zsum (map g l) = Zsum (map g l').
Proof.
  induction 1; simpl; lia.
Qed.

Lemma totalCost_bounds (f : nat -> nat -> Z) (u v : nat -> Z) (p : list nat) (a : nat) :
  let t := Zsum (map (fun rc => f (fst rc) (snd rc)) (combine (seq a (length p)) p)) in
  let b := (Zsum (map u (seq a (length p))) + Zsum (map v p))%Z in
  ((forall i, i < length p ->
      (u (a + i)%nat + v (nth i p 0%nat) <= f (a + i)%nat (nth i p 0%nat))%Z) -> (b <= t)%Z) /\
  ((forall i, i < length p ->
      (u (a + i)%nat + v (nth i p 0%nat) = f (a + i)%nat (nth i p 0%nat))%Z) -> b = t).
Proof.
  revert a. induction p as [|x p IH]; intros a; cbn zeta; simpl.
  - split; intros _; lia.
  - destruct (IH (S a)) as [IH1 IH2]. cbn zeta in IH1, IH2. split; intros H.
    + pose proof (H 0 ltac:(lia)) as H0. simpl in H0. rewrite Nat.add_0_r in H0.
      assert (Hrest : forall i, i < length p ->
                (u (S a + i)%nat + v (nth i p 0%nat) <= f (S a + i)%nat (nth i p 0%nat))%Z).
      { intros i Hi. specialize (H (S i) ltac:(lia)). simpl in H.
        now rewrite Nat.add_succ_r in H. }
      specialize (IH1 Hrest). lia.
    + pose proof (H 0 ltac:(lia)) as H0. simpl in H0. rewrite Nat.add_0_r in H0.
      assert (Hrest : forall i, i < length p ->
                (u (S a + i)%nat + v (nth i p 0%nat) = f (S a + i)%nat (nth i p 0%nat))%Z).
      { intros i Hi. specialize (H (S i) ltac:(lia)). simpl in H.
        now rewrite Nat.add_succ_r in H. }
      specialize (IH2 Hrest). lia.
Qed.

(** The result when the loop ends with every column starred. *)
Lemma Done_permutation (n : nat) (s : Hungarian) (order : list nat) :
  fits n -> Core n s -> Cover n s order ->
  forallb (fun b => b) (colCovered s) = true ->
  Permutation (map N.to_nat (starredZeros s)) (seq 0 n) /\
  forall r, r < n -> star s r <> NONE.
Proof.
  intros Hn HC HV Hall.
  assert (Hcol : forall c, c < n -> exists r, r < n /\ star s r = N.of_nat c).
  { intros c Hc. destruct (cov_col HV Hc (forallb_true_nth _ c Hall)) as (r & Hr & E & _).
    eauto. }
  assert (Hp : Permutation (seq 0 n) (map N.to_nat (starredZeros s))).
  { apply NoDup_Permutation_bis; [apply seq_NoDup| |].
    - rewrite length_map, length_seq, (sh_starredZeros (core_shape HC)). lia.
    - intros c Hc. apply in_seq in Hc. destruct (Hcol c ltac:(lia)) as (r & Hr & E).
      apply in_map_iff. exists (N.of_nat c). split; [apply Nat2N.id|].
      rewrite <- E. apply nth_In. now rewrite (sh_starredZeros (core_shape HC)). }
  split; [now apply Permutation_sym|].
  intros r Hr E.
  assert (Hin : In (N.to_nat NONE) (map N.to_nat (starredZeros s))).
  { apply in_map. rewrite <- E. apply nth_In.
    now rewrite (sh_starredZeros (core_shape HC)). }
  apply (Permutation_in _ (Permutation_sym Hp)) in Hin. apply in_seq in Hin.
  unfold fits in Hn. lia.
Qed.
Lemma reduces_finite (n : nat) (s s' : Hungarian) (r c : nat) :
  reduces n s s' -> r < n -> c < n -> (cell s' r c = Inf <-> cell s r c = Inf).
Proof.
  intros (u & v & H) Hr Hc. rewrite H by auto. destruct (cell s r c); simpl; split;
    auto; discriminate.
Qed.

Lemma unmatched_Inf (n : nat) (s : Hungarian) :
  unmatched n s ->
  exists r c, r < n /\ c < n /\ star s r = NONE /\ cell s r c = Inf.
Proof.
  intros (rc & cc & Hrc & Hcc & (c & Hc & Ec) & (r & Hr & Er) & Hinf).
  exists r, c. split; auto. split; auto. split; auto.
  apply Hinf; auto.
  destruct (nth r rc true) eqn:E; auto. now apply Hrc in E.
Qed.

(** When every column has a star, every row has one. *)
Lemma all_columns_starred (n : nat) (s : Hungarian) :
  fits n -> Core n s ->
  (forall c, c < n -> exists r, r < n /\ star s r = N.of_nat c) ->
  forall r, r < n -> star s r <> NONE.
Proof.
  intros Hn HC Hall r Hr.
  pose proof (sh_numRow (core_shape HC)) as Hnr.
  set (g := fun c => match findStarredZeroInCol s c with Some x => x | None => 0 end).
  assert (Hg : forall c, c < n -> g c < n /\ star s (g c) = N.of_nat c).
  { intros c Hc. unfold g.
    destruct (findStarredZeroInCol s c) as [x|] eqn:E.
    - apply findStarredZeroInCol_Some in E. now rewrite Hnr in E.
    - destruct (Hall c Hc) as (x & Hx & Ex). exfalso.
      apply (@findStarredZeroInCol_None s c x E); auto. now rewrite Hnr. }
  assert (Hnd : NoDup (map g (seq 0 n))).
  { apply NoDup_map_on; [apply seq_NoDup|].
    intros x y Hx Hy E. apply in_seq in Hx, Hy.
    destruct (Hg x ltac:(lia)) as [_ E1]. destruct (Hg y ltac:(lia)) as [_ E2].
    rewrite E, E2 in E1. now apply Nat2N.inj in E1. }
  assert (Hincl : incl (seq 0 n) (map g (seq 0 n))).
  { apply NoDup_length_incl; auto.
    - rewrite length_map. lia.
    - intros y Hy. apply in_map_iff in Hy. destruct Hy as (c & <- & Hc).
      apply in_seq in Hc. apply in_seq. destruct (Hg c ltac:(lia)). lia. }
  assert (Hin : In r (map g (seq 0 n))) by (apply Hincl, in_seq; lia).
  apply in_map_iff in Hin. destruct Hin as (c & E & Hc). apply in_seq in Hc.
  destruct (Hg c ltac:(lia)) as [_ Es]. rewrite E in Es. rewrite Es.
  apply fits_ne with n; auto. lia.
Qed.

(** ** The states of [compute] *)

(** The states of [compute] at the test of its loop: the state in which the
    loop is entered, and the state after every call of [iterate]. *)
Inductive reached (s0 : Hungarian) : Hungarian -> Prop :=
| reached_prepare : reached s0 (prepare s0)
| reached_iterate (fuel : nat) (s : Hungarian) (o : outcome) (s' : Hungarian) :
    reached s0 s ->
    forallb (fun b => b) (colCovered s) = false ->
    iterate fuel s = Some (o, s') ->
    reached s0 s'.

Lemma assign_reached (s0 : Hungarian) (inner fuel : nat) (s : Hungarian)
  (os : list outcome) (s' : Hungarian) :
  reached s0 s -> assign inner fuel s = Some (os, s') -> reached s0 s'.
Proof.
  revert s os. induction fuel as [|f IH]; intros s os Hr H; simpl in H.
  - destruct (forallb _ _); [|discriminate]. now injection H as <- <-.
  - destruct (forallb (fun b => b) (colCovered s)) eqn:Eall.
    + now injection H as <- <-.
    + destruct (iterate inner s) as [[o s1]|] eqn:Eit; [|discriminate].
      destruct (assign inner f s1) as [[os1 s2]|] eqn:Ea; [|discriminate].
      injection H as <- <-. apply (IH s1 os1); auto.
      now apply reached_iterate with inner s o.
Qed.

Lemma iterate_after (n fuel : nat) (s : Hungarian) (order : list nat) (o : outcome)
  (s' : Hungarian) :
  fits n -> Core n s -> Cover n s order -> iterate fuel s = Some (o, s') ->
  after n s order o s'.
Proof.
  intros Hn HC HV H.
  destruct (@iterate_inv n (Nat.max fuel n) s order Hn ltac:(lia) HC HV)
    as (o' & s'' & E & Ha).
  rewrite (@iterate_mono fuel (Nat.max fuel n) s (o, s') H ltac:(lia)) in E.
  now injection E as <- <-.
Qed.

Lemma reached_inv (n : nat) (s0 s : Hungarian) :
  fits n -> fresh n s0 -> reached s0 s ->
  Core n s /\
  ((exists order, Cover n s order) \/ forallb (fun b => b) (colCovered s) = true).
Proof.
  intros Hn Hf. induction 1 as [|fuel s o s' Hr IH Hall Hit].
  - destruct (@prepare_inv n s0 Hn Hf) as (HC & HV & _). split; eauto.
  - destruct IH as [HC [(order & HV)|Hall']]; [|congruence].
    destruct (@iterate_after n fuel s order o s' Hn HC HV Hit) as (HC' & _ & Ha).
    split; auto. destruct o.
    + left. exists []. apply Ha.
    + destruct Ha as (order1 & HV1 & _). eauto.
    + right. apply Ha.
Qed.

(** The calls of [setCost] stay inside the matrix given to the constructor. *)
Definition valid_calls (rows cols : nat) (sets : list (nat * nat * T)) : Prop :=
  forallb (fun x => (fst (fst x) <? rows) && (snd (fst x) <? cols)) sets = true.

(** C3.  In every state of [compute] at the test of its loop, so after the
    first stars are set and after every call of [iterate], however it
    ends, every row has the marker or one column as its star, and no column
    is the star of two rows. *)
Theorem stars_one_to_one (rows cols hw : nat) (sets : list (nat * nat * T))
  (s : Hungarian) :
  fits (Nat.max rows cols) -> valid_calls rows cols sets ->
  reached (setCosts sets (construct rows cols hw)) s ->
  (forall r, r < Nat.max rows cols ->
     star s r = NONE \/ exists c, c < Nat.max rows cols /\ star s r = N.of_nat c) /\
  (forall r1 r2 c, r1 < Nat.max rows cols -> r2 < Nat.max rows cols ->
     star s r1 = N.of_nat c -> star s r2 = N.of_nat c -> c < Nat.max rows cols ->
     r1 = r2).
Proof.
  intros Hn _ Hr.
  assert (Hf : fresh (Nat.max rows cols) (setCosts sets (construct rows cols hw))).
  { apply setCosts_fresh, construct_fresh. }
  destruct (@reached_inv _ _ s Hn Hf Hr) as [HC _]. split.
  - intros r Hrn. destruct (N.eq_dec (star s r) NONE) as [E|E]; [now left|right].
    destruct (core_star HC Hrn E) as (c & Hc & Ec & _). eauto.
  - intros r1 r2 c H1 H2 E1 E2 Hc. apply (core_inj HC); auto; [congruence|].
    rewrite E1. now apply fits_ne with (Nat.max rows cols).
Qed.

(** C4.  In every state of [compute] at the test of its loop, so after the
    scan of the matrix and after every call of [iterate], cost update or
    not, [zeros[row]] holds exactly the columns whose cost in the row is
    zero, in every row. *)
Theorem zeros_always_exact (rows cols hw : nat) (sets : list (nat * nat * T))
  (s : Hungarian) :
  fits (Nat.max rows cols) -> valid_calls rows cols sets ->
  reached (setCosts sets (construct rows cols hw)) s ->
  forall row, row < Nat.max rows cols ->
    forall col, In col (nth row (zeros s) []) <->
                col < Nat.max rows cols /\ cell s row col = Fin 0.
Proof.
  intros Hn _ Hr row Hrow col.
  assert (Hf : fresh (Nat.max rows cols) (setCosts sets (construct rows cols hw))).
  { apply setCosts_fresh, construct_fresh. }
  destruct (@reached_inv _ _ s Hn Hf Hr) as [HC _]. now apply (core_zeros HC).
Qed.

(** C2.  In a call of [compute], a call of [iterate] that ends in an
    augmentation leaves one more row with a star than it found; and the loop
    of [compute] ends, after at most [n] augmentations and finitely many (at
    most [enough n]) calls of [iterate] in all, cost updates among them. *)
Theorem augmentations_bounded (rows cols hw : nat) (sets : list (nat * nat * T)) :
  fits (Nat.max rows cols) -> valid_calls rows cols sets ->
  let n := Nat.max rows cols in
  let s0 := setCosts sets (construct rows cols hw) in
  (forall fuel s s',
     reached s0 s -> forallb (fun b => b) (colCovered s) = false ->
     iterate fuel s = Some (Augmented, s') ->
     length (starredRows n s') = S (length (starredRows n s))) /\
  (forall fuel, enough n <= fuel ->
     exists os s',
       compute_trace fuel s0 = Some (os, s') /\
       forallb (fun b => b) (colCovered s') = true /\
       augmentations os <= n /\ length os <= enough n).
Proof.
  intros Hn _ n s0.
  assert (Hf : fresh n s0) by apply setCosts_fresh, construct_fresh.
  split.
  - intros fuel s s' Hr Hall Hit.
    destruct (@reached_inv n s0 s Hn Hf Hr) as [HC [(order & HV)|Hall']]; [|congruence].
    destruct (@iterate_after n fuel s order Augmented s' Hn HC HV Hit) as (_ & _ & _ & H).
    exact H.
  - intros fuel Hfuel.
    destruct (@compute_total n s0 fuel Hn Hf Hfuel)
      as (os & s' & Et & (_ & Hall & _) & _ & _ & Ha & Hl).
    exists os, s'. auto.
Qed.
(** ** The cost update on its own *)


(** ** When no finite cost is left *)

Lemma searchZeros_starredZeros (inner fuel : nat) (s s1 : Hungarian) :
  searchZeros inner fuel s = Some (inr s1) -> starredZeros s1 = starredZeros s.
Proof.
  revert s. induction fuel as [|f IH]; intros s H.
  - simpl in H. destruct (findUncoveredZero s) as [[r c]|]; [discriminate|].
    now injection H as <-.
  - rewrite searchZeros_S in H.
    destruct (findUncoveredZero s) as [[r c]|]; [|now injection H as <-].
    destruct (N.eqb (star s r) NONE).
    + destruct (augment _ _ _ _); discriminate.
    + now rewrite (IH _ H).
Qed.

Lemma minCostCell_starredZeros (i row col : nat) (s : Hungarian) :
  starredZeros (minCostCell i row col s) = starredZeros s.
Proof. unfold minCostCell. now destruct (Tltb _ _). Qed.

Lemma findMinUncoveredCost_starredZeros (s : Hungarian) :
  starredZeros (snd (findMinUncoveredCost s)) = starredZeros s.
Proof.
  unfold findMinUncoveredCost. cbn [snd].
  rewrite (for_range_frame starredZeros); [reflexivity|].
  intros i t. unfold findMinUncoveredCostWorker.
  apply (for_range_frame starredZeros). intros row u. unfold minCostRow.
  destruct (negb _); auto.
  apply (for_each_frame starredZeros). intros col w. apply minCostCell_starredZeros.
Qed.

(** ** The rows of a worker *)

(** A worker of [updateCosts] leaves the rows outside its range alone. *)
Lemma updateCostsWorker_other_rows (n : nat) (h : Z) (j : nat) (s : Hungarian)
  (row col : nat) :
  shape n s -> colInds_ok n s -> partitioned s -> j < workers s ->
  row < n -> col < n ->
  ~ (nth j (workerRows s) 0 <= row < nth (S j) (workerRows s) 0) ->
  cell (updateCostsWorker h j s) row col = cell s row col /\
  nth row (zeros (updateCostsWorker h j s)) [] = nth row (zeros s) [].
Proof.
  intros Hs Hci Hp Hj Hrow Hcol Hout. unfold updateCostsWorker.
  destruct Hp as (Hl & H0 & Hw & Hm).
  set (a := nth j (workerRows s) 0) in *. set (b := nth (S j) (workerRows s) 0) in *.
  assert (Hab : a <= b) by (apply Hm; auto).
  assert (Hbn : b <= n).
  { pose proof (@boundaries_mono (fun i => nth i (workerRows s) 0) (workers s) Hm
                  (S j) (workers s) ltac:(lia)) as H.
    cbn beta in H. rewrite Hw, (sh_numRow Hs) in H. exact H. }
  destruct (@for_range_inv Hungarian
              (fun k t => shape n t /\ colInds_ok n t /\
                          mget n (cost t) row col = mget n (cost s) row col /\
                          nth row (zeros t) [] = nth row (zeros s) [])
              a b (updateCostsRow h) s Hab) as (Hs' & _ & Hc & Hz); auto.
  - intros k t Hk (Ht & Hcit & Hc & Hz).
    destruct (@updateCostsRow_spec n h k t Ht ltac:(lia) Hcit)
      as ((cs & zs & E) & Ht' & HC & HZ).
    split; auto. split; [unfold colInds_ok; rewrite E; exact Hcit|].
    rewrite (HC row col Hrow Hcol), (HZ row Hrow).
    destruct (Nat.eqb_spec row k); [lia|auto].
  - rewrite !(@shape_cell n) by auto. auto.
Qed.

(** C9.  After [rebalanceWorkers], [workerRows] starts at [0], does not
    decrease and ends at [numRow]: the ranges
    [[workerRows[i], workerRows[i+1])] are disjoint and cover the rows
    [0 .. numRow-1], every row lies in the range of exactly one worker, and
    in a call of [updateCosts] a worker leaves the costs and the zero list of
    every row outside its range as they are. *)
Theorem rebalanceWorkers_ranges (n : nat) (s : Hungarian) :
  shape n s -> colInds_ok n s ->
  let s' := rebalanceWorkers s in
  let wr := workerRows s' in
  (length wr = workers s' + 1 /\ nth 0 wr 0 = 0 /\ nth (workers s') wr 0 = numRow s' /\
   forall i, i < workers s' -> nth i wr 0 <= nth (S i) wr 0) /\
  (forall row, row < numRow s' ->
     exists i, (i < workers s' /\ nth i wr 0 <= row < nth (S i) wr 0) /\
               forall j, j < workers s' /\ nth j wr 0 <= row < nth (S j) wr 0 -> j = i) /\
  (forall h j row col, j < workers s' -> row < n -> col < n ->
     ~ (nth j wr 0 <= row < nth (S j) wr 0) ->
     cell (updateCostsWorker h j s') row col = cell s' row col /\
     nth row (zeros (updateCostsWorker h j s')) [] = nth row (zeros s') []).
Proof.
  intros Hs Hci. cbn zeta.
  pose proof (rebalanceWorkers_partitioned (sh_pool Hs)) as Hp.
  destruct (rebalanceWorkers_frame s) as (wr & E).
  split; [exact Hp|]. split.
  - intros row Hrow. now apply partitioned_owner.
  - assert (Hs' : shape n (rebalanceWorkers s)).
    { destruct Hp as (Hl & H0 & _). rewrite E in Hl, H0 |- *.
      destruct Hs as [? ? ? ? ? ? ? ? ? (Hw & _) ?].
      constructor; auto. repeat split; auto. }
    assert (Hci' : colInds_ok n (rebalanceWorkers s)).
    { unfold colInds_ok. rewrite E. exact Hci. }
    intros h j row col Hj Hrow Hcol Hout.
    now apply (@updateCostsWorker_other_rows n).
Qed.

(** ** A solver without costs *)

Lemma nil_of_no_elements (A : Type) (l : list A) : (forall x, ~ In x l) -> l = [].
Proof.
  destruct l as [|a l]; auto. intros H. destruct (H a). now left.
Qed.

Lemma forallb_true_all (l : list bool) :
  (forall c, c < length l -> nth c l true = true) -> forallb (fun b => b) l = true.
Proof.
  induction l as [|b l IH]; intros H; simpl; auto.
  pose proof (H 0 ltac:(simpl; lia)) as E. simpl in E. subst b. simpl. apply IH.
  intros c Hc. apply (H (S c)). simpl. lia.
Qed.

Lemma repeat_of_nth (A : Type) (x : A) (l : list A) :
  (forall i, i < length l -> nth i l x = x) -> l = repeat x (length l).
Proof.
  induction l as [|a l IH]; intros H; simpl; auto.
  rewrite <- IH.
  - f_equal. apply (H 0). simpl. lia.
  - intros i Hi. apply (H (S i)). simpl. lia.
Qed.

(** C10.  On a solver as the constructor leaves it, no cost set, [compute]
    returns a sequence of length [max rows cols] whose every entry is the
    marker; it does so after one pass of [iterate], which gives up, when
    [max rows cols] is at least 1, and without a pass of [iterate] for the
    empty matrix. *)
Theorem compute_unset_trace (rows cols hw fuel : nat) :
  fits (Nat.max rows cols) -> 1 <= fuel ->
  exists s',
    compute_trace fuel (construct rows cols hw) =
    Some ((if Nat.max rows cols =? 0 then [] else [Exhausted]), s') /\
    compute fuel (construct rows cols hw) = Some (repeat NONE (Nat.max rows cols)).
Proof.
  intros Hn Hfuel. set (n := Nat.max rows cols) in *.
  set (s0 := construct rows cols hw).
  pose proof (construct_fresh rows cols hw) as Hf. fold n s0 in Hf.
  destruct (@prepare_inv n s0 Hn Hf) as (HC & HV & Hred).
  set (s := prepare s0) in *.
  pose proof (core_shape HC) as Hs.
  assert (Hinf : forall r c, r < n -> c < n -> cell s r c = Inf).
  { intros r c Hr Hc. apply (reduces_finite Hred Hr Hc).
    unfold cell, s0, construct. proj_simpl. fold n.
    rewrite nth_repeat_any. now destruct (_ <? _). }
  assert (Hstar : forall r, r < n -> star s r = NONE).
  { intros r Hr. destruct (N.eq_dec (star s r) NONE) as [E|E]; auto.
    destruct (core_star HC Hr E) as (c & Hc & _ & Hz). rewrite Hinf in Hz by auto.
    discriminate. }
  assert (Hres : starredZeros s = repeat NONE n).
  { rewrite <- (sh_starredZeros Hs). apply repeat_of_nth.
    intros i Hi. apply Hstar. now rewrite <- (sh_starredZeros Hs). }
  assert (Hnone : findUncoveredZero s = None).
  { destruct (findUncoveredZero s) as [[r c]|] eqn:E; auto.
    destruct (findUncoveredZero_Some _ E) as (Hr & _ & Hin & _).
    rewrite (sh_numRow Hs) in Hr. apply (core_zeros HC) in Hin; auto.
    destruct Hin as [Hc Hz]. rewrite Hinf in Hz by auto. discriminate. }
  unfold compute, compute_trace. fold s0 s.
  destruct (Nat.eqb_spec n 0) as [E0|E0].
  - assert (Hall : forallb (fun b => b) (colCovered s) = true).
    { apply forallb_true_all. intros c Hc. rewrite (sh_colCovered Hs) in Hc. exfalso. lia. }
    exists s. destruct fuel; cbn [assign]; rewrite Hall; rewrite Hres; auto.
  - assert (Hall : forallb (fun b => b) (colCovered s) = false).
    { destruct (forallb (fun b => b) (colCovered s)) eqn:E; auto.
      pose proof (forallb_true_nth _ 0 E) as H0.
      assert (Hpos : 0 < n) by lia.
      destruct (cov_col HV Hpos H0) as (r & Hr & Er & _).
      rewrite Hstar in Er by auto. symmetry in Er.
      exfalso. exact (@fits_ne n 0 Hn Hpos Er). }
    destruct fuel as [|f]; [lia|]. cbn [assign]. rewrite Hall.
    unfold iterate.
    assert (Hsearch : searchZeros (S f) (S f) s = Some (inr s)).
    { rewrite searchZeros_S, Hnone. reflexivity. }
    rewrite Hsearch.
    destruct (@minimum_inv n s Hs) as ((ci & wr & wc & E4) & _ & _ & _ & Hcols & _ & Hatt).
    destruct (findMinUncoveredCost (rebalanceWorkers (fillColInds s))) as [h s4].
    cbn [fst snd] in *.
    assert (Eh : h = Inf).
    { destruct Hatt as [|(r & c & Hr & _ & Hc & E)]; auto.
      rewrite <- E. apply Hinf; auto. now apply Hcols in Hc. }
    rewrite Eh.
    set (s' := set_colCovered s4 (fill true (colCovered s4))).
    assert (Hall' : forallb (fun b => b) (colCovered s') = true) by apply forallb_fill_true.
    assert (Es : starredZeros s' = repeat NONE n).
    { rewrite <- Hres. unfold s'. rewrite E4. reflexivity. }
    exists s'. destruct f; cbn [assign]; rewrite Hall', Es; auto.
Qed.
(** ** The number of workers does not matter *)

(** [s] with another pool. *)
Definition pool (s : Hungarian) (w : nat) (wr : list nat) (wc : list T) : Hungarian :=
  {| numCol := numCol s; numRow := numRow s; colCovered := colCovered s;
     rowCovered := rowCovered s; cost := cost s; index := index s;
     zeros := zeros s; primedZeros := primedZeros s;
     starredZeros := starredZeros s; rowSequence := rowSequence s;
     colSequence := colSequence s; colInds := colInds s;
     workers := w; workerRows := wr; workerCosts := wc |}.

(** Two states that differ in the pool only. *)
Definition alike (s1 s2 : Hungarian) : Prop :=
  exists w wr wc, s2 = pool s1 w wr wc.

Ltac pool_simpl :=
  cbn [numCol numRow colCovered rowCovered cost index zeros primedZeros starredZeros
       rowSequence colSequence colInds workers workerRows workerCosts
       set_colCovered set_rowCovered set_cost set_zeros set_primedZeros
       set_starredZeros set_sequences set_colInds set_workerRows set_workerCosts
       pool].

Section Pool.
Variables (w : nat) (wr : list nat) (wc : list T).

Let P (s : Hungarian) : Hungarian := pool s w wr wc.

Lemma for_range_pool (body : nat -> Hungarian -> Hungarian) (a b : nat) (s : Hungarian) :
  (forall i t, body i (P t) = P (body i t)) ->
  for_range a b body (P s) = P (for_range a b body s).
Proof.
  intros H. unfold for_range. revert s.
  induction (seq a (b - a)) as [|i l IH]; intros s; simpl; auto.
  now rewrite H, IH.
Qed.

Lemma for_each_pool (A : Type) (body : A -> Hungarian -> Hungarian) (l : list A)
  (s : Hungarian) :
  (forall x t, body x (P t) = P (body x t)) ->
  for_each l body (P s) = P (for_each l body s).
Proof.
  intros H. unfold for_each. revert s.
  induction l as [|x l IH]; intros s; simpl; auto.
  now rewrite H, IH.
Qed.

Lemma for_each_pool2 (A : Type) (body : A -> Hungarian -> Hungarian) (l l' : list A)
  (s s' : Hungarian) :
  l' = l -> s' = P s ->
  (forall x t, body x (P t) = P (body x t)) ->
  for_each l' body s' = P (for_each l body s).
Proof. intros -> ->. apply for_each_pool. Qed.

Lemma setCost_pool (s : Hungarian) (row col : nat) (c : T) :
  setCost (P s) row col c = P (setCost s row col c).
Proof. reflexivity. Qed.

Lemma setCosts_pool (sets : list (nat * nat * T)) (s : Hungarian) :
  setCosts sets (P s) = P (setCosts sets s).
Proof.
  revert s. induction sets as [|x sets IH]; intros s; simpl; auto.
  now rewrite setCost_pool, IH.
Qed.

Lemma reduceRows_pool (l : list nat) (s : Hungarian) (colMin : list T) :
  fold_left (fun st i => reduceRow i st) l (P s, colMin) =
  (P (fst (fold_left (fun st i => reduceRow i st) l (s, colMin))),
   snd (fold_left (fun st i => reduceRow i st) l (s, colMin))).
Proof.
  revert s colMin. induction l as [|i l IH]; intros s colMin; cbn [fold_left]; auto.
  assert (E : reduceRow i (P s, colMin) =
              (P (fst (reduceRow i (s, colMin))), snd (reduceRow i (s, colMin)))).
  { unfold reduceRow, P. pool_simpl.
    destruct (min_element (slice (nth i (index s) 0) (numCol s) (cost s)));
      reflexivity. }
  rewrite E. rewrite IH. now destruct (reduceRow i (s, colMin)).
Qed.

Lemma reduceCol_pool (colMin : list Z) (row : nat) (s : Hungarian) :
  reduceCol colMin row (P s) = P (reduceCol colMin row s).
Proof. reflexivity. Qed.

Lemma starCell_pool (row col : nat) (s : Hungarian) :
  starCell row col (P s) = P (starCell row col s).
Proof.
  unfold starCell, P, cell. pool_simpl.
  destruct (Teqb _ _); [|reflexivity].
  destruct (negb (nth row (rowCovered s) true) && negb (nth col (colCovered s) true));
    reflexivity.
Qed.

Lemma coverStarred_pool (c : N) (s : Hungarian) :
  coverStarred c (P s) = P (coverStarred c s).
Proof. unfold coverStarred. destruct (negb _); reflexivity. Qed.

Lemma prepare_pool (s : Hungarian) : prepare (P s) = P (prepare s).
Proof.
  unfold prepare. change (numCol (P s)) with (numCol s).
  change (numRow (P s)) with (numRow s).
  unfold for_range at 1. rewrite reduceRows_pool.
  fold (for_range 0 (numRow s) reduceRow (s, repeat vFill (numCol s))).
  destruct (for_range 0 (numRow s) reduceRow (s, repeat vFill (numCol s)))
    as [sA colMin]. cbn [fst snd].
  change (numRow (P sA)) with (numRow sA).
  rewrite (for_range_pool (reduceCol (map finiteOrZero colMin)))
    by (intros; apply reduceCol_pool).
  set (sB := for_range 0 (numRow sA) (reduceCol (map finiteOrZero colMin)) sA).
  change (numRow (P sB)) with (numRow sB).
  rewrite (for_range_pool (fun row t => for_range 0 (numCol t) (starCell row) t)).
  2:{ intros i t. change (numCol (P t)) with (numCol t).
      apply for_range_pool. intros; apply starCell_pool. }
  set (sC := for_range 0 (numRow sB) _ sB).
  change (set_colCovered (set_rowCovered (P sC) (fill false (rowCovered (P sC))))
            (fill false (colCovered (set_rowCovered (P sC) (fill false (rowCovered (P sC)))))))
    with (P (set_colCovered (set_rowCovered sC (fill false (rowCovered sC)))
               (fill false (colCovered (set_rowCovered sC (fill false (rowCovered sC))))))).
  set (sD := set_colCovered _ _).
  change (starredZeros (P sD)) with (starredZeros sD).
  apply for_each_pool. intros; apply coverStarred_pool.
Qed.

Lemma extendSequence_pool (fuel : nat) (s : Hungarian) (c : nat) :
  extendSequence fuel (P s) c = option_map P (extendSequence fuel s c).
Proof.
  revert s c. induction fuel as [|f IH]; intros s c; simpl.
  - change (findStarredZeroInCol (P s) c) with (findStarredZeroInCol s c).
    destruct (findStarredZeroInCol s c); reflexivity.
  - change (findStarredZeroInCol (P s) c) with (findStarredZeroInCol s c).
    destruct (findStarredZeroInCol s c) as [r|]; [|reflexivity].
    apply (IH (set_sequences s (rowSequence s ++ [r])
                 (colSequence s ++ [nth r (primedZeros s) 0]))).
Qed.

Lemma coverStarredColumn_pool (r : nat) (s : Hungarian) :
  coverStarredColumn r (P s) = P (coverStarredColumn r s).
Proof. unfold coverStarredColumn, P. pool_simpl. destruct (negb _); reflexivity. Qed.

Lemma augment_pool (fuel : nat) (s : Hungarian) (r c : nat) :
  augment fuel (P s) r c = option_map P (augment fuel s r c).
Proof.
  unfold augment.
  change (set_sequences (P s) [r] [c]) with (P (set_sequences s [r] [c])).
  rewrite extendSequence_pool.
  destruct (extendSequence fuel (set_sequences s [r] [c]) c) as [t|]; [|reflexivity].
  cbn [option_map]. f_equal.
  change (colSequence (P t)) with (colSequence t).
  rewrite (for_range_pool starSequence) by reflexivity.
  set (t1 := for_range 0 (length (colSequence t)) starSequence t).
  unfold coverStarredColumns.
  set (t2 := set_colCovered (set_rowCovered t1 (fill false (rowCovered t1)))
               (fill false
                  (colCovered (set_rowCovered t1 (fill false (rowCovered t1)))))).
  change (for_range 0 (numRow t2) coverStarredColumn (P t2) =
          P (for_range 0 (numRow t2) coverStarredColumn t2)).
  apply (for_range_pool coverStarredColumn). intros; apply coverStarredColumn_pool.
Qed.

Definition poolResult (x : Hungarian + Hungarian) : Hungarian + Hungarian :=
  match x with
  | inl t => inl (P t)
  | inr t => inr (P t)
  end.

Lemma searchZeros_pool (inner fuel : nat) (s : Hungarian) :
  searchZeros inner fuel (P s) = option_map poolResult (searchZeros inner fuel s).
Proof.
  revert s. induction fuel as [|f IH]; intros s.
  - simpl. change (findUncoveredZero (P s)) with (findUncoveredZero s).
    destruct (findUncoveredZero s) as [[r c]|]; reflexivity.
  - rewrite !searchZeros_S. change (findUncoveredZero (P s)) with (findUncoveredZero s).
    destruct (findUncoveredZero s) as [[r c]|]; [|reflexivity].
    change (star (P s) r) with (star s r).
    destruct (N.eqb (star s r) NONE).
    + change (set_primedZeros (P s) (upd r c (primedZeros (P s))))
        with (P (set_primedZeros s (upd r c (primedZeros s)))).
      rewrite augment_pool. destruct (augment _ _ _ _); reflexivity.
    + apply (IH (primeAndCover s r c)).
Qed.

Lemma updateCostsCell_pool (h : Z) (row col : nat) (s : Hungarian) :
  updateCostsCell h row col (P s) = P (updateCostsCell h row col s).
Proof. unfold updateCostsCell, P. pool_simpl. destruct (Teqb _ _); reflexivity. Qed.

Lemma updateCostsRow_pool (h : Z) (row : nat) (s : Hungarian) :
  updateCostsRow h row (P s) = P (updateCostsRow h row s).
Proof.
  unfold updateCostsRow. change (rowCovered (P s)) with (rowCovered s).
  destruct (nth row (rowCovered s) true).
  - apply for_each_pool2; [reflexivity|reflexivity|].
    intros; apply updateCostsCell_pool.
  - apply for_each_pool2; [reflexivity|reflexivity|].
    intros; apply updateCostsCell_pool.
Qed.
End Pool.
Lemma minCostCell_colInds (i row col : nat) (s : Hungarian) :
  colInds (minCostCell i row col s) = colInds s.
Proof. unfold minCostCell. now destruct (Tltb _ _). Qed.

Lemma findMinUncoveredCost_colInds (s : Hungarian) :
  colInds (snd (findMinUncoveredCost s)) = colInds s.
Proof.
  unfold findMinUncoveredCost. cbn [snd].
  rewrite (for_range_frame colInds); [reflexivity|].
  intros i t. unfold findMinUncoveredCostWorker.
  apply (for_range_frame colInds). intros row u. unfold minCostRow.
  destruct (negb _); auto.
  apply (for_each_frame colInds). intros col x. apply minCostCell_colInds.
Qed.

Lemma minimum_colInds (s : Hungarian) :
  colInds (snd (findMinUncoveredCost (rebalanceWorkers (fillColInds s)))) =
  colInds (fillColInds s).
Proof.
  rewrite findMinUncoveredCost_colInds.
  destruct (rebalanceWorkers_frame (fillColInds s)) as (wr & ->). reflexivity.
Qed.

Lemma searchZeros_Core (n inner fuel : nat) (s s1 : Hungarian) (order : list nat) :
  fits n -> Core n s -> Cover n s order ->
  searchZeros inner fuel s = Some (inr s1) -> Core n s1.
Proof.
  intros Hn HC HV H.
  set (m := Nat.max (Nat.max inner fuel) n).
  pose proof (@searchZeros_mono inner m fuel m s (inr s1) H ltac:(lia) ltac:(lia)) as E.
  pose proof (@searchZeros_inv n m Hn ltac:(lia) m s order HC HV ltac:(lia)) as Hi.
  rewrite E in Hi. destruct Hi as (order1 & HC1 & _). exact HC1.
Qed.

(** One call of [iterate] on two states that differ in the pool only ends the
    same way, in two states that differ in the pool only. *)
Lemma iterate_alike (n inner : nat) (s1 s2 : Hungarian) (order1 order2 : list nat) :
  fits n -> Core n s1 -> Cover n s1 order1 -> Core n s2 -> Cover n s2 order2 ->
  alike s1 s2 ->
  match iterate inner s1, iterate inner s2 with
  | Some (o1, t1), Some (o2, t2) => o1 = o2 /\ alike t1 t2
  | None, None => True
  | _, _ => False
  end.
Proof.
  intros Hn HC1 HV1 HC2 HV2 (w & wr & wc & ->). unfold iterate.
  pose proof (@searchZeros_Core n inner inner (pool s1 w wr wc)) as HCb.
  rewrite searchZeros_pool in *.
  pose proof (@searchZeros_Core n inner inner s1) as HCa.
  destruct (searchZeros inner inner s1) as [[a|a]|]; cbn [option_map poolResult] in *;
    auto.
  - split; auto. exists w, wr, wc. reflexivity.
  - specialize (HCa a order1 Hn HC1 HV1 eq_refl).
    specialize (HCb (pool a w wr wc) order2 Hn HC2 HV2 eq_refl).
    pose proof (core_shape HCa) as Hsa. pose proof (core_shape HCb) as Hsb.
    destruct (@minimum_inv n a Hsa)
      as ((ci1 & wr1 & wc1 & E1) & Hs1 & Hp1 & _ & Hcols1 & Hlow1 & Hatt1).
    destruct (@minimum_inv n (pool a w wr wc) Hsb)
      as ((ci2 & wr2 & wc2 & E2) & Hs2 & Hp2 & _ & Hcols2 & Hlow2 & Hatt2).
    pose proof (minimum_colInds a) as Ec1.
    pose proof (minimum_colInds (pool a w wr wc)) as Ec2.
    destruct (findMinUncoveredCost (rebalanceWorkers (fillColInds a))) as [h1 t1].
    destruct (findMinUncoveredCost (rebalanceWorkers (fillColInds (pool a w wr wc))))
      as [h2 t2].
    cbn [fst snd] in *.
    change (colInds (fillColInds (pool a w wr wc))) with (colInds (fillColInds a)) in Ec2.
    change (rowCovered (pool a w wr wc)) with (rowCovered a) in *.
    change (colCovered (pool a w wr wc)) with (colCovered a) in *.
    assert (Ecell : forall r c, cell (pool a w wr wc) r c = cell a r c) by reflexivity.
    assert (Eh : h1 = h2).
    { apply Tle_antisym.
      - destruct Hatt2 as [->|(r & c & Hr & Hrc & Hc & E)]; [apply Tle_Inf|].
        rewrite <- E, Ecell. apply Hlow1; auto. rewrite Ec1, <- Ec2. exact Hc.
      - destruct Hatt1 as [->|(r & c & Hr & Hrc & Hc & E)]; [apply Tle_Inf|].
        rewrite <- E, <- Ecell. apply Hlow2; auto. rewrite Ec2, <- Ec1. exact Hc. }
    assert (Et : t2 = pool t1 w wr2 wc2).
    { rewrite E2, E1.
      assert (Eci : ci2 = ci1).
      { rewrite E1 in Ec1. rewrite E2 in Ec2. cbn in Ec1, Ec2. congruence. }
      rewrite Eci. reflexivity. }
    subst h2. destruct h1 as [hz|].
    + split; auto.
      rewrite (@updateCosts_rows n hz t1 Hs1 Hp1), (@updateCosts_rows n hz t2 Hs2 Hp2).
      rewrite Et. exists w, wr2, wc2.
      apply for_range_pool. intros; apply updateCostsRow_pool.
    + split; auto. rewrite Et. exists w, wr2, wc2. reflexivity.
Qed.

Definition alikeResult (x y : option (list outcome * Hungarian)) : Prop :=
  match x, y with
  | Some (os1, t1), Some (os2, t2) => os1 = os2 /\ alike t1 t2
  | None, None => True
  | _, _ => False
  end.

Lemma assign_alike (n : nat) (a0 b0 : Hungarian) (inner fuel : nat) :
  fits n -> fresh n a0 -> fresh n b0 ->
  forall s1 s2, reached a0 s1 -> reached b0 s2 -> alike s1 s2 ->
  alikeResult (assign inner fuel s1) (assign inner fuel s2).
Proof.
  intros Hn Ha Hb. induction fuel as [|f IH]; intros s1 s2 Hr1 Hr2 Hal.
  - simpl. destruct Hal as (w & wr & wc & ->).
    change (colCovered (pool s1 w wr wc)) with (colCovered s1).
    destruct (forallb _ _); simpl; auto. split; auto. exists w, wr, wc. reflexivity.
  - cbn [assign].
    assert (Ecc : colCovered s2 = colCovered s1).
    { destruct Hal as (w & wr & wc & ->). reflexivity. }
    rewrite Ecc.
    destruct (forallb (fun b => b) (colCovered s1)) eqn:Eall.
    + simpl. auto.
    + destruct (@reached_inv n a0 s1 Hn Ha Hr1) as [HC1 [(o1 & HV1)|H]]; [|congruence].
      destruct (@reached_inv n b0 s2 Hn Hb Hr2) as [HC2 [(o2 & HV2)|H]];
        [|rewrite Ecc in H; congruence].
      pose proof (@iterate_alike n inner s1 s2 o1 o2 Hn HC1 HV1 HC2 HV2 Hal) as Hit.
      destruct (iterate inner s1) as [[oa ta]|] eqn:E1;
        destruct (iterate inner s2) as [[ob tb]|] eqn:E2; simpl; auto; try contradiction.
      destruct Hit as [<- Hal'].
      assert (Hra : reached a0 ta) by (apply reached_iterate with inner s1 oa; auto).
      assert (Hrb : reached b0 tb).
      { apply reached_iterate with inner s2 oa; auto. now rewrite Ecc. }
      specialize (IH ta tb Hra Hrb Hal'). unfold alikeResult in IH.
      destruct (assign inner f ta) as [[os1 t1]|];
        destruct (assign inner f tb) as [[os2 t2]|]; simpl; auto.
      destruct IH as [-> Hal'']. auto.
Qed.

(** The cost, on the costs [g], of the rows that a result assigns. *)
Definition assignedCost (g : nat -> nat -> Z) (res : list N) : Z :=
  Zsum (map (fun rx => if N.eqb (snd rx) NONE then 0%Z
                       else g (fst rx) (N.to_nat (snd rx)))
          (combine (seq 0 (length res)) res)).

(** C8.  With any number of workers [compute] returns, given enough fuel,
    and it returns what it returns with one worker: the same sequence after
    the same calls of [iterate], so a matching of the same total cost on any
    costs. *)
Theorem workers_do_not_matter (rows cols hw : nat) (sets : list (nat * nat * T))
  (fuel : nat) :
  fits (Nat.max rows cols) -> valid_calls rows cols sets ->
  (enough (Nat.max rows cols) <= fuel ->
   exists res, compute fuel (setCosts sets (construct rows cols hw)) = Some res) /\
  compute fuel (setCosts sets (construct rows cols hw)) =
  compute fuel (setCosts sets (construct rows cols 1)) /\
  option_map fst (compute_trace fuel (setCosts sets (construct rows cols hw))) =
  option_map fst (compute_trace fuel (setCosts sets (construct rows cols 1))) /\
  forall g,
    option_map (assignedCost g) (compute fuel (setCosts sets (construct rows cols hw))) =
    option_map (assignedCost g) (compute fuel (setCosts sets (construct rows cols 1))).
Proof.
  intros Hn _. set (n := Nat.max rows cols) in *.
  set (a0 := setCosts sets (construct rows cols 1)).
  set (b0 := setCosts sets (construct rows cols hw)).
  assert (Ha : fresh n a0) by apply setCosts_fresh, construct_fresh.
  assert (Hb : fresh n b0) by apply setCosts_fresh, construct_fresh.
  split.
  { intros Hfuel. destruct (@compute_total n b0 fuel Hn Hb Hfuel) as (os & s' & Et & _).
    exists (starredZeros s'). unfold compute. now rewrite Et. }
  assert (Hal : alike (prepare a0) (prepare b0)).
  { exists (Nat.max hw 1), (repeat 0 (Nat.max hw 1 + 1)), (repeat (Fin 0) (Nat.max hw 1)).
    rewrite <- prepare_pool. f_equal. unfold a0, b0. rewrite <- setCosts_pool.
    reflexivity. }
  pose proof (@assign_alike n a0 b0 fuel fuel Hn Ha Hb (prepare a0) (prepare b0)
                (reached_prepare a0) (reached_prepare b0) Hal) as H.
  unfold compute, compute_trace. unfold alikeResult in H.
  destruct (assign fuel fuel (prepare a0)) as [[os1 t1]|];
    destruct (assign fuel fuel (prepare b0)) as [[os2 t2]|]; try contradiction; auto.
  destruct H as [-> (w & wr & wc & ->)]. repeat split.
Qed.
(** ** The theorems at concrete inputs *)

(** The matrix of the concrete scenario of the specification. *)
Definition scenario (r c : nat) : Z :=
  nth c (nth r [[4; 1; 3]; [2; 0; 5]; [3; 2; 2]]%Z []) 0%Z.

Definition scenarioCalls : list (nat * nat * T) :=
  [(0, 0, Fin 4); (0, 1, Fin 1); (0, 2, Fin 3);
   (1, 0, Fin 2); (1, 1, Fin 0); (1, 2, Fin 5);
   (2, 0, Fin 3); (2, 1, Fin 2); (2, 2, Fin 2)].

Example scenario_result :
  compute 32 (setMatrix 3 3 (fun r c => Fin (scenario r c)) (construct 3 3 2)) =
  Some [1; 0; 2]%N.
Proof. vm_compute. reflexivity. Qed.

Example scenario_cost : totalCost scenario [1; 0; 2] = 5%Z.
Proof. reflexivity. Qed.

Example scenario_trace :
  option_map fst (compute_trace 32 (setCosts scenarioCalls (construct 3 3 2))) =
  Some [Updated; Augmented].
Proof. vm_compute. reflexivity. Qed.

(** A 1 by 2 matrix: the row is matched, not to its cheaper column. *)
Example wide_result :
  compute 18 (setCosts [(0, 0, Fin 5); (0, 1, Fin 1)] (construct 1 2 1)) =
  Some [0%N; NONE].
Proof. vm_compute. reflexivity. Qed.


Lemma augmentations_bounded_witness :
  exists os s',
    compute_trace 32 (setCosts scenarioCalls (construct 3 3 2)) = Some (os, s') /\
    forallb (fun b => b) (colCovered s') = true /\
    augmentations os <= 3 /\ length os <= enough 3.
Proof.
  apply (proj2 (@augmentations_bounded 3 3 2 scenarioCalls
                  ltac:(unfold fits, NONE; simpl; lia) ltac:(reflexivity)) 32).
  unfold enough. simpl. lia.
Defined.

Lemma stars_one_to_one_witness :
  (forall r, r < 3 ->
     star (prepare (setCosts scenarioCalls (construct 3 3 2))) r = NONE \/
     exists c, c < 3 /\
       star (prepare (setCosts scenarioCalls (construct 3 3 2))) r = N.of_nat c) /\
  (forall r1 r2 c, r1 < 3 -> r2 < 3 ->
     star (prepare (setCosts scenarioCalls (construct 3 3 2))) r1 = N.of_nat c ->
     star (prepare (setCosts scenarioCalls (construct 3 3 2))) r2 = N.of_nat c ->
     c < 3 -> r1 = r2).
Proof.
  apply (@stars_one_to_one 3 3 2 scenarioCalls
           (prepare (setCosts scenarioCalls (construct 3 3 2)))).
  - unfold fits, NONE. simpl. lia.
  - reflexivity.
  - apply reached_prepare.
Defined.

Lemma zeros_always_exact_witness :
  valid_calls 3 3 scenarioCalls /\
  forall col,
    In col (nth 2 (zeros (prepare (setCosts scenarioCalls (construct 3 3 2)))) []) <->
    col < 3 /\ cell (prepare (setCosts scenarioCalls (construct 3 3 2))) 2 col = Fin 0.
Proof.
  split; [reflexivity|].
  apply (@zeros_always_exact 3 3 2 scenarioCalls
           (prepare (setCosts scenarioCalls (construct 3 3 2)))).
  - unfold fits, NONE. simpl. lia.
  - reflexivity.
  - apply reached_prepare.
  - lia.
Defined.

(** The state of the scenario when its first search ends without a zero. *)
Definition scenarioSearched : Hungarian :=
  match searchZeros 3 3 (prepare (setCosts scenarioCalls (construct 3 3 2))) with
  | Some (inr s) => s
  | _ => construct 3 3 2
  end.



Lemma workers_do_not_matter_witness :
  (enough (Nat.max 3 3) <= 32 ->
   exists res, compute 32 (setCosts scenarioCalls (construct 3 3 4)) = Some res) /\
  compute 32 (setCosts scenarioCalls (construct 3 3 4)) =
  compute 32 (setCosts scenarioCalls (construct 3 3 1)) /\
  option_map fst (compute_trace 32 (setCosts scenarioCalls (construct 3 3 4))) =
  option_map fst (compute_trace 32 (setCosts scenarioCalls (construct 3 3 1))) /\
  forall g,
    option_map (assignedCost g) (compute 32 (setCosts scenarioCalls (construct 3 3 4))) =
    option_map (assignedCost g) (compute 32 (setCosts scenarioCalls (construct 3 3 1))).
Proof.
  apply (@workers_do_not_matter 3 3 4 scenarioCalls 32).
  - unfold fits, NONE. simpl. lia.
  - reflexivity.
Defined.

Lemma rebalanceWorkers_ranges_witness :
  let s' := rebalanceWorkers (fillColInds scenarioSearched) in
  let wr := workerRows s' in
  (length wr = workers s' + 1 /\ nth 0 wr 0 = 0 /\ nth (workers s') wr 0 = numRow s' /\
   forall i, i < workers s' -> nth i wr 0 <= nth (S i) wr 0) /\
  (forall row, row < numRow s' ->
     exists i, (i < workers s' /\ nth i wr 0 <= row < nth (S i) wr 0) /\
               forall j, j < workers s' /\ nth j wr 0 <= row < nth (S j) wr 0 -> j = i) /\
  (forall h j row col, j < workers s' -> row < 3 -> col < 3 ->
     ~ (nth j wr 0 <= row < nth (S j) wr 0) ->
     cell (updateCostsWorker h j s') row col = cell s' row col /\
     nth row (zeros (updateCostsWorker h j s')) [] = nth row (zeros s') []).
Proof.
  apply (@rebalanceWorkers_ranges 3 (fillColInds scenarioSearched)).
  - constructor; try reflexivity. repeat split; try reflexivity. vm_compute. lia.
  - split.
    + vm_compute. repeat constructor; simpl; intuition discriminate.
    + intros c Hc. vm_compute in Hc. intuition lia.
Defined.

(** With [rows = cols = 0], [compute] returns the empty sequence and makes no
    pass of [iterate]: the test of its loop holds of the empty [colCovered]. *)
Lemma compute_unset_empty :
  option_map fst (compute_trace 1 (construct 0 0 1)) = Some [] /\
  compute 1 (construct 0 0 1) = Some [] /\
  option_map (fun r => length (fst r)) (compute_trace (enough 0) (construct 0 0 1)) <> Some 1.
Proof.
  split; [reflexivity|]. split; [reflexivity|]. vm_compute. discriminate.
Qed.

Lemma compute_unset_trace_witness :
  exists s',
    compute_trace 1 (construct 2 3 4) =
    Some ((if Nat.max 2 3 =? 0 then [] else [Exhausted]), s') /\
    compute 1 (construct 2 3 4) = Some (repeat NONE (Nat.max 2 3)).
Proof.
  apply (@compute_unset_trace 2 3 4 1).
  - unfold fits, NONE. simpl. lia.
  - lia.
Defined.


(** * Further properties of the member functions *)

(** ** [setCost] after the constructor *)

(** The value of the last call among [sets] that names the cell [(r, c)]. *)
Definition lastSet (sets : list (nat * nat * T)) (r c : nat) : option T :=
  option_map snd
    (find (fun x => (fst (fst x) =? r) && (snd (fst x) =? c)) (rev sets)).

Lemma setCosts_app (l m : list (nat * nat * T)) (s : Hungarian) :
  setCosts (l ++ m) s = setCosts m (setCosts l s).
Proof. unfold setCosts. apply fold_left_app. Qed.

(** X1.  After the constructor and any calls of [setCost] with a row and a
    column below [max(rows, columns)], a cell of the square matrix holds the
    value of the last call that named it, and the fill value if no call
    did: calls to other cells leave it alone, and rows and columns of the
    padding are written like any other. *)
Theorem setCosts_last_wins (rows cols hw : nat) (sets : list (nat * nat * T))
  (r c : nat) :
  forallb (fun x => (fst (fst x) <? Nat.max rows cols) &&
                    (snd (fst x) <? Nat.max rows cols)) sets = true ->
  r < Nat.max rows cols -> c < Nat.max rows cols ->
  cell (setCosts sets (construct rows cols hw)) r c =
  match lastSet sets r c with
  | Some v => v
  | None => vFill
  end.
Proof.
  set (n := Nat.max rows cols). intros Hv Hr Hc.
  induction sets as [|[[row col] v] sets IH] using rev_ind.
  - unfold lastSet. simpl. unfold cell, construct. cbn [index cost]. fold n.
    rewrite nth_repeat_any. now destruct (_ <? _).
  - rewrite forallb_app in Hv. apply andb_true_iff in Hv. destruct Hv as [Hv Hx].
    simpl in Hx. rewrite andb_true_r in Hx. apply andb_true_iff in Hx.
    destruct Hx as [Hrow Hcol]. apply Nat.ltb_lt in Hrow, Hcol.
    rewrite setCosts_app. unfold setCosts at 1. cbn [fold_left fst snd].
    assert (Hs : shape n (setCosts sets (construct rows cols hw))).
    { apply fresh_shape, setCosts_fresh, construct_fresh. }
    rewrite (@setCost_cell n) by auto.
    unfold lastSet. rewrite rev_app_distr. cbn [rev app find fst snd].
    destruct ((row =? r) && (col =? c)); [reflexivity|].
    apply IH, Hv.
Qed.
(** ** [fillColInds] *)

Lemma filter_seq_S (p : nat -> bool) (a k : nat) :
  filter p (seq a (S k)) = filter p (seq a k) ++ (if p (a + k) then [a + k] else []).
Proof.
  rewrite seq_S, filter_app. simpl. now destruct (p (a + k)).
Qed.

(** X2.  [fillColInds] throws away the old list and leaves in [colInds] the
    uncovered columns, each once, in increasing order; it changes nothing
    else. *)
Theorem fillColInds_uncovered (s : Hungarian) :
  fillColInds s =
  set_colInds s
    (filter (fun c => negb (nth c (colCovered s) true)) (seq 0 (numCol s))).
Proof.
  unfold fillColInds. f_equal.
  induction (numCol s) as [|k IH].
  - reflexivity.
  - rewrite for_range_last by lia. rewrite IH, filter_seq_S. simpl.
    destruct (negb _); [reflexivity|now rewrite app_nil_r].
Qed.

(** ** The two searches *)

Lemma first_some_seq (B : Type) (f : nat -> option B) (a k : nat) :
  match first_some f (seq a k) with
  | Some b => exists x, a <= x < a + k /\ f x = Some b /\
                        forall y, a <= y < x -> f y = None
  | None => forall y, a <= y < a + k -> f y = None
  end.
Proof.
  revert a. induction k as [|k IH]; intros a; simpl.
  - intros y Hy. lia.
  - destruct (f a) as [b|] eqn:E.
    + exists a. split; [lia|]. split; auto. intros y Hy. lia.
    + specialize (IH (S a)). destruct (first_some f (seq (S a) k)) as [b|].
      * destruct IH as (x & Hx & Ex & Hy). exists x. split; [lia|]. split; auto.
        intros y Hya. destruct (Nat.eq_dec y a) as [->|Hne]; auto. apply Hy. lia.
      * intros y Hy. destruct (Nat.eq_dec y a) as [->|Hne]; auto. apply IH. lia.
Qed.

Lemma find_first (A : Type) (p : A -> bool) (l : list A) :
  match find p l with
  | Some x => exists pre post, l = pre ++ x :: post /\ p x = true /\
                               forall y, In y pre -> p y = false
  | None => forall y, In y l -> p y = false
  end.
Proof.
  induction l as [|a l IH]; simpl.
  - intros y [].
  - destruct (p a) eqn:E.
    + exists [], l. split; auto. split; auto. intros y [].
    + destruct (find p l) as [x|].
      * destruct IH as (pre & post & -> & Hx & Hy). exists (a :: pre), post.
        split; auto. split; auto. intros y [<-|Hin]; auto.
      * intros y [<-|Hin]; auto.
Qed.

(** X3.  [findUncoveredZero] returns the first uncovered zero in the order of
    its loops: the lowest uncovered row whose zero list holds an uncovered
    column, and the first uncovered column of that list; it returns false
    only when no uncovered row lists an uncovered column. *)
Theorem findUncoveredZero_first (s : Hungarian) :
  match findUncoveredZero s with
  | Some (r, c) =>
      r < numRow s /\ nth r (rowCovered s) true = false /\
      nth c (colCovered s) true = false /\
      (exists pre post,
         nth r (zeros s) [] = pre ++ c :: post /\
         forall c', In c' pre -> nth c' (colCovered s) true = true) /\
      (forall r' c', r' < r -> nth r' (rowCovered s) true = false ->
         In c' (nth r' (zeros s) []) -> nth c' (colCovered s) true = true)
  | None =>
      forall r c, r < numRow s -> nth r (rowCovered s) true = false ->
        In c (nth r (zeros s) []) -> nth c (colCovered s) true = true
  end.
Proof.
  unfold findUncoveredZero.
  set (f := fun row : nat =>
              if negb (nth row (rowCovered s) true) then
                match find (fun c => negb (nth c (colCovered s) true))
                        (nth row (zeros s) []) with
                | Some c => Some (row, c)
                | None => None
                end
              else None).
  assert (Hnone : forall r c, f r = None -> nth r (rowCovered s) true = false ->
                    In c (nth r (zeros s) []) -> nth c (colCovered s) true = true).
  { intros r c E Hr Hin. unfold f in E. rewrite Hr in E. simpl in E.
    pose proof (find_first (fun c => negb (nth c (colCovered s) true))
                  (nth r (zeros s) [])) as Hf.
    destruct (find _ _); [discriminate|].
    apply Hf in Hin. now apply negb_false_iff in Hin. }
  pose proof (first_some_seq f 0 (numRow s)) as H.
  destruct (first_some f (seq 0 (numRow s))) as [[r c]|].
  - destruct H as (x & Hx & Ex & Hy). unfold f in Ex.
    destruct (nth x (rowCovered s) true) eqn:Ecov; [discriminate|]. simpl in Ex.
    pose proof (find_first (fun c => negb (nth c (colCovered s) true))
                  (nth x (zeros s) [])) as Hf.
    destruct (find _ _) as [c0|]; [|discriminate].
    injection Ex as <- <-. destruct Hf as (pre & post & E & Hc & Hpre).
    split; [lia|]. split; auto. split; [now apply negb_true_iff in Hc|].
    split.
    + exists pre, post. split; auto. intros c' Hin. apply Hpre in Hin.
      now apply negb_false_iff in Hin.
    + intros r' c' Hr' Hcov Hin. apply (Hnone r' c'); auto. apply Hy. lia.
  - intros r c Hr Hcov Hin. apply (Hnone r c); auto. apply H. lia.
Qed.

Lemma find_seq_first (p : nat -> bool) (a k : nat) :
  match find p (seq a k) with
  | Some x => a <= x < a + k /\ p x = true /\ forall y, a <= y < x -> p y = false
  | None => forall y, a <= y < a + k -> p y = false
  end.
Proof.
  revert a. induction k as [|k IH]; intros a; simpl.
  - intros y Hy. lia.
  - destruct (p a) eqn:E.
    + split; [lia|]. split; auto. intros y Hy. lia.
    + specialize (IH (S a)). destruct (find p (seq (S a) k)) as [x|].
      * destruct IH as (Hx & Ex & Hy). split; [lia|]. split; auto.
        intros y Hya. destruct (Nat.eq_dec y a) as [->|Hne]; auto. apply Hy. lia.
      * intros y Hy. destruct (Nat.eq_dec y a) as [->|Hne]; auto. apply IH. lia.
Qed.

(** X4.  While no column is the star of two rows, [findStarredZeroInCol]
    inverts [starredZeros]: it returns row [r] for column [c] exactly when
    [starredZeros[r]] is [c], and false exactly when no row has its star in
    [c]. *)
Theorem findStarredZeroInCol_inverse (n : nat) (s : Hungarian) (c : nat) :
  fits n -> numRow s = n -> one_to_one n s -> c < n ->
  (forall r, findStarredZeroInCol s c = Some r <-> r < n /\ star s r = N.of_nat c) /\
  (findStarredZeroInCol s c = None <-> forall r, r < n -> star s r <> N.of_nat c).
Proof.
  intros Hn En Hinj Hc. unfold findStarredZeroInCol. rewrite En.
  pose proof (find_seq_first
                (fun row => N.eqb (nth row (starredZeros s) NONE) (N.of_nat c)) 0 n) as H.
  fold (star s) in H.
  destruct (find _ (seq 0 n)) as [x|].
  - destruct H as (Hx & Ex & _). apply N.eqb_eq in Ex. fold (star s x) in Ex. split.
    + intros r. split.
      * intros [= <-]. split; [lia|auto].
      * intros [Hr Er]. f_equal. apply Hinj; auto; [lia|congruence|].
        rewrite Ex. now apply fits_ne with n.
    + split; [discriminate|]. intros Hno. destruct (Hno x); [lia|auto].
  - split.
    + intros r. split; [discriminate|]. intros [Hr Er].
      specialize (H r ltac:(lia)). apply N.eqb_neq in H. now destruct H.
    + split; auto. intros _ r Hr E.
      specialize (H r ltac:(lia)). apply N.eqb_neq in H. now destruct H.
Qed.

(** ** [rebalanceWorkers]: how many uncovered rows a worker gets *)

(** The uncovered rows of the range [[a, b)]. *)
Definition uncoveredRows (covered : list bool) (a b : nat) : list nat :=
  filter (fun r => negb (nth r covered true)) (seq a (b - a)).

Lemma uncoveredRows_count (covered : list bool) (a b : nat) :
  a <= b ->
  uncoveredBelow covered a + length (uncoveredRows covered a b) = uncoveredBelow covered b.
Proof.
  unfold uncoveredRows. induction 1 as [|b Hab IH].
  - rewrite Nat.sub_diag. simpl. lia.
  - replace (S b - a) with (S (b - a)) by lia.
    rewrite filter_seq_S, length_app. replace (a + (b - a)) with b by lia.
    simpl. destruct (nth b covered true); simpl; lia.
Qed.

(** The invariant of the row loop with the place of every boundary set so
    far: [j * (rowsPerWorker + 1) - 1] uncovered rows lie below boundary [j]. *)
Definition balanceInv (covered : list bool) (W k : nat) (st : list nat * nat * nat) : Prop :=
  rebalanceInv covered W k st /\
  let '(wr, ind, _) := st in
  forall j, 1 <= j < ind ->
    uncoveredBelow covered (nth j wr 0) + 1 =
    j * (count_occ bool_dec covered false / W + 1).

Lemma rebalanceRow_balanceInv (covered : list bool) (W k : nat)
  (st : list nat * nat * nat) :
  1 <= W ->
  balanceInv covered W k st ->
  balanceInv covered W (S k)
    (rebalanceRow covered (count_occ bool_dec covered false / W) k st).
Proof.
  intros HW [Hinv Hb]. split; [now apply rebalanceRow_inv|].
  destruct st as [[wr ind] rc]. unfold rebalanceRow.
  destruct Hinv as (Hl & H0 & H1 & Hu & Hrc & Hlt & Hs).
  pose proof (uncoveredBelow_total covered (S k)) as Hk.
  pose proof (rowsPerWorker_bound covered HW) as Hbound.
  cbn [uncoveredBelow] in Hk.
  destruct (nth k covered true) eqn:Ec; simpl; auto.
  destruct (Nat.eqb_spec (count_occ bool_dec covered false / W) rc) as [E|E]; auto.
  assert (Hind : ind < W) by nia.
  intros j Hj. rewrite nth_upd, Hl.
  destruct (Nat.eqb_spec ind j) as [<-|Hne]; simpl.
  - destruct (Nat.ltb_spec ind (W + 1)); [|lia]. rewrite Hu, <- E. nia.
  - apply Hb. lia.
Qed.

(** X5.  [rebalanceWorkers] spreads the uncovered rows: with [u] uncovered
    rows and [w] workers, the range of the first worker holds at most
    [u / w] uncovered rows and the range of every worker at most
    [u / w + 1]; the quotient is rounded down, the source's [ceil] being
    applied to an integer. *)
Theorem rebalanceWorkers_balanced (s : Hungarian) :
  pool_ok s ->
  let s' := rebalanceWorkers s in
  let rowsPerWorker := count_occ bool_dec (rowCovered s) false / workers s in
  length (uncoveredRows (rowCovered s') (nth 0 (workerRows s') 0) (nth 1 (workerRows s') 0))
  <= rowsPerWorker /\
  forall i, i < workers s' ->
    length (uncoveredRows (rowCovered s') (nth i (workerRows s') 0)
              (nth (S i) (workerRows s') 0))
    <= rowsPerWorker + 1.
Proof.
  intros Hpool. pose proof (rebalanceWorkers_partitioned Hpool) as Hp.
  destruct Hpool as (HW & Hl & H0). cbn zeta.
  set (cov := rowCovered s). set (rpw := count_occ bool_dec cov false / workers s).
  assert (Hcount : forall i, i < workers s ->
            uncoveredBelow cov (nth (S i) (workerRows (rebalanceWorkers s)) 0) <=
            uncoveredBelow cov (nth i (workerRows (rebalanceWorkers s)) 0) + rpw + 1 /\
            (i = 0 ->
             uncoveredBelow cov (nth (S i) (workerRows (rebalanceWorkers s)) 0) <=
             uncoveredBelow cov (nth i (workerRows (rebalanceWorkers s)) 0) + rpw)).
  { unfold rebalanceWorkers. fold cov rpw.
    pose proof (@for_range_inv _ (balanceInv cov (workers s)) 0 (numRow s)
                  (rebalanceRow cov rpw) (workerRows s, 1, 0) (Nat.le_0_l _)) as H.
    destruct (for_range 0 (numRow s) _ _) as [[wr ind] rc].
    assert (Hinv : balanceInv cov (workers s) (numRow s) (wr, ind, rc)).
    { apply H.
      - split.
        + simpl. repeat split; auto; try lia.
          intros i j Hij. replace i with 0 by lia. replace j with 0 by lia. lia.
        + intros j Hj. lia.
      - intros i t _. now apply rebalanceRow_balanceInv. }
    destruct Hinv as [Hinv Hb].
    pose proof (rebalanceInv_ind HW Hinv) as Hind.
    destruct Hinv as (Hl' & H0' & H1 & Hu & Hrc & Hlt & Hs).
    fold rpw in Hu, Hrc, Hb.
    assert (Hn : forall j, nth j (for_range ind (length wr)
                                     (fun i w => upd i (numRow s) w) wr) 0 =
                           if (ind <=? j) && (j <? length wr) then numRow s else nth j wr 0).
    { intros j. apply nth_fill_from; lia. }
    cbn [workerRows set_workerRows]. intros i Hi. rewrite !Hn, Hl'.
    destruct (Nat.leb_spec ind i); destruct (Nat.leb_spec ind (S i));
      destruct (Nat.ltb_spec i (workers s + 1));
      destruct (Nat.ltb_spec (S i) (workers s + 1)); simpl; try lia.
    - rewrite Hu. destruct (Nat.eq_dec i 0) as [->|Hi0].
      + rewrite H0'. simpl. split; [nia|intros _; nia].
      + pose proof (Hb i ltac:(lia)). split; [nia|lia].
    - destruct (Nat.eq_dec i 0) as [->|Hi0].
      + rewrite H0'. pose proof (Hb 1 ltac:(lia)). simpl. split; [nia|intros _; nia].
      + pose proof (Hb i ltac:(lia)). pose proof (Hb (S i) ltac:(lia)). split; [nia|lia]. }
  destruct (rebalanceWorkers_frame s) as (wr & E).
  assert (Ecov : rowCovered (rebalanceWorkers s) = cov) by now rewrite E.
  assert (Ew : workers (rebalanceWorkers s) = workers s) by now rewrite E.
  destruct Hp as (_ & _ & _ & Hstep). rewrite Ecov, Ew in *. split.
  - destruct (Hcount 0 ltac:(lia)) as [_ Hc0]. specialize (Hc0 eq_refl).
    pose proof (@uncoveredRows_count cov _ _ (Hstep 0 ltac:(lia))). lia.
  - intros i Hi. destruct (Hcount i Hi) as [Hc _].
    pose proof (@uncoveredRows_count cov _ _ (Hstep i Hi)). lia.
Qed.

(** ** The minimum and the cost update as [iterate] runs them *)

(** X6.  As [iterate] calls it, after [fillColInds] and [rebalanceWorkers],
    [findMinUncoveredCost] returns a lower bound of the cells in an
    uncovered row and an uncovered column that is the cost of one of them
    or the fill value; it returns the fill value exactly when every such
    cell holds the fill value (so also when there is no such cell); and it
    changes no cost, cover, star, prime or zero list. *)
Theorem findMinUncoveredCost_minimum (n : nat) (s1 : Hungarian) :
  shape n s1 ->
  let h := fst (findMinUncoveredCost (rebalanceWorkers (fillColInds s1))) in
  let s4 := snd (findMinUncoveredCost (rebalanceWorkers (fillColInds s1))) in
  (forall r c, r < n -> c < n -> nth r (rowCovered s1) true = false ->
     nth c (colCovered s1) true = false -> Tle h (cell s1 r c)) /\
  (h = vFill \/
   exists r c, r < n /\ c < n /\ nth r (rowCovered s1) true = false /\
               nth c (colCovered s1) true = false /\ cell s1 r c = h) /\
  (h = vFill <->
   forall r c, r < n -> c < n -> nth r (rowCovered s1) true = false ->
     nth c (colCovered s1) true = false -> cell s1 r c = vFill) /\
  cost s4 = cost s1 /\ zeros s4 = zeros s1 /\
  rowCovered s4 = rowCovered s1 /\ colCovered s4 = colCovered s1 /\
  starredZeros s4 = starredZeros s1 /\ primedZeros s4 = primedZeros s1.
Proof.
  intros Hs. cbn zeta.
  destruct (@minimum_inv n s1 Hs) as ((ci & wr & wc & E) & _ & _ & _ & Hcols & Hlow & Hatt).
  set (h := fst (findMinUncoveredCost (rebalanceWorkers (fillColInds s1)))) in *.
  set (s4 := snd (findMinUncoveredCost (rebalanceWorkers (fillColInds s1)))) in *.
  assert (Hlow' : forall r c, r < n -> c < n -> nth r (rowCovered s1) true = false ->
                    nth c (colCovered s1) true = false -> Tle h (cell s1 r c)).
  { intros r c Hr Hc Er Ec. apply Hlow; auto. apply Hcols. auto. }
  assert (Hatt' : h = vFill \/
            exists r c, r < n /\ c < n /\ nth r (rowCovered s1) true = false /\
                        nth c (colCovered s1) true = false /\ cell s1 r c = h).
  { destruct Hatt as [Hinf|(r & c & Hr & Er & Hin & Ec)]; [now left|right].
    apply Hcols in Hin. destruct Hin as [Hc Ecov]. exists r, c. auto. }
  split; [exact Hlow'|]. split; [exact Hatt'|]. split.
  - split.
    + intros Eh r c Hr Hc Er Ec. specialize (Hlow' r c Hr Hc Er Ec).
      rewrite Eh in Hlow'. apply Tle_antisym; [apply Tle_Inf|exact Hlow'].
    + intros Hall. destruct Hatt' as [Hinf|(r & c & Hr & Hc & Er & Ec & Eh)]; auto.
      rewrite <- Eh. now apply Hall.
  - rewrite E. repeat split.
Qed.


(** ** What holds of every state of [compute] *)

(** A cover of the finite cells by rows [rc] and columns [cc] in which every
    covered line holds a star that no other covered line holds. *)
Definition Konig (n : nat) (s : Hungarian) (rc cc : list bool) : Prop :=
  (forall r, r < n -> nth r rc true = true ->
     exists c, c < n /\ star s r = N.of_nat c /\ nth c cc true = false) /\
  (forall c, c < n -> nth c cc true = true ->
     exists r, r < n /\ star s r = N.of_nat c /\ nth r rc true = false) /\
  (forall r c, r < n -> c < n -> nth r rc true = false -> nth c cc true = false ->
     cell s r c = Inf).

Lemma Cover_lines (n : nat) (s : Hungarian) (order : list nat) :
  Cover n s order ->
  (forall r, r < n -> nth r (rowCovered s) true = true ->
     exists c, c < n /\ star s r = N.of_nat c /\ nth c (colCovered s) true = false) /\
  (forall c, c < n -> nth c (colCovered s) true = true ->
     exists r, r < n /\ star s r = N.of_nat c /\ nth r (rowCovered s) true = false).
Proof.
  intros HV. split.
  - intros r Hr Hcov.
    assert (Hin : In r order) by (apply (cov_order HV); auto).
    destruct (chain_in _ _ _ _ (cov_chain HV) Hin) as (H & _). exact H.
  - intros c Hc Hcov. apply (cov_col HV Hc Hcov).
Qed.

Lemma iterate_Konig (n inner : nat) (s : Hungarian) (order : list nat) (s' : Hungarian) :
  fits n -> n <= inner -> Core n s -> Cover n s order ->
  iterate inner s = Some (Exhausted, s') ->
  exists rc cc, Konig n s' rc cc.
Proof.
  intros Hn Hinner HC HV. unfold iterate.
  pose proof (@searchZeros_inv n inner Hn Hinner inner s order HC HV ltac:(lia)) as H.
  destruct (searchZeros inner inner s) as [[s1|s1]|]; [discriminate| |destruct H].
  destruct H as (order1 & HC1 & HV1 & Hnone & Est & Ec & Ez & _).
  pose proof (core_shape HC1) as Hs1.
  destruct (@minimum_inv n s1 Hs1) as ((ci & wr & wc & E4) & Hs4 & Hp4 & Hci & Hcols
                                        & Hlow & Hatt).
  destruct (findMinUncoveredCost (rebalanceWorkers (fillColInds s1))) as [h s4].
  cbn [fst snd] in *. destruct h as [hz|]; [discriminate|].
  intros [= <-]. exists (rowCovered s1), (colCovered s1).
  assert (Estar : forall r, star (set_colCovered s4 (fill true (colCovered s4))) r =
                            star s1 r).
  { intros r. unfold star. rewrite E4. reflexivity. }
  destruct (Cover_lines HV1) as [Hrow Hcol]. split; [|split].
  - intros r Hr Hcov. destruct (Hrow r Hr Hcov) as (c & Hc & E & Hcc).
    exists c. rewrite Estar. auto.
  - intros c Hc Hcov. destruct (Hcol c Hc Hcov) as (r & Hr & E & Hrc).
    exists r. rewrite Estar. auto.
  - intros r c Hr Hc Hrcov Hccov.
    change (cell (set_colCovered s4 (fill true (colCovered s4))) r c) with (cell s4 r c).
    assert (Ecell4 : cell s4 r c = cell s1 r c) by (rewrite E4; reflexivity).
    rewrite Ecell4.
    assert (Hle : Tle Inf (cell s1 r c)).
    { apply Hlow; auto. apply Hcols. auto. }
    destruct (cell s1 r c); [discriminate Hle|reflexivity].
Qed.

(** The reduced costs, the covers and the stars at the test of the loop of
    [compute]. *)
Definition settled (n : nat) (s0 s : Hungarian) : Prop :=
  Core n s /\ reduces n s0 s /\
  ((exists order, Cover n s order) \/
   (forallb (fun b => b) (colCovered s) = true /\ exists rc cc, Konig n s rc cc)).

Lemma reached_settled (n : nat) (s0 s : Hungarian) :
  fits n -> fresh n s0 -> reached s0 s -> settled n s0 s.
Proof.
  intros Hn Hf. induction 1 as [|fuel s o s' Hr IH Hall Hit].
  - destruct (@prepare_inv n s0 Hn Hf) as (HC & HV & Hred).
    split; auto. split; auto. left. eauto.
  - destruct IH as (HC & Hred & [(order & HV)|[Hall' _]]); [|congruence].
    pose proof (@iterate_after n fuel s order o s' Hn HC HV Hit) as Ha.
    destruct Ha as (HC' & Hred' & Ha).
    split; auto. split; [eapply reduces_trans; eauto|].
    destruct o.
    + left. exists []. apply Ha.
    + destruct Ha as (order1 & HV1 & _). eauto.
    + right. split; [apply Ha|].
      apply (@iterate_Konig n (Nat.max fuel n) s order s' Hn ltac:(lia) HC HV).
      apply (@iterate_mono fuel (Nat.max fuel n) s (Exhausted, s') Hit). lia.
Qed.

(** When [compute] returns, the covers of the last search are such a cover. *)
Lemma settled_Konig (n : nat) (s0 s : Hungarian) :
  settled n s0 s -> forallb (fun b => b) (colCovered s) = true ->
  exists rc cc, Konig n s rc cc.
Proof.
  intros (HC & _ & [(order & HV)|[_ H]]) Hall; auto.
  exists (rowCovered s), (colCovered s).
  destruct (Cover_lines HV) as [Hrow Hcol]. split; auto. split; auto.
  intros r c Hr Hc _ Hcc. rewrite (forallb_true_nth _ c Hall) in Hcc. discriminate.
Qed.

Lemma compute_settled (n : nat) (s0 : Hungarian) (fuel : nat) :
  fits n -> fresh n s0 -> enough n <= fuel ->
  exists os s',
    compute_trace fuel s0 = Some (os, s') /\ compute fuel s0 = Some (starredZeros s') /\
    settled n s0 s' /\ forallb (fun b => b) (colCovered s') = true.
Proof.
  intros Hn Hf Hfuel.
  destruct (@compute_total n s0 fuel Hn Hf Hfuel) as (os & s' & Et & (_ & Hall & _) & _).
  exists os, s'. split; auto. split; [unfold compute; now rewrite Et|].
  split; auto. apply reached_settled; auto.
  unfold compute_trace in Et. apply (@assign_reached s0 fuel fuel (prepare s0) os s'); auto.
  apply reached_prepare.
Qed.


(** X9.  At the test of the loop of [compute], while a column is uncovered,
    every starred zero is covered once, by its row or by its column and not
    by both, and nothing else is covered: a row without a star is uncovered
    and so is a column without a star. *)
Theorem covers_invariant (rows cols hw : nat) (sets : list (nat * nat * T))
  (s : Hungarian) :
  fits (Nat.max rows cols) -> valid_calls rows cols sets ->
  reached (setCosts sets (construct rows cols hw)) s ->
  forallb (fun b => b) (colCovered s) = false ->
  (forall r c, r < Nat.max rows cols -> c < Nat.max rows cols ->
     star s r = N.of_nat c ->
     nth r (rowCovered s) true = negb (nth c (colCovered s) true)) /\
  (forall r, r < Nat.max rows cols -> star s r = NONE ->
     nth r (rowCovered s) true = false) /\
  (forall c, c < Nat.max rows cols ->
     (forall r, r < Nat.max rows cols -> star s r <> N.of_nat c) ->
     nth c (colCovered s) true = false).
Proof.
  intros Hn _ Hr Hall. set (n := Nat.max rows cols) in *.
  assert (Hf : fresh n (setCosts sets (construct rows cols hw))).
  { apply setCosts_fresh, construct_fresh. }
  destruct (@reached_settled _ _ s Hn Hf Hr) as (HC & _ & [(order & HV)|[Hall' _]]);
    [|congruence].
  destruct (Cover_lines HV) as [Hrow Hcol]. split; [|split].
  - intros r c Hrn Hcn E. destruct (nth r (rowCovered s) true) eqn:Er.
    + destruct (Hrow r Hrn Er) as (c0 & Hc0 & E0 & Hun).
      rewrite E in E0. apply Nat2N.inj in E0. subst c0. now rewrite Hun.
    + rewrite (cov_row HV Hrn Hcn Er E). reflexivity.
  - intros r Hrn E. destruct (nth r (rowCovered s) true) eqn:Er; auto.
    destruct (Hrow r Hrn Er) as (c0 & Hc0 & E0 & _).
    rewrite E in E0. symmetry in E0. now apply fits_ne with (n := n) in E0.
  - intros c Hcn Hno. destruct (nth c (colCovered s) true) eqn:Ec; auto.
    destruct (Hcol c Hcn Ec) as (r & Hrn & E & _). now destruct (Hno r Hrn).
Qed.

(** The covered rows. *)
Definition coveredRows (n : nat) (s : Hungarian) : list nat :=
  filter (fun r => nth r (rowCovered s) true) (seq 0 n).

Lemma Cover_coveredRows (n : nat) (s : Hungarian) (order : list nat) :
  Cover n s order -> length order = length (coveredRows n s).
Proof.
  intros HV. apply Permutation_length. apply NoDup_Permutation.
  - apply (chain_rows _ _ _ (cov_chain HV)).
  - apply NoDup_filter, seq_NoDup.
  - intros r. rewrite (cov_order HV). unfold coveredRows.
    rewrite filter_In, in_seq. split; intros []; split; auto; lia.
Qed.

(** X10.  A call of [iterate] that updates the costs leaves the stars as
    they are and leaves a zero in an uncovered row and an uncovered column
    for the next call to find; it uncovers no row, and it covers a row if
    it began with an uncovered zero.  So two updates in a row are separated
    by the covering of a row. *)
Theorem update_makes_progress (rows cols hw : nat) (sets : list (nat * nat * T))
  (fuel : nat) (s s' : Hungarian) :
  fits (Nat.max rows cols) -> valid_calls rows cols sets ->
  reached (setCosts sets (construct rows cols hw)) s ->
  forallb (fun b => b) (colCovered s) = false ->
  iterate fuel s = Some (Updated, s') ->
  starredZeros s' = starredZeros s /\
  findUncoveredZero s' <> None /\
  length (coveredRows (Nat.max rows cols) s) <= length (coveredRows (Nat.max rows cols) s') /\
  (findUncoveredZero s <> None ->
   length (coveredRows (Nat.max rows cols) s) < length (coveredRows (Nat.max rows cols) s')).
Proof.
  intros Hn _ Hr Hall Hit. set (n := Nat.max rows cols) in *.
  assert (Hf : fresh n (setCosts sets (construct rows cols hw))).
  { apply setCosts_fresh, construct_fresh. }
  destruct (@reached_settled _ _ s Hn Hf Hr) as (HC & _ & [(order & HV)|[Hall' _]]);
    [|congruence].
  destruct (@iterate_after n fuel s order Updated s' Hn HC HV Hit)
    as (_ & _ & order1 & HV1 & Hsome & Est & Hle & Hlt).
  rewrite <- (Cover_coveredRows HV), <- (Cover_coveredRows HV1). auto.
Qed.

(** ** What [compute] returns for any costs *)

(** Cells outside the [rows] by [cols] matrix keep the fill value. *)
Lemma setCosts_padding (rows cols hw : nat) (sets : list (nat * nat * T)) (r c : nat) :
  valid_calls rows cols sets ->
  r < Nat.max rows cols -> c < Nat.max rows cols -> ~ (r < rows /\ c < cols) ->
  cell (setCosts sets (construct rows cols hw)) r c = Inf.
Proof.
  set (n := Nat.max rows cols). unfold valid_calls. intros Hv Hr Hc Hout.
  induction sets as [|[[row col] v] sets IH] using rev_ind.
  - unfold cell, construct. cbn [setCosts fold_left index cost]. fold n.
    rewrite nth_repeat_any. now destruct (_ <? _).
  - rewrite forallb_app in Hv. apply andb_true_iff in Hv. destruct Hv as [Hv Hx].
    simpl in Hx. rewrite andb_true_r in Hx. apply andb_true_iff in Hx.
    destruct Hx as [Hrow Hcol]. apply Nat.ltb_lt in Hrow, Hcol.
    rewrite setCosts_app. unfold setCosts at 1. cbn [fold_left fst snd].
    assert (Hs : shape n (setCosts sets (construct rows cols hw))).
    { apply fresh_shape, setCosts_fresh, construct_fresh. }
    rewrite (@setCost_cell n) by (auto; unfold n; lia).
    destruct (Nat.eqb_spec row r); destruct (Nat.eqb_spec col c); simpl; auto.
    lia.
Qed.

Lemma NoDup_fst_inj (q : list (nat * nat)) (r c1 c2 : nat) :
  NoDup (map fst q) -> In (r, c1) q -> In (r, c2) q -> c1 = c2.
Proof.
  induction q as [|[a b] q IH]; simpl; intros Hnd H1 H2; [contradiction|].
  inversion Hnd as [|? ? Hnot Hnd']; subst.
  destruct H1 as [E1|H1]; destruct H2 as [E2|H2].
  - congruence.
  - injection E1 as -> ->. destruct Hnot. apply in_map_iff. now exists (r, c2).
  - injection E2 as -> ->. destruct Hnot. apply in_map_iff. now exists (r, c1).
  - now apply IH.
Qed.

(** The row that stands for a pair of a matching: its own row when that is
    covered, the row with the star in its column otherwise. *)
Definition coveringRow (s : Hungarian) (rc : list bool) (x : nat * nat) : nat :=
  if nth (fst x) rc true then fst x
  else match findStarredZeroInCol s (snd x) with
       | Some r => r
       | None => 0
       end.

(** No set of finite cells in different rows and columns is larger than
    the set of the stars, when a cover as above exists. *)
Lemma Konig_bound (n : nat) (s : Hungarian) (rc cc : list bool) (m : list (nat * nat)) :
  fits n -> Core n s -> Konig n s rc cc ->
  NoDup (map fst m) -> NoDup (map snd m) ->
  (forall r c, In (r, c) m -> r < n /\ c < n /\ cell s r c <> Inf) ->
  length m <= length (starredRows n s).
Proof.
  intros Hn HC (Hrow & Hcol & Hinf) Hnf Hns Hm.
  pose proof (sh_numRow (core_shape HC)) as Hnr.
  assert (Hfind : forall r c, In (r, c) m -> nth r rc true = false ->
            exists r', findStarredZeroInCol s c = Some r' /\ r' < n /\
                       star s r' = N.of_nat c /\ nth r' rc true = false).
  { intros r c Hin Hrc. destruct (Hm r c Hin) as (Hr & Hc & Hfin).
    destruct (nth c cc true) eqn:Ecc; [|now destruct Hfin; apply Hinf].
    destruct (Hcol c Hc Ecc) as (r' & Hr' & E & Hun).
    destruct (findStarredZeroInCol s c) as [r''|] eqn:Ef.
    - destruct (findStarredZeroInCol_Some _ _ Ef) as [Hr'' E''].
      assert (r'' = r').
      { apply (core_inj HC).
        - lia.
        - lia.
        - congruence.
        - rewrite E''. now apply fits_ne with n. }
      subst r''. exists r'. auto.
    - destruct (@findStarredZeroInCol_None s c r' Ef); auto. lia. }
  rewrite <- (length_map (coveringRow s rc) m).
  apply NoDup_incl_length.
  - apply NoDup_map_on; [now apply NoDup_map_inv with (f := fst)|].
    intros [r1 c1] [r2 c2] H1 H2. unfold coveringRow. cbn [fst snd].
    destruct (nth r1 rc true) eqn:E1; destruct (nth r2 rc true) eqn:E2.
    + intros <-. f_equal. now apply NoDup_fst_inj with m r1.
    + destruct (Hfind r2 c2 H2 E2) as (r' & -> & _ & _ & Hun). intros <-. congruence.
    + destruct (Hfind r1 c1 H1 E1) as (r' & -> & _ & _ & Hun). intros ->. congruence.
    + destruct (Hfind r1 c1 H1 E1) as (r' & -> & _ & Es1 & _).
      destruct (Hfind r2 c2 H2 E2) as (r'' & -> & _ & Es2 & _). intros <-.
      rewrite Es1 in Es2. apply Nat2N.inj in Es2. subst c2.
      f_equal. now apply NoDup_snd_inj with m c1.
  - intros y Hy. apply in_map_iff in Hy. destruct Hy as ([r c] & <- & Hin).
    destruct (Hm r c Hin) as (Hr & Hc & _). unfold coveringRow, starredRows. cbn [fst snd].
    apply filter_In. destruct (nth r rc true) eqn:E.
    + destruct (Hrow r Hr E) as (c0 & Hc0 & Es & _). split; [apply in_seq; lia|].
      rewrite Es. apply negb_true_iff, N.eqb_neq. now apply fits_ne with n.
    + destruct (Hfind r c Hin E) as (r' & -> & Hr' & Es & _). split; [apply in_seq; lia|].
      rewrite Es. apply negb_true_iff, N.eqb_neq. now apply fits_ne with n.
Qed.

(** The rows that a result assigns. *)
Definition assigned (res : list N) : list N :=
  filter (fun x => negb (N.eqb x NONE)) res.

Lemma filter_nth_seq (A : Type) (p : A -> bool) (d : A) (l : list A) :
  length (filter (fun r => p (nth r l d)) (seq 0 (length l))) = length (filter p l).
Proof.
  induction l as [|x l IH] using rev_ind; [reflexivity|].
  rewrite length_app, Nat.add_comm. cbn [length Nat.add].
  rewrite filter_seq_S, !filter_app, !length_app. cbn [Nat.add].
  rewrite app_nth2 by lia. rewrite Nat.sub_diag. cbn [nth filter].
  rewrite <- IH. f_equal.
  - f_equal. apply filter_ext_in. intros r Hr. apply in_seq in Hr.
    now rewrite app_nth1 by lia.
  - now destruct (p x).
Qed.

Lemma starredRows_assigned (n : nat) (s : Hungarian) :
  length (starredZeros s) = n ->
  length (starredRows n s) = length (assigned (starredZeros s)).
Proof.
  intros <-. unfold starredRows, assigned, star.
  apply (filter_nth_seq (fun x => negb (N.eqb x NONE)) NONE).
Qed.

(** X11.  Whatever costs were set, finite or not, [compute] returns a
    sequence with one entry for every row of the square matrix; an entry is
    the marker or a column of the given matrix, in a row of the given
    matrix, whose cost was set to a finite value: a cell that holds the
    fill value is never assigned; and no column is the entry of two
    rows. *)
Theorem compute_assigns_finite_cells (rows cols hw : nat)
  (sets : list (nat * nat * T)) (fuel : nat) :
  fits (Nat.max rows cols) -> valid_calls rows cols sets ->
  enough (Nat.max rows cols) <= fuel ->
  exists res,
    compute fuel (setCosts sets (construct rows cols hw)) = Some res /\
    length res = Nat.max rows cols /\
    (forall r, r < Nat.max rows cols -> nth r res NONE <> NONE ->
       exists c, nth r res NONE = N.of_nat c /\ r < rows /\ c < cols /\
                 cell (setCosts sets (construct rows cols hw)) r c <> vFill) /\
    (forall r1 r2, r1 < Nat.max rows cols -> r2 < Nat.max rows cols ->
       nth r1 res NONE = nth r2 res NONE -> nth r1 res NONE <> NONE -> r1 = r2).
Proof.
  intros Hn Hv Hfuel. set (n := Nat.max rows cols) in *.
  set (s0 := setCosts sets (construct rows cols hw)).
  assert (Hf : fresh n s0) by apply setCosts_fresh, construct_fresh.
  destruct (@compute_settled n s0 fuel Hn Hf Hfuel) as (os & s' & _ & Ec & (HC & Hred & _) & _).
  exists (starredZeros s'). split; auto.
  split; [apply (sh_starredZeros (core_shape HC))|]. split.
  - intros r Hr Hne. destruct (core_star HC Hr Hne) as (c & Hc & Es & Hz).
    assert (Hfin : cell s0 r c <> vFill).
    { intros Einf. apply (reduces_finite Hred Hr Hc) in Einf. congruence. }
    exists c. split; auto.
    destruct (Nat.lt_ge_cases r rows) as [Hrr|Hrr];
      destruct (Nat.lt_ge_cases c cols) as [Hcc|Hcc]; auto;
      destruct Hfin; apply setCosts_padding; auto; lia.
  - intros r1 r2 H1 H2 E Hne. now apply (core_inj HC).
Qed.


(** ** How the calls of [iterate] end *)

Lemma assign_final (inner fuel : nat) (s : Hungarian) (os : list outcome) (s' : Hungarian) :
  assign inner fuel s = Some (os, s') -> forallb (fun b => b) (colCovered s') = true.
Proof.
  revert s os. induction fuel as [|f IH]; intros s os H; simpl in H.
  - destruct (forallb _ (colCovered s)) eqn:E; [|discriminate]. now injection H as <- <-.
  - destruct (forallb _ (colCovered s)) eqn:E; [now injection H as <- <-|].
    destruct (iterate inner s) as [[o s1]|]; [|discriminate].
    destruct (assign inner f s1) as [[os1 s2]|] eqn:Ea; [|discriminate].
    injection H as <- <-. now apply (IH s1 os1).
Qed.

Lemma assign_covered (inner fuel : nat) (s : Hungarian) :
  forallb (fun b => b) (colCovered s) = true -> assign inner fuel s = Some ([], s).
Proof. intros H. destruct fuel; simpl; now rewrite H. Qed.

Lemma outcome_eq_dec (a b : outcome) : {a = b} + {a <> b}.
Proof. decide equality. Qed.

Lemma assign_outcomes (n inner : nat) :
  fits n ->
  forall fuel s order os s',
    Core n s -> Cover n s order -> assign inner fuel s = Some (os, s') ->
    (In Exhausted os ->
     (exists r, r < n /\ star s' r = NONE) /\
     exists os', os = os' ++ [Exhausted] /\ ~ In Exhausted os') /\
    (~ In Exhausted os -> Core n s' /\ exists order', Cover n s' order').
Proof.
  intros Hn. induction fuel as [|f IH]; intros s order os s' HC HV H; simpl in H.
  - destruct (forallb _ (colCovered s)) eqn:E; [|discriminate]. injection H as <- <-.
    split; [intros []|]. intros _. eauto.
  - destruct (forallb _ (colCovered s)) eqn:E.
    { injection H as <- <-. split; [intros []|]. intros _. eauto. }
    destruct (iterate inner s) as [[o s1]|] eqn:Eit; [|discriminate].
    destruct (assign inner f s1) as [[os1 s2]|] eqn:Ea; [|discriminate].
    injection H as <- <-.
    pose proof (@iterate_after n inner s order o s1 Hn HC HV Eit) as (HC1 & _ & Ha).
    destruct o.
    + destruct Ha as [HV1 _]. destruct (IH s1 [] os1 s2 HC1 HV1 Ea) as [Hin Hout]. split.
      * intros [Hx|Hx]; [discriminate|]. destruct (Hin Hx) as (Hr & os' & -> & Hno).
        split; auto. exists (Augmented :: os'). split; auto.
        intros [Hy|Hy]; [discriminate|auto].
      * intros Hno. apply Hout. intros Hx. apply Hno. now right.
    + destruct Ha as (order1 & HV1 & _).
      destruct (IH s1 order1 os1 s2 HC1 HV1 Ea) as [Hin Hout]. split.
      * intros [Hx|Hx]; [discriminate|]. destruct (Hin Hx) as (Hr & os' & -> & Hno).
        split; auto. exists (Updated :: os'). split; auto.
        intros [Hy|Hy]; [discriminate|auto].
      * intros Hno. apply Hout. intros Hx. apply Hno. now right.
    + destruct Ha as (Est & Hall & _).
      rewrite (assign_covered inner f s1 Hall) in Ea. injection Ea as <- <-. split.
      * intros _. split.
        -- destruct (forallb_false_nth _ E) as (c & Hc & Ec).
           rewrite (sh_colCovered (core_shape HC)) in Hc.
           destruct (@unstarred_row n s order Hn HC HV) as (r & Hr & Er); [eauto|].
           exists r. split; auto. unfold star in *. now rewrite Est.
        -- exists []. split; auto.
      * intros Hno. destruct Hno. now left.
Qed.

(** X14.  [compute] gives up, in the branch of [iterate] that covers every
    column, only when it must and only once: the calls of [iterate] include
    one that gives up exactly when some row is left with the marker, and
    then it is the last call. *)
Theorem gives_up_iff_incomplete (rows cols hw : nat) (sets : list (nat * nat * T))
  (fuel : nat) :
  fits (Nat.max rows cols) -> valid_calls rows cols sets ->
  enough (Nat.max rows cols) <= fuel ->
  exists os s',
    compute_trace fuel (setCosts sets (construct rows cols hw)) = Some (os, s') /\
    (In Exhausted os <-> exists r, r < Nat.max rows cols /\ star s' r = NONE) /\
    (In Exhausted os -> exists os', os = os' ++ [Exhausted] /\ ~ In Exhausted os').
Proof.
  intros Hn _ Hfuel. set (n := Nat.max rows cols) in *.
  set (s0 := setCosts sets (construct rows cols hw)).
  assert (Hf : fresh n s0) by apply setCosts_fresh, construct_fresh.
  destruct (@compute_total n s0 fuel Hn Hf Hfuel) as (os & s' & Et & _).
  exists os, s'. split; auto.
  destruct (@prepare_inv n s0 Hn Hf) as (HC & HV & _).
  unfold compute_trace in Et.
  destruct (@assign_outcomes n fuel Hn fuel (prepare s0) [] os s' HC HV Et) as [Hin Hout].
  split; [split|].
  - intros Hx. apply (Hin Hx).
  - intros (r & Hr & Er). destruct (in_dec outcome_eq_dec Exhausted os) as [Hx|Hx]; auto.
    destruct (Hout Hx) as (HC' & order' & HV').
    destruct (@Done_permutation n s' order' Hn HC' HV' (assign_final _ _ _ Et)) as [_ Hs].
    now destruct (Hs r Hr).
  - intros Hx. apply (Hin Hx).
Qed.

(** ** A second call of [compute] *)

(** A row without a negative cost that holds a zero is left as it is by the
    reduction of the rows. *)
Lemma reduceRow_keeps (n : nat) (s : Hungarian) (colMin : list T) (row c0 : nat) :
  shape n s -> row < n -> c0 < n ->
  (forall c, c < n -> Tle (Fin 0) (mget n (cost s) row c)) ->
  mget n (cost s) row c0 = Fin 0 ->
  forall r c, r < n -> c < n ->
    mget n (cost (fst (reduceRow row (s, colMin)))) r c = mget n (cost s) r c.
Proof.
  intros Hs Hrow Hc0 Hnn Hz r c Hr Hc. unfold reduceRow.
  rewrite (shape_index Hs Hrow), (sh_numCol Hs).
  set (h := min_element (slice (row * n) n (cost s))).
  assert (Hsl : length (slice (row * n) n (cost s)) = n).
  { apply length_slice. rewrite (sh_cost Hs). nia. }
  assert (Hh : h = Fin 0).
  { apply Tle_antisym.
    - rewrite <- Hz, <- nth_slice_row by auto. apply min_element_le.
      apply nth_In. now rewrite Hsl.
    - assert (Hin : In h (slice (row * n) n (cost s))).
      { apply min_element_in. intros E. rewrite E in Hsl. simpl in Hsl. lia. }
      destruct (In_nth _ _ Inf Hin) as (k & Hk & <-). rewrite Hsl in Hk.
      rewrite nth_slice_row by auto. now apply Hnn. }
  rewrite Hh. cbn [fst cost set_cost].
  rewrite mget_transform_at; auto; [|apply (sh_cost Hs)].
  destruct (row =? r); auto. apply Tsub_0.
Qed.

Lemma reduceRows_keeps (n : nat) (s : Hungarian) :
  shape n s ->
  (forall r c, r < n -> c < n -> Tle (Fin 0) (mget n (cost s) r c)) ->
  forall r c0, r < n -> c0 < n -> mget n (cost s) r c0 = Fin 0 ->
    forall c, c < n ->
      mget n (cost (fst (for_range 0 n reduceRow (s, repeat vFill n)))) r c =
      mget n (cost s) r c.
Proof.
  intros Hs Hnn r c0 Hr Hc0 Hz.
  pose (Q := fun (k : nat) (st : Hungarian * list T) =>
    fst st = set_cost s (cost (fst st)) /\ length (cost (fst st)) = n * n /\
    length (snd st) = n /\
    (forall r', r' < n -> k <= r' \/ r' = r ->
       forall c, c < n -> mget n (cost (fst st)) r' c = mget n (cost s) r' c)).
  assert (H : Q n (for_range 0 n reduceRow (s, repeat vFill n))).
  { apply for_range_inv; [lia| |].
    - unfold Q. cbn [fst snd]. split; [destruct s; reflexivity|].
      split; [apply (sh_cost Hs)|]. split; [apply repeat_length|]. auto.
    - intros k [t colMin] Hk (Et & Hlt & Hlc & Hsame). cbn [fst snd] in *.
      assert (Ht : shape n t).
      { rewrite Et. destruct Hs. shape_tac. }
      destruct (@reduceRow_spec n t colMin k Ht Hlc ltac:(lia))
        as (Et' & Hlt' & (uk & Huk) & _ & Hlc' & _).
      unfold Q. split; [rewrite Et', Et; reflexivity|]. split; [exact Hlt'|].
      split; [exact Hlc'|].
      intros r' Hr' Hcase c Hc.
      destruct (Nat.eq_dec r' k) as [->|Hne].
      + assert (k = r) by (destruct Hcase; [lia|auto]). subst k.
        assert (Hkeep : forall r' c', r' < n -> c' < n ->
                  mget n (cost (fst (reduceRow r (t, colMin)))) r' c' =
                  mget n (cost t) r' c').
        { apply (@reduceRow_keeps n t colMin r c0); auto.
          - intros c' Hc'. rewrite Hsame by auto. auto.
          - rewrite Hsame by auto. exact Hz. }
        rewrite Hkeep by auto. apply Hsame; auto.
      + rewrite Huk by auto. destruct (Nat.eqb_spec r' k); [lia|].
        apply Hsame; auto. destruct Hcase; [left; lia|now right]. }
  destruct H as (_ & _ & _ & H). intros c Hc. apply H; auto.
Qed.

(** The invariant of the scan of the matrix when every column is covered:
    zeros are listed, after those listed before, and nothing is starred. *)
Definition Rescan (n : nat) (s0 : Hungarian) (row col : nat) (t : Hungarian) : Prop :=
  t = set_zeros s0 (zeros t) /\ length (zeros t) = n /\
  forall r c, r < n ->
    (In c (nth r (zeros t) []) <->
     In c (nth r (zeros s0) []) \/
     (c < n /\ cell s0 r c = Fin 0 /\ (r < row \/ (r = row /\ c < col)))).

Lemma starCell_rescan (n : nat) (s0 t : Hungarian) (row col : nat) :
  shape n s0 -> forallb (fun b => b) (colCovered s0) = true ->
  row < n -> col < n ->
  Rescan n s0 row col t -> Rescan n s0 row (S col) (starCell row col t).
Proof.
  intros Hs Hall Hrow Hcol (Et & Hl & Hz). unfold starCell.
  assert (Ecell : cell t row col = cell s0 row col) by (rewrite Et; reflexivity).
  assert (Ecov : nth col (colCovered t) true = true).
  { rewrite Et. apply (forallb_true_nth _ col Hall). }
  rewrite Ecell.
  destruct (Teqb (Fin 0) (cell s0 row col)) eqn:Ez.
  - apply Teqb_eq in Ez. symmetry in Ez.
    cbn [rowCovered colCovered set_zeros]. rewrite Ecov, andb_false_r.
    split; [|split].
    + rewrite Et at 1. reflexivity.
    + cbn [zeros set_zeros]. now rewrite length_upd.
    + intros r c Hr. cbn [zeros set_zeros]. rewrite nth_upd, Hl.
      destruct (Nat.eqb_spec row r) as [<-|Hne]; simpl.
      * destruct (Nat.ltb_spec row n); [|lia].
        rewrite in_app_iff, (Hz row c Hrow). simpl. split.
        -- intros [[Hin|(Hc & Hzc & Hlt)]|[<-|[]]]; auto.
           ++ right. split; auto. split; auto. right. lia.
           ++ right. split; auto.
        -- intros [Hin|(Hc & Hzc & [Hlt|[_ Hlt]])]; auto; [lia|].
           destruct (Nat.eq_dec c col) as [->|]; [auto|].
           left. right. split; auto. split; auto. right. lia.
      * rewrite (Hz r c Hr). split; (intros [Hin|(Hc & Hzc & Hlt)]; [now left|right]);
          (split; [auto|split; [auto|lia]]).
  - split; [exact Et|]. split; [exact Hl|].
    intros r c Hr. rewrite (Hz r c Hr).
    split; (intros [Hin|(Hc & Hzc & Hlt)]; [now left|right]).
    + split; auto. split; auto. lia.
    + split; auto. split; auto. destruct Hlt as [Hlt|[-> Hlt]]; auto.
      right. split; auto. destruct (Nat.eq_dec c col) as [->|]; [|lia].
      rewrite Hzc in Ez. discriminate.
Qed.

Lemma rescan_loop (n : nat) (s : Hungarian) :
  shape n s -> forallb (fun b => b) (colCovered s) = true ->
  Rescan n s n 0
    (for_range 0 n (fun row t => for_range 0 (numCol t) (starCell row) t) s).
Proof.
  intros Hs Hall.
  apply (@for_range_inv Hungarian (fun row t => Rescan n s row 0 t)); [lia| |].
  - split; [destruct s; reflexivity|]. split; [apply (sh_zeros Hs)|].
    intros r c Hr. split; [now left|]. intros [Hin|(_ & _ & Hlt)]; [auto|lia].
  - intros row t Hrow Ht.
    assert (Hnc : numCol t = n).
    { destruct Ht as (Et & _). rewrite Et. apply (sh_numCol Hs). }
    rewrite Hnc.
    assert (H : Rescan n s row n (for_range 0 n (starCell row) t)).
    { apply (@for_range_inv Hungarian (fun col t => Rescan n s row col t)); [lia|auto|].
      intros col u Hcol Hu. apply starCell_rescan; auto; lia. }
    destruct H as (E & Hl & Hz). split; auto. split; auto.
    intros r c Hr. rewrite (Hz r c Hr).
    split; (intros [Hin|(Hc & Hzc & Hlt)]; [now left|right]);
      (split; [auto|split; [auto|lia]]).
Qed.

(** [compute] on a solver that [compute] has left: the stars stay, the
    zeros are listed once more, and the loop is entered with the invariants. *)
Lemma prepare_again (n : nat) (s : Hungarian) :
  fits n -> Core n s -> forallb (fun b => b) (colCovered s) = true ->
  Core n (prepare s) /\ Cover n (prepare s) [] /\ reduces n s (prepare s) /\
  starredZeros (prepare s) = starredZeros s.
Proof.
  intros Hn HC0 Hall. pose proof (core_shape HC0) as Hs. unfold prepare.
  rewrite (sh_numCol Hs), (sh_numRow Hs).
  assert (Hnn0 : forall r c, r < n -> c < n -> Tle (Fin 0) (mget n (cost s) r c)).
  { intros r c Hr Hc. rewrite <- (@shape_cell n) by auto. now apply (core_nonneg HC0). }
  pose proof (@reduceRows_keeps n s Hs Hnn0) as HkeepA.
  destruct (@reduceRows_spec n s Hs) as (EA & HlA & (u & HuA) & HnnA & Hlc & Hcnn & Hcle).
  destruct (for_range 0 n reduceRow (s, repeat vFill n)) as [sA colMin].
  cbn [fst snd] in *.
  assert (HsA : shape n sA) by (rewrite EA; destruct Hs; shape_tac).
  rewrite (sh_numRow HsA).
  assert (Hlz : length (map finiteOrZero colMin) = n) by now rewrite length_map.
  destruct (@reduceCols_spec n sA (map finiteOrZero colMin) HsA Hlz) as (EB & HlB & HcB).
  set (sB := for_range 0 n (reduceCol (map finiteOrZero colMin)) sA) in *.
  assert (HsB : shape n sB) by (rewrite EB; destruct HsA; shape_tac).
  rewrite (sh_numRow HsB).
  assert (EBs : sB = set_cost s (cost sB)) by (rewrite EB, EA; reflexivity).
  assert (HcellB : forall r c, r < n -> c < n ->
            cell sB r c =
            Tsub (cell s r c) (u r + finiteOrZero (nth c colMin Inf))).
  { intros r c Hr Hc. rewrite !(@shape_cell n) by auto.
    rewrite HcB, HuA, Tsub_Tsub by auto. f_equal. f_equal.
    change 0%Z with (finiteOrZero Inf). now rewrite map_nth. }
  assert (HnnB : forall r c, r < n -> c < n -> Tle (Fin 0) (cell sB r c)).
  { intros r c Hr Hc. rewrite (@shape_cell n) by auto. rewrite HcB by auto.
    change 0%Z with (finiteOrZero Inf) at 2. rewrite map_nth.
    specialize (HnnA r c Hr Hc). specialize (Hcle r c Hr Hc).
    specialize (Hcnn c Hc).
    destruct (nth c colMin Inf) as [v|]; simpl.
    - destruct (mget n (cost sA) r c); simpl; auto.
      apply Tle_Fin in Hcle. apply Tle_Fin. lia.
    - now rewrite Tsub_0. }
  (* a zero stays a zero *)
  assert (HzeroB : forall r c, r < n -> c < n -> cell s r c = Fin 0 -> cell sB r c = Fin 0).
  { intros r c Hr Hc Hz. rewrite (@shape_cell n) in Hz by auto.
    assert (HzA : mget n (cost sA) r c = Fin 0).
    { rewrite (HkeepA r c Hr Hc Hz c Hc). exact Hz. }
    rewrite (@shape_cell n) by auto. rewrite HcB, HzA by auto.
    change 0%Z with (finiteOrZero Inf) at 2. rewrite map_nth.
    pose proof (Hcle r c Hr Hc) as Hle. rewrite HzA in Hle.
    pose proof (Hcnn c Hc) as Hge.
    rewrite (Tle_antisym Hle Hge). reflexivity. }
  assert (HallB : forallb (fun b => b) (colCovered sB) = true) by (rewrite EBs; exact Hall).
  destruct (@rescan_loop n sB HsB HallB) as (EC & HlC & HzC).
  set (sC := for_range 0 n _ sB) in *.
  assert (HsC : shape n sC) by (rewrite EC; destruct HsB; shape_tac).
  assert (EstC : starredZeros sC = starredZeros s) by (rewrite EC, EBs; reflexivity).
  assert (EcellC : forall r c, cell sC r c = cell sB r c) by (rewrite EC; reflexivity).
  set (sD := set_colCovered (set_rowCovered sC (fill false (rowCovered sC)))
               (fill false
                  (colCovered (set_rowCovered sC (fill false (rowCovered sC)))))).
  assert (HsD : shape n sD) by (unfold sD; destruct HsC; shape_tac).
  assert (EstarD : forall r, star sD r = star s r).
  { intros r. unfold star, sD. proj_simpl. now rewrite EstC. }
  assert (HvD : forall r, r < n -> star sD r <> NONE ->
                exists c, c < n /\ star sD r = N.of_nat c).
  { intros r Hr. rewrite EstarD. intros Hne.
    destruct (core_star HC0 Hr Hne) as (c & Hc & E & _). eauto. }
  destruct (@coverStarred_loop n sD Hn HsD HvD) as (EE & HlE & HcE).
  set (sE := for_each (starredZeros sD) coverStarred sD) in *.
  assert (HsE : shape n sE) by (rewrite EE; destruct HsD; shape_tac).
  assert (EcellE : forall r c, cell sE r c = cell sB r c).
  { intros r c. rewrite EE. unfold cell, sD. proj_simpl. exact (EcellC r c). }
  assert (EstarE : forall r, star sE r = star s r).
  { intros r. rewrite EE. apply EstarD. }
  assert (ErowE : forall r, r < n -> nth r (rowCovered sE) true = false).
  { intros r Hr. rewrite EE. unfold sD. proj_simpl. apply nth_fill.
    now rewrite (sh_rowCovered HsC). }
  split; [|split; [|split]].
  - constructor; auto.
    + intros r c Hr Hc. rewrite EcellE. auto.
    + assert (EzE : zeros sE = zeros sC) by (rewrite EE; reflexivity).
      assert (EzB : zeros sB = zeros s) by (rewrite EBs; reflexivity).
      intros r c Hr. rewrite EzE, (HzC r c Hr), EcellE, EzB.
      rewrite (core_zeros HC0 c Hr). split.
      * intros [(Hc & Hz)|(Hc & Hz & _)]; auto.
      * intros (Hc & Hz). right. split; [auto|]. split; [auto|]. left. exact Hr.
    + intros r Hr. rewrite EstarE. intros Hne.
      destruct (core_star HC0 Hr Hne) as (c & Hc & E & Hz). exists c.
      rewrite EcellE. auto.
    + intros r1 r2 Hr1 Hr2. rewrite !EstarE. now apply (core_inj HC0).
  - constructor.
    + intros r. simpl. split; [tauto|]. intros [Hr Hcov].
      rewrite ErowE in Hcov by auto. discriminate.
    + exact I.
    + intros c Hc Hcov. apply (HcE c Hc) in Hcov.
      destruct Hcov as [Hcov|(r & Hr & E)].
      * exfalso. unfold sD in Hcov. proj_simpl.
        rewrite nth_fill in Hcov by now rewrite (sh_colCovered HsC). discriminate.
      * exists r. rewrite EstarE, <- EstarD. auto.
    + intros r c Hr Hc _. rewrite EstarE, <- EstarD. intros E. apply (HcE c Hc). right. eauto.
  - exists u, (fun c => finiteOrZero (nth c colMin Inf)).
    intros r c Hr Hc. rewrite EcellE. now apply HcellB.
  - fold sE. rewrite EE. unfold sD. proj_simpl. exact EstC.
Qed.

(** Calls of [iterate] that do not augment leave the stars alone. *)
Lemma assign_keeps_stars (n inner : nat) :
  fits n ->
  forall fuel s order os s',
    Core n s -> Cover n s order -> assign inner fuel s = Some (os, s') ->
    augmentations os = 0 -> starredZeros s' = starredZeros s.
Proof.
  intros Hn. induction fuel as [|f IH]; intros s order os s' HC HV H Haug; simpl in H.
  - destruct (forallb _ (colCovered s)); [|discriminate]. now injection H as <- <-.
  - destruct (forallb _ (colCovered s)) eqn:E; [now injection H as <- <-|].
    destruct (iterate inner s) as [[o s1]|] eqn:Eit; [|discriminate].
    destruct (assign inner f s1) as [[os1 s2]|] eqn:Ea; [|discriminate].
    injection H as <- <-.
    pose proof (@iterate_after n inner s order o s1 Hn HC HV Eit) as (HC1 & _ & Ha).
    unfold augmentations in Haug. simpl in Haug.
    destruct o; simpl in Haug; [discriminate| |].
    + destruct Ha as (order1 & HV1 & _ & Est & _).
      rewrite (IH s1 order1 os1 s2 HC1 HV1 Ea Haug). exact Est.
    + destruct Ha as (Est & Hall & _).
      rewrite (assign_covered inner f s1 Hall) in Ea. injection Ea as <- <-. exact Est.
Qed.

Lemma starredRows_NoDup (n : nat) (s : Hungarian) : NoDup (starredRows n s).
Proof. apply NoDup_filter, seq_NoDup. Qed.

Lemma starredRows_In (n : nat) (s : Hungarian) (r : nat) :
  In r (starredRows n s) <-> r < n /\ star s r <> NONE.
Proof.
  unfold starredRows. rewrite filter_In, in_seq, negb_true_iff, N.eqb_neq.
  split; intros []; split; auto; lia.
Qed.

(** X15.  A second call of [compute] on the same solver returns the
    sequence that the first call returned, whatever costs were set; none of
    its calls of [iterate] augments. *)
Theorem compute_again (rows cols hw : nat) (sets : list (nat * nat * T)) (fuel : nat) :
  fits (Nat.max rows cols) -> valid_calls rows cols sets ->
  enough (Nat.max rows cols) <= fuel ->
  exists os s',
    compute_trace fuel (setCosts sets (construct rows cols hw)) = Some (os, s') /\
    compute fuel s' = compute fuel (setCosts sets (construct rows cols hw)) /\
    compute fuel s' = Some (starredZeros s') /\
    exists os2 s2,
      compute_trace fuel s' = Some (os2, s2) /\ augmentations os2 = 0.
Proof.
  intros Hn _ Hfuel. set (n := Nat.max rows cols) in *.
  set (s0 := setCosts sets (construct rows cols hw)).
  assert (Hf : fresh n s0) by apply setCosts_fresh, construct_fresh.
  destruct (@compute_settled n s0 fuel Hn Hf Hfuel) as (os & s' & Et & Ec & Hset & Hall).
  exists os, s'. split; auto.
  destruct (settled_Konig Hset Hall) as (rc & cc & HK).
  destruct Hset as (HC & _ & _).
  destruct (@prepare_again n s' Hn HC Hall) as (HCp & HVp & Hredp & Estp).
  assert (Hm : measure n (prepare s') [] < fuel).
  { unfold measure, enough in *. pose proof (starredRows_le n (prepare s')).
    simpl length. destruct (findUncoveredZero (prepare s')); nia. }
  destruct (@assign_total n fuel Hn ltac:(unfold enough in Hfuel; nia) fuel (prepare s') []
              HCp HVp Hm) as (os2 & s2 & Ea & (HC2 & _) & Hred2 & Hcount & _).
  (* the stars of the second call are not more than those of the first *)
  assert (Hle : length (starredRows n s2) <= length (starredRows n s')).
  { rewrite <- (length_map (fun r => (r, N.to_nat (star s2 r))) (starredRows n s2)).
    apply (@Konig_bound n s' rc cc); auto.
    - rewrite map_map. cbn [fst]. rewrite map_id. apply starredRows_NoDup.
    - rewrite map_map. cbn [snd]. apply NoDup_map_on; [apply starredRows_NoDup|].
      intros x y Hx Hy E. apply starredRows_In in Hx, Hy.
      destruct Hx as [Hx Hsx], Hy as [Hy Hsy].
      apply (core_inj HC2); auto. now apply N2Nat.inj.
    - intros r c Hin. apply in_map_iff in Hin. destruct Hin as (x & E & Hx).
      injection E as -> <-. apply starredRows_In in Hx. destruct Hx as [Hr Hsr].
      destruct (core_star HC2 Hr Hsr) as (c & Hc & Es & Hz).
      rewrite Es, Nat2N.id. split; auto. split; auto. intros Einf.
      apply (reduces_finite (reduces_trans Hredp Hred2) Hr Hc) in Einf. congruence. }
  assert (Haug : augmentations os2 = 0).
  { rewrite (@starredRows_ext n s' (prepare s') Estp) in Hcount. lia. }
  assert (Est2 : starredZeros s2 = starredZeros s').
  { rewrite (@assign_keeps_stars n fuel Hn fuel (prepare s') [] os2 s2 HCp HVp Ea Haug).
    exact Estp. }
  assert (Ec2 : compute fuel s' = Some (starredZeros s')).
  { unfold compute, compute_trace. rewrite Ea. now rewrite Est2. }
  split; [now rewrite Ec2, Ec|]. split; auto.
  exists os2, s2. split; auto.
Qed.

(** ** Rows keep their stars *)

Lemma searchZeros_rows (n inner : nat) :
  fits n -> n <= inner ->
  forall fuel s order s',
    Core n s -> Cover n s order ->
    searchZeros inner fuel s = Some (inl s') ->
    forall r, r < n -> star s r <> NONE -> star s' r <> NONE.
Proof.
  intros Hn Hinner. induction fuel as [|f IH]; intros s order s' HC HV H.
  - simpl in H. destruct (findUncoveredZero s) as [[r c]|]; discriminate.
  - rewrite searchZeros_S in H.
    destruct (findUncoveredZero s) as [[r c]|] eqn:E; [|discriminate].
    destruct (findUncoveredZero_Some _ E) as (Hr & Hcov & _).
    rewrite (sh_numRow (core_shape HC)) in Hr.
    pose proof (Cover_room HV Hr Hcov) as Hroom.
    destruct (N.eqb_spec (star s r) NONE) as [Es|Es].
    + destruct (@augment_inv n s order r c inner Hn HC HV E Es ltac:(lia))
        as (t & Ea & _ & _ & _ & _ & _ & _ & Hr0 & Hrest).
      rewrite Ea in H. injection H as <-.
      intros x Hx Hsx. destruct (Nat.eq_dec x r) as [->|Hne]; auto.
      now apply (Hrest x Hx Hne).
    + destruct (@primeAndCover_inv n s order r c Hn HC HV E Es) as [HC1 HV1].
      intros x Hx Hsx. apply (IH (primeAndCover s r c) (r :: order) s' HC1 HV1 H x Hx).
      exact Hsx.
Qed.

(** X16.  A call of [iterate] takes the star from no row: a row that has a
    star before the call has one after it, in the same column unless the
    call augments. *)
Theorem assigned_rows_stay (rows cols hw : nat) (sets : list (nat * nat * T))
  (fuel : nat) (s : Hungarian) (o : outcome) (s' : Hungarian) :
  fits (Nat.max rows cols) -> valid_calls rows cols sets ->
  reached (setCosts sets (construct rows cols hw)) s ->
  forallb (fun b => b) (colCovered s) = false ->
  iterate fuel s = Some (o, s') ->
  (forall r, r < Nat.max rows cols -> star s r <> NONE -> star s' r <> NONE) /\
  (o <> Augmented -> starredZeros s' = starredZeros s).
Proof.
  intros Hn _ Hr Hall Hit. set (n := Nat.max rows cols) in *.
  assert (Hf : fresh n (setCosts sets (construct rows cols hw))).
  { apply setCosts_fresh, construct_fresh. }
  destruct (@reached_settled _ _ s Hn Hf Hr) as (HC & _ & [(order & HV)|[Hall' _]]);
    [|congruence].
  pose proof (@iterate_after n fuel s order o s' Hn HC HV Hit) as (_ & _ & Ha).
  assert (Hsame : o <> Augmented -> starredZeros s' = starredZeros s).
  { destruct o; [congruence| |]; intros _.
    - destruct Ha as (order1 & _ & _ & Est & _). exact Est.
    - apply Ha. }
  split; auto.
  destruct (outcome_eq_dec o Augmented) as [->|Hne].
  - pose proof (@iterate_mono fuel (Nat.max fuel n) s (Augmented, s') Hit ltac:(lia)) as Hit'.
    unfold iterate in Hit'.
    destruct (searchZeros (Nat.max fuel n) (Nat.max fuel n) s) as [[t|t]|] eqn:Es;
      [|destruct (findMinUncoveredCost _) as [[hz|] s4]|]; try discriminate.
    injection Hit' as <-.
    apply (@searchZeros_rows n (Nat.max fuel n) Hn ltac:(lia) (Nat.max fuel n) s order t HC HV Es).
  - intros r Hrn. unfold star. now rewrite (Hsame Hne).
Qed.

(** ** [rebalanceWorkers]: the writes of the row loop *)

(** X17.  Whenever the row loop of [rebalanceWorkers] writes
    [workerRows[ind++] = row], [ind] is below the number of workers: the
    write is inside [workerRows], whose last entry is left to the loop that
    fills in [numRow]. *)
Theorem rebalanceWorkers_writes_in_bounds (s : Hungarian) (row : nat) :
  pool_ok s -> row < numRow s ->
  let rowsPerWorker := count_occ bool_dec (rowCovered s) false / workers s in
  let st := for_range 0 row (rebalanceRow (rowCovered s) rowsPerWorker)
              (workerRows s, 1, 0) in
  nth row (rowCovered s) true = false -> rowsPerWorker = snd st ->
  1 <= snd (fst st) < workers s /\ length (fst (fst st)) = workers s + 1.
Proof.
  intros (HW & Hl & H0) Hrow. cbn zeta.
  set (cov := rowCovered s). set (rpw := count_occ bool_dec cov false / workers s).
  intros Hunc Hrc.
  pose proof (@for_range_inv _ (rebalanceInv cov (workers s)) 0 row
                (rebalanceRow cov rpw) (workerRows s, 1, 0) (Nat.le_0_l _)) as H.
  destruct (for_range 0 row (rebalanceRow cov rpw) (workerRows s, 1, 0)) as [[wr ind] rc].
  cbn [fst snd] in *.
  assert (Hinv : rebalanceInv cov (workers s) row (wr, ind, rc)).
  { apply H.
    - simpl. repeat split; auto; try lia.
      intros i j Hij. replace i with 0 by lia. replace j with 0 by lia. lia.
    - intros i t _. now apply rebalanceRow_inv. }
  destruct Hinv as (Hl' & _ & H1 & Hu & _).
  pose proof (uncoveredBelow_total cov (S row)) as Hk.
  pose proof (rowsPerWorker_bound cov HW) as Hb. fold rpw in Hu, Hb.
  cbn [uncoveredBelow] in Hk. rewrite Hunc in Hk.
  split; [|exact Hl']. split; [exact H1|]. subst rc. nia.
Qed.

(** ** The zeros that the first reduction makes *)

Lemma Tle_finite (x : T) (y : Z) : Tle x (Fin y) -> exists z, x = Fin z.
Proof. destruct x as [z|]; [eauto|discriminate]. Qed.

(** The reduction of a row with a finite cost leaves a zero in the row. *)
Lemma reduceRow_zero (n : nat) (s : Hungarian) (colMin : list T) (row c0 : nat) :
  shape n s -> row < n -> c0 < n -> mget n (cost s) row c0 <> Inf ->
  exists c, c < n /\ mget n (cost (fst (reduceRow row (s, colMin)))) row c = Fin 0.
Proof.
  intros Hs Hrow Hc0 Hfin. unfold reduceRow.
  rewrite (shape_index Hs Hrow), (sh_numCol Hs).
  set (h := min_element (slice (row * n) n (cost s))).
  assert (Hsl : length (slice (row * n) n (cost s)) = n).
  { apply length_slice. rewrite (sh_cost Hs). nia. }
  assert (Hle : Tle h (mget n (cost s) row c0)).
  { rewrite <- nth_slice_row by auto. apply min_element_le. apply nth_In. now rewrite Hsl. }
  assert (Hin : In h (slice (row * n) n (cost s))).
  { apply min_element_in. intros E. rewrite E in Hsl. simpl in Hsl. lia. }
  destruct (In_nth _ _ Inf Hin) as (k & Hk & Ek). rewrite Hsl in Hk.
  rewrite nth_slice_row in Ek by auto.
  destruct (mget n (cost s) row c0) as [y|] eqn:E0; [|contradiction].
  destruct (Tle_finite Hle) as (hz & Eh). rewrite Eh in *.
  exists k. split; auto. cbn [fst cost set_cost].
  rewrite mget_transform_at; auto; [|apply (sh_cost Hs)].
  rewrite Nat.eqb_refl, Ek. simpl. f_equal. lia.
Qed.

(** After the row loop: a row that held a finite cost holds a zero, and
    every entry of [colMin] is the fill value or a cost of its column. *)
Lemma reduceRows_zeros (n : nat) (s : Hungarian) :
  shape n s ->
  let sA := fst (for_range 0 n reduceRow (s, repeat vFill n)) in
  let colMin := snd (for_range 0 n reduceRow (s, repeat vFill n)) in
  (forall r c0, r < n -> c0 < n -> mget n (cost s) r c0 <> Inf ->
     exists c, c < n /\ mget n (cost sA) r c = Fin 0) /\
  (forall c, c < n ->
     nth c colMin Inf = Inf \/ exists r, r < n /\ nth c colMin Inf = mget n (cost sA) r c).
Proof.
  intros Hs. cbn zeta.
  pose (Q := fun (k : nat) (st : Hungarian * list T) =>
    fst st = set_cost s (cost (fst st)) /\ length (cost (fst st)) = n * n /\
    length (snd st) = n /\
    (forall r c, k <= r -> r < n -> c < n ->
       mget n (cost (fst st)) r c = mget n (cost s) r c) /\
    (forall r c0, r < k -> c0 < n -> mget n (cost s) r c0 <> Inf ->
       exists c, c < n /\ mget n (cost (fst st)) r c = Fin 0) /\
    (forall c, c < n ->
       nth c (snd st) Inf = Inf \/
       exists r, r < k /\ nth c (snd st) Inf = mget n (cost (fst st)) r c)).
  assert (H : Q n (for_range 0 n reduceRow (s, repeat vFill n))).
  { apply for_range_inv; [lia| |].
    - unfold Q. cbn [fst snd]. split; [destruct s; reflexivity|].
      split; [apply (sh_cost Hs)|]. split; [apply repeat_length|].
      split; [auto|]. split; [intros; lia|].
      intros c Hc. left. unfold vFill. now rewrite nth_repeat_lt.
    - intros k [t colMin] Hk (Et & Hlt & Hlc & Hsame & Hzero & Hatt). cbn [fst snd] in *.
      assert (Ht : shape n t).
      { rewrite Et. destruct Hs. shape_tac. }
      pose proof (@reduceRow_zero n t colMin k) as Hnew.
      destruct (@reduceRow_spec n t colMin k Ht Hlc ltac:(lia))
        as (Et' & Hlt' & (uk & Huk) & _ & Hlc' & Hck).
      destruct (reduceRow k (t, colMin)) as [t' colMin']. cbn [fst snd] in *.
      assert (Hother : forall r c, r < n -> c < n -> r <> k ->
                mget n (cost t') r c = mget n (cost t) r c).
      { intros r c Hr Hc Hne. rewrite Huk by auto. destruct (Nat.eqb_spec r k); [lia|auto]. }
      unfold Q. cbn [fst snd].
      split; [rewrite Et', Et; reflexivity|]. split; [exact Hlt'|].
      split; [exact Hlc'|]. split; [|split].
      + intros r c Hkr Hr Hc. rewrite Hother by (auto; lia). apply Hsame; auto; lia.
      + intros r c0 Hr Hc0 Hfin. destruct (Nat.eq_dec r k) as [->|Hne].
        * apply (Hnew c0 Ht ltac:(lia) Hc0). rewrite Hsame by (auto; lia). exact Hfin.
        * destruct (Hzero r c0 ltac:(lia) Hc0 Hfin) as (c & Hc & Ez).
          exists c. split; auto. rewrite Hother by (auto; lia). exact Ez.
      + intros c Hc. rewrite Hck by auto. unfold Tmin.
        destruct (Tltb (nth c colMin Inf) (mget n (cost t') k c)).
        * destruct (Hatt c Hc) as [E|(r & Hr & E)]; [now left|right].
          exists r. split; [lia|]. rewrite Hother by (auto; lia). exact E.
        * right. exists k. split; [lia|reflexivity]. }
  destruct H as (_ & _ & _ & _ & Hzero & Hatt). split.
  - intros r c0 Hr Hc0 Hfin. apply (Hzero r c0); auto.
  - exact Hatt.
Qed.

(** The costs when [compute] enters its loop are those after the two
    reductions. *)
Lemma starCell_cost (row col : nat) (t : Hungarian) :
  cost (starCell row col t) = cost t /\ index (starCell row col t) = index t /\
  numCol (starCell row col t) = numCol t.
Proof.
  unfold starCell. destruct (Teqb _ _); auto.
  destruct (_ && _); auto.
Qed.

Lemma coverStarred_cost (c : N) (t : Hungarian) :
  cost (coverStarred c t) = cost t /\ index (coverStarred c t) = index t.
Proof. unfold coverStarred. destruct (negb _); auto. Qed.

Lemma prepare_cell (n : nat) (s : Hungarian) (r c : nat) :
  shape n s ->
  cell (prepare s) r c =
  cell (for_range 0 n
          (reduceCol (map finiteOrZero (snd (for_range 0 n reduceRow (s, repeat vFill n)))))
          (fst (for_range 0 n reduceRow (s, repeat vFill n)))) r c.
Proof.
  intros Hs. unfold prepare. rewrite (sh_numCol Hs), (sh_numRow Hs).
  destruct (@reduceRows_spec n s Hs) as (EA & HlA & _).
  destruct (for_range 0 n reduceRow (s, repeat vFill n)) as [sA colMin].
  cbn [fst snd] in *.
  assert (HsA : shape n sA) by (rewrite EA; destruct Hs; shape_tac).
  rewrite (sh_numRow HsA).
  set (sB := for_range 0 n (reduceCol (map finiteOrZero colMin)) sA).
  assert (EnB : numRow sB = n).
  { unfold sB. rewrite (for_range_frame numRow); [apply (sh_numRow HsA)|]. reflexivity. }
  rewrite EnB.
  set (sC := for_range 0 n (fun row t => for_range 0 (numCol t) (starCell row) t) sB).
  assert (EC : cost sC = cost sB /\ index sC = index sB).
  { unfold sC.
    apply (@for_range_inv Hungarian (fun _ t => cost t = cost sB /\ index t = index sB));
      [lia|auto|].
    intros row t _ [E1 E2].
    apply (@for_range_inv Hungarian (fun _ u => cost u = cost sB /\ index u = index sB));
      [lia|auto|].
    intros col u _ [E3 E4]. destruct (starCell_cost row col u) as (F1 & F2 & _).
    split; congruence. }
  unfold cell.
  rewrite (for_each_frame cost), (for_each_frame index);
    try (intros x t; apply coverStarred_cost).
  cbn [cost index set_colCovered set_rowCovered]. destruct EC as [-> ->]. reflexivity.
Qed.

Lemma prepare_zeros (n : nat) (s : Hungarian) :
  shape n s ->
  (forall r c0, r < n -> c0 < n -> cell s r c0 <> Inf ->
     exists c, c < n /\ cell (prepare s) r c = Fin 0) /\
  (forall c r0, c < n -> r0 < n -> cell s r0 c <> Inf ->
     exists r, r < n /\ cell (prepare s) r c = Fin 0).
Proof.
  intros Hs.
  pose proof (fun r c => @prepare_cell n s r c Hs) as Hcell.
  destruct (@reduceRows_zeros n s Hs) as [HzA Hatt].
  destruct (@reduceRows_spec n s Hs) as (EA & HlA & (u & HuA) & HnnA & Hlc & Hcnn & Hcle).
  destruct (for_range 0 n reduceRow (s, repeat vFill n)) as [sA colMin].
  cbn [fst snd] in *.
  assert (HsA : shape n sA) by (rewrite EA; destruct Hs; shape_tac).
  assert (Hlz : length (map finiteOrZero colMin) = n) by now rewrite length_map.
  destruct (@reduceCols_spec n sA (map finiteOrZero colMin) HsA Hlz) as (EB & HlB & HcB).
  set (sB := for_range 0 n (reduceCol (map finiteOrZero colMin)) sA) in *.
  assert (HsB : shape n sB) by (rewrite EB; destruct HsA; shape_tac).
  assert (HcellB : forall r c, r < n -> c < n ->
            cell (prepare s) r c =
            Tsub (mget n (cost sA) r c) (finiteOrZero (nth c colMin Inf))).
  { intros r c Hr Hc. rewrite Hcell, (@shape_cell n) by auto. rewrite HcB by auto.
    f_equal. change 0%Z with (finiteOrZero Inf). now rewrite map_nth. }
  split.
  - intros r c0 Hr Hc0 Hfin. rewrite (@shape_cell n) in Hfin by auto.
    destruct (HzA r c0 Hr Hc0 Hfin) as (c & Hc & Ez). exists c. split; auto.
    rewrite HcellB, Ez by auto.
    pose proof (Hcle r c Hr Hc) as Hle. rewrite Ez in Hle.
    rewrite (Tle_antisym Hle (Hcnn c Hc)). reflexivity.
  - intros c r0 Hc Hr0 Hfin. rewrite (@shape_cell n) in Hfin by auto.
    assert (HfinA : exists y, mget n (cost sA) r0 c = Fin y).
    { rewrite HuA by auto. destruct (mget n (cost s) r0 c); [simpl; eauto|contradiction]. }
    destruct HfinA as (y & Ey).
    pose proof (Hcle r0 c Hr0 Hc) as Hle. rewrite Ey in Hle.
    destruct (Tle_finite Hle) as (v & Ev).
    destruct (Hatt c Hc) as [E|(r & Hr & E)]; [congruence|].
    exists r. split; auto. rewrite HcellB by auto. rewrite <- E, Ev. simpl. f_equal. lia.
Qed.


(** ** A matrix of one row or one column *)

Lemma starCell_first (row col : nat) (t : Hungarian) :
  nth 0 (starredZeros t) NONE = 0%N -> nth 0 (rowCovered t) true = true ->
  nth 0 (starredZeros (starCell row col t)) NONE = 0%N /\
  nth 0 (rowCovered (starCell row col t)) true = true.
Proof.
  intros Es Er. unfold starCell. destruct (Teqb _ _); auto.
  cbn [rowCovered colCovered set_zeros].
  destruct (negb (nth row (rowCovered t) true) && negb (nth col (colCovered t) true)) eqn:E;
    auto.
  apply andb_true_iff in E. destruct E as [E1 _].
  assert (Hne : row <> 0) by (intros ->; rewrite Er in E1; discriminate).
  cbn [starredZeros rowCovered set_starredZeros set_colCovered set_rowCovered set_zeros].
  rewrite !nth_upd_ne by auto. auto.
Qed.

Lemma for_range_first (St : Type) (b : nat) (body : nat -> St -> St) (s : St) :
  0 < b -> for_range 0 b body s = for_range 1 b body (body 0 s).
Proof.
  intros Hb. rewrite (@for_range_split St 0 1 b body s) by lia.
  rewrite for_range_last by lia. now rewrite (@for_range_empty St 0 0) by lia.
Qed.

(** The scan stars the cell [(0, 0)] when it is zero: it is the first cell
    that the scan meets, and the star of a row is set once. *)
Lemma prepare_first_star (n : nat) (s : Hungarian) :
  fresh n s -> 0 < n -> cell (prepare s) 0 0 = Fin 0 -> star (prepare s) 0 = 0%N.
Proof.
  intros [Hs Ez Est Er Ec] Hn0 Hzero. rewrite (@prepare_cell n) in Hzero by auto.
  unfold star, prepare. rewrite (sh_numCol Hs), (sh_numRow Hs).
  destruct (@reduceRows_spec n s Hs) as (EA & HlA & _ & _ & Hlc & _).
  destruct (for_range 0 n reduceRow (s, repeat vFill n)) as [sA colMin].
  cbn [fst snd] in *.
  assert (HsA : shape n sA) by (rewrite EA; destruct Hs; shape_tac).
  rewrite (sh_numRow HsA).
  assert (Hlz : length (map finiteOrZero colMin) = n) by now rewrite length_map.
  destruct (@reduceCols_spec n sA (map finiteOrZero colMin) HsA Hlz) as (EB & HlB & _).
  set (sB := for_range 0 n (reduceCol (map finiteOrZero colMin)) sA) in *.
  assert (HsB : shape n sB) by (rewrite EB; destruct HsA; shape_tac).
  assert (EBs : sB = set_cost s (cost sB)) by (rewrite EB, EA; reflexivity).
  rewrite (sh_numRow HsB).
  rewrite (for_each_frame starredZeros);
    [|intros x t; unfold coverStarred; now destruct (negb _)].
  cbn [starredZeros set_colCovered set_rowCovered].
  (* the first cell *)
  set (t1 := starCell 0 0 sB).
  assert (H1 : nth 0 (starredZeros t1) NONE = 0%N /\ nth 0 (rowCovered t1) true = true).
  { assert (Erc : nth 0 (rowCovered sB) true = false).
    { rewrite EBs. cbn [rowCovered set_cost]. rewrite Er. now apply nth_repeat_lt. }
    assert (Ecc : nth 0 (colCovered sB) true = false).
    { rewrite EBs. cbn [colCovered set_cost]. rewrite Ec. now apply nth_repeat_lt. }
    unfold t1, starCell. rewrite Hzero. cbn [Teqb Z.eqb].
    cbn [rowCovered colCovered set_zeros]. rewrite Erc, Ecc. cbn [negb andb].
    proj_simpl.
    rewrite !nth_upd_eq;
      [auto|rewrite (sh_rowCovered HsB); lia|rewrite (sh_starredZeros HsB); lia]. }
  (* the rest of the scan *)
  assert (Hkeep : forall row a b t,
            nth 0 (starredZeros t) NONE = 0%N /\ nth 0 (rowCovered t) true = true ->
            nth 0 (starredZeros (for_range a b (starCell row) t)) NONE = 0%N /\
            nth 0 (rowCovered (for_range a b (starCell row) t)) true = true).
  { intros row a b t Ht. destruct (Nat.le_gt_cases a b) as [Hab|Hab].
    - apply (@for_range_inv Hungarian
               (fun _ u => nth 0 (starredZeros u) NONE = 0%N /\
                           nth 0 (rowCovered u) true = true)); auto.
      intros col u _ [E1 E2]. now apply starCell_first.
    - now rewrite for_range_empty by lia. }
  rewrite for_range_first by lia.
  assert (Hrow0 : nth 0 (starredZeros (for_range 0 (numCol sB) (starCell 0) sB)) NONE = 0%N /\
                  nth 0 (rowCovered (for_range 0 (numCol sB) (starCell 0) sB)) true = true).
  { rewrite (sh_numCol HsB). rewrite for_range_first by lia. fold t1. now apply Hkeep. }
  apply (@for_range_inv Hungarian
           (fun _ u => nth 0 (starredZeros u) NONE = 0%N /\
                       nth 0 (rowCovered u) true = true)); [lia|exact Hrow0|].
  intros row u _ Hu. now apply Hkeep.
Qed.

Lemma nth_ext_repeat (res : list N) (n : nat) :
  length res = n -> 0 < n -> nth 0 res NONE = 0%N ->
  (forall r, 1 <= r < n -> nth r res NONE = NONE) ->
  res = 0%N :: repeat NONE (n - 1).
Proof.
  intros Hl Hn H0 Hrest. destruct res as [|x res]; simpl in *; [lia|].
  subst x. f_equal. replace (n - 1) with (length res) by lia.
  apply repeat_of_nth. intros i Hi. apply (Hrest (S i)). lia.
Qed.


(** ** The covers after an augmentation *)

Lemma Cover_fresh_covers (n : nat) (s : Hungarian) :
  Cover n s [] ->
  (forall r, r < n -> nth r (rowCovered s) true = false) /\
  (forall c, c < n ->
     (nth c (colCovered s) true = true <-> exists r, r < n /\ star s r = N.of_nat c)).
Proof.
  intros HV. assert (Hrow : forall r, r < n -> nth r (rowCovered s) true = false).
  { intros r Hr. destruct (nth r (rowCovered s) true) eqn:E; auto.
    destruct (proj2 (cov_order HV r) (conj Hr E)). }
  split; auto. intros c Hc. split.
  - intros Hcov. destruct (cov_col HV Hc Hcov) as (r & Hr & E & _). eauto.
  - intros (r & Hr & E). apply (cov_row HV Hr Hc (Hrow r Hr) E).
Qed.

(** X20.  When [compute] enters its loop, and after every call of [iterate]
    that augments, no row is covered and a column is covered exactly when
    some row has its star in it. *)
Theorem covers_after_augmentation (rows cols hw : nat) (sets : list (nat * nat * T))
  (fuel : nat) (s s' : Hungarian) :
  fits (Nat.max rows cols) -> valid_calls rows cols sets ->
  s' = prepare (setCosts sets (construct rows cols hw)) \/
  (reached (setCosts sets (construct rows cols hw)) s /\
   forallb (fun b => b) (colCovered s) = false /\
   iterate fuel s = Some (Augmented, s')) ->
  (forall r, r < Nat.max rows cols -> nth r (rowCovered s') true = false) /\
  (forall c, c < Nat.max rows cols ->
     (nth c (colCovered s') true = true <->
      exists r, r < Nat.max rows cols /\ star s' r = N.of_nat c)).
Proof.
  intros Hn _ Hcase. set (n := Nat.max rows cols) in *.
  assert (Hf : fresh n (setCosts sets (construct rows cols hw))).
  { apply setCosts_fresh, construct_fresh. }
  apply Cover_fresh_covers. destruct Hcase as [->|(Hr & Hall & Hit)].
  - apply (@prepare_inv n _ Hn Hf).
  - destruct (@reached_settled _ _ s Hn Hf Hr) as (HC & _ & [(order & HV)|[Hall' _]]);
      [|congruence].
    destruct (@iterate_after n fuel s order Augmented s' Hn HC HV Hit) as (_ & _ & HV' & _).
    exact HV'.
Qed.

(** ** The further theorems at concrete inputs *)

(** The solver of the scenario before [compute], and after the first call
    of [iterate], which updates the costs. *)
Definition scenarioStart : Hungarian := setCosts scenarioCalls (construct 3 3 2).

Definition scenarioUpdated : Hungarian :=
  match iterate 3 (prepare scenarioStart) with
  | Some (_, s) => s
  | None => scenarioStart
  end.

(** Costs that leave rows 1 and 2 with column 0 only. *)
Definition sparseCalls : list (nat * nat * T) :=
  [(0, 0, Fin 5); (0, 1, Fin 1); (1, 0, Fin 2); (2, 0, Fin 7)].

Example sparse_result :
  compute 32 (setCosts sparseCalls (construct 3 3 2)) = Some [1%N; 0%N; NONE].
Proof. vm_compute. reflexivity. Qed.

Lemma findStarredZeroInCol_inverse_witness :
  (forall r, findStarredZeroInCol (prepare scenarioStart) 1 = Some r <->
             r < 3 /\ star (prepare scenarioStart) r = N.of_nat 1) /\
  (findStarredZeroInCol (prepare scenarioStart) 1 = None <->
   forall r, r < 3 -> star (prepare scenarioStart) r <> N.of_nat 1).
Proof.
  apply (@findStarredZeroInCol_inverse 3 (prepare scenarioStart) 1).
  - unfold fits, NONE. lia.
  - reflexivity.
  - intros r1 r2 H1 H2.
    destruct r1 as [|[|[|r1]]]; try lia; destruct r2 as [|[|[|r2]]]; try lia;
      vm_compute; intros E Hne; try reflexivity; try discriminate E;
      exfalso; apply Hne; reflexivity.
  - lia.
Defined.

Lemma rebalanceWorkers_balanced_witness :
  let s := set_rowCovered (construct 5 5 2) [false; true; false; false; false] in
  let s' := rebalanceWorkers s in
  let rowsPerWorker := count_occ bool_dec (rowCovered s) false / workers s in
  length (uncoveredRows (rowCovered s') (nth 0 (workerRows s') 0) (nth 1 (workerRows s') 0))
  <= rowsPerWorker /\
  forall i, i < workers s' ->
    length (uncoveredRows (rowCovered s') (nth i (workerRows s') 0)
              (nth (S i) (workerRows s') 0))
    <= rowsPerWorker + 1.
Proof.
  apply (@rebalanceWorkers_balanced
           (set_rowCovered (construct 5 5 2) [false; true; false; false; false])).
  split; [simpl; lia|split; reflexivity].
Defined.

Lemma findMinUncoveredCost_minimum_witness :
  let h := fst (findMinUncoveredCost (rebalanceWorkers (fillColInds scenarioSearched))) in
  let s4 := snd (findMinUncoveredCost (rebalanceWorkers (fillColInds scenarioSearched))) in
  (forall r c, r < 3 -> c < 3 -> nth r (rowCovered scenarioSearched) true = false ->
     nth c (colCovered scenarioSearched) true = false ->
     Tle h (cell scenarioSearched r c)) /\
  (h = vFill \/
   exists r c, r < 3 /\ c < 3 /\ nth r (rowCovered scenarioSearched) true = false /\
               nth c (colCovered scenarioSearched) true = false /\
               cell scenarioSearched r c = h) /\
  (h = vFill <->
   forall r c, r < 3 -> c < 3 -> nth r (rowCovered scenarioSearched) true = false ->
     nth c (colCovered scenarioSearched) true = false ->
     cell scenarioSearched r c = vFill) /\
  cost s4 = cost scenarioSearched /\ zeros s4 = zeros scenarioSearched /\
  rowCovered s4 = rowCovered scenarioSearched /\
  colCovered s4 = colCovered scenarioSearched /\
  starredZeros s4 = starredZeros scenarioSearched /\
  primedZeros s4 = primedZeros scenarioSearched.
Proof.
  apply (@findMinUncoveredCost_minimum 3 scenarioSearched).
  constructor; try reflexivity. repeat split; try reflexivity. vm_compute. lia.
Defined.


Lemma covers_invariant_witness :
  (forall r c, r < 3 -> c < 3 -> star (prepare scenarioStart) r = N.of_nat c ->
     nth r (rowCovered (prepare scenarioStart)) true =
     negb (nth c (colCovered (prepare scenarioStart)) true)) /\
  (forall r, r < 3 -> star (prepare scenarioStart) r = NONE ->
     nth r (rowCovered (prepare scenarioStart)) true = false) /\
  (forall c, c < 3 ->
     (forall r, r < 3 -> star (prepare scenarioStart) r <> N.of_nat c) ->
     nth c (colCovered (prepare scenarioStart)) true = false).
Proof.
  apply (@covers_invariant 3 3 2 scenarioCalls (prepare scenarioStart)).
  - unfold fits, NONE. simpl. lia.
  - reflexivity.
  - apply reached_prepare.
  - reflexivity.
Defined.

Lemma update_makes_progress_witness :
  starredZeros scenarioUpdated = starredZeros (prepare scenarioStart) /\
  findUncoveredZero scenarioUpdated <> None /\
  length (coveredRows 3 (prepare scenarioStart)) <= length (coveredRows 3 scenarioUpdated) /\
  (findUncoveredZero (prepare scenarioStart) <> None ->
   length (coveredRows 3 (prepare scenarioStart)) < length (coveredRows 3 scenarioUpdated)).
Proof.
  apply (@update_makes_progress 3 3 2 scenarioCalls 3 (prepare scenarioStart) scenarioUpdated).
  - unfold fits, NONE. simpl. lia.
  - reflexivity.
  - apply reached_prepare.
  - reflexivity.
  - vm_compute. reflexivity.
Defined.

Lemma compute_assigns_finite_cells_witness :
  exists res,
    compute 32 (setCosts sparseCalls (construct 3 3 2)) = Some res /\
    length res = 3 /\
    (forall r, r < 3 -> nth r res NONE <> NONE ->
       exists c, nth r res NONE = N.of_nat c /\ r < 3 /\ c < 3 /\
                 cell (setCosts sparseCalls (construct 3 3 2)) r c <> vFill) /\
    (forall r1 r2, r1 < 3 -> r2 < 3 ->
       nth r1 res NONE = nth r2 res NONE -> nth r1 res NONE <> NONE -> r1 = r2).
Proof.
  apply (@compute_assigns_finite_cells 3 3 2 sparseCalls 32).
  - unfold fits, NONE. simpl. lia.
  - reflexivity.
  - unfold enough. simpl. lia.
Defined.


Lemma gives_up_iff_incomplete_witness :
  exists os s',
    compute_trace 32 (setCosts sparseCalls (construct 3 3 2)) = Some (os, s') /\
    (In Exhausted os <-> exists r, r < 3 /\ star s' r = NONE) /\
    (In Exhausted os -> exists os', os = os' ++ [Exhausted] /\ ~ In Exhausted os').
Proof.
  apply (@gives_up_iff_incomplete 3 3 2 sparseCalls 32).
  - unfold fits, NONE. simpl. lia.
  - reflexivity.
  - unfold enough. simpl. lia.
Defined.

Lemma compute_again_witness :
  exists os s',
    compute_trace 32 (setCosts sparseCalls (construct 3 3 2)) = Some (os, s') /\
    compute 32 s' = compute 32 (setCosts sparseCalls (construct 3 3 2)) /\
    compute 32 s' = Some (starredZeros s') /\
    exists os2 s2,
      compute_trace 32 s' = Some (os2, s2) /\ augmentations os2 = 0.
Proof.
  apply (@compute_again 3 3 2 sparseCalls 32).
  - unfold fits, NONE. simpl. lia.
  - reflexivity.
  - unfold enough. simpl. lia.
Defined.

Lemma assigned_rows_stay_witness :
  (forall r, r < 3 -> star (prepare scenarioStart) r <> NONE ->
             star scenarioUpdated r <> NONE) /\
  (Updated <> Augmented ->
   starredZeros scenarioUpdated = starredZeros (prepare scenarioStart)).
Proof.
  apply (@assigned_rows_stay 3 3 2 scenarioCalls 3 (prepare scenarioStart) Updated
           scenarioUpdated).
  - unfold fits, NONE. simpl. lia.
  - reflexivity.
  - apply reached_prepare.
  - reflexivity.
  - vm_compute. reflexivity.
Defined.

Lemma setCosts_last_wins_witness :
  cell (setCosts [(0, 1, Fin 7); (1, 1, Fin 2); (0, 1, Fin 3)] (construct 1 2 1)) 0 1 =
  Fin 3 /\
  cell (setCosts [(0, 1, Fin 7); (1, 1, Fin 2); (0, 1, Fin 3)] (construct 1 2 1)) 1 0 =
  vFill.
Proof.
  split.
  - apply (@setCosts_last_wins 1 2 1 [(0, 1, Fin 7); (1, 1, Fin 2); (0, 1, Fin 3)] 0 1);
      [reflexivity|simpl; lia|simpl; lia].
  - apply (@setCosts_last_wins 1 2 1 [(0, 1, Fin 7); (1, 1, Fin 2); (0, 1, Fin 3)] 1 0);
      [reflexivity|simpl; lia|simpl; lia].
Defined.

Lemma rebalanceWorkers_writes_in_bounds_witness :
  let s := set_rowCovered (construct 5 5 2) [false; true; false; false; false] in
  let rowsPerWorker := count_occ bool_dec (rowCovered s) false / workers s in
  let st := for_range 0 3 (rebalanceRow (rowCovered s) rowsPerWorker)
              (workerRows s, 1, 0) in
  nth 3 (rowCovered s) true = false /\ rowsPerWorker = snd st /\
  1 <= snd (fst st) < workers s /\ length (fst (fst st)) = workers s + 1.
Proof.
  split; [reflexivity|]. split; [reflexivity|].
  apply (@rebalanceWorkers_writes_in_bounds
           (set_rowCovered (construct 5 5 2) [false; true; false; false; false]) 3).
  - split; [simpl; lia|split; reflexivity].
  - simpl. lia.
  - reflexivity.
  - reflexivity.
Defined.



(** The solver of the scenario after its second call of [iterate], which
    augments. *)
Definition scenarioAugmented : Hungarian :=
  match iterate 3 scenarioUpdated with
  | Some (_, s) => s
  | None => scenarioStart
  end.

Lemma covers_after_augmentation_witness :
  (forall r, r < 3 -> nth r (rowCovered scenarioAugmented) true = false) /\
  (forall c, c < 3 ->
     (nth c (colCovered scenarioAugmented) true = true <->
      exists r, r < 3 /\ star scenarioAugmented r = N.of_nat c)).
Proof.
  apply (@covers_after_augmentation 3 3 2 scenarioCalls 3 scenarioUpdated scenarioAugmented).
  - unfold fits, NONE. simpl. lia.
  - reflexivity.
  - right. split; [|split].
    + apply (@reached_iterate scenarioStart 3 (prepare scenarioStart) Updated scenarioUpdated).
      * apply reached_prepare.
      * reflexivity.
      * vm_compute. reflexivity.
    + reflexivity.
    + vm_compute. reflexivity.
Defined.


(** * Properties that depend on the arithmetic of the costs *)

(** ** The square matrix *)

(** The least uncovered cost [hz] that [iterate] finds when its search has
    ended, and the update by it. *)
Lemma search_minimum (n inner : nat) (s : Hungarian) (order : list nat)
  (s1 : Hungarian) (hz : Z) :
  fits n -> Core n s -> Cover n s order ->
  searchZeros inner inner s = Some (inr s1) ->
  fst (findMinUncoveredCost (rebalanceWorkers (fillColInds s1))) = Fin hz ->
  (forall r, r < n -> nth r (rowCovered s1) true = true -> star s r <> NONE) /\
  (forall c, nth c (colCovered s) true = false -> nth c (colCovered s1) true = false) /\
  (forall r c, r < n -> c < n -> nth r (rowCovered s1) true = false ->
     nth c (colCovered s1) true = false -> Tle (Fin hz) (cell s r c)) /\
  (exists r c, r < n /\ c < n /\ cell s r c = Fin hz) /\
  let s' := updateCosts hz (snd (findMinUncoveredCost (rebalanceWorkers (fillColInds s1)))) in
  starredZeros s' = starredZeros s /\
  (forall r c, r < n -> c < n ->
     cell s' r c = updatedCost hz (nth r (rowCovered s1) true)
                     (negb (nth c (colCovered s1) true)) (cell s r c)).
Proof.
  intros Hn HC HV Hsearch Hmin.
  apply (@searchZeros_mono inner (Nat.max inner n) inner (Nat.max inner n)) in Hsearch;
    [|lia|lia].
  pose proof (@searchZeros_inv n (Nat.max inner n) Hn ltac:(lia) (Nat.max inner n)
                s order HC HV ltac:(lia)) as Hi.
  rewrite Hsearch in Hi.
  destruct Hi as (order1 & HC1 & HV1 & Hnone & Est & Ec & Ez & Hlen & Hlt & Hmono).
  pose proof (core_shape HC1) as Hs1.
  assert (Ecell1 : forall r c, cell s1 r c = cell s r c).
  { intros r c. unfold cell.
    now rewrite Ec, (sh_index (core_shape HC)), (sh_index Hs1). }
  destruct (@minimum_inv n s1 Hs1) as ((ci & wr & wc & E4) & Hs4 & Hp4 & Hci & Hcols
                                        & Hlow & Hatt).
  destruct (findMinUncoveredCost (rebalanceWorkers (fillColInds s1))) as [h s4].
  cbn [fst snd] in *. subst h.
  assert (HC4 : Core n s4).
  { apply Core_ext with s1; auto; rewrite E4; reflexivity. }
  assert (HV4 : Cover n s4 order1).
  { apply Cover_ext with s1; auto; rewrite E4; reflexivity. }
  assert (Er4 : rowCovered s4 = rowCovered s1) by (rewrite E4; reflexivity).
  assert (Ec4 : colCovered s4 = colCovered s1) by (rewrite E4; reflexivity).
  assert (Ecell4 : forall r c, cell s4 r c = cell s1 r c) by (rewrite E4; reflexivity).
  assert (Est4 : starredZeros s4 = starredZeros s1) by (rewrite E4; reflexivity).
  assert (Hnone4 : findUncoveredZero s4 = None) by (rewrite E4; exact Hnone).
  destruct Hatt as [Hinf|(ra & ca & Hra & Hrcov & Hcain & Ea)]; [discriminate|].
  destruct (@update_inv n s4 order1 hz Hn HC4 HV4 Hnone4 Hp4 Hci)
    as (HC' & HV' & Hsome & Er' & Ec' & Est' & Hcell').
  { intros c. rewrite Ec4. apply Hcols. }
  { intros r c. rewrite Er4, Ecell4. apply Hlow. }
  { exists ra, ca. now rewrite Er4, Ecell4. }
  split; [|split; [exact Hmono|split; [|split; [|split]]]].
  - intros r Hr Hcov.
    assert (Es : star s r = star s1 r) by (unfold star; now rewrite Est).
    rewrite Es.
    assert (Hin : In r order1) by (apply (cov_order HV1); auto).
    destruct (chain_in _ _ _ _ (cov_chain HV1) Hin) as ((c0 & Hc0 & E0 & _) & _).
    rewrite E0. now apply fits_ne with n.
  - intros r c Hr Hc Hrc Hcc. rewrite <- Ecell1. apply Hlow; auto. apply Hcols. auto.
  - exists ra, ca. apply Hcols in Hcain. destruct Hcain as [Hca _].
    rewrite <- Ecell1. auto.
  - congruence.
  - intros r c Hr Hc. rewrite Hcell', Er4, Ec4, Ecell4, Ecell1 by auto. reflexivity.
Qed.

(** What one call of [iterate] does to the costs and to the stars: either
    the costs are as they were and no row loses its star, or the search has
    ended and the costs are updated by the least uncovered cost. *)
Lemma iterate_cases (n fuel : nat) (s : Hungarian) (order : list nat) (o : outcome)
  (s' : Hungarian) :
  fits n -> Core n s -> Cover n s order -> iterate fuel s = Some (o, s') ->
  ((forall r c, cell s' r c = cell s r c) /\
   (forall r, r < n -> star s r <> NONE -> star s' r <> NONE)) \/
  (exists s1 hz,
     searchZeros fuel fuel s = Some (inr s1) /\
     fst (findMinUncoveredCost (rebalanceWorkers (fillColInds s1))) = Fin hz /\
     s' = updateCosts hz (snd (findMinUncoveredCost (rebalanceWorkers (fillColInds s1))))).
Proof.
  intros Hn HC HV H. unfold iterate in H.
  destruct (searchZeros fuel fuel s) as [[t|s1]|] eqn:Es; [| |discriminate].
  - injection H as <- <-. left.
    apply (@searchZeros_mono fuel (Nat.max fuel n) fuel (Nat.max fuel n)) in Es;
      [|lia|lia].
    pose proof (@searchZeros_inv n (Nat.max fuel n) Hn ltac:(lia) (Nat.max fuel n)
                  s order HC HV ltac:(lia)) as Hi.
    rewrite Es in Hi. destruct Hi as (HC' & HV' & Ec & _). split.
    + intros r c. unfold cell.
      now rewrite Ec, (sh_index (core_shape HC)), (sh_index (core_shape HC')).
    + apply (@searchZeros_rows n (Nat.max fuel n) Hn ltac:(lia) (Nat.max fuel n)
               s order t HC HV Es).
  - pose proof (findMinUncoveredCost_starredZeros (rebalanceWorkers (fillColInds s1))) as Est.
    destruct (findMinUncoveredCost (rebalanceWorkers (fillColInds s1))) as [h s4] eqn:Emin.
    cbn [fst snd] in *. destruct h as [hz|].
    + injection H as <- <-. right. exists s1, hz. rewrite Emin. repeat split; auto.
    + injection H as <- <-. left.
      apply (@searchZeros_mono fuel (Nat.max fuel n) fuel (Nat.max fuel n)) in Es;
        [|lia|lia].
      pose proof (@searchZeros_inv n (Nat.max fuel n) Hn ltac:(lia) (Nat.max fuel n)
                    s order HC HV ltac:(lia)) as Hi.
      rewrite Es in Hi.
      destruct Hi as (order1 & HC1 & _ & _ & Est1 & Ec & _).
      destruct (@minimum_inv n s1 (core_shape HC1)) as ((ci & wr & wc & E4) & _).
      rewrite Emin in E4. cbn [snd] in E4.
      assert (Ecell1 : forall r c, cell s1 r c = cell s r c).
      { intros r c. unfold cell.
        now rewrite Ec, (sh_index (core_shape HC)), (sh_index (core_shape HC1)). }
      split.
      * intros r c.
        change (cell (set_colCovered s4 (fill true (colCovered s4))) r c)
          with (cell s4 r c).
        rewrite <- Ecell1. rewrite E4. reflexivity.
      * intros r Hr Hst. unfold star in *.
        change (starredZeros (set_colCovered s4 (fill true (colCovered s4))))
          with (starredZeros s4).
        rewrite E4. proj_simpl. now rewrite Est1.
Qed.

(** The least uncovered cost is not negative, and it is at most a bound on
    the costs of the rows without a star: one of them is uncovered in an
    uncovered column. *)
Lemma update_amount_bound (n inner : nat) (s : Hungarian) (order : list nat)
  (s1 : Hungarian) (hz R : Z) :
  fits n -> Core n s -> Cover n s order ->
  forallb (fun b => b) (colCovered s) = false ->
  (forall r c, r < n -> c < n -> star s r = NONE ->
     exists z, cell s r c = Fin z /\ (z <= R)%Z) ->
  searchZeros inner inner s = Some (inr s1) ->
  fst (findMinUncoveredCost (rebalanceWorkers (fillColInds s1))) = Fin hz ->
  (0 <= hz <= R)%Z.
Proof.
  intros Hn HC HV Hopen Hrows Hsearch Hmin.
  destruct (@search_minimum n inner s order s1 hz Hn HC HV Hsearch Hmin)
    as (Hstar & Hmono & Hlow & (ra & ca & Hra & Hca & Ea) & _).
  split.
  - pose proof (core_nonneg HC Hra Hca) as Hnn. rewrite Ea in Hnn.
    now apply Tle_Fin in Hnn.
  - destruct (forallb_false_nth _ Hopen) as (c & Hc & Ec).
    rewrite (sh_colCovered (core_shape HC)) in Hc.
    destruct (@unstarred_row n s order Hn HC HV) as (r & Hr & Er); [eauto|].
    destruct (Hrows r c Hr Hc Er) as (z & Ez & Hz).
    assert (Hrc : nth r (rowCovered s1) true = false).
    { destruct (nth r (rowCovered s1) true) eqn:E; auto.
      now apply (Hstar r Hr) in E. }
    pose proof (Hlow r c Hr Hc Hrc (Hmono c Ec)) as Hle. rewrite Ez in Hle.
    apply Tle_Fin in Hle. lia.
Qed.

(** The states at the test of the loop of [compute], with the number of
    calls of [iterate] made so far. *)
Inductive reachedIn (s0 : Hungarian) : nat -> Hungarian -> Prop :=
| reachedIn_prepare : reachedIn s0 0 (prepare s0)
| reachedIn_iterate (fuel k : nat) (s : Hungarian) (o : outcome) (s' : Hungarian) :
    reachedIn s0 k s ->
    forallb (fun b => b) (colCovered s) = false ->
    iterate fuel s = Some (o, s') ->
    reachedIn s0 (S k) s'.

Lemma reachedIn_reached (s0 : Hungarian) (k : nat) (s : Hungarian) :
  reachedIn s0 k s -> reached s0 s.
Proof.
  induction 1 as [|fuel k s o s' _ IH Hall Hit]; [apply reached_prepare|].
  now apply reached_iterate with fuel s o.
Qed.

Lemma reached_reachedIn (s0 s : Hungarian) :
  reached s0 s -> exists k, reachedIn s0 k s.
Proof.
  induction 1 as [|fuel s o s' _ (k & IH) Hall Hit].
  - exists 0. apply reachedIn_prepare.
  - exists (S k). now apply reachedIn_iterate with fuel s o.
Qed.

Lemma reachedIn_run (s0 : Hungarian) (k : nat) (s : Hungarian) :
  reachedIn s0 k s ->
  forall i f os s', assign i f s = Some (os, s') ->
  exists i' f' os0,
    length os0 = k /\ assign i' f' (prepare s0) = Some (os0 ++ os, s').
Proof.
  induction 1 as [|fuel k s o s1 Hr IH Hall Hit]; intros i f os s' Ha.
  - exists i, f, []. split; auto.
  - assert (Hstep : assign (Nat.max i fuel) (S f) s = Some (o :: os, s')).
    { cbn [assign]. rewrite Hall.
      rewrite (@iterate_mono fuel (Nat.max i fuel) s (o, s1) Hit) by lia.
      rewrite (@assign_mono i (Nat.max i fuel) f f s1 (os, s') Ha) by lia.
      reflexivity. }
    destruct (IH _ _ _ _ Hstep) as (i' & f' & os0 & Hl & E).
    exists i', f', (os0 ++ [o]). rewrite <- app_assoc. split; auto.
    rewrite length_app. simpl. lia.
Qed.

(** The loop of [compute] makes at most [enough n] calls of [iterate]. *)
Lemma reachedIn_le (n : nat) (s0 : Hungarian) (k : nat) (s : Hungarian) :
  fits n -> fresh n s0 -> reachedIn s0 k s -> k <= enough n.
Proof.
  intros Hn Hf Hk.
  destruct (@reached_inv n s0 s Hn Hf (reachedIn_reached Hk)) as [HC Hcov].
  assert (Hrun : exists i f os s', assign i f s = Some (os, s')).
  { destruct Hcov as [(order & HV)|Hall].
    - destruct (@assign_total n n Hn (Nat.le_refl n) (S (measure n s order)) s order
                  HC HV ltac:(lia)) as (os & s' & Ea & _).
      eauto.
    - exists 0, 0, [], s. simpl. now rewrite Hall. }
  destruct Hrun as (i & f & os & s' & Ha).
  destruct (@reachedIn_run s0 k s Hk i f os s' Ha) as (i' & f' & os0 & Hl & E).
  destruct (@compute_total n s0 (enough n) Hn Hf (Nat.le_refl _))
    as (ost & st & Et & _ & _ & _ & _ & Hlen).
  unfold compute_trace in Et.
  pose proof (@assign_mono i' (Nat.max i' (enough n)) f' (Nat.max f' (enough n)) _ _ E
                ltac:(lia) ltac:(lia)) as E1.
  pose proof (@assign_mono (enough n) (Nat.max i' (enough n)) (enough n)
                (Nat.max f' (enough n)) _ _ Et ltac:(lia) ltac:(lia)) as E2.
  rewrite E1 in E2. injection E2 as E2 _. rewrite <- E2, length_app in Hlen. lia.
Qed.

(** The costs after the reduction at the start of [compute] lie between
    [0] and the spread of the costs that were set. *)
Lemma prepare_bounds (n : nat) (s : Hungarian) (lo hi : Z) :
  shape n s ->
  (forall r c, r < n -> c < n -> exists z, cell s r c = Fin z /\ (lo <= z <= hi)%Z) ->
  forall r c, r < n -> c < n ->
    exists z, cell (prepare s) r c = Fin z /\ (0 <= z <= hi - lo)%Z.
Proof.
  intros Hs Hin.
  pose proof (fun r c => @prepare_cell n s r c Hs) as Hcell.
  destruct (@reduceRows_zeros n s Hs) as [HzA _].
  destruct (@reduceRows_spec n s Hs) as (EA & HlA & (u & HuA) & HnnA & Hlc & Hcnn & Hcle).
  destruct (for_range 0 n reduceRow (s, repeat vFill n)) as [sA colMin].
  cbn [fst snd] in *.
  assert (HsA : shape n sA) by (rewrite EA; destruct Hs; shape_tac).
  assert (Hlz : length (map finiteOrZero colMin) = n) by now rewrite length_map.
  destruct (@reduceCols_spec n sA (map finiteOrZero colMin) HsA Hlz) as (EB & HlB & HcB).
  set (sB := for_range 0 n (reduceCol (map finiteOrZero colMin)) sA) in *.
  assert (HsB : shape n sB) by (rewrite EB; destruct HsA; shape_tac).
  assert (HcellB : forall r c, r < n -> c < n ->
            cell (prepare s) r c =
            Tsub (mget n (cost sA) r c) (finiteOrZero (nth c colMin Inf))).
  { intros r c Hr Hc. rewrite Hcell, (@shape_cell n) by auto. rewrite HcB by auto.
    f_equal. change 0%Z with (finiteOrZero Inf). now rewrite map_nth. }
  (* the amount taken from a row is one of its costs *)
  assert (Hu : forall r, r < n -> 0 < n -> (lo <= u r <= hi)%Z).
  { intros r Hr Hn0.
    destruct (Hin r 0 Hr Hn0) as (z0 & E0 & _).
    assert (Hfin : mget n (cost s) r 0 <> Inf).
    { rewrite <- (@shape_cell n) by auto. congruence. }
    destruct (HzA r 0 Hr Hn0 Hfin) as (c & Hc & Ez).
    rewrite HuA in Ez by auto. destruct (Hin r c Hr Hc) as (z & E & Hz).
    rewrite (@shape_cell n) in E by auto. rewrite E in Ez. simpl in Ez.
    injection Ez as Ez. lia. }
  intros r c Hr Hc. rewrite HcellB by auto.
  destruct (Hin r c Hr Hc) as (z & E & Hz). rewrite (@shape_cell n) in E by auto.
  pose proof (HnnA r c Hr Hc) as HnA. pose proof (Hcle r c Hr Hc) as Hle.
  pose proof (Hcnn c Hc) as Hcn.
  rewrite HuA, E in HnA, Hle |- * by auto. simpl in HnA, Hle |- *.
  apply Tle_Fin in HnA. pose proof (Hu r Hr ltac:(lia)) as Hur.
  destruct (nth c colMin Inf) as [m|]; simpl in *.
  - apply Tle_Fin in Hcn. apply Tle_Fin in Hle. eexists. split; [reflexivity|]. lia.
  - eexists. split; [reflexivity|]. lia.
Qed.

(** With the costs after the reduction between [0] and [R], after [k]
    calls of [iterate] every cost lies between [0] and [R * (k + 1)], and
    the costs of the rows without a star are at most [R]. *)
Lemma reachedIn_bounds (n : nat) (s0 : Hungarian) (R : Z) :
  fits n -> fresh n s0 -> (0 <= R)%Z ->
  (forall r c, r < n -> c < n ->
     exists z, cell (prepare s0) r c = Fin z /\ (0 <= z <= R)%Z) ->
  forall k s, reachedIn s0 k s ->
    (forall r c, r < n -> c < n ->
       exists z, cell s r c = Fin z /\ (0 <= z <= R * (Z.of_nat k + 1))%Z) /\
    (forall r c, r < n -> c < n -> star s r = NONE ->
       exists z, cell s r c = Fin z /\ (z <= R)%Z).
Proof.
  intros Hn Hf HR H0. induction 1 as [|fuel k s o s' Hk IH Hopen Hit].
  - split.
    + intros r c Hr Hc. destruct (H0 r c Hr Hc) as (z & E & Hz). exists z. split; auto.
      simpl. lia.
    + intros r c Hr Hc _. destruct (H0 r c Hr Hc) as (z & E & Hz). exists z. split; auto.
      lia.
  - destruct IH as [Hall Hrows].
    destruct (@reached_inv n s0 s Hn Hf (reachedIn_reached Hk)) as [HC [(order & HV)|Hcov]];
      [|congruence].
    destruct (@iterate_cases n fuel s order o s' Hn HC HV Hit)
      as [[Ecell Hstar]|(s1 & hz & Hsearch & Hmin & ->)].
    + split.
      * intros r c Hr Hc. rewrite Ecell. destruct (Hall r c Hr Hc) as (z & E & Hz).
        exists z. split; auto. nia.
      * intros r c Hr Hc Hst. rewrite Ecell. apply Hrows; auto.
        destruct (N.eq_dec (star s r) NONE) as [E|E]; auto.
        now apply (Hstar r Hr) in E.
    + pose proof (@update_amount_bound n fuel s order s1 hz R Hn HC HV Hopen Hrows
                    Hsearch Hmin) as Hhz.
      destruct (@search_minimum n fuel s order s1 hz Hn HC HV Hsearch Hmin)
        as (Hstar & _ & Hlow & _ & Est & Hcell).
      cbn zeta in Est, Hcell.
      set (s' := updateCosts hz
                   (snd (findMinUncoveredCost (rebalanceWorkers (fillColInds s1))))) in *.
      split.
      * intros r c Hr Hc. rewrite Hcell by auto.
        destruct (Hall r c Hr Hc) as (z & E & Hz). rewrite E.
        pose proof (Hlow r c Hr Hc) as Hle. rewrite E in Hle.
        unfold updatedCost.
        destruct (nth r (rowCovered s1) true), (nth c (colCovered s1) true); simpl;
          eexists; (split; [reflexivity|]); try nia.
        specialize (Hle eq_refl eq_refl). apply Tle_Fin in Hle. nia.
      * intros r c Hr Hc Hst.
        assert (Hst0 : star s r = NONE) by (unfold star in *; now rewrite <- Est).
        assert (Hrc : nth r (rowCovered s1) true = false).
        { destruct (nth r (rowCovered s1) true) eqn:E; auto.
          now apply (Hstar r Hr) in E. }
        rewrite Hcell by auto. destruct (Hrows r c Hr Hc Hst0) as (z & E & Hz).
        rewrite E, Hrc. unfold updatedCost.
        destruct (nth c (colCovered s1) true); simpl;
          eexists; (split; [reflexivity|]); lia.
Qed.

(** C1.  For a square matrix of integer costs between [lo] and [hi], every
    entry set with [setCost], [compute] returns: the result is a permutation
    of the columns [0 .. n-1], no entry is the marker, and its total cost on
    the costs as they were set is at most that of any permutation; it is the
    minimum over all permutations.  Every number of the run is an integer in
    a range that the spread [hi - lo] bounds: a cost at the test of the
    loop lies between [0] and [P - (hi - lo)], and the amount of every
    update between [0] and [hi - lo], when [P] is at least
    [(hi - lo) * (enough n + 2)] and bounds the costs that were set.  So a
    cost type that holds every integer up to [P] in magnitude computes what
    is computed here. *)
Theorem compute_square_optimal (n hw : nat) (f : nat -> nat -> Z) (fuel : nat)
  (lo hi P : Z) :
  fits n -> enough n <= fuel ->
  (forall r c, r < n -> c < n -> (lo <= f r c <= hi)%Z) ->
  (lo <= hi)%Z -> (- P <= lo)%Z -> (hi <= P)%Z ->
  ((hi - lo) * Z.of_nat (enough n + 2) <= P)%Z ->
  let s0 := setMatrix n n (fun r c => Fin (f r c)) (construct n n hw) in
  (exists res,
     compute fuel s0 = Some res /\
     Permutation (map N.to_nat res) (seq 0 n) /\
     Forall (fun x => x <> NONE) res /\
     forall p, Permutation p (seq 0 n) ->
       (totalCost f (map N.to_nat res) <= totalCost f p)%Z) /\
  (forall r c, r < n -> c < n ->
     exists z, cell s0 r c = Fin z /\ (- P <= z <= P)%Z) /\
  (forall s, reached s0 s ->
     forall r c, r < n -> c < n ->
       exists z, cell s r c = Fin z /\ (0 <= z)%Z /\ (z + (hi - lo) <= P)%Z) /\
  (forall s inner s1 hz,
     reached s0 s -> forallb (fun b => b) (colCovered s) = false ->
     searchZeros inner inner s = Some (inr s1) ->
     fst (findMinUncoveredCost (rebalanceWorkers (fillColInds s1))) = Fin hz ->
     (0 <= hz <= hi - lo)%Z).
Proof.
  intros Hn Hfuel Hf Hlohi HloP HhiP HP s0.
  assert (Hfc : fresh n (construct n n hw)).
  { pose proof (construct_fresh n n hw) as H. now rewrite Nat.max_id in H. }
  assert (Hf0 : fresh n s0) by now apply setMatrix_fresh.
  assert (Hcell0 : forall r c, r < n -> c < n -> cell s0 r c = Fin (f r c)).
  { intros r c Hr Hc. unfold s0.
    rewrite (@setMatrix_cell n) by (auto; apply (fresh_shape Hfc)).
    destruct (Nat.ltb_spec r n); [|lia]. destruct (Nat.ltb_spec c n); [|lia]. reflexivity. }
  assert (Hprep : forall r c, r < n -> c < n ->
            exists z, cell (prepare s0) r c = Fin z /\ (0 <= z <= hi - lo)%Z).
  { apply prepare_bounds; [apply (fresh_shape Hf0)|].
    intros r c Hr Hc. exists (f r c). split; auto. }
  assert (Hbound : forall s, reached s0 s ->
            exists k, k <= enough n /\
              (forall r c, r < n -> c < n ->
                 exists z, cell s r c = Fin z /\
                           (0 <= z <= (hi - lo) * (Z.of_nat k + 1))%Z) /\
              (forall r c, r < n -> c < n -> star s r = NONE ->
                 exists z, cell s r c = Fin z /\ (z <= hi - lo)%Z)).
  { intros s Hr. destruct (reached_reachedIn Hr) as (k & Hk). exists k.
    split; [apply (@reachedIn_le n s0 k s Hn Hf0 Hk)|].
    apply (@reachedIn_bounds n s0 (hi - lo) Hn Hf0 ltac:(lia) Hprep k s Hk). }
  split; [|split; [|split]].
  - destruct (@compute_total n s0 fuel Hn Hf0 Hfuel) as (os & s' & Et & (HC & Hall & Hend) & Hred & _).
    exists (starredZeros s'). unfold compute. rewrite Et. split; auto.
    destruct Hend as [(order & HV)|Hun].
    2:{ exfalso. destruct (unmatched_Inf Hun) as (r & c & Hr & Hc & _ & Einf).
        apply (reduces_finite Hred Hr Hc) in Einf. rewrite Hcell0 in Einf by auto.
        discriminate. }
    destruct (@Done_permutation n s' order Hn HC HV Hall) as [Hperm Hstars].
    pose proof (sh_starredZeros (core_shape HC)) as Hlen.
    split; auto. split.
    { apply Forall_forall. intros x Hx. destruct (In_nth _ _ NONE Hx) as (r & Hr & <-).
      apply Hstars. lia. }
    intros p Hp.
    destruct Hred as (u & v & Hred).
    assert (Hcell : forall r c, r < n -> c < n ->
              cell s' r c = Fin (f r c - (u r + v c))).
    { intros r c Hr Hc. rewrite Hred, Hcell0 by auto. reflexivity. }
    set (sigma := map N.to_nat (starredZeros s')).
    assert (Hls : length sigma = n) by (unfold sigma; now rewrite length_map).
    assert (Hlp : length p = n).
    { rewrite (Permutation_length Hp). apply length_seq. }
    destruct (totalCost_bounds f u v sigma 0) as [_ Heq].
    destruct (totalCost_bounds f u v p 0) as [Hle _].
    cbn zeta in Heq, Hle. fold (totalCost f sigma) in Heq. fold (totalCost f p) in Hle.
    assert (H1 : (Zsum (map u (seq 0 (length sigma))) + Zsum (map v sigma))%Z =
                 totalCost f sigma).
    { apply Heq. intros i Hi. rewrite Hls in Hi. simpl.
      assert (Es : nth i sigma 0 = N.to_nat (star s' i)).
      { unfold sigma, star. change 0 with (N.to_nat 0%N) at 1. rewrite map_nth.
        f_equal. apply nth_indep. lia. }
      destruct (core_star HC Hi (Hstars i Hi)) as (c & Hc & Ec & Hz).
      rewrite Es, Ec, Nat2N.id. rewrite Hcell in Hz by auto. injection Hz as Hz. lia. }
    assert (H2 : (Zsum (map u (seq 0 (length p))) + Zsum (map v p) <= totalCost f p)%Z).
    { apply Hle. intros i Hi. simpl.
      assert (Hc : nth i p 0 < n).
      { assert (Hin : In (nth i p 0) (seq 0 n)).
        { apply (Permutation_in _ Hp). now apply nth_In. }
        apply in_seq in Hin. lia. }
      rewrite Hlp in Hi. pose proof (core_nonneg HC Hi Hc) as Hnn.
      rewrite Hcell in Hnn by auto. apply Tle_Fin in Hnn. lia. }
    assert (H3 : Zsum (map v sigma) = Zsum (map v p)).
    { apply Zsum_map_perm. apply Permutation_trans with (seq 0 n); auto.
      now apply Permutation_sym. }
    rewrite Hls in H1. rewrite Hlp in H2. lia.
  - intros r c Hr Hc. exists (f r c). split; auto. specialize (Hf r c Hr Hc). lia.
  - intros s Hr r c Hrn Hcn. destruct (Hbound s Hr) as (k & Hk & Hall & _).
    destruct (Hall r c Hrn Hcn) as (z & E & Hz). exists z. split; auto.
    split; [lia|]. nia.
  - intros s inner s1 hz Hr Hopen Hsearch Hmin.
    destruct (Hbound s Hr) as (k & _ & _ & Hrows).
    destruct (@reached_inv n s0 s Hn Hf0 Hr) as [HC [(order & HV)|Hcov]]; [|congruence].
    apply (@update_amount_bound n inner s order s1 hz (hi - lo) Hn HC HV Hopen Hrows
             Hsearch Hmin).
Qed.

Lemma compute_square_optimal_witness :
  let s0 := setMatrix 3 3 (fun r c => Fin (scenario r c)) (construct 3 3 2) in
  (exists res,
     compute 32 s0 = Some res /\
     Permutation (map N.to_nat res) (seq 0 3) /\
     Forall (fun x => x <> NONE) res /\
     forall p, Permutation p (seq 0 3) ->
       (totalCost scenario (map N.to_nat res) <= totalCost scenario p)%Z) /\
  (forall r c, r < 3 -> c < 3 ->
     exists z, cell s0 r c = Fin z /\ (- 9007199254740992 <= z <= 9007199254740992)%Z) /\
  (forall s, reached s0 s ->
     forall r c, r < 3 -> c < 3 ->
       exists z, cell s r c = Fin z /\ (0 <= z)%Z /\ (z + (5 - 0) <= 9007199254740992)%Z) /\
  (forall s inner s1 hz,
     reached s0 s -> forallb (fun b => b) (colCovered s) = false ->
     searchZeros inner inner s = Some (inr s1) ->
     fst (findMinUncoveredCost (rebalanceWorkers (fillColInds s1))) = Fin hz ->
     (0 <= hz <= 5 - 0)%Z).
Proof.
  apply (@compute_square_optimal 3 2 scenario 32 0 5 9007199254740992).
  - unfold fits, NONE. lia.
  - unfold enough. lia.
  - intros r c Hr Hc.
    destruct r as [|[|[|r]]]; try lia; destruct c as [|[|[|c]]]; try lia;
      vm_compute; split; discriminate.
  - lia.
  - lia.
  - lia.
  - vm_compute. discriminate.
Defined.

(** Integer costs whose differences are not all doubles: [2^53 - (-1)] is
    rounded to [2^53]. *)
Definition roundingCosts (r c : nat) : Z :=
  nth c (nth r [[0; 9007199254740992]; [-1; 9007199254740992]]%Z []) 0%Z.

(** C1 at double precision, without a bound on the costs.  The reduction of
    row [1] of [roundingCosts] rounds [2^53 + 1] to [2^53], both cells of
    the row become zero, and [compute] returns [0; 1], of total cost
    [2^53]; the other permutation costs [2^53 - 1]. *)
Lemma compute_square_rounds :
  Binary64.compute 32
    (Binary64.setMatrix 2 2 (fun r c => Binary64.ofZ (roundingCosts r c))
       (Binary64.construct 2 2 1)) = Some [0; 1]%N /\
  Permutation [1; 0] (seq 0 2) /\
  (totalCost roundingCosts [1; 0]%nat < totalCost roundingCosts (map N.to_nat [0; 1]%N))%Z.
Proof.
  split; [vm_compute; reflexivity|]. split; [apply perm_swap|]. vm_compute. reflexivity.
Qed.

(** On the small integer costs of [scenario] the run at double precision
    returns what the exact run returns. *)
Lemma binary64_scenario :
  Binary64.compute 32
    (Binary64.setMatrix 3 3 (fun r c => Binary64.ofZ (scenario r c))
       (Binary64.construct 3 3 2)) =
  compute 32 (setMatrix 3 3 (fun r c => Fin (scenario r c)) (construct 3 3 2)).
Proof. vm_compute. reflexivity. Qed.

(** ** The run of [compute] through a state at the test of its loop *)

(** A run of the loop from a state that the loop of [compute] reaches is
    the end of a run of the loop from its start. *)
Lemma reached_run (s0 s : Hungarian) :
  reached s0 s ->
  forall i f os s', assign i f s = Some (os, s') ->
  exists i' f' os0, assign i' f' (prepare s0) = Some (os0 ++ os, s').
Proof.
  intros Hr i f os s' Ha. destruct (reached_reachedIn Hr) as (k & Hk).
  destruct (@reachedIn_run s0 k s Hk i f os s' Ha) as (i' & f' & os0 & _ & E).
  eauto.
Qed.

(** The run of [compute] is the run through any state that its loop
    reaches. *)
Lemma reached_trace (n : nat) (s0 s : Hungarian) (fuel i f : nat)
  (os : list outcome) (s' : Hungarian) :
  fits n -> fresh n s0 -> enough n <= fuel ->
  reached s0 s -> assign i f s = Some (os, s') ->
  exists os0, compute_trace fuel s0 = Some (os0 ++ os, s').
Proof.
  intros Hn Hf Hfuel Hr Ha.
  destruct (@reached_run s0 s Hr i f os s' Ha) as (i' & f' & os0 & E).
  destruct (@compute_total n s0 fuel Hn Hf Hfuel) as (ost & st & Et & _).
  exists os0. rewrite Et. unfold compute_trace in Et.
  pose proof (@assign_mono i' (Nat.max i' fuel) f' (Nat.max f' fuel) _ _ E
                ltac:(lia) ltac:(lia)) as E1.
  pose proof (@assign_mono fuel (Nat.max i' fuel) fuel (Nat.max f' fuel) _ _ Et
                ltac:(lia) ltac:(lia)) as E2.
  congruence.
Qed.

(** C6.  At a state [s] that the loop of [compute] has reached with a
    column still uncovered, when the search of [iterate] ends without an
    uncovered zero and [findMinUncoveredCost] returns the fill value,
    [iterate] returns with every column covered; that call is the last one
    of the run of [compute], which returns; the sequence that [compute]
    returns is the stars of [s]: the marker for every row without a star,
    a column for every other row. *)
Theorem exhausted_ends (rows cols hw : nat) (sets : list (nat * nat * T))
  (fuel inner : nat) (s s1 : Hungarian) :
  fits (Nat.max rows cols) -> valid_calls rows cols sets ->
  enough (Nat.max rows cols) <= fuel ->
  reached (setCosts sets (construct rows cols hw)) s ->
  forallb (fun b => b) (colCovered s) = false ->
  searchZeros inner inner s = Some (inr s1) ->
  fst (findMinUncoveredCost (rebalanceWorkers (fillColInds s1))) = vFill ->
  exists s' os res,
    iterate inner s = Some (Exhausted, s') /\
    forallb (fun b => b) (colCovered s') = true /\
    compute_trace fuel (setCosts sets (construct rows cols hw)) =
      Some (os ++ [Exhausted], s') /\
    compute fuel (setCosts sets (construct rows cols hw)) = Some res /\
    length res = Nat.max rows cols /\
    forall r, r < Nat.max rows cols ->
      (star s r = NONE -> nth r res NONE = NONE) /\
      (star s r <> NONE ->
       exists c, c < Nat.max rows cols /\ nth r res NONE = N.of_nat c /\
                 star s r = N.of_nat c).
Proof.
  intros Hn _ Hfuel Hr Hopen Hsearch Hmin. set (n := Nat.max rows cols) in *.
  set (s0 := setCosts sets (construct rows cols hw)) in *.
  assert (Hf : fresh n s0) by apply setCosts_fresh, construct_fresh.
  destruct (@reached_inv n s0 s Hn Hf Hr) as [HC _].
  (* the call of iterate *)
  assert (Hit : exists s', iterate inner s = Some (Exhausted, s') /\
                  forallb (fun b => b) (colCovered s') = true /\
                  starredZeros s' = starredZeros s).
  { unfold iterate. rewrite Hsearch.
    pose proof (findMinUncoveredCost_starredZeros (rebalanceWorkers (fillColInds s1))) as Est.
    destruct (findMinUncoveredCost (rebalanceWorkers (fillColInds s1))) as [h s4].
    cbn [fst snd] in *. rewrite Hmin. unfold vFill.
    exists (set_colCovered s4 (fill true (colCovered s4))).
    split; auto. split; [apply forallb_fill_true|].
    change (starredZeros s4 = starredZeros s). rewrite Est.
    destruct (rebalanceWorkers_frame (fillColInds s1)) as (wr & ->).
    change (starredZeros s1 = starredZeros s).
    apply (searchZeros_starredZeros _ _ _ Hsearch). }
  destruct Hit as (s' & Hit & Hall & Est).
  (* the loop from [s] makes this call and ends *)
  assert (Ha : assign inner 1 s = Some ([Exhausted], s')).
  { cbn [assign]. rewrite Hopen, Hit, Hall. reflexivity. }
  destruct (@reached_trace n s0 s fuel inner 1 _ _ Hn Hf Hfuel Hr Ha) as (os & Et).
  exists s', os, (starredZeros s).
  split; auto. split; auto. split; auto.
  split; [unfold compute; rewrite Et; now rewrite Est|].
  split; [apply (sh_starredZeros (core_shape HC))|].
  intros r Hrn. split; [auto|].
  intros Hst. destruct (core_star HC Hrn Hst) as (c & Hc & Ec & _).
  exists c. auto.
Qed.

Lemma exhausted_ends_witness :
  exists s' os res,
    iterate 3 (prepare (setCosts sparseCalls (construct 3 3 2))) = Some (Exhausted, s') /\
    forallb (fun b => b) (colCovered s') = true /\
    compute_trace 32 (setCosts sparseCalls (construct 3 3 2)) =
      Some (os ++ [Exhausted], s') /\
    compute 32 (setCosts sparseCalls (construct 3 3 2)) = Some res /\
    length res = Nat.max 3 3 /\
    forall r, r < Nat.max 3 3 ->
      (star (prepare (setCosts sparseCalls (construct 3 3 2))) r = NONE ->
       nth r res NONE = NONE) /\
      (star (prepare (setCosts sparseCalls (construct 3 3 2))) r <> NONE ->
       exists c, c < Nat.max 3 3 /\ nth r res NONE = N.of_nat c /\
                 star (prepare (setCosts sparseCalls (construct 3 3 2))) r = N.of_nat c).
Proof.
  apply (@exhausted_ends 3 3 2 sparseCalls 32 3
           (prepare (setCosts sparseCalls (construct 3 3 2)))
           (prepare (setCosts sparseCalls (construct 3 3 2)))).
  - unfold fits, NONE. simpl. lia.
  - reflexivity.
  - unfold enough. simpl. lia.
  - apply reached_prepare.
  - vm_compute. reflexivity.
  - vm_compute. reflexivity.
  - vm_compute. reflexivity.
Defined.

(** ** The rectangular matrix *)

(** The state of the solver when the loop of [compute] has ended. *)
Definition finalState (fuel : nat) (s0 : Hungarian) : Hungarian :=
  match compute_trace fuel s0 with
  | Some (_, s') => s'
  | None => prepare s0
  end.

Lemma compute_finalState (fuel : nat) (s0 : Hungarian) (os : list outcome) (s' : Hungarian) :
  compute_trace fuel s0 = Some (os, s') ->
  finalState fuel s0 = s' /\ compute fuel s0 = Some (starredZeros s').
Proof. intros E. unfold finalState, compute. now rewrite E. Qed.

(** C7.  For a [rows] by [cols] matrix of finite costs with [rows <> cols],
    every entry set with [setCost], of which no cost has become the fill
    value when [compute] returns (a floating point cost can overflow to
    it), [compute] returns; every index of the shorter side is matched to an
    index of the longer side; the entry of every padding row is the marker;
    and an entry that is not the marker is a column of the matrix in a row
    of the matrix, never a padding row or column. *)
Theorem compute_rectangular (rows cols hw : nat) (f : nat -> nat -> Z) (fuel : nat) :
  rows <> cols ->
  fits (Nat.max rows cols) -> enough (Nat.max rows cols) <= fuel ->
  (forall r c, r < rows -> c < cols ->
     cell (finalState fuel
             (setMatrix rows cols (fun r c => Fin (f r c)) (construct rows cols hw))) r c
     <> vFill) ->
  exists res,
    compute fuel (setMatrix rows cols (fun r c => Fin (f r c)) (construct rows cols hw))
    = Some res /\
    length res = Nat.max rows cols /\
    (rows < cols -> forall r, r < rows ->
       exists c, c < cols /\ nth r res NONE = N.of_nat c) /\
    (cols < rows -> forall c, c < cols ->
       exists r, r < rows /\ nth r res NONE = N.of_nat c) /\
    (forall r, rows <= r -> nth r res NONE = NONE) /\
    (forall r, nth r res NONE <> NONE ->
       r < rows /\ exists c, c < cols /\ nth r res NONE = N.of_nat c).
Proof.
  intros Hne Hn Hfuel Hkept. set (n := Nat.max rows cols) in *.
  set (s0 := setMatrix rows cols (fun r c => Fin (f r c)) (construct rows cols hw)) in *.
  pose proof (construct_fresh rows cols hw) as Hfc. fold n in Hfc.
  assert (Hf0 : fresh n s0) by now apply setMatrix_fresh.
  assert (Hcell0 : forall r c, r < n -> c < n ->
            cell s0 r c = if (r <? rows) && (c <? cols) then Fin (f r c) else Inf).
  { intros r c Hr Hc. unfold s0.
    rewrite (@setMatrix_cell n) by (auto; try apply (fresh_shape Hfc); unfold n; lia).
    destruct ((r <? rows) && (c <? cols)); auto.
    unfold cell, construct. proj_simpl. fold n.
    rewrite nth_repeat_any. now destruct (_ <? _). }
  destruct (@compute_total n s0 fuel Hn Hf0 Hfuel)
    as (os & s' & Et & (HC & Hall & Hend) & Hred & _).
  destruct (compute_finalState _ _ Et) as [Efin _]. rewrite Efin in Hkept.
  exists (starredZeros s'). unfold compute. rewrite Et. split; auto.
  pose proof (sh_starredZeros (core_shape HC)) as Hlen.
  fold (star s').
  (* a star lies on a cell of the matrix *)
  assert (Hreal : forall r, r < n -> star s' r <> NONE ->
            r < rows /\ exists c, c < cols /\ star s' r = N.of_nat c).
  { intros r Hr Hst. destruct (core_star HC Hr Hst) as (c & Hc & Ec & Hz).
    assert (Hfin : cell s0 r c <> Inf).
    { intros E. apply (reduces_finite Hred Hr Hc) in E. congruence. }
    rewrite Hcell0 in Hfin by auto.
    destruct (Nat.ltb_spec r rows); destruct (Nat.ltb_spec c cols);
      simpl in Hfin; try congruence. eauto. }
  assert (Hout : forall r, n <= r -> nth r (starredZeros s') NONE = NONE).
  { intros r Hr. apply nth_overflow. lia. }
  split; [exact Hlen|]. split; [|split; [|split]].
  - intros Hlt r Hr.
    assert (Hrn : r < n) by (unfold n; lia).
    assert (Hst : star s' r <> NONE).
    { destruct Hend as [(order & HV)|Hun].
      - apply (@all_columns_starred n s' Hn HC); auto.
        intros c Hc.
        destruct (cov_col HV Hc (forallb_true_nth _ c Hall)) as (x & Hx & E & _). eauto.
      - destruct Hun as (rc & cc & Hrc & Hcc & (c & Hc & Ec) & _ & Hinf).
        apply Hrc; auto. destruct (nth r rc true) eqn:E; auto.
        exfalso. apply (Hkept r c Hr); [unfold n in Hc; lia|].
        exact (Hinf r c Hrn Hc E Ec). }
    destruct (Hreal r Hrn Hst) as (_ & c & Hc & E). eauto.
  - intros Hlt c Hc.
    assert (Hcn : c < n) by (unfold n; lia).
    assert (Hown : exists r, r < n /\ star s' r = N.of_nat c).
    { destruct Hend as [(order & HV)|Hun].
      - destruct (cov_col HV Hcn (forallb_true_nth _ c Hall)) as (x & Hx & E & _). eauto.
      - destruct Hun as (rc & cc & Hrc & Hcc & _ & (r & Hr & Er) & Hinf).
        apply Hcc; auto. destruct (nth c cc true) eqn:E; auto.
        exfalso.
        assert (Erc : nth r rc true = false).
        { destruct (nth r rc true) eqn:E'; auto. now apply Hrc in E'. }
        apply (Hkept r c); [unfold n in Hr; lia|exact Hc|].
        exact (Hinf r c Hr Hcn Erc E). }
    destruct Hown as (r & Hr & E). exists r. split; auto.
    apply (Hreal r Hr). rewrite E. apply fits_ne with n; auto.
  - intros r Hr. destruct (Nat.lt_ge_cases r n) as [Hrn|Hrn]; [|auto].
    destruct (N.eq_dec (star s' r) NONE) as [E|E]; auto.
    destruct (Hreal r Hrn E). lia.
  - intros r Hst. destruct (Nat.lt_ge_cases r n) as [Hrn|Hrn].
    + now apply Hreal.
    + now rewrite Hout in Hst.
Qed.

Lemma compute_rectangular_witness :
  exists res,
    compute 32 (setMatrix 2 3 (fun r c => Fin (scenario r c)) (construct 2 3 2)) = Some res /\
    length res = 3 /\
    (2 < 3 -> forall r, r < 2 -> exists c, c < 3 /\ nth r res NONE = N.of_nat c) /\
    (3 < 2 -> forall c, c < 3 -> exists r, r < 2 /\ nth r res NONE = N.of_nat c) /\
    (forall r, 2 <= r -> nth r res NONE = NONE) /\
    (forall r, nth r res NONE <> NONE ->
       r < 2 /\ exists c, c < 3 /\ nth r res NONE = N.of_nat c).
Proof.
  apply (@compute_rectangular 2 3 2 scenario 32).
  - lia.
  - unfold fits, NONE. simpl. lia.
  - unfold enough. simpl. lia.
  - intros r c Hr Hc.
    destruct r as [|[|r]]; [| |lia]; destruct c as [|[|[|c]]]; try lia;
      vm_compute; discriminate.
Defined.

(** Finite costs whose differences overflow: [2^1023 - (-2^1023)] is the
    fill value. *)
Definition overflowCosts (r c : nat) : Binary64.T :=
  nth c [-0x1p1023; 0x1p1023; 0x1p1023]%float Binary64.zero.

(** C7 at double precision, with costs that overflow.  Every cost of the 2
    by 3 matrix [overflowCosts] is finite, the row reduction leaves the fill
    value in columns [1] and [2] of both rows, and [compute] returns with
    row [1], a row of the shorter side, unassigned. *)
Lemma compute_rectangular_overflows :
  forallb (fun r => forallb (fun c => Binary64.Tltb (overflowCosts r c) Binary64.vFill)
                      (seq 0 3)) (seq 0 2) = true /\
  Binary64.compute 32 (Binary64.setMatrix 2 3 overflowCosts (Binary64.construct 2 3 1)) =
  Some [0%N; NONE; NONE].
Proof. split; vm_compute; reflexivity. Qed.

(** ** The member functions *)

(** X7.  [updateCosts(h)], run as in [iterate], writes [x + h] to a cell
    [x] in a covered row and a covered column, [(x + h) - h] to a cell in a
    covered row and an uncovered column, [x - h] to a cell in an uncovered
    row and an uncovered column, and does not write a cell in an uncovered
    row and a covered column; covers, stars and primes are not written. *)
Theorem updateCosts_cells (n : nat) (s1 : Hungarian) (h : Z) :
  shape n s1 ->
  let s4 := snd (findMinUncoveredCost (rebalanceWorkers (fillColInds s1))) in
  let s' := updateCosts h s4 in
  (forall r c, r < n -> c < n ->
     cell s' r c =
     match nth r (rowCovered s1) true, nth c (colCovered s1) true with
     | true, true => Tadd (cell s1 r c) h
     | true, false => Tsub (Tadd (cell s1 r c) h) h
     | false, false => Tsub (cell s1 r c) h
     | false, true => cell s1 r c
     end) /\
  rowCovered s' = rowCovered s1 /\ colCovered s' = colCovered s1 /\
  starredZeros s' = starredZeros s1 /\ primedZeros s' = primedZeros s1.
Proof.
  intros Hs. cbn zeta.
  destruct (@minimum_inv n s1 Hs) as ((ci & wr & wc & E) & Hs4 & Hp4 & Hci & Hcols & _).
  set (s4 := snd (findMinUncoveredCost (rebalanceWorkers (fillColInds s1)))) in *.
  destruct (@updateCosts_spec n h s4 Hs4 Hp4 Hci) as ((cs & zs & E') & _ & Hcell & _).
  split.
  - intros r c Hr Hc. rewrite (Hcell r c Hr Hc).
    assert (Ecell : cell s4 r c = cell s1 r c) by now rewrite E.
    assert (Erow : rowCovered s4 = rowCovered s1) by now rewrite E.
    rewrite Ecell, Erow. unfold updatedCost.
    destruct (nth c (colCovered s1) true) eqn:Ec.
    + assert (Hin : inb c (colInds s4) = false).
      { apply inb_false. intros Hin. apply Hcols in Hin. destruct Hin. congruence. }
      rewrite Hin. now destruct (nth r (rowCovered s1) true).
    + assert (Hin : inb c (colInds s4) = true).
      { apply inb_true. apply Hcols. auto. }
      rewrite Hin. now destruct (nth r (rowCovered s1) true).
  - rewrite E', E. repeat split.
Qed.

Lemma updateCosts_cells_witness :
  let s4 := snd (findMinUncoveredCost (rebalanceWorkers (fillColInds scenarioSearched))) in
  let s' := updateCosts 1 s4 in
  (forall r c, r < 3 -> c < 3 ->
     cell s' r c =
     match nth r (rowCovered scenarioSearched) true,
           nth c (colCovered scenarioSearched) true with
     | true, true => Tadd (cell scenarioSearched r c) 1
     | true, false => Tsub (Tadd (cell scenarioSearched r c) 1) 1
     | false, false => Tsub (cell scenarioSearched r c) 1
     | false, true => cell scenarioSearched r c
     end) /\
  rowCovered s' = rowCovered scenarioSearched /\
  colCovered s' = colCovered scenarioSearched /\
  starredZeros s' = starredZeros scenarioSearched /\
  primedZeros s' = primedZeros scenarioSearched.
Proof.
  apply (@updateCosts_cells 3 scenarioSearched 1).
  constructor; try reflexivity. repeat split; try reflexivity. vm_compute. lia.
Defined.

(** X8.  At the test of the loop of [compute], from the first reduction on,
    no cost is negative, and a cell that held the fill value before
    [compute] still holds it. *)
Theorem reduced_costs_invariant (rows cols hw : nat) (sets : list (nat * nat * T))
  (s : Hungarian) :
  fits (Nat.max rows cols) -> valid_calls rows cols sets ->
  reached (setCosts sets (construct rows cols hw)) s ->
  (forall r c, r < Nat.max rows cols -> c < Nat.max rows cols ->
     Tle (Fin 0) (cell s r c)) /\
  (forall r c, r < Nat.max rows cols -> c < Nat.max rows cols ->
     cell (setCosts sets (construct rows cols hw)) r c = vFill -> cell s r c = vFill).
Proof.
  intros Hn _ Hr.
  assert (Hf : fresh (Nat.max rows cols) (setCosts sets (construct rows cols hw))).
  { apply setCosts_fresh, construct_fresh. }
  destruct (@reached_settled _ _ s Hn Hf Hr) as (HC & Hred & _).
  split.
  - apply (core_nonneg HC).
  - intros r c Hrn Hcn. now apply reduces_finite with (Nat.max rows cols).
Qed.

Lemma reduced_costs_invariant_witness :
  (forall r c, r < Nat.max 3 3 -> c < Nat.max 3 3 ->
     Tle (Fin 0) (cell (prepare (setCosts sparseCalls (construct 3 3 2))) r c)) /\
  (forall r c, r < Nat.max 3 3 -> c < Nat.max 3 3 ->
     cell (setCosts sparseCalls (construct 3 3 2)) r c = vFill ->
     cell (prepare (setCosts sparseCalls (construct 3 3 2))) r c = vFill).
Proof.
  apply (@reduced_costs_invariant 3 3 2 sparseCalls
           (prepare (setCosts sparseCalls (construct 3 3 2)))).
  - unfold fits, NONE. simpl. lia.
  - reflexivity.
  - apply reached_prepare.
Defined.

(** A cell that holds the fill value holds it after the reduction. *)
Lemma prepare_fill (n : nat) (s : Hungarian) (r c : nat) :
  shape n s -> r < n -> c < n -> cell s r c = Inf -> cell (prepare s) r c = Inf.
Proof.
  intros Hs Hr Hc Einf.
  rewrite (@prepare_cell n s r c Hs).
  destruct (@reduceRows_spec n s Hs) as (EA & HlA & (u & HuA) & _ & Hlc & _).
  destruct (for_range 0 n reduceRow (s, repeat vFill n)) as [sA colMin].
  cbn [fst snd] in *.
  assert (HsA : shape n sA) by (rewrite EA; destruct Hs; shape_tac).
  assert (Hlz : length (map finiteOrZero colMin) = n) by now rewrite length_map.
  destruct (@reduceCols_spec n sA (map finiteOrZero colMin) HsA Hlz) as (EB & HlB & HcB).
  set (sB := for_range 0 n (reduceCol (map finiteOrZero colMin)) sA) in *.
  assert (HsB : shape n sB) by (rewrite EB; destruct HsA; shape_tac).
  rewrite (@shape_cell n) by auto. rewrite HcB, HuA by auto.
  rewrite (@shape_cell n) in Einf by auto. now rewrite Einf.
Qed.

(** X18.  The reduction at the start of [compute] leaves a zero in every row
    that held a finite cost before it, and in every column that holds a
    finite cost after it. *)
Theorem prepare_creates_zeros (rows cols hw : nat) (sets : list (nat * nat * T)) :
  valid_calls rows cols sets ->
  (forall r c0, r < Nat.max rows cols -> c0 < Nat.max rows cols ->
     cell (setCosts sets (construct rows cols hw)) r c0 <> vFill ->
     exists c, c < Nat.max rows cols /\
               cell (prepare (setCosts sets (construct rows cols hw))) r c = Fin 0) /\
  (forall c r0, c < Nat.max rows cols -> r0 < Nat.max rows cols ->
     cell (prepare (setCosts sets (construct rows cols hw))) r0 c <> vFill ->
     exists r, r < Nat.max rows cols /\
               cell (prepare (setCosts sets (construct rows cols hw))) r c = Fin 0).
Proof.
  intros _.
  assert (Hs : shape (Nat.max rows cols) (setCosts sets (construct rows cols hw))).
  { apply fresh_shape, setCosts_fresh, construct_fresh. }
  destruct (prepare_zeros Hs) as [Hrow Hcol]. split; [exact Hrow|].
  intros c r0 Hc Hr0 Hfin. apply (Hcol c r0 Hc Hr0).
  intros Einf. apply Hfin. now apply (@prepare_fill (Nat.max rows cols)).
Qed.

Lemma prepare_creates_zeros_witness :
  valid_calls 3 3 sparseCalls /\
  (forall r c0, r < Nat.max 3 3 -> c0 < Nat.max 3 3 ->
     cell (setCosts sparseCalls (construct 3 3 2)) r c0 <> vFill ->
     exists c, c < Nat.max 3 3 /\
               cell (prepare (setCosts sparseCalls (construct 3 3 2))) r c = Fin 0) /\
  (forall c r0, c < Nat.max 3 3 -> r0 < Nat.max 3 3 ->
     cell (prepare (setCosts sparseCalls (construct 3 3 2))) r0 c <> vFill ->
     exists r, r < Nat.max 3 3 /\
               cell (prepare (setCosts sparseCalls (construct 3 3 2))) r c = Fin 0).
Proof.
  split; [reflexivity|].
  apply (@prepare_creates_zeros 3 3 2 sparseCalls). reflexivity.
Defined.

(** X12.  The sequence that [compute] returns assigns as many rows as can
    be assigned: no choice of cells whose costs are finite when [compute]
    starts and still finite when it returns, one in a row and one in a
    column at most, has more cells than the result has entries that are not
    the marker.  (With exact costs a finite cost stays finite; a floating
    point cost can overflow to the fill value.) *)
Theorem compute_maximum_matching (rows cols hw : nat)
  (sets : list (nat * nat * T)) (fuel : nat) (m : list (nat * nat)) :
  fits (Nat.max rows cols) -> valid_calls rows cols sets ->
  enough (Nat.max rows cols) <= fuel ->
  NoDup (map fst m) -> NoDup (map snd m) ->
  (forall r c, In (r, c) m ->
     r < rows /\ c < cols /\
     cell (setCosts sets (construct rows cols hw)) r c <> vFill /\
     cell (finalState fuel (setCosts sets (construct rows cols hw))) r c <> vFill) ->
  exists res,
    compute fuel (setCosts sets (construct rows cols hw)) = Some res /\
    length m <= length (assigned res).
Proof.
  intros Hn _ Hfuel Hnf Hns Hm. set (n := Nat.max rows cols) in *.
  set (s0 := setCosts sets (construct rows cols hw)) in *.
  assert (Hf : fresh n s0) by apply setCosts_fresh, construct_fresh.
  destruct (@compute_settled n s0 fuel Hn Hf Hfuel) as (os & s' & Et & Ec & Hset & Hall).
  destruct (settled_Konig Hset Hall) as (rc & cc & HK).
  destruct Hset as (HC & Hred & _).
  destruct (compute_finalState _ _ Et) as [Efin _]. rewrite Efin in Hm.
  exists (starredZeros s'). split; auto.
  rewrite <- (@starredRows_assigned n) by apply (sh_starredZeros (core_shape HC)).
  apply (@Konig_bound n s' rc cc m); auto.
  intros r c Hin. destruct (Hm r c Hin) as (Hr & Hc & _ & Hfin).
  assert (Hrn : r < n) by (unfold n; lia). assert (Hcn : c < n) by (unfold n; lia).
  auto.
Qed.

Lemma compute_maximum_matching_witness :
  exists res,
    compute 32 (setCosts sparseCalls (construct 3 3 2)) = Some res /\
    length [(0, 1); (1, 0)] <= length (assigned res).
Proof.
  apply (@compute_maximum_matching 3 3 2 sparseCalls 32 [(0, 1); (1, 0)]).
  - unfold fits, NONE. simpl. lia.
  - reflexivity.
  - unfold enough. simpl. lia.
  - repeat constructor; simpl; intuition discriminate.
  - repeat constructor; simpl; intuition discriminate.
  - intros r c [E|[E|[]]]; injection E as <- <-;
      (split; [lia|split; [lia|split; vm_compute; discriminate]]).
Defined.

(** X19.  For a matrix of one row or of one column, all costs finite, whose
    first cost is still finite after the reduction at the start of
    [compute] (a floating point cost can overflow to the fill value there),
    [compute] assigns row [0] to column [0] and leaves every other row with
    the marker, whatever the costs are: the column reduction, which the
    padding with the fill value does not hold back, makes every cost of the
    line zero before the first star is set. *)
Theorem compute_single_line (rows cols hw : nat) (f : nat -> nat -> Z) (fuel : nat) :
  fits (Nat.max rows cols) -> 1 <= rows -> 1 <= cols -> rows = 1 \/ cols = 1 ->
  enough (Nat.max rows cols) <= fuel ->
  cell (prepare (setMatrix rows cols (fun r c => Fin (f r c)) (construct rows cols hw)))
       0 0 <> vFill ->
  compute fuel (setMatrix rows cols (fun r c => Fin (f r c)) (construct rows cols hw)) =
  Some (0%N :: repeat NONE (Nat.max rows cols - 1)).
Proof.
  intros Hn Hrows Hcols Hline Hfuel Hkept. set (n := Nat.max rows cols) in *.
  set (s0 := setMatrix rows cols (fun r c => Fin (f r c)) (construct rows cols hw)) in *.
  pose proof (construct_fresh rows cols hw) as Hfc. fold n in Hfc.
  assert (Hf0 : fresh n s0) by now apply setMatrix_fresh.
  assert (Hn0 : 0 < n) by (unfold n; lia).
  assert (Hcell0 : forall r c, r < n -> c < n ->
            cell s0 r c = if (r <? rows) && (c <? cols) then Fin (f r c) else Inf).
  { intros r c Hr Hc. unfold s0.
    rewrite (@setMatrix_cell n) by (auto; try apply (fresh_shape Hfc); unfold n; lia).
    destruct ((r <? rows) && (c <? cols)); auto.
    unfold cell, construct. proj_simpl. fold n.
    rewrite nth_repeat_any. now destruct (_ <? _). }
  assert (Hreal : forall r c, r < n -> c < n -> cell s0 r c <> Inf -> r < rows /\ c < cols).
  { intros r c Hr Hc Hfin. rewrite Hcell0 in Hfin by auto.
    destruct (Nat.ltb_spec r rows); destruct (Nat.ltb_spec c cols);
      simpl in Hfin; try congruence. auto. }
  assert (Hfin00 : cell s0 0 0 <> Inf).
  { intros Einf. apply Hkept. now apply (@prepare_fill n); auto; apply (fresh_shape Hf0). }
  destruct (@prepare_inv n s0 Hn Hf0) as (HCp & HVp & Hredp).
  (* the cell (0, 0) is zero after the reduction *)
  assert (Hzero : cell (prepare s0) 0 0 = Fin 0).
  { destruct (@prepare_zeros n s0 (fresh_shape Hf0)) as [Hrowz Hcolz].
    destruct Hline as [E1|E1].
    - destruct (Hcolz 0 0 Hn0 Hn0 Hfin00) as (r & Hr & Ez).
      assert (Hfin : cell s0 r 0 <> Inf).
      { intros Einf. apply (reduces_finite Hredp Hr Hn0) in Einf. congruence. }
      destruct (Hreal r 0 Hr Hn0 Hfin) as [Hrr _].
      replace r with 0 in Ez by lia. exact Ez.
    - destruct (Hrowz 0 0 Hn0 Hn0 Hfin00) as (c & Hc & Ez).
      assert (Hfin : cell s0 0 c <> Inf).
      { intros Einf. apply (reduces_finite Hredp Hn0 Hc) in Einf. congruence. }
      destruct (Hreal 0 c Hn0 Hc Hfin) as [_ Hcc].
      replace c with 0 in Ez by lia. exact Ez. }
  pose proof (@prepare_first_star n s0 Hf0 Hn0 Hzero) as Hstar0.
  (* a state with the star of row 0 in column 0 has no other star *)
  assert (Hone : forall t, Core n t -> reduces n s0 t -> star t 0 = 0%N ->
            forall r, r < n -> star t r <> NONE -> r = 0).
  { intros t HC Hred E0 r Hr Hst.
    destruct (core_star HC Hr Hst) as (c & Hc & Es & Hz).
    assert (Hfin : cell s0 r c <> Inf).
    { intros Einf. apply (reduces_finite Hred Hr Hc) in Einf. congruence. }
    destruct (Hreal r c Hr Hc Hfin) as [Hrr Hcc].
    destruct Hline as [E1|E1]; [lia|].
    assert (c = 0) by lia. subst c.
    apply (core_inj HC); auto. rewrite Es, E0. reflexivity. }
  assert (Hcount : forall t, Core n t -> reduces n s0 t ->
            length (starredRows n t) <= 1).
  { intros t HC Hred.
    destruct (starredRows n t) as [|x [|y l]] eqn:E; simpl; try lia. exfalso.
    pose proof (starredRows_NoDup n t) as Hnd. rewrite E in Hnd.
    assert (Hx : In x (starredRows n t)) by (rewrite E; now left).
    assert (Hy : In y (starredRows n t)) by (rewrite E; right; now left).
    apply starredRows_In in Hx, Hy. destruct Hx as [Hx Hsx], Hy as [Hy Hsy].
    destruct (core_star HC Hx Hsx) as (cx & Hcx & Ex & Hzx).
    destruct (core_star HC Hy Hsy) as (cy & Hcy & Ey & Hzy).
    assert (Hfx : cell s0 x cx <> Inf).
    { intros Einf. apply (reduces_finite Hred Hx Hcx) in Einf. congruence. }
    assert (Hfy : cell s0 y cy <> Inf).
    { intros Einf. apply (reduces_finite Hred Hy Hcy) in Einf. congruence. }
    destruct (Hreal x cx Hx Hcx Hfx) as [Hxr Hxc].
    destruct (Hreal y cy Hy Hcy Hfy) as [Hyr Hyc].
    assert (x = y).
    { destruct Hline as [E1|E1]; [lia|].
      apply (core_inj HC); auto. rewrite Ex, Ey. f_equal. lia. }
    subst y. inversion Hnd as [|? ? Hni _]. apply Hni. now left. }
  destruct (@compute_total n s0 fuel Hn Hf0 Hfuel)
    as (os & s' & Et & (HC & _) & Hred & Hlen & _).
  assert (H1 : 1 <= length (starredRows n (prepare s0))).
  { assert (Hin : In 0 (starredRows n (prepare s0))).
    { apply starredRows_In. split; auto. rewrite Hstar0. discriminate. }
    destruct (starredRows n (prepare s0)); [destruct Hin|simpl; lia]. }
  pose proof (Hcount s' HC Hred) as H2.
  assert (Haug : augmentations os = 0) by lia.
  unfold compute_trace in Et.
  pose proof (@assign_keeps_stars n fuel Hn fuel (prepare s0) [] os s' HCp HVp Et Haug) as Est.
  unfold compute, compute_trace. rewrite Et. f_equal.
  apply nth_ext_repeat; auto.
  - apply (sh_starredZeros (core_shape HC)).
  - rewrite Est. exact Hstar0.
  - intros r Hr. destruct (N.eq_dec (nth r (starredZeros s') NONE) NONE) as [E|E]; auto.
    assert (E0 : star s' 0 = 0%N) by (unfold star; rewrite Est; exact Hstar0).
    pose proof (Hone s' HC Hred E0 r ltac:(lia) E). lia.
Qed.

Lemma compute_single_line_witness :
  compute 32 (setMatrix 1 3 (fun r c => Fin (scenario r c)) (construct 1 3 2)) =
  Some (0%N :: repeat NONE (Nat.max 1 3 - 1)).
Proof.
  apply (@compute_single_line 1 3 2 scenario 32).
  - unfold fits, NONE. simpl. lia.
  - lia.
  - lia.
  - now left.
  - unfold enough. simpl. lia.
  - vm_compute. discriminate.
Defined.
